(** * Group-by aggregation operator (package aggregate)

    Shallow embedding of the streaming group-by operator: the keyed group
    table, the spill / merge path, the sorted-input early emit and the
    producer loop of the operator, followed by the properties established
    for them. *)

From Stdlib Require Import ZArith List Lia Permutation.
From stdpp Require Import base option list gmap sorting.

Local Open Scope Z_scope.

(** ** Results of fallible code

    A Go call that returns [(T, error)] yields an [outcome T]; a run-time
    panic (nil dereference, index out of range, explicit [panic]) is kept
    apart from returned errors. *)

Definition error := nat.

Inductive panic : Type :=
| PanicInternalBug      (* panic("internal bug: ...") in readTable *)
| PanicNilDeref         (* dereference of a nil pointer or call of a nil func *)
| PanicIndex            (* slice or table index out of range *)
| PanicLoopBound.       (* the bound given to an unbounded loop ran out *)

Inductive outcome (A : Type) : Type :=
| Ok (a : A)
| Err (e : error)
| Panic (p : panic).

Arguments Ok {A} a.
Arguments Err {A} e.
Arguments Panic {A} p.

(** ** Bytes and the uvarint suffix *)

Abbreviation Bytes := (list Z).

(** A [zcode.Bytes] payload; [None] is the nil slice of a null value. *)
Abbreviation zBytes := (option (list Z)).

Definition byte (x : Z) : Z := x mod 256.
Definition uint64 (x : Z) : Z := x mod 2 ^ 64.

(** [binary.AppendUvarint]: seven bits per byte, least significant group
    first, the top bit set on every byte but the last.  The loop runs at
    most nine times on a 64-bit operand, which is the fuel given here. *)
Fixpoint AppendUvarint_loop (fuel : nat) (buf : Bytes) (x : Z) : Bytes :=
  match fuel with
  | O => buf ++ [byte x]
  | S n =>
      if 128 <=? x
      then AppendUvarint_loop n (buf ++ [Z.lor (byte x) 128]) (Z.shiftr x 7)
      else buf ++ [byte x]
  end.

Definition AppendUvarint (buf : Bytes) (x : Z) : Bytes :=
  AppendUvarint_loop 9 buf x.

(** ** Values and types *)

(** A type is identified by its id in the type context. *)
Abbreviation TypeID := nat.

Record Value : Type := NewValue {
  Value_Type : TypeID;
  Value_Bytes : zBytes;
}.

Global Instance Value_eq_dec : EqDecision Value.
Proof. solve_decision. Defined.

Definition Evaluator := Value → Value.
Definition CompareFn := Value → Value → Z.

(** ** Type-vector intern table *)

(** Modelled from the spec: [super.TypeVectorTable] is not part of the
    sources at hand.  The table holds the interned sequences in order of
    first sight; the id of a sequence is its position. *)
Abbreviation TypeVectorTable := (list (list TypeID)).

Definition NewTypeVectorTable : TypeVectorTable := [].

Fixpoint TypeVectorTable_find (t : TypeVectorTable) (types : list TypeID) (k : nat)
  : option nat :=
  match t with
  | [] => None
  | typ :: t' =>
      if decide (typ = types) then Some k else TypeVectorTable_find t' types (S k)
  end.

Definition TypeVectorTable_Lookup (t : TypeVectorTable) (types : list TypeID)
  : nat * TypeVectorTable :=
  match TypeVectorTable_find t types 0 with
  | Some k => (k, t)
  | None => (length t, t ++ [types])
  end.

Definition TypeVectorTable_Types (t : TypeVectorTable) (id : nat)
  : outcome (list TypeID) :=
  match t !! id with
  | Some types => Ok types
  | None => Panic PanicIndex
  end.

(** ** Orderings used by the sorts *)

Definition cmp_le (cmp : CompareFn) : relation Value := λ x y, cmp x y <= 0.

Global Instance cmp_le_dec cmp : RelDecision (cmp_le cmp).
Proof. intros x y. unfold cmp_le. apply _. Defined.

(** A stable sort under a compare function ([slices.SortStableFunc] and the
    sort done by [MergeSort.Spill]). *)
Definition SortStable (cmp : CompareFn) (recs : list Value) : list Value :=
  merge_sort (cmp_le cmp) recs.

(** ** Spill merge-sort *)

(** Modelled from the spec: [spill.MergeSort] is not part of the sources at
    hand.  It owns the sorted runs written so far and exposes them as one
    merged iterator ordered by its comparator; [ms_pending] is what that
    iterator has left to deliver. *)
Record MergeSort : Type := mkMergeSort {
  ms_compare : CompareFn;
  ms_pending : list Value;
}.

Inductive SpillOp := OpNew | OpSpill | OpPeek | OpRead.

(** ** The uvarint encoding is injective *)

Lemma byte_lor_128 b : 0 <= b < 256 → Z.lor b 128 = b mod 128 + 128.
Proof.
  intros Hb.
  assert (forallb (λ n, Z.lor (Z.of_nat n) 128 =? Z.of_nat n mod 128 + 128)
            (seq 0 256) = true) as Hall by (vm_compute; reflexivity).
  rewrite forallb_forall in Hall.
  specialize (Hall (Z.to_nat b)). rewrite Z2Nat.id in Hall by lia.
  apply Z.eqb_eq, Hall, in_seq. lia.
Qed.

Lemma uvarint_cont_byte x : 0 <= x → Z.lor (byte x) 128 = x mod 128 + 128.
Proof.
  intros Hx. unfold byte. rewrite byte_lor_128 by (apply Z.mod_pos_bound; lia).
  f_equal. apply Z.mod_mod_divide. exists 2. lia.
Qed.

Lemma AppendUvarint_loop_app n buf x :
  AppendUvarint_loop n buf x = buf ++ AppendUvarint_loop n [] x.
Proof.
  revert buf x. induction n as [|n IH]; intros buf x; simpl; [done|].
  destruct (128 <=? x); [|done].
  rewrite (IH (buf ++ _)), (IH [_]). by rewrite <- app_assoc.
Qed.

Lemma AppendUvarint_loop_inj n x y :
  0 <= x < 2 ^ (7 * (Z.of_nat n + 1)) →
  0 <= y < 2 ^ (7 * (Z.of_nat n + 1)) →
  AppendUvarint_loop n [] x = AppendUvarint_loop n [] y → x = y.
Proof.
  revert x y. induction n as [|n IH]; intros x y Hx Hy H.
  - simpl in *. change (2 ^ (7 * (0 + 1))) with 128 in *.
    unfold byte in H. inversion H as [H'].
    rewrite !Z.mod_small in H' by lia. done.
  - simpl in H.
    assert (0 <= x / 128 < 2 ^ (7 * (Z.of_nat n + 1))
            ∧ 0 <= y / 128 < 2 ^ (7 * (Z.of_nat n + 1))) as [Hx' Hy'].
    { replace (7 * (Z.of_nat (S n) + 1)) with (7 + 7 * (Z.of_nat n + 1)) in * by lia.
      rewrite Z.pow_add_r in * by lia. change (2 ^ 7) with 128 in *.
      split; (split; [apply Z.div_pos; lia|apply Z.div_lt_upper_bound; lia]). }
    rewrite !Z.shiftr_div_pow2 in H by lia. change (2 ^ 7) with 128 in H.
    rewrite (AppendUvarint_loop_app n [_] (x / 128)) in H.
    rewrite (AppendUvarint_loop_app n [_] (y / 128)) in H.
    rewrite !uvarint_cont_byte in H by lia.
    pose proof (Z.mod_pos_bound x 128 eq_refl).
    pose proof (Z.mod_pos_bound y 128 eq_refl).
    destruct (Z.leb_spec 128 x), (Z.leb_spec 128 y).
    + simpl in H. inversion H as [[Hb Hr]].
      apply IH in Hr; [|done|done].
      rewrite (Z.div_mod x 128), (Z.div_mod y 128) by lia. lia.
    + simpl in H. unfold byte in H. inversion H as [[Hb Hr]].
      rewrite (Z.mod_small y) in Hb by lia. lia.
    + simpl in H. unfold byte in H. inversion H as [[Hb Hr]].
      rewrite (Z.mod_small x) in Hb by lia. lia.
    + unfold byte in H. inversion H as [Hb].
      rewrite !Z.mod_small in Hb by lia. done.
Qed.

(** On operands below 2^64 no continuation byte is cut off by the bound of
    nine iterations, and distinct operands get distinct suffixes. *)
Lemma AppendUvarint_inj buf x y :
  0 <= x < 2 ^ 64 → 0 <= y < 2 ^ 64 →
  AppendUvarint buf x = AppendUvarint buf y → x = y.
Proof.
  intros Hx Hy H. unfold AppendUvarint in H.
  rewrite (AppendUvarint_loop_app 9 buf x), (AppendUvarint_loop_app 9 buf y) in H.
  apply app_inv_head in H.
  apply (AppendUvarint_loop_inj 9); [| |done].
  - change (2 ^ (7 * (Z.of_nat 9 + 1))) with (2 ^ 70).
    assert (2 ^ 64 < 2 ^ 70) by (by apply Z.pow_lt_mono_r). lia.
  - change (2 ^ (7 * (Z.of_nat 9 + 1))) with (2 ^ 70).
    assert (2 ^ 64 < 2 ^ 70) by (by apply Z.pow_lt_mono_r). lia.
Qed.

Lemma AppendUvarint_loop_fuel n buf x :
  0 <= x < 2 ^ 64 → (9 <= n)%nat →
  AppendUvarint_loop n buf x = AppendUvarint_loop 9 buf x.
Proof.
  intros Hx Hn.
  assert (∀ k m b z, 0 <= z < 2 ^ (7 * (Z.of_nat k + 1)) → (k <= m)%nat →
            AppendUvarint_loop m b z = AppendUvarint_loop k b z) as Hgen.
  { induction k as [|k IH]; intros m b z Hz Hm.
    - change (2 ^ (7 * (0 + 1))) with 128 in Hz.
      destruct m; simpl; [done|].
      destruct (Z.leb_spec 128 z); [lia|done].
    - destruct m as [|m]; [lia|]. simpl.
      destruct (128 <=? z); [|done]. apply IH; [|lia].
      rewrite Z.shiftr_div_pow2 by lia. change (2 ^ 7) with 128.
      replace (7 * (Z.of_nat (S k) + 1)) with (7 + 7 * (Z.of_nat k + 1)) in Hz by lia.
      rewrite Z.pow_add_r in Hz by lia. change (2 ^ 7) with 128 in Hz.
      split; [apply Z.div_pos; lia|apply Z.div_lt_upper_bound; lia]. }
  apply Hgen; [|done].
  change (2 ^ (7 * (Z.of_nat 9 + 1))) with (2 ^ 70).
  assert (2 ^ 64 < 2 ^ 70) by (by apply Z.pow_lt_mono_r). lia.
Qed.

Section Aggregate.

(** ** Collaborators outside the package *)

Variable AggState : Type.

(** Modelled from the spec: an aggregate function with the operations
    [apply], [consume_partial], [result] and [result_partial]
    ([expr.Aggregator] and [agg.Function] are not in the sources). *)
Record AggFunc : Type := mkAggFunc {
  agg_new : AggState;
  agg_Apply : Value → AggState → AggState;
  agg_ConsumeAsPartial : Value → AggState → AggState;
  agg_Result : AggState → Value;
  agg_ResultAsPartial : AggState → Value;
}.

Variable Value_IsQuiet : Value → bool.
Variable Value_IsError : Value → bool.

(** Go's zero [super.Value], the initial content of [var prim super.Value]. *)
Variable zeroValue : Value.

(** [zcode.Append] and the iterator's [Next]. *)
Variable zcode_Append : Bytes → zBytes → Bytes.
Variable zcode_Next : Bytes → zBytes * Bytes.

(** The record builder: [Encode] over the appended fields, [Type] over
    their types. *)
Variable RecordBuilder_Encode : list zBytes → outcome Bytes.
Variable RecordBuilder_Type : list TypeID → TypeID.

(** [expr.NewValueCompareFn(o, o.NullsMax(true))] and
    [expr.NewComparator(sortExprs...).WithMissingAsNull().Compare], where a
    sort expression pairs an evaluator with the order [o]. *)
Variable expr_NewValueCompareFn : bool → CompareFn.
Variable expr_NewComparator : list (Evaluator * bool) → CompareFn.

(** Storage faults: whether the given spill operation fails on the given
    pending content. *)
Variable spill_fault : SpillOp → list Value → option error.

(** [op.BatchLen]. *)
Variable BatchLen : nat.

(** ** MergeSort operations *)

Definition spill_NewMergeSort (cmp : CompareFn) : outcome MergeSort :=
  match spill_fault OpNew [] with
  | Some e => Err e
  | None => Ok (mkMergeSort cmp [])
  end.

(** [Spill] sorts [recs] in place and adds them as a run; the sorted slice
    is returned along with the new state because the caller reads it
    afterwards. *)
Definition MergeSort_Spill (m : MergeSort) (recs : list Value)
  : outcome (MergeSort * list Value) :=
  match spill_fault OpSpill (ms_pending m) with
  | Some e => Err e
  | None =>
      let sorted := SortStable (ms_compare m) recs in
      Ok (mkMergeSort (ms_compare m)
            (list_merge (cmp_le (ms_compare m)) (ms_pending m) sorted),
          sorted)
  end.

Definition MergeSort_Peek (m : MergeSort) : outcome (option Value) :=
  match spill_fault OpPeek (ms_pending m) with
  | Some e => Err e
  | None => Ok (head (ms_pending m))
  end.

Definition MergeSort_Read (m : MergeSort) : outcome (option Value * MergeSort) :=
  match spill_fault OpRead (ms_pending m) with
  | Some e => Err e
  | None => Ok (head (ms_pending m), mkMergeSort (ms_compare m) (tail (ms_pending m)))
  end.

(** ** The aggregator *)

Abbreviation valRow := (list AggState).

Record Row : Type := mkRow {
  keyType : nat;
  groupval : Value;
  reducers : valRow;
}.

(** The order in which a [for ... range] statement visits the entries of
    the group table. *)
Variable map_range : list (Bytes * Row) → list (Bytes * Row).

(** The fields of [Aggregator] that carry data.  The context handles and
    the scratch buffers [typeCache] and [keyCache] hold nothing between
    calls; the builder is reset before every use and is represented by the
    list of fields appended to it. *)
Record Aggregator : Type := mkAggregator {
  keyTypes : TypeVectorTable;
  outTypes : TypeVectorTable;
  keyRefs : list Evaluator;
  keyExprs : list Evaluator;
  aggRefs : list Evaluator;
  aggs : list AggFunc;
  recordTypes : gmap nat TypeID;
  table : gmap Bytes Row;
  limit : Z;
  valueCompare : option CompareFn;
  keyCompare : option CompareFn;
  keysComparator : CompareFn;
  maxTableKey : option Value;
  maxSpillKey : option Value;
  inputDir : Z;
  spiller : option MergeSort;
  partialsIn : bool;
  partialsOut : bool;
}.

Definition set_keyTypes (a : Aggregator) (v : TypeVectorTable) : Aggregator :=
  mkAggregator v (outTypes a) (keyRefs a) (keyExprs a) (aggRefs a) (aggs a)
    (recordTypes a) (table a) (limit a) (valueCompare a) (keyCompare a)
    (keysComparator a) (maxTableKey a) (maxSpillKey a) (inputDir a) (spiller a)
    (partialsIn a) (partialsOut a).

Definition set_outTypes (a : Aggregator) (v : TypeVectorTable) : Aggregator :=
  mkAggregator (keyTypes a) v (keyRefs a) (keyExprs a) (aggRefs a) (aggs a)
    (recordTypes a) (table a) (limit a) (valueCompare a) (keyCompare a)
    (keysComparator a) (maxTableKey a) (maxSpillKey a) (inputDir a) (spiller a)
    (partialsIn a) (partialsOut a).

Definition set_recordTypes (a : Aggregator) (v : gmap nat TypeID) : Aggregator :=
  mkAggregator (keyTypes a) (outTypes a) (keyRefs a) (keyExprs a) (aggRefs a) (aggs a)
    v (table a) (limit a) (valueCompare a) (keyCompare a)
    (keysComparator a) (maxTableKey a) (maxSpillKey a) (inputDir a) (spiller a)
    (partialsIn a) (partialsOut a).

Definition set_table (a : Aggregator) (v : gmap Bytes Row) : Aggregator :=
  mkAggregator (keyTypes a) (outTypes a) (keyRefs a) (keyExprs a) (aggRefs a) (aggs a)
    (recordTypes a) v (limit a) (valueCompare a) (keyCompare a)
    (keysComparator a) (maxTableKey a) (maxSpillKey a) (inputDir a) (spiller a)
    (partialsIn a) (partialsOut a).

Definition set_maxTableKey (a : Aggregator) (v : option Value) : Aggregator :=
  mkAggregator (keyTypes a) (outTypes a) (keyRefs a) (keyExprs a) (aggRefs a) (aggs a)
    (recordTypes a) (table a) (limit a) (valueCompare a) (keyCompare a)
    (keysComparator a) v (maxSpillKey a) (inputDir a) (spiller a)
    (partialsIn a) (partialsOut a).

Definition set_maxSpillKey (a : Aggregator) (v : option Value) : Aggregator :=
  mkAggregator (keyTypes a) (outTypes a) (keyRefs a) (keyExprs a) (aggRefs a) (aggs a)
    (recordTypes a) (table a) (limit a) (valueCompare a) (keyCompare a)
    (keysComparator a) (maxTableKey a) v (inputDir a) (spiller a)
    (partialsIn a) (partialsOut a).

Definition set_spiller (a : Aggregator) (v : option MergeSort) : Aggregator :=
  mkAggregator (keyTypes a) (outTypes a) (keyRefs a) (keyExprs a) (aggRefs a) (aggs a)
    (recordTypes a) (table a) (limit a) (valueCompare a) (keyCompare a)
    (keysComparator a) (maxTableKey a) (maxSpillKey a) (inputDir a) v
    (partialsIn a) (partialsOut a).

Definition DefaultLimit : Z := 1000000.

Definition NewAggregator (keyRefs keyExprs aggRefs : list Evaluator)
    (aggs : list AggFunc) (limit : Z) (inputDir : Z)
    (partialsIn partialsOut : bool) : outcome Aggregator :=
  let limit := if limit =? 0 then DefaultLimit else limit in
  let nkeys := length keyExprs in
  let o := inputDir <? 0 in
  let make (keyCompare valueCompare : option CompareFn) :=
    {| keyTypes := NewTypeVectorTable;
       outTypes := NewTypeVectorTable;
       keyRefs := keyRefs;
       keyExprs := keyExprs;
       aggRefs := aggRefs;
       aggs := aggs;
       recordTypes := ∅;
       table := ∅;
       limit := limit;
       valueCompare := valueCompare;
       keyCompare := keyCompare;
       keysComparator := expr_NewComparator (map (λ e, (e, o)) keyRefs);
       maxTableKey := None;
       maxSpillKey := None;
       inputDir := inputDir;
       spiller := None;
       partialsIn := partialsIn;
       partialsOut := partialsOut |} in
  if (0 <? nkeys)%nat && negb (inputDir =? 0) then
    match keyRefs with
    | [] => Panic PanicIndex
    | keyRef0 :: _ =>
        Ok (make (Some (expr_NewComparator [(keyRef0, o)]))
                 (Some (expr_NewValueCompareFn o)))
    end
  else Ok (make None None).


(** ** Computations on the aggregator

    Methods with a pointer receiver mutate the aggregator and may fail; the
    state reached is kept also when they fail, since the operator inspects
    it during cleanup. *)

Definition M (A : Type) : Type := Aggregator → Aggregator * outcome A.

Definition ret {A} (x : A) : M A := λ a, (a, Ok x).

Definition bind {A B} (m : M A) (f : A → M B) : M B := λ a,
  match m a with
  | (a', Ok x) => f x a'
  | (a', Err e) => (a', Err e)
  | (a', Panic p) => (a', Panic p)
  end.

Definition lift {A} (r : outcome A) : M A := λ a, (a, r).
Definition get {A} (f : Aggregator → A) : M A := λ a, (a, Ok (f a)).
Definition modify (f : Aggregator → Aggregator) : M unit := λ a, (f a, Ok tt).
Definition throw {A} (p : panic) : M A := λ a, (a, Panic p).

Notation "x <- m ;; k" := (bind m (λ x, k))
  (at level 100, m at next level, right associativity,
   format "'[v' x  <-  m ;;  '/' k ']'").
Notation "m ;;; k" := (bind m (λ _, k))
  (at level 100, right associativity).

(** Dereference of a pointer field. *)
Definition deref {A} (f : Aggregator → option A) : M A := λ a,
  match f a with
  | Some x => (a, Ok x)
  | None => (a, Panic PanicNilDeref)
  end.

(** *** Rows of aggregate functions *)

(** Modelled from the spec: [valRow] ([newValRow], [apply],
    [consumeAsPartial]) is not part of the sources at hand.  A row holds one
    function state per configured aggregator; [apply] hands the input
    record to every aggregator, [consumeAsPartial] hands each aggregator
    the partial selected by its reference. *)
Definition newValRow (aggs : list AggFunc) : valRow := map agg_new aggs.

Fixpoint valRow_apply (aggs : list AggFunc) (row : valRow) (this : Value) : valRow :=
  match aggs, row with
  | f :: aggs', s :: row' => agg_Apply f this s :: valRow_apply aggs' row' this
  | _, _ => row
  end.

Fixpoint valRow_consumeAsPartial (aggs : list AggFunc) (row : valRow)
    (rec : Value) (exprs : list Evaluator) : valRow :=
  match aggs, row, exprs with
  | f :: aggs', s :: row', e :: exprs' =>
      agg_ConsumeAsPartial f (e rec) s :: valRow_consumeAsPartial aggs' row' rec exprs'
  | _, _, _ => row
  end.

(** The values a row contributes to an output record:
    [f.ResultAsPartial] or [f.Result] for each function of the row. *)
Fixpoint valRow_results (partialsOut : bool) (aggs : list AggFunc) (row : valRow)
  : list Value :=
  match aggs, row with
  | f :: aggs', s :: row' =>
      (if partialsOut then agg_ResultAsPartial f s else agg_Result f s)
        :: valRow_results partialsOut aggs' row'
  | _, _ => []
  end.

(** *** Max keys of the sorted-input protocol *)

Definition updateMaxTableKey (val : Value) : M Value := λ a,
  match maxTableKey a with
  | None => (set_maxTableKey a (Some val), Ok val)
  | Some mtk =>
      match valueCompare a with
      | None => (a, Panic PanicNilDeref)
      | Some cmp =>
          if 0 <? cmp val mtk
          then (set_maxTableKey a (Some val), Ok val)
          else (a, Ok mtk)
      end
  end.

Definition updateMaxSpillKey (v : Value) : M unit := λ a,
  match maxSpillKey a with
  | None => (set_maxSpillKey a (Some v), Ok tt)
  | Some msk =>
      match valueCompare a with
      | None => (a, Panic PanicNilDeref)
      | Some cmp =>
          if 0 <? cmp v msk
          then (set_maxSpillKey a (Some v), Ok tt)
          else (a, Ok tt)
      end
  end.

(** *** Output records *)

Definition lookupRecordType (types : list TypeID) : M TypeID := λ a,
  let '(id, ot) := TypeVectorTable_Lookup (outTypes a) types in
  let a := set_outTypes a ot in
  match recordTypes a !! id with
  | Some typ => (a, Ok typ)
  | None =>
      let typ := RecordBuilder_Type types in
      (set_recordTypes a (<[id := typ]> (recordTypes a)), Ok typ)
  end.

(** The tail shared by [readTable] and [nextResultFromSpills]: intern the
    record type of the appended fields, encode them, make the value. *)
Definition buildRecord (fields : list zBytes) (types : list TypeID) : M Value :=
  typ <- lookupRecordType types ;;
  bytes <- lift (RecordBuilder_Encode fields) ;;
  ret (NewValue typ (Some bytes)).

(** The key fields of a table key, read back with the iterator, one per
    type of the row's key type vector. *)
Fixpoint key_fields (types : list TypeID) (it : Bytes) : list zBytes :=
  match types with
  | [] => []
  | _ :: types' =>
      let '(flatVal, it') := zcode_Next it in
      flatVal :: key_fields types' it'
  end.

(** *** readTable *)

(** One pass of the loop body of [readTable]; [None] stands for
    [continue]. *)
Definition readTable_entry (flush partialsOut : bool) (key : Bytes) (row : Row)
  : M (option Value) :=
  skip <- (if flush then ret false
           else
             vc <- get valueCompare ;;
             match vc with
             | None => throw PanicInternalBug
             | Some cmp =>
                 mtk <- deref maxTableKey ;;
                 ret (0 <=? cmp (groupval row) mtk)
             end) ;;
  if (skip : bool) then ret None
  else
    kt <- get keyTypes ;;
    keytypes <- lift (TypeVectorTable_Types kt (keyType row)) ;;
    acc <- get aggs ;;
    let vals := valRow_results partialsOut acc (reducers row) in
    rec <- buildRecord (key_fields keytypes key ++ map Value_Bytes vals)
                       (keytypes ++ map Value_Type vals) ;;
    modify (λ a, set_table a (delete key (table a))) ;;;
    ret (Some rec).

Fixpoint readTable_loop (flush partialsOut : bool) (entries : list (Bytes * Row))
    (recs : list Value) : M (list Value) :=
  match entries with
  | [] => ret recs
  | (key, row) :: entries' =>
      r <- readTable_entry flush partialsOut key row ;;
      readTable_loop flush partialsOut entries'
        (match r with Some rec => recs ++ [rec] | None => recs end)
  end.

(** A batch is its list of values; [None] is the nil batch. *)
Definition batch_of (recs : list Value) : option (list Value) :=
  match recs with
  | [] => None
  | _ => Some recs
  end.

Definition readTable (flush partialsOut : bool) : M (option (list Value)) :=
  t <- get table ;;
  recs <- readTable_loop flush partialsOut (map_range (map_to_list t)) [] ;;
  ret (batch_of recs).

(** *** Spilling *)

Definition spillTable (eof : bool) : M unit :=
  batch <- readTable true true ;;
  match batch with
  | None => ret tt
  | Some recs =>
      sp <- get spiller ;;
      m <- (match sp with
            | Some m => ret m
            | None =>
                cmp <- get keysComparator ;;
                m <- lift (spill_NewMergeSort cmp) ;;
                modify (λ a, set_spiller a (Some m)) ;;;
                ret m
            end) ;;
      r <- lift (MergeSort_Spill m recs) ;;
      modify (λ a, set_spiller a (Some r.1)) ;;;
      let recs := r.2 in
      dir <- get inputDir ;;
      if negb eof && negb (dir =? 0) then
        kes <- get keyExprs ;;
        match kes, last recs with
        | keyExpr0 :: _, Some rec =>
            let val := keyExpr0 rec in
            if Value_IsError val then ret tt else updateMaxSpillKey val
        | _, _ => throw PanicIndex
        end
      else ret tt
  end.

(** *** Consume *)

Inductive keyLoop : Type :=
| Quiet
| Keyed (types : list TypeID) (keyBytes : Bytes) (prim : Value).

(** The loop over the key expressions; [i] is the loop index. *)
Fixpoint Consume_keys (i : nat) (keyExprs : list Evaluator) (this : Value)
    (types : list TypeID) (keyBytes : Bytes) (prim : Value) : M keyLoop :=
  match keyExprs with
  | [] => ret (Keyed types keyBytes prim)
  | keyExpr :: keyExprs' =>
      let key := keyExpr this in
      if Value_IsQuiet key then ret Quiet
      else
        dir <- get inputDir ;;
        prim <- (if (i =? 0)%nat && negb (dir =? 0)
                 then updateMaxTableKey key else ret prim) ;;
        Consume_keys (S i) keyExprs' this (types ++ [Value_Type key])
          (zcode_Append keyBytes (Value_Bytes key)) prim
  end.

(** The update of the row's functions at the end of [Consume]. *)
Definition Consume_row (a : Aggregator) (row : Row) (this : Value) : Row :=
  mkRow (keyType row) (groupval row)
    (if partialsIn a
     then valRow_consumeAsPartial (aggs a) (reducers row) this (aggRefs a)
     else valRow_apply (aggs a) (reducers row) this).

Definition Consume (this : Value) : M unit :=
  kes <- get keyExprs ;;
  r <- Consume_keys 0 kes this [] [] zeroValue ;;
  match r with
  | Quiet => ret tt
  | Keyed types keyBytes prim =>
      kt <- get keyTypes ;;
      let '(keyType, kt') := TypeVectorTable_Lookup kt types in
      modify (λ a, set_keyTypes a kt') ;;;
      let keyBytes := AppendUvarint keyBytes (uint64 (Z.of_nat keyType)) in
      t <- get table ;;
      row <- (match t !! keyBytes with
              | Some row => ret row
              | None =>
                  lim <- get limit ;;
                  (if lim <=? Z.of_nat (size t) then spillTable false else ret tt) ;;;
                  acc <- get aggs ;;
                  ret (mkRow keyType prim (newValRow acc))
              end) ;;
      modify (λ a, set_table a (<[keyBytes := Consume_row a row this]> (table a)))
  end.

(** *** Reading results *)

(** The merge loop of [nextResultFromSpills]: gather the records at the
    head of the merged stream that compare equal to the first one. *)
Definition spiller_Peek : M (option Value) :=
  m <- deref spiller ;; lift (MergeSort_Peek m).

Definition spiller_Read : M (option Value) :=
  m <- deref spiller ;;
  r <- lift (MergeSort_Read m) ;;
  modify (λ a, set_spiller a (Some r.2)) ;;;
  ret r.1.

Fixpoint nextResultFromSpills_loop (fuel : nat) (firstRec : option Value)
    (row : valRow) : M (option Value * valRow) :=
  match fuel with
  | O => throw PanicLoopBound
  | S fuel' =>
      rec <- spiller_Peek ;;
      match rec with
      | None => ret (firstRec, row)
      | Some rec =>
          cmp <- get keysComparator ;;
          match firstRec with
          | Some first =>
              if negb (cmp first rec =? 0) then ret (firstRec, row)
              else
                acc <- get aggs ;;
                refs <- get aggRefs ;;
                let row := valRow_consumeAsPartial acc row rec refs in
                spiller_Read ;;;
                nextResultFromSpills_loop fuel' firstRec row
          | None =>
              acc <- get aggs ;;
              refs <- get aggRefs ;;
              let row := valRow_consumeAsPartial acc row rec refs in
              spiller_Read ;;;
              nextResultFromSpills_loop fuel' (Some rec) row
          end
      end
  end.

Definition nextResultFromSpills : M (option Value) :=
  acc <- get aggs ;;
  m <- deref spiller ;;
  r <- nextResultFromSpills_loop (S (length (ms_pending m))) None (newValRow acc) ;;
  match r.1 with
  | None => ret None
  | Some firstRec =>
      refs <- get keyRefs ;;
      po <- get partialsOut ;;
      let keyVals := map (λ e : Evaluator, e firstRec) refs in
      let vals := valRow_results po acc r.2 in
      rec <- buildRecord (map Value_Bytes keyVals ++ map Value_Bytes vals)
                         (map Value_Type keyVals ++ map Value_Type vals) ;;
      ret (Some rec)
  end.

(** The loop of [readSpills]; [n] is [op.BatchLen - len(recs)]. *)
Fixpoint readSpills_loop (n : nat) (eof : bool) (recs : list Value)
  : M (list Value) :=
  match n with
  | O => ret recs
  | S n' =>
      dir <- get inputDir ;;
      stop <- (if negb eof && negb (dir =? 0) then
                 rec <- spiller_Peek ;;
                 match rec with
                 | None => ret true
                 | Some rec =>
                     kes <- get keyExprs ;;
                     match kes with
                     | [] => throw PanicIndex
                     | keyExpr0 :: _ =>
                         let keyVal := keyExpr0 rec in
                         if Value_IsError keyVal then ret false
                         else
                           vc <- deref valueCompare ;;
                           msk <- deref maxSpillKey ;;
                           ret (0 <=? vc keyVal msk)
                     end
                 end
               else ret false) ;;
      if (stop : bool) then ret recs
      else
        rec <- nextResultFromSpills ;;
        match rec with
        | None => ret recs
        | Some rec => readSpills_loop n' eof (recs ++ [rec])
        end
  end.

Definition readSpills (eof : bool) : M (option (list Value)) :=
  dir <- get inputDir ;;
  if negb eof && (dir =? 0) then ret None
  else
    recs <- readSpills_loop BatchLen eof [] ;;
    ret (batch_of recs).

Definition nextResult (eof : bool) : M (option (list Value)) :=
  sp <- get spiller ;;
  match sp with
  | None => po <- get partialsOut ;; readTable eof po
  | Some _ =>
      (if eof then spillTable true else ret tt) ;;;
      readSpills eof
  end.

(** ** The operator

    The producer [run] talks to its environment at three places: it pulls
    from its parent, it offers a result in a [select] against the done
    signal and the context, and it pulls the parent with [done] after a
    cancellation.  What the environment answers is given by two scripts;
    where a script ends the producer is blocked.  The batch reference held
    in [o.batch] only serves reference counting and is left out. *)

Inductive PullResult : Type :=
| PullBatch (vals : list Value)
| PullEOS
| PullErr (e : error).

(** The branch taken by the [select] of [sendResult]. *)
Inductive Select : Type :=
| SelSend                                       (* the result was received *)
| SelDone (pullErr : option error) (sent : bool)
    (* done was signalled; [parent.Pull(true)] returned [pullErr]; [sent]
       tells whether the inner select delivered the error or saw the
       context end *)
| SelCtxDone.                                   (* the context ended *)

Inductive Event : Type :=
| EvResult (b : option (list Value)) (err : option error)
| EvResetterReset
| EvSpillCreated
| EvSpillCleanup
| EvParentPullDone
| EvCloseResultCh
| EvWaitGroupDone.

Record Op : Type := mkOp {
  agg : Aggregator;
  trace : list Event;
}.

Definition log (o : Op) (ev : list Event) : Op := mkOp (agg o) (trace o ++ ev).

(** A call of an aggregator method; the creation of the merge-sort handle
    is recorded in the trace. *)
Definition Op_call {A} (m : M A) (o : Op) : Op * outcome A :=
  let '(a', r) := m (agg o) in
  (mkOp a' (trace o ++
            match spiller (agg o), spiller a' with
            | None, Some _ => [EvSpillCreated]
            | _, _ => []
            end), r).

Definition reset (o : Op) : Op :=
  let o := match spiller (agg o) with
           | Some _ => mkOp (set_spiller (agg o) None) (trace o ++ [EvSpillCleanup])
           | None => o
           end in
  mkOp (set_table (agg o) ∅) (trace o ++ [EvResetterReset]).

(** [sendResult]; [None] as the select branch means that no branch ever
    becomes ready, in which case there is no return value. *)
Definition sendResult (s : option Select) (o : Op) (b : option (list Value))
    (err : option error) : Op * option (bool * bool) :=
  let o := match b with None => log o [EvResetterReset] | Some _ => o end in
  match s with
  | None => (o, None)
  | Some SelSend => (log o [EvResult b err], Some (false, true))
  | Some (SelDone pullErr sent) =>
      let o := log (reset o) [EvParentPullDone] in
      let err := match err with Some e => Some e | None => pullErr end in
      match err with
      | Some e =>
          if sent then (log o [EvResult None (Some e)], Some (true, false))
          else (o, Some (false, false))
      | None => (o, Some (true, true))
      end
  | Some SelCtxDone => (o, Some (false, false))
  end.

(** How a loop of [run] ends. *)
Inductive Flow : Type :=
| Continue            (* the loop is left, [run] goes on *)
| Return              (* [run] returns *)
| Block               (* blocked on the environment *)
| Crash (p : panic).

(** The closure [sendResults] of [run]. *)
Fixpoint sendResults (sels : list Select) (o : Op) : Op * list Select * Flow :=
  let '(o, r) := Op_call (nextResult true) o in
  match r with
  | Panic p => (o, sels, Crash p)
  | _ =>
      let b := match r with Ok b => b | _ => None end in
      let err := match r with Err e => Some e | _ => None end in
      match sels with
      | [] => ((sendResult None o b err).1, [], Block)
      | s :: sels' =>
          match sendResult (Some s) o b err with
          | (o, None) => (o, sels', Block)
          | (o, Some (done, ok)) =>
              if negb ok then (o, sels', Return)
              else if match b with None => true | Some _ => done end
                   then (o, sels', Continue)
                   else sendResults sels' o
          end
      end
  end.

(** [slices.SortStableFunc(res.Values(), o.agg.keyCompare)]. *)
Definition sortBatch (keyCompare : option CompareFn) (res : list Value)
  : outcome (list Value) :=
  match keyCompare with
  | Some cmp => Ok (SortStable cmp res)
  | None => if (length res <? 2)%nat then Ok res else Panic PanicNilDeref
  end.

(** The loop of [run] that emits completed keys on sorted input. *)
Fixpoint emitCompleted (sels : list Select) (o : Op) : Op * list Select * Flow :=
  let '(o, r) := Op_call (nextResult false) o in
  match r with
  | Panic p => (o, sels, Crash p)
  | Err e =>
      match sendResult (head sels) o None (Some e) with
      | (o, None) => (o, tail sels, Block)
      | (o, Some (_, ok)) => (o, tail sels, if ok then Continue else Return)
      end
  | Ok None => (o, sels, Continue)
  | Ok (Some res) =>
      match sortBatch (keyCompare (agg o)) res with
      | Panic p => (o, sels, Crash p)
      | Err e => (o, sels, Crash PanicInternalBug)
      | Ok res =>
          match sels with
          | [] => ((sendResult None o (Some res) None).1, [], Block)
          | s :: sels' =>
              match sendResult (Some s) o (Some res) None with
              | (o, None) => (o, sels', Block)
              | (o, Some (done, ok)) =>
                  if negb ok then (o, sels', Return)
                  else if done then (o, sels', Continue)
                  else emitCompleted sels' o
              end
          end
      end
  end.

(** The loop over the values of an input batch. *)
Fixpoint Consume_all (vals : list Value) : M unit :=
  match vals with
  | [] => ret tt
  | v :: vals' => Consume v ;;; Consume_all vals'
  end.

Inductive Status : Type :=
| Blocked             (* waiting for the environment *)
| Returned            (* [run] has returned *)
| Crashed (p : panic).

Definition status_of (f : Flow) : Status :=
  match f with
  | Crash p => Crashed p
  | Block => Blocked
  | _ => Returned
  end.

Fixpoint run_loop (pulls : list PullResult) (sels : list Select) (o : Op)
  : Op * Status :=
  match pulls with
  | [] => (o, Blocked)
  | PullErr e :: pulls' =>
      match sendResult (head sels) o None (Some e) with
      | (o, None) => (o, Blocked)
      | (o, Some (_, ok)) =>
          if ok then run_loop pulls' (tail sels) o else (o, Returned)
      end
  | PullEOS :: pulls' =>
      match sendResults sels o with
      | (o, sels, Continue) => run_loop pulls' sels o
      | (o, _, f) => (o, status_of f)
      end
  | PullBatch vals :: pulls' =>
      match Op_call (Consume_all vals) o with
      | (o, Panic p) => (o, Crashed p)
      | (o, Err e) =>
          match sendResult (head sels) o None (Some e) with
          | (o, None) => (o, Blocked)
          | (o, Some _) => (o, Returned)
          end
      | (o, Ok _) =>
          if inputDir (agg o) =? 0 then run_loop pulls' sels o
          else
            match emitCompleted sels o with
            | (o, sels, Continue) => run_loop pulls' sels o
            | (o, _, f) => (o, status_of f)
            end
      end
  end.

(** The deferred functions of [run], in the order in which they execute:
    the one registered last closes the result channel, the one registered
    first cleans up the spiller and releases the wait group. *)
Definition run_deferred (o : Op) : Op :=
  let o := log o [EvCloseResultCh] in
  let o := match spiller (agg o) with
           | Some _ => log o [EvSpillCleanup]
           | None => o
           end in
  log o [EvWaitGroupDone].

Definition run (pulls : list PullResult) (sels : list Select) (o : Op)
  : Op * Status :=
  match run_loop pulls sels o with
  | (o, Blocked) => (o, Blocked)
  | (o, st) => (run_deferred o, st)
  end.

(** The batches received downstream. *)
Definition delivered (tr : list Event) : list (list Value) :=
  omap (λ ev, match ev with EvResult (Some b) _ => Some b | _ => None end) tr.

(** * Properties *)

(** ** Setters and the fields they leave alone *)

Lemma set_maxTableKey_id a : set_maxTableKey a (maxTableKey a) = a.
Proof. by destruct a. Qed.

Lemma set_table_id a : set_table a (table a) = a.
Proof. by destruct a. Qed.

(** In sorted-input mode the value comparator is present: [NewAggregator]
    sets it whenever there is a key and a direction, and nothing changes it
    afterwards. *)
Definition sorted_config_ok (a : Aggregator) : Prop :=
  inputDir a ≠ 0 → keyExprs a ≠ [] → is_Some (valueCompare a).

Lemma NewAggregator_config_ok keyRefs keyExprs aggRefs aggs limit inputDir pin pout a :
  NewAggregator keyRefs keyExprs aggRefs aggs limit inputDir pin pout = Ok a →
  sorted_config_ok a.
Proof.
  unfold NewAggregator. intros H Hdir Hkeys.
  destruct ((0 <? length keyExprs)%nat && negb (inputDir =? 0)) eqn:Hc.
  - destruct keyRefs; [done|]. inversion H; subst; simpl. by eauto.
  - inversion H; subst; simpl in *.
    apply andb_false_iff in Hc as [Hc|Hc].
    + apply Nat.ltb_ge in Hc. destruct keyExprs; [done|simpl in Hc; lia].
    + apply negb_false_iff, Z.eqb_eq in Hc. done.
Qed.

Lemma updateMaxTableKey_ok a val :
  is_Some (valueCompare a) →
  ∃ mtk prim, updateMaxTableKey val a = (set_maxTableKey a mtk, Ok prim).
Proof.
  intros Hwf. unfold updateMaxTableKey.
  destruct (maxTableKey a) as [mtk|] eqn:Hm; [|by eauto].
  destruct Hwf as [cmp ->].
  destruct (0 <? cmp val mtk); [by eauto|].
  exists (Some mtk), mtk. by rewrite <- Hm, set_maxTableKey_id.
Qed.

(** ** Quiet keys *)

Lemma Consume_keys_quiet a this es i types keyBytes prim :
  (inputDir a ≠ 0 → is_Some (valueCompare a)) →
  Exists (λ e : Evaluator, Value_IsQuiet (e this) = true) es →
  ∃ mtk, Consume_keys i es this types keyBytes prim a
         = (set_maxTableKey a mtk, Ok Quiet).
Proof.
  intros Hwf Hex. revert a i types keyBytes prim Hwf.
  induction es as [|e es IH]; intros a i types keyBytes prim Hwf.
  { inversion Hex. }
  simpl. destruct (Value_IsQuiet (e this)) eqn:Hq.
  { exists (maxTableKey a). by rewrite set_maxTableKey_id. }
  apply Exists_cons in Hex as [Hex|Hex]; [congruence|].
  unfold bind at 1, get at 1.
  destruct ((i =? 0)%nat && negb (inputDir a =? 0)) eqn:Hc.
  - apply andb_prop in Hc as [_ Hd].
    assert (inputDir a ≠ 0) as Hdir
      by (intros Heq; rewrite Heq in Hd; discriminate).
    destruct (updateMaxTableKey_ok a (e this) (Hwf Hdir)) as (mtk & p & Hu).
    unfold bind. rewrite Hu.
    destruct (IH Hex (set_maxTableKey a mtk) (S i) (types ++ [Value_Type (e this)])
                (zcode_Append keyBytes (Value_Bytes (e this))) p) as [mtk' H'].
    { exact Hwf. }
    exists mtk'. exact H'.
  - unfold bind, ret.
    destruct (IH Hex a (S i) (types ++ [Value_Type (e this)])
                (zcode_Append keyBytes (Value_Bytes (e this))) prim Hwf) as [mtk' H'].
    exists mtk'. exact H'.
Qed.

(** C8.  A record for which some key expression evaluates to a quiet value
    is skipped: [Consume] returns no error, and the aggregator it leaves
    differs from the one it found at most in [maxTableKey]; the group
    table, hence every row and every aggregate function state, and the
    spiller are the ones found. *)
Theorem Consume_quiet_skip (a : Aggregator) (this : Value) :
  sorted_config_ok a →
  Exists (λ e : Evaluator, Value_IsQuiet (e this) = true) (keyExprs a) →
  ∃ a', Consume this a = (a', Ok tt)
        ∧ a' = set_maxTableKey a (maxTableKey a')
        ∧ table a' = table a
        ∧ spiller a' = spiller a
        ∧ keyTypes a' = keyTypes a.
Proof.
  intros Hwf Hex.
  assert (inputDir a ≠ 0 → is_Some (valueCompare a)) as Hwf'.
  { intros Hdir. apply Hwf; [done|]. intros Hnil. rewrite Hnil in Hex. inversion Hex. }
  destruct (Consume_keys_quiet a this (keyExprs a) 0%nat [] [] zeroValue Hwf' Hex)
    as [mtk Hk].
  exists (set_maxTableKey a mtk). split; [|done].
  unfold Consume, bind, get. by rewrite Hk.
Qed.

Lemma Consume_keys_quiet_later a this es i types keyBytes prim :
  (0 < i)%nat →
  Exists (λ e : Evaluator, Value_IsQuiet (e this) = true) es →
  Consume_keys i es this types keyBytes prim a = (a, Ok Quiet).
Proof.
  intros Hi Hex. revert i types keyBytes Hi.
  induction es as [|e es IH]; intros i types keyBytes Hi; [inversion Hex|].
  simpl. destruct (Value_IsQuiet (e this)) eqn:Hq; [done|].
  apply Exists_cons in Hex as [Hex|Hex]; [congruence|].
  unfold bind at 1, get at 1.
  replace (i =? 0)%nat with false by (symmetry; apply Nat.eqb_neq; lia).
  simpl. unfold bind at 1, ret at 1. apply IH; [done|lia].
Qed.

(** C10.  In sorted-input mode the first key updates [maxTableKey] before
    the later keys are looked at: a record whose first key is not quiet and
    exceeds the current maximum (or finds none), and one of whose later keys
    is quiet, is skipped with the group table untouched, yet leaves its
    first key as the new [maxTableKey]. *)
Theorem Consume_quiet_advances_maxTableKey (a : Aggregator) (this : Value)
    (keyExpr0 : Evaluator) (rest : list Evaluator) (cmp : CompareFn) :
  inputDir a ≠ 0 →
  valueCompare a = Some cmp →
  keyExprs a = keyExpr0 :: rest →
  Value_IsQuiet (keyExpr0 this) = false →
  Exists (λ e : Evaluator, Value_IsQuiet (e this) = true) rest →
  match maxTableKey a with
  | None => True
  | Some mtk => 0 < cmp (keyExpr0 this) mtk
  end →
  ∃ a', Consume this a = (a', Ok tt)
        ∧ table a' = table a
        ∧ maxTableKey a' = Some (keyExpr0 this)
        ∧ a' = set_maxTableKey a (Some (keyExpr0 this)).
Proof.
  intros Hdir Hcmp Hkes Hq0 Hex Hadv.
  assert (updateMaxTableKey (keyExpr0 this) a
          = (set_maxTableKey a (Some (keyExpr0 this)), Ok (keyExpr0 this))) as Hu.
  { unfold updateMaxTableKey. destruct (maxTableKey a) as [mtk0|]; [|done].
    rewrite Hcmp. by apply Z.ltb_lt in Hadv as ->. }
  assert (negb (inputDir a =? 0) = true) as Hd
    by (apply negb_true_iff, Z.eqb_neq, Hdir).
  assert (Consume_keys 0 (keyExprs a) this [] [] zeroValue a
          = (set_maxTableKey a (Some (keyExpr0 this)), Ok Quiet)) as Hkeys.
  { rewrite Hkes. simpl. rewrite Hq0. unfold bind at 1, get at 1.
    rewrite Hd. simpl. unfold bind at 1. rewrite Hu.
    apply Consume_keys_quiet_later; [lia|done]. }
  exists (set_maxTableKey a (Some (keyExpr0 this))).
  split; [|done].
  unfold Consume, bind, get. by rewrite Hkeys.
Qed.

(** ** The intern table *)

Lemma TypeVectorTable_find_Some t types k r :
  TypeVectorTable_find t types k = Some r →
  ∃ i, r = (k + i)%nat ∧ t !! i = Some types ∧ ∀ j, (j < i)%nat → t !! j ≠ Some types.
Proof.
  revert k. induction t as [|typ t IH]; intros k H; [done|].
  simpl in H. destruct (decide (typ = types)) as [->|Hne].
  - inversion H; subst. exists 0%nat. split; [lia|]. split; [done|]. intros; lia.
  - destruct (IH _ H) as (i & -> & Hi & Hfirst).
    exists (S i). split; [lia|]. split; [done|].
    intros [|j] Hj; simpl; [congruence|]. apply Hfirst. lia.
Qed.

Lemma TypeVectorTable_find_None t types k :
  TypeVectorTable_find t types k = None → ∀ j, t !! j ≠ Some types.
Proof.
  revert k. induction t as [|typ t IH]; intros k H j; [done|].
  simpl in H. destruct (decide (typ = types)) as [->|Hne]; [done|].
  destruct j as [|j]; simpl; [congruence|]. by eapply IH.
Qed.

(** [Lookup] answers with the first position at which the sequence stands
    in the table it leaves, and only ever extends the table. *)
Lemma TypeVectorTable_Lookup_spec t types id t' :
  TypeVectorTable_Lookup t types = (id, t') →
  t' !! id = Some types
  ∧ (∀ j, (j < id)%nat → t' !! j ≠ Some types)
  ∧ ∃ ext, t' = t ++ ext.
Proof.
  unfold TypeVectorTable_Lookup.
  destruct (TypeVectorTable_find t types 0) as [k|] eqn:Hf; intros H; inversion H; subst.
  - destruct (TypeVectorTable_find_Some _ _ _ _ Hf) as (i & -> & Hi & Hfirst).
    split; [done|]. split; [done|]. exists []. by rewrite app_nil_r.
  - split; [by apply list_lookup_middle|].
    split; [|by eauto].
    intros j Hj. rewrite lookup_app_l by done.
    by eapply TypeVectorTable_find_None.
Qed.

Lemma TypeVectorTable_Lookup_found t types id :
  t !! id = Some types →
  (∀ j, (j < id)%nat → t !! j ≠ Some types) →
  TypeVectorTable_Lookup t types = (id, t).
Proof.
  intros Hid Hfirst. unfold TypeVectorTable_Lookup.
  destruct (TypeVectorTable_find t types 0) as [k|] eqn:Hf.
  - destruct (TypeVectorTable_find_Some _ _ _ _ Hf) as (i & -> & Hi & Hfi).
    simpl. f_equal.
    destruct (Nat.lt_trichotomy i id) as [Hlt|[->|Hgt]]; [|done|].
    + by destruct (Hfirst _ Hlt).
    + by destruct (Hfi _ Hgt).
  - by destruct (TypeVectorTable_find_None _ _ _ Hf id).
Qed.

(** Stability: a sequence keeps its id however the table grows. *)
Lemma TypeVectorTable_Lookup_stable t types id t' ext :
  TypeVectorTable_Lookup t types = (id, t') →
  TypeVectorTable_Lookup (t' ++ ext) types = (id, t' ++ ext).
Proof.
  intros H. apply TypeVectorTable_Lookup_spec in H as (Hid & Hfirst & _).
  apply TypeVectorTable_Lookup_found.
  - by apply lookup_app_l_Some.
  - intros j Hj. rewrite lookup_app_l; [by apply Hfirst|].
    apply lookup_lt_Some in Hid. lia.
Qed.

(** Distinct sequences get distinct ids. *)
Lemma TypeVectorTable_Lookup_inj t types1 types2 id1 id2 t1 t2 :
  TypeVectorTable_Lookup t types1 = (id1, t1) →
  TypeVectorTable_Lookup t1 types2 = (id2, t2) →
  types1 ≠ types2 → id1 ≠ id2.
Proof.
  intros H1 H2 Hne ->.
  apply TypeVectorTable_Lookup_spec in H1 as (Hid1 & _ & _).
  apply TypeVectorTable_Lookup_spec in H2 as (Hid2 & _ & ext & ->).
  rewrite (lookup_app_l_Some _ _ _ _ Hid1) in Hid2. congruence.
Qed.

(** ** Output records as functions of a row *)

(** The builder succeeds on the field lists it is given. *)
Definition Encode_total : Prop :=
  ∀ fields, ∃ bytes, RecordBuilder_Encode fields = Ok bytes.

(** A [range] over the table visits every entry once. *)
Definition map_range_perm : Prop := ∀ l, map_range l ≡ₚ l.

Definition mkRecord (fields : list zBytes) (types : list TypeID) : Value :=
  NewValue (RecordBuilder_Type types)
    (Some (match RecordBuilder_Encode fields with Ok b => b | _ => [] end)).

Definition row_record (kt : TypeVectorTable) (acc : list AggFunc) (po : bool)
    (key : Bytes) (row : Row) : Value :=
  let keytypes := default [] (kt !! keyType row) in
  let vals := valRow_results po acc (reducers row) in
  mkRecord (key_fields keytypes key ++ map Value_Bytes vals)
           (keytypes ++ map Value_Type vals).

(** The memo of record types agrees with the builder. *)
Definition memo_wf (a : Aggregator) : Prop :=
  ∀ id typ, recordTypes a !! id = Some typ →
    ∃ types, outTypes a !! id = Some types ∧ typ = RecordBuilder_Type types.

(** Every row carries the id of an interned key type vector. *)
Definition rows_wf (a : Aggregator) : Prop :=
  ∀ key row, table a !! key = Some row → is_Some (keyTypes a !! keyType row).

Lemma lookupRecordType_spec a types :
  memo_wf a →
  ∃ ot rt,
    lookupRecordType types a
    = (set_recordTypes (set_outTypes a ot) rt, Ok (RecordBuilder_Type types))
    ∧ memo_wf (set_recordTypes (set_outTypes a ot) rt).
Proof.
  intros Hm. unfold lookupRecordType.
  destruct (TypeVectorTable_Lookup (outTypes a) types) as [id ot] eqn:Hl.
  pose proof (TypeVectorTable_Lookup_spec _ _ _ _ Hl) as (Hid & _ & ext & Hext).
  assert (memo_wf (set_outTypes a ot)) as Hm'.
  { intros j typ Hj. simpl in *. destruct (Hm j typ Hj) as (tys & Hj' & ->).
    exists tys. split; [|done]. subst ot. by apply lookup_app_l_Some. }
  simpl. destruct (recordTypes a !! id) as [typ|] eqn:Hr.
  - exists ot, (recordTypes a). split.
    + destruct (Hm' id typ Hr) as (tys & Hj' & ->). simpl in Hj'.
      rewrite Hid in Hj'. inversion Hj'; subst. by destruct a.
    + intros j t Hj. by apply (Hm' j t).
  - exists ot, (<[id := RecordBuilder_Type types]> (recordTypes a)).
    split; [done|].
    intros j t Hj. simpl in *.
    destruct (decide (id = j)) as [->|Hne].
    + rewrite lookup_insert_eq in Hj. inversion Hj; subst. by eauto.
    + rewrite lookup_insert_ne in Hj by done. by apply (Hm' j t).
Qed.

Lemma buildRecord_spec a fields types :
  Encode_total → memo_wf a →
  ∃ ot rt,
    buildRecord fields types a
    = (set_recordTypes (set_outTypes a ot) rt, Ok (mkRecord fields types))
    ∧ memo_wf (set_recordTypes (set_outTypes a ot) rt).
Proof.
  intros Henc Hm.
  destruct (lookupRecordType_spec a types Hm) as (ot & rt & Hl & Hm').
  exists ot, rt. split; [|done].
  unfold buildRecord, bind, lift, ret, mkRecord. rewrite Hl.
  by destruct (Henc fields) as [bytes ->].
Qed.

(** Whether the loop of [readTable] passes over a row. *)
Definition readTable_skip (a : Aggregator) (flush : bool) (row : Row) : bool :=
  if flush then false
  else match valueCompare a, maxTableKey a with
       | Some cmp, Some mtk => 0 <=? cmp (groupval row) mtk
       | _, _ => true
       end.

Definition readTable_ready (a : Aggregator) (flush : bool) : Prop :=
  flush = false → is_Some (valueCompare a) ∧ is_Some (maxTableKey a).

Lemma readTable_entry_skip a flush po key row :
  readTable_ready a flush →
  readTable_skip a flush row = true →
  readTable_entry flush po key row a = (a, Ok None).
Proof.
  intros Hr Hs. unfold readTable_entry, readTable_skip in *.
  destruct flush; [done|].
  destruct (Hr eq_refl) as [[cmp Hc] [mtk Hk]].
  unfold bind, get, deref, ret. rewrite Hc, Hk in *. simpl. by rewrite Hs.
Qed.

Lemma readTable_entry_emit a flush po key row :
  Encode_total → memo_wf a →
  readTable_ready a flush →
  is_Some (keyTypes a !! keyType row) →
  readTable_skip a flush row = false →
  ∃ ot rt,
    readTable_entry flush po key row a
    = (set_table (set_recordTypes (set_outTypes a ot) rt) (delete key (table a)),
       Ok (Some (row_record (keyTypes a) (aggs a) po key row)))
    ∧ memo_wf (set_recordTypes (set_outTypes a ot) rt).
Proof.
  intros Henc Hm Hr [kts Hkt] Hs.
  set (vals := valRow_results po (aggs a) (reducers row)).
  destruct (buildRecord_spec a (key_fields kts key ++ map Value_Bytes vals)
              (kts ++ map Value_Type vals) Henc Hm) as (ot & rt & Hb & Hm').
  exists ot, rt. split; [|done].
  unfold readTable_entry, readTable_skip, row_record in *.
  assert ((if flush then ret false
           else vc <- get valueCompare;;
                match vc with
                | Some cmp => mtk <- deref maxTableKey;;
                              ret (0 <=? cmp (groupval row) mtk)
                | None => throw PanicInternalBug
                end) a = (a, Ok false)) as Hskip.
  { destruct flush; [done|].
    destruct (Hr eq_refl) as [[cmp Hc] [mtk Hk]].
    unfold bind, get, deref, ret. rewrite Hc, Hk in *. simpl. by rewrite Hs. }
  unfold bind at 1. rewrite Hskip.
  unfold bind at 1, get at 1. unfold bind at 1, lift at 1, TypeVectorTable_Types.
  rewrite Hkt. unfold bind at 1, get at 1. fold vals.
  unfold bind at 1. rewrite Hb. simpl. done.
Qed.

(** The table and the records left by the loop of [readTable] over a list
    of entries. *)
Definition emitted (a : Aggregator) (flush : bool) (entries : list (Bytes * Row))
  : list (Bytes * Row) :=
  filter (λ kr, readTable_skip a flush kr.2 = false) entries.

Lemma readTable_loop_spec flush po entries : ∀ a recs,
  Encode_total → memo_wf a →
  readTable_ready a flush →
  Forall (λ kr : Bytes * Row, is_Some (keyTypes a !! keyType kr.2)) entries →
  ∃ ot rt,
    readTable_loop flush po entries recs a
    = (set_table (set_recordTypes (set_outTypes a ot) rt)
         (foldl (λ t kr, delete kr.1 t) (table a) (emitted a flush entries)),
       Ok (recs ++ map (λ kr, row_record (keyTypes a) (aggs a) po kr.1 kr.2)
                       (emitted a flush entries)))
    ∧ memo_wf (set_recordTypes (set_outTypes a ot) rt).
Proof.
  induction entries as [|[key row] entries IH]; intros a recs Henc Hm Hr Hall.
  { exists (outTypes a), (recordTypes a). simpl. rewrite app_nil_r.
    split; [by destruct a|]. intros id typ. simpl. apply Hm. }
  apply Forall_cons in Hall as [Hrow Hall]. simpl in Hrow.
  unfold emitted in *. rewrite filter_cons. simpl.
  destruct (readTable_skip a flush row) eqn:Hs.
  - rewrite decide_False by done.
    unfold bind at 1. rewrite (readTable_entry_skip a flush po key row Hr Hs).
    apply IH; done.
  - rewrite decide_True by done.
    destruct (readTable_entry_emit a flush po key row Henc Hm Hr Hrow Hs)
      as (ot & rt & He & Hm').
    unfold bind at 1. rewrite He.
    destruct (IH (set_table (set_recordTypes (set_outTypes a ot) rt)
                   (delete key (table a)))
                 (recs ++ [row_record (keyTypes a) (aggs a) po key row]))
      as (ot' & rt' & Hl & Hm''); [done|done|done|done|].
    exists ot', rt'. split; [|done].
    rewrite Hl. simpl. by rewrite <- app_assoc.
Qed.

Lemma lookup_foldl_delete (l : list (Bytes * Row)) (m : gmap Bytes Row) k :
  foldl (λ t kr, delete kr.1 t) m l !! k
  = if decide (k ∈ l.*1) then None else m !! k.
Proof.
  revert m. induction l as [|[k' r] l IH]; intros m.
  { destruct (decide _) as [Hin|]; [|done]. by apply elem_of_nil in Hin. }
  cbn [foldl fst]. rewrite IH, fmap_cons. cbn [fst].
  destruct (decide (k ∈ l.*1)) as [Hin|Hnin].
  - destruct (decide _) as [|Hn]; [done|]. destruct Hn. by right.
  - destruct (decide (k = k')) as [->|Hne].
    + rewrite lookup_delete_eq. destruct (decide _) as [|Hn]; [done|].
      destruct Hn. by left.
    + rewrite lookup_delete_ne by done.
      destruct (decide _) as [Hin|]; [|done].
      apply elem_of_cons in Hin as [?|?]; done.
Qed.

(** Deleting the entries picked out of a range over the table leaves the
    entries not picked. *)
Lemma foldl_delete_filter (P : Bytes * Row → Prop) `{!∀ x, Decision (P x)}
    (m : gmap Bytes Row) (l : list (Bytes * Row)) :
  l ≡ₚ map_to_list m →
  foldl (λ t kr, delete kr.1 t) m (filter P l) = filter (λ kr, ¬ P kr) m.
Proof.
  intros Hl. apply map_eq. intros k. rewrite lookup_foldl_delete.
  apply option_eq. intros row. rewrite map_lookup_filter_Some.
  destruct (decide (k ∈ (filter P l).*1)) as [Hin|Hnin].
  - split; [done|]. intros [Hk Hn]. destruct Hn.
    apply list_elem_of_fmap in Hin as ([k' row'] & -> & Hin). simpl in *.
    apply list_elem_of_filter in Hin as [HP Hin].
    rewrite Hl in Hin. apply elem_of_map_to_list in Hin.
    by replace row with row' by congruence.
  - split.
    + intros Hk. split; [done|]. intros HP. apply Hnin.
      apply list_elem_of_fmap. exists (k, row). split; [done|].
      apply list_elem_of_filter. split; [done|].
      rewrite Hl. by apply elem_of_map_to_list.
    + by intros [Hk _].
Qed.

Lemma readTable_spec a flush po :
  Encode_total → map_range_perm → memo_wf a → rows_wf a →
  readTable_ready a flush →
  ∃ ot rt,
    readTable flush po a
    = (set_table (set_recordTypes (set_outTypes a ot) rt)
         (filter (λ kr, readTable_skip a flush kr.2 ≠ false) (table a)),
       Ok (batch_of (map (λ kr, row_record (keyTypes a) (aggs a) po kr.1 kr.2)
                      (emitted a flush (map_range (map_to_list (table a)))))))
    ∧ memo_wf (set_recordTypes (set_outTypes a ot) rt).
Proof.
  intros Henc Hperm Hm Hrows Hr. unfold map_range_perm in Hperm.
  destruct (readTable_loop_spec flush po (map_range (map_to_list (table a))) a []
              Henc Hm Hr) as (ot & rt & Hl & Hm').
  { apply Forall_forall. intros [k row] Hin. simpl.
    rewrite (Hperm _) in Hin. apply elem_of_map_to_list in Hin. by eapply Hrows. }
  exists ot, rt. split; [|done].
  unfold readTable, bind, get, ret. rewrite Hl. simpl.
  unfold emitted at 1.
  by rewrite (foldl_delete_filter _ _ _ (Hperm _)).
Qed.

Lemma emitted_flush a l : emitted a true l = l.
Proof.
  unfold emitted. induction l as [|x l IH]; [done|].
  rewrite filter_cons. unfold readTable_skip at 1.
  destruct (decide _); [|done]. by f_equal.
Qed.

(** A flush empties the table and returns a record for every entry. *)
Lemma readTable_flush a po :
  Encode_total → map_range_perm → memo_wf a → rows_wf a →
  ∃ ot rt,
    readTable true po a
    = (set_table (set_recordTypes (set_outTypes a ot) rt) ∅,
       Ok (batch_of (map (λ kr, row_record (keyTypes a) (aggs a) po kr.1 kr.2)
                      (map_range (map_to_list (table a))))))
    ∧ memo_wf (set_recordTypes (set_outTypes a ot) rt).
Proof.
  intros Henc Hperm Hm Hrows.
  destruct (readTable_spec a true po Henc Hperm Hm Hrows) as (ot & rt & Hl & Hm');
    [done|].
  exists ot, rt. split; [|done]. rewrite Hl. f_equal; [f_equal|].
  - apply map_eq. intros k. rewrite lookup_empty.
    apply map_lookup_filter_None. right. intros row _ Hn. by apply Hn.
  - by rewrite emitted_flush.
Qed.

(** C4.  In sorted-input mode a request for results before the end of the
    input, served from the in-memory table, returns the records of exactly
    the rows whose group value compares strictly below [maxTableKey]; these
    rows are deleted, and the rows comparing greater or equal stay in the
    table as they are. *)
Theorem readTable_completed_rows (a : Aggregator) (po : bool)
    (cmp : CompareFn) (mtk : Value) :
  Encode_total → map_range_perm → memo_wf a → rows_wf a →
  valueCompare a = Some cmp →
  maxTableKey a = Some mtk →
  ∃ a',
    readTable false po a
    = (a', Ok (batch_of
           (map (λ kr, row_record (keyTypes a) (aggs a) po kr.1 kr.2)
              (filter (λ kr, cmp (groupval kr.2) mtk < 0)
                 (map_range (map_to_list (table a)))))))
    ∧ table a' = filter (λ kr, 0 <= cmp (groupval kr.2) mtk) (table a)
    ∧ (∀ key row, table a' !! key = Some row ↔
         table a !! key = Some row ∧ 0 <= cmp (groupval row) mtk)
    ∧ (∀ key row, table a !! key = Some row → cmp (groupval row) mtk < 0 →
         table a' !! key = None).
Proof.
  intros Henc Hperm Hm Hrows Hc Hk.
  destruct (readTable_spec a false po Henc Hperm Hm Hrows) as (ot & rt & Hl & Hm').
  { intros _. rewrite Hc, Hk. by eauto. }
  assert (∀ row, readTable_skip a false row = (0 <=? cmp (groupval row) mtk)) as Hskip.
  { intros row. unfold readTable_skip. by rewrite Hc, Hk. }
  assert (filter (λ kr, readTable_skip a false kr.2 ≠ false) (table a)
          = filter (λ kr, 0 <= cmp (groupval kr.2) mtk) (table a)) as Hf.
  { apply map_filter_ext. intros k row _. cbn [snd]. rewrite Hskip.
    destruct (Z.leb_spec 0 (cmp (groupval row) mtk)); split; try done; lia. }
  eexists. split; [|split; [|split]].
  - rewrite Hl. do 4 f_equal. unfold emitted.
    apply list_filter_iff. intros [k row]. cbn [snd]. rewrite Hskip.
    destruct (Z.leb_spec 0 (cmp (groupval row) mtk)); split; try done; lia.
  - cbn [table set_table]. exact Hf.
  - intros key row. cbn [table set_table]. rewrite Hf.
    by rewrite map_lookup_filter_Some.
  - intros key row Hrow Hlt. cbn [table set_table]. rewrite Hf.
    apply map_lookup_filter_None. right. intros row' Hrow'. cbn [snd].
    replace row' with row by congruence. lia.
Qed.

(** ** Keys of a record *)

Lemma bind_Ok {A B} (m : M A) (f : A → M B) a a' x :
  m a = (a', Ok x) → bind m f a = f x a'.
Proof. intros H. unfold bind. by rewrite H. Qed.

Lemma bind_bind {A B C} (m : M A) (f : A → M B) (g : B → M C) a :
  bind (bind m f) g a = bind m (λ x, bind (f x) g) a.
Proof. unfold bind. by destruct (m a) as [a' [x|e|p]]. Qed.

Lemma bind_get {A B} (f : Aggregator → A) (k : A → M B) a :
  bind (get f) k a = k (f a) a.
Proof. done. Qed.

Lemma bind_ret {A B} (x : A) (k : A → M B) a : bind (ret x) k a = k x a.
Proof. done. Qed.

Lemma bind_modify {B} (f : Aggregator → Aggregator) (k : unit → M B) a :
  bind (modify f) k a = k tt (f a).
Proof. done. Qed.

Lemma bind_lift_Ok {A B} (x : A) (k : A → M B) a : bind (lift (Ok x)) k a = k x a.
Proof. done. Qed.

Lemma deref_Some {A} (f : Aggregator → option A) a x :
  f a = Some x → deref f a = (a, Ok x).
Proof. unfold deref. by intros ->. Qed.

Create Rewrite HintDb monad.
Hint Rewrite @bind_bind @bind_get @bind_ret @bind_modify @bind_lift_Ok : monad.

Ltac msimpl := cbn [bind get ret modify lift deref throw fst snd andb orb negb].
Ltac mnorm := autorewrite with monad; msimpl.
Ltac mstep H := mnorm; rewrite (bind_Ok _ _ _ _ _ H).

(** The values of the key expressions on a record, and the flat key they
    make before the type suffix. *)
Definition key_values (a : Aggregator) (this : Value) : list Value :=
  map (λ e : Evaluator, e this) (keyExprs a).

Definition key_payload (keyBytes : Bytes) (kvs : list Value) : Bytes :=
  foldl (λ kb v, zcode_Append kb (Value_Bytes v)) keyBytes kvs.

Definition not_quiet (a : Aggregator) (this : Value) : Prop :=
  Forall (λ v, Value_IsQuiet v = false) (key_values a this).

Lemma Consume_keys_later a this es i types keyBytes prim :
  (0 < i)%nat →
  Forall (λ v, Value_IsQuiet v = false) (map (λ e : Evaluator, e this) es) →
  Consume_keys i es this types keyBytes prim a
  = (a, Ok (Keyed (types ++ map Value_Type (map (λ e : Evaluator, e this) es))
                  (key_payload keyBytes (map (λ e : Evaluator, e this) es)) prim)).
Proof.
  intros Hi. revert i types keyBytes Hi.
  induction es as [|e es IH]; intros i types keyBytes Hi Hq.
  { simpl. by rewrite app_nil_r. }
  simpl in *. apply Forall_cons in Hq as [Hq Hqs]. rewrite Hq.
  msimpl. replace (i =? 0)%nat with false by (symmetry; apply Nat.eqb_neq; lia).
  msimpl. rewrite IH by (done || lia). by rewrite <- app_assoc.
Qed.

(** The aggregator and the group value after the key loop: in sorted-input
    mode the first key has gone through [updateMaxTableKey]. *)
Definition after_keys (a : Aggregator) (this : Value) : Aggregator * Value :=
  match key_values a this with
  | k0 :: _ =>
      if negb (inputDir a =? 0)
      then match updateMaxTableKey k0 a with
           | (a1, Ok prim) => (a1, prim)
           | (a1, _) => (a1, zeroValue)
           end
      else (a, zeroValue)
  | [] => (a, zeroValue)
  end.

Lemma Consume_keys_keyed a this :
  sorted_config_ok a →
  not_quiet a this →
  Consume_keys 0 (keyExprs a) this [] [] zeroValue a
  = ((after_keys a this).1,
     Ok (Keyed (map Value_Type (key_values a this))
               (key_payload [] (key_values a this))
               (after_keys a this).2)).
Proof.
  intros Hwf Hq. unfold after_keys, not_quiet, key_values in *.
  destruct (keyExprs a) as [|e es] eqn:Hes; [done|].
  simpl in *. apply Forall_cons in Hq as [Hq Hqs]. rewrite Hq. msimpl.
  destruct (negb (inputDir a =? 0)) eqn:Hd; msimpl.
  - assert (inputDir a ≠ 0) as Hdir
      by (intros Heq; rewrite Heq in Hd; discriminate).
    destruct (updateMaxTableKey_ok a (e this)) as (mtk & p & Hu).
    { apply Hwf; [done|]. by rewrite Hes. }
    rewrite Hu, (bind_Ok _ _ _ _ _ Hu).
    by rewrite Consume_keys_later by (done || lia).
  - by rewrite Consume_keys_later by (done || lia).
Qed.

Lemma after_keys_frame a this :
  sorted_config_ok a →
  ∃ mtk, (after_keys a this).1 = set_maxTableKey a mtk.
Proof.
  intros Hwf. unfold after_keys, key_values.
  destruct (keyExprs a) as [|e es] eqn:Hes; simpl.
  { exists (maxTableKey a). by rewrite set_maxTableKey_id. }
  destruct (negb (inputDir a =? 0)) eqn:Hd; simpl.
  - assert (inputDir a ≠ 0) as Hdir
      by (intros Heq; rewrite Heq in Hd; discriminate).
    destruct (updateMaxTableKey_ok a (e this)) as (mtk & p & ->).
    { apply Hwf; [done|]. by rewrite Hes. }
    by eauto.
  - exists (maxTableKey a). by rewrite set_maxTableKey_id.
Qed.

(** The key under which [Consume] files a record, with the id of its key
    type vector and the intern table after the lookup. *)
Definition tableKey (a : Aggregator) (this : Value) : Bytes * nat * TypeVectorTable :=
  let kvs := key_values a this in
  let '(id, kt) := TypeVectorTable_Lookup (keyTypes a) (map Value_Type kvs) in
  (AppendUvarint (key_payload [] kvs) (uint64 (Z.of_nat id)), id, kt).

(** ** Spilling *)

Definition no_faults : Prop := ∀ op pending, spill_fault op pending = None.

(** The merge-sort handle after a spill of [recs]. *)
Definition spill_merge (a : Aggregator) (recs : list Value) : MergeSort :=
  let m := default (mkMergeSort (keysComparator a) []) (spiller a) in
  mkMergeSort (ms_compare m)
    (list_merge (cmp_le (ms_compare m)) (ms_pending m) (SortStable (ms_compare m) recs)).

(** [maxSpillKey] after a spill whose sorted run is [sorted]. *)
Definition spill_maxSpillKey (a : Aggregator) (eof : bool) (sorted : list Value)
  : option Value :=
  if negb eof && negb (inputDir a =? 0) then
    match keyExprs a, last sorted with
    | keyExpr0 :: _, Some rec =>
        let val := keyExpr0 rec in
        if Value_IsError val then maxSpillKey a
        else match maxSpillKey a, valueCompare a with
             | None, _ => Some val
             | Some msk, Some cmp => if 0 <? cmp val msk then Some val else Some msk
             | Some msk, None => Some msk
             end
    | _, _ => maxSpillKey a
    end
  else maxSpillKey a.

(** In sorted-input mode there is a first key and a value comparator. *)
Definition sorted_mode_ok (a : Aggregator) : Prop :=
  inputDir a ≠ 0 → keyExprs a ≠ [] ∧ is_Some (valueCompare a).

Definition table_records (a : Aggregator) (po : bool) : list Value :=
  map (λ kr, row_record (keyTypes a) (aggs a) po kr.1 kr.2)
      (map_range (map_to_list (table a))).

Lemma SortStable_perm cmp recs : SortStable cmp recs ≡ₚ recs.
Proof. apply merge_sort_Permutation. Qed.

Lemma spillTable_spec a eof :
  no_faults → Encode_total → map_range_perm → memo_wf a → rows_wf a →
  sorted_mode_ok a →
  ∃ ot rt,
    spillTable eof a
    = (match table_records a true with
       | [] => set_table (set_recordTypes (set_outTypes a ot) rt) ∅
       | _ :: _ =>
           set_maxSpillKey
             (set_spiller (set_table (set_recordTypes (set_outTypes a ot) rt) ∅)
                (Some (spill_merge a (table_records a true))))
             (spill_maxSpillKey a eof
                (SortStable (ms_compare (spill_merge a (table_records a true)))
                   (table_records a true)))
       end, Ok tt)
    ∧ memo_wf (set_recordTypes (set_outTypes a ot) rt).
Proof.
  intros Hnf Henc Hperm Hm Hrows Hsorted.
  destruct (readTable_flush a true Henc Hperm Hm Hrows) as (ot & rt & Hr & Hm').
  exists ot, rt. split; [|done].
  unfold spillTable. rewrite (bind_Ok _ _ _ _ _ Hr). fold (table_records a true).
  destruct (table_records a true) as [|r0 recs0] eqn:Hrecs; [done|].
  cbn [batch_of]. unfold spill_merge, spill_maxSpillKey.
  set (recs := r0 :: recs0) in *.
  set (a1 := set_table (set_recordTypes (set_outTypes a ot) rt) ∅).
  assert (∀ m, last (SortStable (ms_compare m) recs) ≠ None) as Hlast.
  { intros m Hn. apply last_None in Hn.
    pose proof (SortStable_perm (ms_compare m) recs) as Hp.
    rewrite Hn in Hp. apply Permutation_nil_l in Hp. done. }
  destruct (spiller a) as [m|] eqn:Hsp;
    cbn [default from_option id ms_compare ms_pending].
  - msimpl. cbn [spiller set_table set_recordTypes set_outTypes a1].
    rewrite Hsp. msimpl. unfold MergeSort_Spill. rewrite Hnf. msimpl.
    cbn [inputDir set_spiller set_table set_recordTypes set_outTypes a1 default].
    destruct (negb eof && negb (inputDir a =? 0)) eqn:Hc; [|done].
    apply andb_prop in Hc as [_ Hd].
    assert (inputDir a ≠ 0) as Hdir
      by (intros Heq; rewrite Heq in Hd; discriminate).
    destruct (Hsorted Hdir) as [Hkes [cmp Hcmp]].
    msimpl. cbn [keyExprs set_spiller set_table set_recordTypes set_outTypes a1].
    destruct (keyExprs a) as [|e0 es]; [done|].
    specialize (Hlast m).
    destruct (last (SortStable (ms_compare m) recs)) as [rec|]; [|done].
    destruct (Value_IsError (e0 rec)); [by destruct a|].
    unfold updateMaxSpillKey.
    cbn [maxSpillKey valueCompare set_spiller set_table set_recordTypes set_outTypes a1].
    rewrite Hcmp. destruct (maxSpillKey a) as [msk|] eqn:Hmsk; [|done].
    destruct (0 <? cmp (e0 rec) msk); [done|].
    rewrite <- Hmsk. by destruct a.
  - msimpl. cbn [spiller set_table set_recordTypes set_outTypes a1].
    rewrite Hsp. msimpl. unfold spill_NewMergeSort. rewrite Hnf. msimpl.
    unfold MergeSort_Spill. cbn [ms_pending ms_compare]. rewrite Hnf. msimpl.
    cbn [inputDir keysComparator set_spiller set_table set_recordTypes set_outTypes a1 default].
    destruct (negb eof && negb (inputDir a =? 0)) eqn:Hc; [|done].
    apply andb_prop in Hc as [_ Hd].
    assert (inputDir a ≠ 0) as Hdir
      by (intros Heq; rewrite Heq in Hd; discriminate).
    destruct (Hsorted Hdir) as [Hkes [cmp Hcmp]].
    msimpl. cbn [keyExprs set_spiller set_table set_recordTypes set_outTypes a1].
    destruct (keyExprs a) as [|e0 es]; [done|].
    specialize (Hlast (mkMergeSort (keysComparator a) [])). cbn [ms_compare] in Hlast.
    destruct (last (SortStable (keysComparator a) recs)) as [rec|]; [|done].
    destruct (Value_IsError (e0 rec)); [by destruct a|].
    unfold updateMaxSpillKey.
    cbn [maxSpillKey valueCompare set_spiller set_table set_recordTypes set_outTypes a1].
    rewrite Hcmp. destruct (maxSpillKey a) as [msk|] eqn:Hmsk; [|done].
    destruct (0 <? cmp (e0 rec) msk); [done|].
    rewrite <- Hmsk. by destruct a.
Qed.

Lemma row_record_ext kt ext acc po key row :
  is_Some (kt !! keyType row) →
  row_record (kt ++ ext) acc po key row = row_record kt acc po key row.
Proof.
  intros [tys Hk]. unfold row_record.
  by rewrite (lookup_app_l_Some _ _ _ _ Hk), Hk.
Qed.

Lemma table_records_ext a a' po ext :
  map_range_perm → rows_wf a →
  table a' = table a → aggs a' = aggs a → keyTypes a' = keyTypes a ++ ext →
  table_records a' po = table_records a po.
Proof.
  intros Hperm Hrows Ht Ha Hk. unfold table_records. rewrite Ht, Ha, Hk.
  apply map_ext_in. intros [key row] Hin. simpl.
  apply row_record_ext. apply (Hrows key).
  apply elem_of_map_to_list. apply list_elem_of_In in Hin.
  by rewrite (Hperm _) in Hin.
Qed.

Lemma table_records_nil a po :
  map_range_perm → table_records a po = [] → table a = ∅.
Proof.
  intros Hperm H. unfold table_records in H. apply map_eq_nil in H.
  apply map_to_list_empty_iff. apply Permutation_nil_r.
  rewrite <- H. symmetry. apply Hperm.
Qed.

Lemma rows_wf_ext a a' ext :
  rows_wf a → table a' = table a → keyTypes a' = keyTypes a ++ ext → rows_wf a'.
Proof.
  intros Hrows Ht Hk key row Hrow. rewrite Ht in Hrow. rewrite Hk.
  destruct (Hrows key row Hrow) as [tys Htys].
  exists tys. by apply lookup_app_l_Some.
Qed.

Lemma NewAggregator_limit keyRefs keyExprs aggRefs aggs lim dir pin pout a :
  NewAggregator keyRefs keyExprs aggRefs aggs lim dir pin pout = Ok a →
  limit a = if lim =? 0 then 1000000 else lim.
Proof.
  unfold NewAggregator. intros H.
  destruct ((0 <? length keyExprs)%nat && negb (dir =? 0)).
  - destruct keyRefs; [done|]. by inversion H.
  - by inversion H.
Qed.

(** C7.  When [Consume] meets a key that is not in the group table while
    the table holds at least [limit] rows, it first spills the whole table
    as one run sorted by the keys comparator, which empties the table, and
    then inserts the row of the new key: the table holds exactly that row
    afterwards.  A configured limit of 0 stands for 1000000. *)
Theorem Consume_spill_trigger :
  (∀ keyRefs keyExprs aggRefs aggs lim dir pin pout a,
     NewAggregator keyRefs keyExprs aggRefs aggs lim dir pin pout = Ok a →
     limit a = (if lim =? 0 then 1000000 else lim)
     ∧ (lim = 0 → limit a = 1000000))
  ∧ (∀ (a : Aggregator) (this : Value),
       no_faults → Encode_total → map_range_perm →
       memo_wf a → rows_wf a → sorted_mode_ok a →
       not_quiet a this →
       table a !! (tableKey a this).1.1 = None →
       1 <= limit a →
       limit a <= Z.of_nat (size (table a)) →
       let key := (tableKey a this).1.1 in
       let id := (tableKey a this).1.2 in
       let prim := (after_keys a this).2 in
       let m0 := default (mkMergeSort (keysComparator a) []) (spiller a) in
       ∃ a' run,
         Consume this a = (a', Ok tt)
         ∧ run ≡ₚ table_records a true
         ∧ length run = size (table a)
         ∧ (Total (cmp_le (ms_compare m0)) → Sorted (cmp_le (ms_compare m0)) run)
         ∧ spiller a'
           = Some (mkMergeSort (ms_compare m0)
                     (list_merge (cmp_le (ms_compare m0)) (ms_pending m0) run))
         ∧ table a'
           = {[ key := Consume_row a (mkRow id prim (newValRow (aggs a))) this ]}
         ∧ size (table a') = 1%nat).
Proof.
  split.
  { intros ????????? H. pose proof (NewAggregator_limit _ _ _ _ _ _ _ _ _ H) as Hl.
    split; [done|]. intros ->. done. }
  intros a this Hnf Henc Hperm Hm Hrows Hsorted Hq Habs Hlim1 Hlim key id prim m0.
  assert (sorted_config_ok a) as Hcfg by (intros Hd _; by apply Hsorted).
  pose proof (Consume_keys_keyed a this Hcfg Hq) as Hkeys.
  destruct (after_keys_frame a this Hcfg) as [mtk Hframe].
  subst key id prim. unfold tableKey in *.
  destruct (TypeVectorTable_Lookup (keyTypes a) (map Value_Type (key_values a this)))
    as [id kt'] eqn:Hlook.
  cbn [fst snd] in *.
  pose proof (TypeVectorTable_Lookup_spec _ _ _ _ Hlook) as (_ & _ & ext & Hext).
  set (key := AppendUvarint (key_payload [] (key_values a this)) (uint64 (Z.of_nat id))) in *.
  set (a2 := set_keyTypes (set_maxTableKey a mtk) kt').
  assert (rows_wf a2) as Hrows2 by (by apply (rows_wf_ext a a2 ext)).
  assert (memo_wf a2) as Hm2 by (intros j t; apply Hm).
  assert (sorted_mode_ok a2) as Hsorted2 by (intros Hd; by apply Hsorted).
  destruct (spillTable_spec a2 false Hnf Henc Hperm Hm2 Hrows2 Hsorted2)
    as (ot & rt & Hspill & _).
  assert (table_records a2 true = table_records a true) as Hrecs
    by (by apply (table_records_ext a a2 true ext)).
  rewrite Hrecs in Hspill.
  assert (table a ≠ ∅) as Hne.
  { intros He. rewrite He, map_size_empty in Hlim. simpl in Hlim. lia. }
  destruct (table_records a true) as [|r0 recs0] eqn:Htr.
  { destruct Hne. by apply (table_records_nil a true). }
  rewrite <- Htr in *.
  unfold spill_merge in Hspill. cbn [spiller keysComparator a2 set_keyTypes set_maxTableKey] in Hspill.
  fold m0 in Hspill. cbn [ms_compare] in Hspill.
  eexists _, (SortStable (ms_compare m0) (table_records a true)).
  split; [|split; [|split; [|split; [|split; [|split]]]]].
  - unfold Consume. msimpl. rewrite (bind_Ok _ _ _ _ _ Hkeys).
    rewrite Hframe. msimpl. cbn [keyTypes set_maxTableKey]. rewrite Hlook.
    msimpl. cbn [table set_keyTypes set_maxTableKey]. fold key. rewrite Habs.
    mnorm. cbn [limit set_keyTypes set_maxTableKey].
    replace (limit a <=? Z.of_nat (size (table a))) with true
      by (symmetry; by apply Z.leb_le).
    fold a2. rewrite (bind_Ok _ _ _ _ _ Hspill). mnorm. reflexivity.
  - apply SortStable_perm.
  - rewrite SortStable_perm. unfold table_records.
    rewrite length_map, (Hperm _). apply length_map_to_list.
  - intros Htot. apply Sorted_merge_sort. exact Htot.
  - rewrite Htr. done.
  - rewrite Htr. cbn [table set_table set_maxSpillKey set_spiller].
    rewrite insert_empty. f_equal.
  - rewrite Htr. cbn [table set_table set_maxSpillKey set_spiller].
    rewrite insert_empty. apply map_size_singleton.
Qed.

(** ** Consume without a spill *)

Lemma Consume_nospill a this :
  sorted_config_ok a → not_quiet a this →
  (table a !! (tableKey a this).1.1 = None → Z.of_nat (size (table a)) < limit a) →
  Consume this a
  = (set_table (set_keyTypes (after_keys a this).1 (tableKey a this).2)
       (<[(tableKey a this).1.1 :=
            Consume_row a
              (default (mkRow (tableKey a this).1.2 (after_keys a this).2
                          (newValRow (aggs a)))
                 (table a !! (tableKey a this).1.1)) this]> (table a)),
     Ok tt).
Proof.
  intros Hcfg Hq Hlim.
  pose proof (Consume_keys_keyed a this Hcfg Hq) as Hkeys.
  destruct (after_keys_frame a this Hcfg) as [mtk Hframe].
  unfold tableKey in *.
  destruct (TypeVectorTable_Lookup (keyTypes a) (map Value_Type (key_values a this)))
    as [tid kt'] eqn:Hlook.
  cbn [fst snd] in *.
  unfold Consume. mnorm. rewrite (bind_Ok _ _ _ _ _ Hkeys).
  rewrite Hframe. mnorm. cbn [keyTypes set_maxTableKey]. rewrite Hlook.
  mnorm. cbn [table set_keyTypes set_maxTableKey].
  destruct (table a !! _) as [row|] eqn:Hrow.
  - mnorm. cbn [table set_keyTypes set_maxTableKey default from_option id]. done.
  - mnorm. cbn [limit set_keyTypes set_maxTableKey].
    replace (limit a <=? Z.of_nat (size (table a))) with false
      by (symmetry; apply Z.leb_gt; by apply Hlim).
    mnorm. done.
Qed.

Lemma key_payload_bytes keyBytes kvs :
  key_payload keyBytes kvs
  = foldl (λ kb b, zcode_Append kb b) keyBytes (map Value_Bytes kvs).
Proof.
  revert keyBytes. induction kvs as [|v kvs IH]; intros keyBytes; [done|].
  simpl. apply IH.
Qed.

Lemma TypeVectorTable_Lookup_bound t types id t' :
  TypeVectorTable_Lookup t types = (id, t') →
  (id < length t')%nat ∧ (length t' <= S (length t))%nat.
Proof.
  intros H. pose proof (TypeVectorTable_Lookup_spec _ _ _ _ H) as (Hid & _ & _).
  split; [by eapply lookup_lt_Some|].
  unfold TypeVectorTable_Lookup in H.
  destruct (TypeVectorTable_find t types 0); inversion H; subst; [lia|].
  rewrite length_app. simpl. lia.
Qed.

(** ** Type separation *)


(** ** Reading the merged spills *)

(** The records at the head of [p] that compare equal to [first], and what
    follows them. *)
Fixpoint merge_group (cmp : CompareFn) (first : Value) (p : list Value)
  : list Value * list Value :=
  match p with
  | [] => ([], [])
  | rec :: p' =>
      if cmp first rec =? 0
      then let '(g, rest) := merge_group cmp first p' in (rec :: g, rest)
      else ([], p)
  end.

Lemma merge_group_app cmp first p :
  (merge_group cmp first p).1 ++ (merge_group cmp first p).2 = p.
Proof.
  induction p as [|rec p IH]; [done|]. simpl.
  destruct (cmp first rec =? 0); [|done].
  destruct (merge_group cmp first p) as [g rest]. simpl in *. by f_equal.
Qed.

Lemma merge_group_length cmp first p :
  (length (merge_group cmp first p).2 <= length p)%nat.
Proof.
  rewrite <- (merge_group_app cmp first p) at 2. rewrite length_app. lia.
Qed.

(** The function states of a merged group: every record of the group is
    consumed as a partial into a fresh row. *)
Definition group_row (a : Aggregator) (row : valRow) (grp : list Value) : valRow :=
  foldl (λ row rec, valRow_consumeAsPartial (aggs a) row rec (aggRefs a)) row grp.

(** The output record of a merged group: key fields read from its first
    record through the key references, then the results of the row. *)
Definition group_record (a : Aggregator) (grp : list Value) : Value :=
  match grp with
  | [] => zeroValue
  | first :: _ =>
      let keyVals := map (λ e : Evaluator, e first) (keyRefs a) in
      let vals := valRow_results (partialsOut a) (aggs a)
                    (group_row a (newValRow (aggs a)) grp) in
      mkRecord (map Value_Bytes keyVals ++ map Value_Bytes vals)
               (map Value_Type keyVals ++ map Value_Type vals)
  end.

Definition set_pending (a : Aggregator) (p : list Value) : Aggregator :=
  set_spiller a (option_map (λ m, mkMergeSort (ms_compare m) p) (spiller a)).

Lemma set_pending_id a m :
  spiller a = Some m → set_pending a (ms_pending m) = a.
Proof.
  unfold set_pending. intros H. rewrite H.
  destruct a, m; simpl in *; by subst.
Qed.

Lemma spiller_Peek_spec a m :
  no_faults → spiller a = Some m →
  spiller_Peek a = (a, Ok (head (ms_pending m))).
Proof.
  intros Hnf Hsp. unfold spiller_Peek, bind, deref, lift, MergeSort_Peek.
  by rewrite Hsp, Hnf.
Qed.

Lemma spiller_Read_spec a m :
  no_faults → spiller a = Some m →
  spiller_Read a = (set_pending a (tail (ms_pending m)), Ok (head (ms_pending m))).
Proof.
  intros Hnf Hsp.
  unfold spiller_Read, bind, deref, lift, modify, ret, MergeSort_Read, set_pending.
  by rewrite Hsp, Hnf.
Qed.

Lemma nextResultFromSpills_loop_Some a m fuel first row :
  no_faults → spiller a = Some m →
  (length (ms_pending m) < fuel)%nat →
  nextResultFromSpills_loop fuel (Some first) row a
  = (set_pending a (merge_group (keysComparator a) first (ms_pending m)).2,
     Ok (Some first,
         group_row a row (merge_group (keysComparator a) first (ms_pending m)).1)).
Proof.
  intros Hnf. revert a m row.
  induction fuel as [|fuel IH]; intros a m row Hsp Hfuel; [lia|].
  cbn [nextResultFromSpills_loop].
  rewrite (bind_Ok _ _ _ _ _ (spiller_Peek_spec a m Hnf Hsp)).
  destruct (ms_pending m) as [|rec p] eqn:Hp; cbn [head merge_group fst snd].
  { assert (set_pending a [] = a) as -> by (rewrite <- Hp; by apply set_pending_id).
    done. }
  mnorm. destruct (keysComparator a first rec =? 0) eqn:Hc; cbn [negb].
  - mnorm. rewrite (bind_Ok _ _ _ _ _ (spiller_Read_spec a m Hnf Hsp)).
    rewrite Hp. cbn [tail].
    assert (spiller (set_pending a p) = Some (mkMergeSort (ms_compare m) p)) as Hsp'
      by (unfold set_pending; cbn [spiller set_spiller]; by rewrite Hsp).
    rewrite (IH _ _ _ Hsp') by (simpl in *; lia).
    cbn [ms_pending].
    change (keysComparator (set_pending a p)) with (keysComparator a).
    destruct (merge_group (keysComparator a) first p) as [g rest]. cbn [fst snd].
    f_equal.
    unfold set_pending. cbn [spiller set_spiller]. rewrite Hsp. done.
  - cbn [fst snd].
    assert (set_pending a (rec :: p) = a) as ->
      by (rewrite <- Hp; by apply set_pending_id).
    done.
Qed.

Lemma nextResultFromSpills_loop_None fuel row :
  nextResultFromSpills_loop (S fuel) None row
  = (rec <- spiller_Peek ;;
     match rec with
     | None => ret (None, row)
     | Some rec =>
         cmp <- get keysComparator ;;
         acc <- get aggs ;;
         refs <- get aggRefs ;;
         let row := valRow_consumeAsPartial acc row rec refs in
         spiller_Read ;;;
         nextResultFromSpills_loop fuel (Some rec) row
     end).
Proof. done. Qed.

Lemma nextResultFromSpills_nil a m :
  no_faults → spiller a = Some m → ms_pending m = [] →
  nextResultFromSpills a = (a, Ok None).
Proof.
  intros Hnf Hsp Hp. unfold nextResultFromSpills.
  mstep (deref_Some spiller a m Hsp). rewrite Hp.
  cbn [length nextResultFromSpills_loop].
  mstep (spiller_Peek_spec a m Hnf Hsp). rewrite Hp.
  cbn [head]. mnorm. done.
Qed.

Lemma nextResultFromSpills_cons a m rec p :
  no_faults → Encode_total → memo_wf a →
  spiller a = Some m → ms_pending m = rec :: p →
  ∃ ot rt,
    nextResultFromSpills a
    = (set_pending (set_recordTypes (set_outTypes a ot) rt)
         (merge_group (keysComparator a) rec p).2,
       Ok (Some (group_record a (rec :: (merge_group (keysComparator a) rec p).1))))
    ∧ memo_wf (set_recordTypes (set_outTypes a ot) rt).
Proof.
  intros Hnf Henc Hm Hsp Hp.
  set (g := (merge_group (keysComparator a) rec p).1).
  set (rest := (merge_group (keysComparator a) rec p).2).
  set (row := group_row a (newValRow (aggs a)) (rec :: g)).
  set (keyVals := map (λ e : Evaluator, e rec) (keyRefs a)).
  set (vals := valRow_results (partialsOut a) (aggs a) row).
  assert (memo_wf (set_pending a rest)) as Hm' by (intros j t; apply Hm).
  destruct (buildRecord_spec (set_pending a rest)
              (map Value_Bytes keyVals ++ map Value_Bytes vals)
              (map Value_Type keyVals ++ map Value_Type vals) Henc Hm')
    as (ot & rt & Hb & Hm'').
  exists ot, rt. split; [|intros j t; apply Hm''].
  unfold nextResultFromSpills.
  mstep (deref_Some spiller a m Hsp). rewrite Hp.
  rewrite nextResultFromSpills_loop_None.
  mstep (spiller_Peek_spec a m Hnf Hsp). rewrite Hp.
  cbn [head].
  mstep (spiller_Read_spec a m Hnf Hsp). rewrite Hp.
  cbn [tail length]. mnorm.
  assert (spiller (set_pending a p) = Some (mkMergeSort (ms_compare m) p)) as Hsp'
    by (unfold set_pending; cbn [spiller set_spiller]; by rewrite Hsp).
  rewrite (bind_Ok _ _ _ _ _
             (nextResultFromSpills_loop_Some (set_pending a p) _ (S (length p)) rec
                (valRow_consumeAsPartial (aggs a) (newValRow (aggs a)) rec (aggRefs a))
                Hnf Hsp' ltac:(simpl; lia))).
  cbn [fst snd ms_pending].
  change (keysComparator (set_pending a p)) with (keysComparator a).
  fold g rest. mnorm.
  assert (set_pending (set_pending a p) rest = set_pending a rest) as ->.
  { unfold set_pending. cbn [spiller set_spiller]. by destruct (spiller a). }
  cbn [keyRefs partialsOut set_pending set_spiller].
  change (group_row (set_pending a p)
            (valRow_consumeAsPartial (aggs a) (newValRow (aggs a)) rec (aggRefs a)) g)
    with row.
  fold keyVals vals. mstep Hb. mnorm.
  unfold group_record. fold row keyVals vals. done.
Qed.

(** Whether the loop of [readSpills] stops at the record it peeks. *)
Definition spill_stop (a : Aggregator) (eof : bool) (p : list Value) : bool :=
  if negb eof && negb (inputDir a =? 0) then
    match p, keyExprs a with
    | [], _ => true
    | rec :: _, keyExpr0 :: _ =>
        if Value_IsError (keyExpr0 rec) then false
        else match valueCompare a, maxSpillKey a with
             | Some vc, Some msk => 0 <=? vc (keyExpr0 rec) msk
             | _, _ => true
             end
    | _ :: _, [] => true
    end
  else false.

(** The groups taken from the merged stream [p] by at most [n] passes of
    the loop of [readSpills], and what the stream has left; [stop] is the
    test made on the peeked stream and [kc] the keys comparator. *)
Fixpoint drain_groups (stop : list Value → bool) (kc : CompareFn) (n : nat)
    (p : list Value) : list (list Value) * list Value :=
  match n with
  | O => ([], p)
  | S n' =>
      if stop p then ([], p)
      else match p with
           | [] => ([], [])
           | rec :: p' =>
               let '(g, rest) := merge_group kc rec p' in
               let '(gs, rest') := drain_groups stop kc n' rest in
               ((rec :: g) :: gs, rest')
           end
  end.

Definition drain (a : Aggregator) (n : nat) (eof : bool) (p : list Value)
  : list (list Value) * list Value :=
  drain_groups (spill_stop a eof) (keysComparator a) n p.

(** The peek of the loop cannot fail: before the end of a sorted input a
    head record with a proper key finds [maxSpillKey] set. *)
Definition spills_ready (a : Aggregator) (eof : bool) : Prop :=
  eof = false → inputDir a ≠ 0 →
  keyExprs a ≠ [] ∧ is_Some (valueCompare a) ∧ is_Some (maxSpillKey a).

Lemma readSpills_loop_spec n eof : ∀ a m recs,
  no_faults → Encode_total → memo_wf a →
  spiller a = Some m → spills_ready a eof →
  ∃ ot rt,
    readSpills_loop n eof recs a
    = (set_pending (set_recordTypes (set_outTypes a ot) rt)
         (drain a n eof (ms_pending m)).2,
       Ok (recs ++ map (group_record a) (drain a n eof (ms_pending m)).1))
    ∧ memo_wf (set_recordTypes (set_outTypes a ot) rt).
Proof.
  induction n as [|n IH]; intros a m recs Hnf Henc Hm Hsp Hready.
  { exists (outTypes a), (recordTypes a).
    unfold drain. cbn [readSpills_loop drain_groups fst snd map].
    rewrite app_nil_r. split; [|intros j t; apply Hm].
    unfold ret. f_equal.
    transitivity (set_pending a (ms_pending m)); [by rewrite set_pending_id|].
    by destruct a. }
  unfold drain. cbn [readSpills_loop drain_groups]. mnorm.
  assert ((if negb eof && negb (inputDir a =? 0)
           then rec <- spiller_Peek;;
                match rec with
                | Some rec0 =>
                    kes <- get keyExprs;;
                    match kes with
                    | [] => throw PanicIndex
                    | keyExpr0 :: _ =>
                        if Value_IsError (keyExpr0 rec0)
                        then ret false
                        else vc <- deref valueCompare;;
                             msk <- deref maxSpillKey;;
                             ret (0 <=? vc (keyExpr0 rec0) msk)
                    end
                | None => ret true
                end
           else ret false) a = (a, Ok (spill_stop a eof (ms_pending m)))) as Hstop.
  { unfold spill_stop.
    destruct (negb eof && negb (inputDir a =? 0)) eqn:Hc; [|done].
    apply andb_prop in Hc as [He Hd].
    assert (inputDir a ≠ 0) as Hdir
      by (intros Heq; rewrite Heq in Hd; discriminate).
    destruct eof; [done|].
    destruct (Hready eq_refl Hdir) as (Hkes & [vc Hvc] & [msk Hmsk]).
    rewrite (bind_Ok _ _ _ _ _ (spiller_Peek_spec a m Hnf Hsp)).
    destruct (ms_pending m) as [|rec p]; [done|]. cbn [head]. mnorm.
    destruct (keyExprs a) as [|e0 es]; [done|].
    destruct (Value_IsError (e0 rec)); [done|].
    unfold deref, bind, ret. by rewrite Hvc, Hmsk. }
  rewrite (bind_Ok _ _ _ _ _ Hstop).
  destruct (spill_stop a eof (ms_pending m)) eqn:Hs.
  { exists (outTypes a), (recordTypes a). cbn [fst snd map].
    rewrite app_nil_r. split; [|intros j t; apply Hm].
    unfold ret. f_equal.
    transitivity (set_pending a (ms_pending m)); [by rewrite set_pending_id|].
    by destruct a. }
  destruct (ms_pending m) as [|rec p] eqn:Hp.
  { rewrite (bind_Ok _ _ _ _ _ (nextResultFromSpills_nil a m Hnf Hsp Hp)).
    exists (outTypes a), (recordTypes a). cbn [fst snd map].
    rewrite app_nil_r. split; [|intros j t; apply Hm].
    unfold ret. f_equal.
    transitivity (set_pending a (ms_pending m)); [by rewrite set_pending_id|].
    rewrite Hp. by destruct a. }
  destruct (nextResultFromSpills_cons a m rec p Hnf Henc Hm Hsp Hp)
    as (ot & rt & Hn & Hm').
  rewrite (bind_Ok _ _ _ _ _ Hn).
  set (g := (merge_group (keysComparator a) rec p).1) in *.
  set (rest := (merge_group (keysComparator a) rec p).2) in *.
  set (a1 := set_pending (set_recordTypes (set_outTypes a ot) rt) rest).
  assert (spiller a1 = Some (mkMergeSort (ms_compare m) rest)) as Hsp1
    by (unfold a1, set_pending; cbn [spiller set_spiller set_recordTypes set_outTypes];
        by rewrite Hsp).
  destruct (IH a1 (mkMergeSort (ms_compare m) rest)
              (recs ++ [group_record a (rec :: g)]) Hnf Henc) as (ot' & rt' & Hl & Hm'');
    [intros j t; apply Hm'|exact Hsp1|exact Hready|].
  exists ot', rt'. split; [|intros j t; apply Hm''].
  rewrite Hl. cbn [ms_pending].
  destruct (merge_group (keysComparator a) rec p) as [g0 rest0] eqn:Hmg.
  subst g rest. cbn [fst snd] in *.
  change (drain a1 n eof rest0) with (drain a n eof rest0).
  unfold drain.
  destruct (drain_groups (spill_stop a eof) (keysComparator a) n rest0)
    as [gs rest'] eqn:Hd. cbn [fst snd map].
  f_equal.
  - unfold a1, set_pending. cbn [spiller set_spiller set_recordTypes set_outTypes].
    by destruct (spiller a).
  - f_equal. rewrite <- app_assoc. done.
Qed.

Lemma readSpills_spec a m eof :
  no_faults → Encode_total → memo_wf a →
  spiller a = Some m → spills_ready a eof →
  (eof = false → inputDir a ≠ 0) →
  ∃ ot rt,
    readSpills eof a
    = (set_pending (set_recordTypes (set_outTypes a ot) rt)
         (drain a BatchLen eof (ms_pending m)).2,
       Ok (batch_of (map (group_record a) (drain a BatchLen eof (ms_pending m)).1)))
    ∧ memo_wf (set_recordTypes (set_outTypes a ot) rt).
Proof.
  intros Hnf Henc Hm Hsp Hready Hdir.
  destruct (readSpills_loop_spec BatchLen eof a m [] Hnf Henc Hm Hsp Hready)
    as (ot & rt & Hl & Hm').
  exists ot, rt. split; [|done].
  unfold readSpills. mnorm.
  replace (negb eof && (inputDir a =? 0)) with false.
  2: { destruct eof; [done|]. cbn [negb andb]. symmetry. apply Z.eqb_neq. by apply Hdir. }
  mstep Hl. mnorm. done.
Qed.

(** ** The stop condition of the spill drain and [maxSpillKey] *)

Lemma drain_sorted_spec a n p e0 es vc msk :
  inputDir a ≠ 0 → keyExprs a = e0 :: es →
  valueCompare a = Some vc → maxSpillKey a = Some msk →
  concat (drain a n false p).1 ++ (drain a n false p).2 = p
  ∧ Forall (λ g, ∃ rec g', g = rec :: g'
                 ∧ (Value_IsError (e0 rec) = true ∨ vc (e0 rec) msk < 0))
           (drain a n false p).1
  ∧ ((length (drain a n false p).1 < n)%nat →
     match (drain a n false p).2 with
     | [] => True
     | rec :: _ => Value_IsError (e0 rec) = false ∧ 0 <= vc (e0 rec) msk
     end).
Proof.
  intros Hdir Hkes Hvc Hmsk. unfold drain.
  assert (∀ rec q, spill_stop a false (rec :: q)
                   = if Value_IsError (e0 rec) then false else 0 <=? vc (e0 rec) msk)
    as Hstop.
  { intros rec q. unfold spill_stop. rewrite Hkes, Hvc, Hmsk.
    by replace (inputDir a =? 0) with false by (symmetry; by apply Z.eqb_neq). }
  assert (spill_stop a false [] = true) as Hstop0.
  { unfold spill_stop.
    by replace (inputDir a =? 0) with false by (symmetry; by apply Z.eqb_neq). }
  revert p. induction n as [|n IH]; intros p.
  { cbn [drain_groups fst snd concat app length]. split; [done|]. split; [done|]. lia. }
  cbn [drain_groups]. destruct p as [|rec p].
  { rewrite Hstop0. cbn [fst snd concat app length]. done. }
  rewrite Hstop.
  destruct (Value_IsError (e0 rec)) eqn:Herr.
  - pose proof (merge_group_app (keysComparator a) rec p) as Happ.
    destruct (merge_group (keysComparator a) rec p) as [g rest].
    destruct (IH rest) as (IH1 & IH2 & IH3).
    destruct (drain_groups _ _ n rest) as [gs rest']. cbn [fst snd] in *.
    split; [|split].
    + cbn [concat]. rewrite <- Happ, <- IH1. by rewrite <- !app_assoc.
    + apply Forall_cons. split; [|done]. exists rec, g. by eauto.
    + intros Hlen. apply IH3. simpl in Hlen. lia.
  - destruct (Z.leb_spec 0 (vc (e0 rec) msk)) as [Hle|Hlt].
    + cbn [fst snd concat app length]. split; [done|]. split; [done|]. by intros _.
    + pose proof (merge_group_app (keysComparator a) rec p) as Happ.
      destruct (merge_group (keysComparator a) rec p) as [g rest].
      destruct (IH rest) as (IH1 & IH2 & IH3).
      destruct (drain_groups _ _ n rest) as [gs rest']. cbn [fst snd] in *.
      split; [|split].
      * cbn [concat]. rewrite <- Happ, <- IH1. by rewrite <- !app_assoc.
      * apply Forall_cons. split; [|done]. exists rec, g. by eauto.
      * intros Hlen. apply IH3. simpl in Hlen. lia.
Qed.

(** A value is the largest of a list under a compare function; no value is
    recorded for the empty list. *)
Definition is_largest (vc : CompareFn) (H : list Value) (o : option Value) : Prop :=
  match o with
  | None => H = []
  | Some msk => msk ∈ H ∧ ∀ x, x ∈ H → vc x msk <= 0
  end.

(** What the amended claim asks of the comparators. *)
Definition cmp_transitive (vc : CompareFn) : Prop :=
  ∀ x y z, vc x y <= 0 → vc y z <= 0 → vc x z <= 0.

Definition cmp_antisym (vc : CompareFn) : Prop :=
  ∀ x y, 0 < vc x y → vc y x <= 0.

Lemma Sorted_last_largest (R : relation Value) l x :
  (∀ a b c, R a b → R b c → R a c) → (∀ a, R a a) →
  Sorted R l → last l = Some x → ∀ y, y ∈ l → R y x.
Proof.
  intros Htrans Hrefl Hs Hlast y Hy.
  assert (Transitive R) as HT by exact Htrans.
  apply Sorted_StronglySorted in Hs; [|done].
  induction Hs as [|a l Hs IH Hall]; [by apply elem_of_nil in Hy|].
  destruct l as [|b l].
  - simpl in Hlast. inversion Hlast; subst.
    apply list_elem_of_singleton in Hy as ->. apply Hrefl.
  - rewrite last_cons_cons in Hlast.
    apply elem_of_cons in Hy as [->|Hy]; [|by apply IH].
    apply Forall_forall with (x := x) in Hall; [done|].
    clear -Hlast. revert b Hlast. induction l as [|c l IHl]; intros b Hlast.
    + simpl in Hlast. inversion Hlast. by left.
    + rewrite last_cons_cons in Hlast. right. by apply IHl.
Qed.

Lemma Sorted_weaken (R1 R2 : relation Value) l :
  (∀ x y, R1 x y → R2 x y) → Sorted R1 l → Sorted R2 l.
Proof.
  intros Himp Hs. induction Hs as [|x l Hs IH Hhd]; constructor; [done|].
  destruct Hhd; constructor. by apply Himp.
Qed.

Lemma spillTable_maxSpillKey a e0 es vc H :
  no_faults → Encode_total → map_range_perm → memo_wf a → rows_wf a →
  inputDir a ≠ 0 → keyExprs a = e0 :: es → valueCompare a = Some vc →
  table a ≠ ∅ →
  let kc := ms_compare (default (mkMergeSort (keysComparator a) []) (spiller a)) in
  Total (cmp_le kc) →
  (∀ r1 r2, kc r1 r2 <= 0 → vc (e0 r1) (e0 r2) <= 0) →
  cmp_transitive vc → cmp_antisym vc →
  Forall (λ r, Value_IsError (e0 r) = false) (table_records a true) →
  is_largest vc H (maxSpillKey a) →
  ∃ a', spillTable false a = (a', Ok tt)
        ∧ is_largest vc (H ++ map e0 (table_records a true)) (maxSpillKey a').
Proof.
  intros Hnf Henc Hperm Hm Hrows Hdir Hkes Hvc Hne kc Htot Hprim Htrans Hanti Herr Hlarge.
  assert (sorted_mode_ok a) as Hsorted.
  { intros _. rewrite Hkes, Hvc. by eauto. }
  destruct (spillTable_spec a false Hnf Henc Hperm Hm Hrows Hsorted)
    as (ot & rt & Hspill & _).
  destruct (table_records a true) as [|r0 recs0] eqn:Htr.
  { destruct Hne. by apply (table_records_nil a true). }
  rewrite <- Htr in *. eexists. split; [exact Hspill|].
  cbn [maxSpillKey set_maxSpillKey]. unfold spill_merge. cbn [ms_compare]. fold kc.
  set (run := SortStable kc (table_records a true)).
  assert (run ≡ₚ table_records a true) as Hrun by apply SortStable_perm.
  destruct (last run) as [rec|] eqn:Hlast.
  2: { apply last_None in Hlast. rewrite Hlast in Hrun.
       apply Permutation_nil_l in Hrun. rewrite Htr in Hrun. done. }
  assert (∀ x, vc x x <= 0) as Hrefl.
  { intros x. destruct (Z.lt_ge_cases 0 (vc x x)) as [Hlt|Hge]; [|lia]. by apply Hanti. }
  assert (∀ y, y ∈ run → vc (e0 y) (e0 rec) <= 0) as Hmax.
  { apply (Sorted_last_largest (λ r r', vc (e0 r) (e0 r') <= 0)); [| | |done].
    - intros x y z. apply Htrans.
    - intros x. apply Hrefl.
    - apply (Sorted_weaken (cmp_le kc)); [exact Hprim|].
      apply Sorted_merge_sort. exact Htot. }
  assert (rec ∈ run) as Hrec.
  { apply last_Some in Hlast as [l' ->]. apply elem_of_app. right. by left. }
  assert (Value_IsError (e0 rec) = false) as Herec.
  { rewrite Forall_forall in Herr. apply Herr. by rewrite <- Hrun. }
  unfold spill_maxSpillKey. cbn [negb andb].
  replace (inputDir a =? 0) with false by (symmetry; by apply Z.eqb_neq).
  cbn [negb]. rewrite Hkes, Hlast, Herec, Hvc.
  assert (∀ x, x ∈ map e0 (table_records a true) → vc x (e0 rec) <= 0) as Hmax'.
  { intros x Hx. apply list_elem_of_fmap in Hx as (y & -> & Hy).
    apply Hmax. by rewrite Hrun. }
  assert (e0 rec ∈ map e0 (table_records a true)) as Hin.
  { apply list_elem_of_fmap. exists rec. split; [done|]. by rewrite <- Hrun. }
  unfold is_largest in *.
  destruct (maxSpillKey a) as [msk|].
  - destruct Hlarge as [Hmsk Hall].
    destruct (Z.ltb_spec 0 (vc (e0 rec) msk)) as [Hlt|Hge].
    + split; [apply elem_of_app; by right|].
      intros x Hx. apply elem_of_app in Hx as [Hx|Hx]; [|by apply Hmax'].
      apply (Htrans x msk); [by apply Hall|by apply Hanti].
    + split; [apply elem_of_app; by left|].
      intros x Hx. apply elem_of_app in Hx as [Hx|Hx]; [by apply Hall|].
      apply (Htrans x (e0 rec)); [by apply Hmax'|done].
  - subst H. cbn [app]. split; [done|]. exact Hmax'.
Qed.

Lemma readSpills_stops a m e0 es vc msk :
  no_faults → Encode_total → memo_wf a →
  inputDir a ≠ 0 → spiller a = Some m → keyExprs a = e0 :: es →
  valueCompare a = Some vc → maxSpillKey a = Some msk →
  ∃ a' groups rest,
    readSpills false a = (a', Ok (batch_of (map (group_record a) groups)))
    ∧ ms_pending m = concat groups ++ rest
    ∧ spiller a' = Some (mkMergeSort (ms_compare m) rest)
    ∧ Forall (λ g, ∃ rec g', g = rec :: g'
                   ∧ (Value_IsError (e0 rec) = true ∨ vc (e0 rec) msk < 0)) groups
    ∧ ((length groups < BatchLen)%nat →
       match rest with
       | [] => True
       | rec :: _ => Value_IsError (e0 rec) = false ∧ 0 <= vc (e0 rec) msk
       end).
Proof.
  intros Hnf Henc Hm Hdir Hsp Hkes Hvc Hmsk.
  assert (spills_ready a false) as Hready.
  { intros _ _. rewrite Hkes, Hvc, Hmsk. by eauto. }
  destruct (readSpills_spec a m false Hnf Henc Hm Hsp Hready) as (ot & rt & Hr & _);
    [done|].
  destruct (drain_sorted_spec a BatchLen (ms_pending m) e0 es vc msk Hdir Hkes Hvc Hmsk)
    as (H1 & H2 & H3).
  eexists _, _, _. split; [exact Hr|].
  split; [by rewrite H1|]. split; [|by split].
  unfold set_pending. cbn [spiller set_spiller set_recordTypes set_outTypes].
  by rewrite Hsp.
Qed.


(** ** Release of the spill files *)

(** A property of the aggregator kept by a computation on every path, the
    failing ones included. *)
Definition preserves {A} (P : Aggregator → Prop) (m : M A) : Prop :=
  ∀ a a' r, m a = (a', r) → P a → P a'.

Section Preserves.
Variable P : Aggregator → Prop.

Lemma preserves_ret {A} (x : A) : preserves P (ret x).
Proof. intros a a' r H. by inversion H. Qed.

Lemma preserves_get {A} (f : Aggregator → A) : preserves P (get f).
Proof. intros a a' r H. by inversion H. Qed.

Lemma preserves_lift {A} (x : outcome A) : preserves P (lift x).
Proof. intros a a' r H. by inversion H. Qed.

Lemma preserves_throw {A} p : preserves P (throw (A := A) p).
Proof. intros a a' r H. by inversion H. Qed.

Lemma preserves_deref {A} (f : Aggregator → option A) : preserves P (deref f).
Proof. intros a a' r H. unfold deref in H. by destruct (f a); inversion H. Qed.

Lemma preserves_modify (f : Aggregator → Aggregator) :
  (∀ a, P a → P (f a)) → preserves P (modify f).
Proof. intros Hf a a' r H. inversion H; subst. by apply Hf. Qed.

Lemma preserves_bind {A B} (m : M A) (f : A → M B) :
  preserves P m → (∀ x, preserves P (f x)) → preserves P (bind m f).
Proof.
  intros Hm Hf a a' r H HP. unfold bind in H.
  destruct (m a) as [a1 [x|e|p]] eqn:Hma.
  - eapply Hf; [exact H|]. by eapply Hm.
  - inversion H; subst. by eapply Hm.
  - inversion H; subst. by eapply Hm.
Qed.
End Preserves.

Create HintDb pres.

Ltac pres_step :=
  first
    [ solve [auto with pres nocore]
    | apply preserves_ret | apply preserves_get | apply preserves_lift
    | apply preserves_throw | apply preserves_deref
    | apply preserves_modify; [intros ? ?; simpl; done]
    | apply preserves_bind; [|intros ?]
    | match goal with
      | |- preserves _ (match ?x with _ => _ end) => destruct x
      | |- preserves _ (let '(_, _) := ?x in _) => destruct x
      end ].

Ltac pres := repeat pres_step.

(** The merge-sort handle, once installed, stays installed through every
    method of the aggregator. *)
Definition has_spiller (a : Aggregator) : Prop := is_Some (spiller a).

Lemma preserves_set_spiller (f : Aggregator → Aggregator) :
  (∀ a, is_Some (spiller (f a))) → preserves has_spiller (modify f).
Proof. intros Hf a a' r H _. inversion H; subst. apply Hf. Qed.

Lemma preserves_updateMaxTableKey val : preserves has_spiller (updateMaxTableKey val).
Proof.
  intros a a' r H. unfold updateMaxTableKey in H.
  repeat (match type of H with context [match ?x with _ => _ end] => destruct x end);
    by inversion H.
Qed.

Lemma preserves_updateMaxSpillKey v : preserves has_spiller (updateMaxSpillKey v).
Proof.
  intros a a' r H. unfold updateMaxSpillKey in H.
  repeat (match type of H with context [match ?x with _ => _ end] => destruct x end);
    by inversion H.
Qed.

Lemma preserves_lookupRecordType types : preserves has_spiller (lookupRecordType types).
Proof.
  intros a a' r H. unfold lookupRecordType in H.
  repeat (match type of H with context [match ?x with _ => _ end] => destruct x end);
    by inversion H.
Qed.

#[local] Hint Resolve preserves_updateMaxTableKey preserves_updateMaxSpillKey
  preserves_lookupRecordType : pres.

Lemma preserves_buildRecord fields types :
  preserves has_spiller (buildRecord fields types).
Proof. unfold buildRecord. pres. Qed.

#[local] Hint Resolve preserves_buildRecord : pres.

Lemma preserves_readTable_loop flush po entries recs :
  preserves has_spiller (readTable_loop flush po entries recs).
Proof.
  revert recs. induction entries as [|[key row] entries IH]; intros recs; simpl.
  { pres. }
  apply preserves_bind; [|intros r; apply IH].
  unfold readTable_entry. pres.
Qed.

#[local] Hint Resolve preserves_readTable_loop : pres.

Lemma preserves_readTable flush po : preserves has_spiller (readTable flush po).
Proof. unfold readTable. pres. Qed.

#[local] Hint Resolve preserves_readTable : pres.

Lemma preserves_spillTable eof : preserves has_spiller (spillTable eof).
Proof.
  unfold spillTable. pres;
    apply preserves_set_spiller; intros ?; simpl; by eauto.
Qed.

#[local] Hint Resolve preserves_spillTable : pres.

Lemma preserves_Consume_keys i es this types keyBytes prim :
  preserves has_spiller (Consume_keys i es this types keyBytes prim).
Proof.
  revert i types keyBytes prim.
  induction es as [|e es IH]; intros i types keyBytes prim; simpl; [pres|].
  destruct (Value_IsQuiet (e this)); [pres|].
  apply preserves_bind; [pres|intros dir].
  apply preserves_bind; [|intros p; apply IH].
  destruct (_ && _); pres.
Qed.

#[local] Hint Resolve preserves_Consume_keys : pres.

Lemma preserves_Consume this : preserves has_spiller (Consume this).
Proof. unfold Consume. pres. Qed.

#[local] Hint Resolve preserves_Consume : pres.

Lemma preserves_Consume_all vals : preserves has_spiller (Consume_all vals).
Proof.
  induction vals as [|v vals IH]; simpl; [pres|].
  apply preserves_bind; [pres|intros _; apply IH].
Qed.

Lemma preserves_spiller_Peek : preserves has_spiller spiller_Peek.
Proof. unfold spiller_Peek. pres. Qed.

Lemma preserves_spiller_Read : preserves has_spiller spiller_Read.
Proof.
  unfold spiller_Read. pres.
  apply preserves_set_spiller. intros ?. simpl. by eauto.
Qed.

#[local] Hint Resolve preserves_spiller_Peek preserves_spiller_Read : pres.

Lemma preserves_nextResultFromSpills_loop fuel firstRec row :
  preserves has_spiller (nextResultFromSpills_loop fuel firstRec row).
Proof.
  revert firstRec row. induction fuel as [|fuel IH]; intros firstRec row; simpl; [pres|].
  pres; apply IH.
Qed.

#[local] Hint Resolve preserves_nextResultFromSpills_loop : pres.

Lemma preserves_nextResultFromSpills : preserves has_spiller nextResultFromSpills.
Proof. unfold nextResultFromSpills. pres. Qed.

#[local] Hint Resolve preserves_nextResultFromSpills : pres.

Lemma preserves_readSpills_loop n eof recs :
  preserves has_spiller (readSpills_loop n eof recs).
Proof.
  revert recs. induction n as [|n IH]; intros recs; simpl; [pres|].
  pres; apply IH.
Qed.

#[local] Hint Resolve preserves_readSpills_loop : pres.

Lemma preserves_nextResult eof : preserves has_spiller (nextResult eof).
Proof. unfold nextResult, readSpills. pres. Qed.


(** Whether, after a trace, a merge-sort handle has been created and not
    yet cleaned up. *)
Definition live_step (b : bool) (ev : Event) : bool :=
  match ev with
  | EvSpillCreated => true
  | EvSpillCleanup => false
  | _ => b
  end.

Definition live (tr : list Event) : bool := foldl live_step false tr.

Lemma live_app tr ev : live (tr ++ [ev]) = live_step (live tr) ev.
Proof. unfold live. by rewrite foldl_app. Qed.

(** The operator holds a merge-sort handle exactly when one is live. *)
Definition op_inv (o : Op) : Prop :=
  live (trace o) = true ↔ is_Some (spiller (agg o)).

Lemma op_inv_log o ev :
  live_step (live (trace o)) ev = live (trace o) →
  op_inv o → op_inv (log o [ev]).
Proof. unfold op_inv, log. simpl. rewrite live_app. by intros ->. Qed.

Lemma Op_call_inv {A} (m : M A) o o' r :
  preserves has_spiller m → op_inv o → Op_call m o = (o', r) → op_inv o'.
Proof.
  intros Hpres Hinv H. unfold Op_call in H.
  destruct (m (agg o)) as [a' r'] eqn:Hm. inversion H; subst. clear H.
  unfold op_inv in *. simpl.
  destruct (spiller (agg o)) as [m0|] eqn:Hsp.
  - assert (is_Some (spiller a')) as Hs
      by (eapply Hpres; [exact Hm|]; unfold has_spiller; rewrite Hsp; by eauto).
    rewrite app_nil_r. split; [done|]. intros _. apply Hinv. by eauto.
  - destruct (spiller a') as [m1|] eqn:Hsp'.
    + rewrite live_app. simpl. split; by eauto.
    + rewrite app_nil_r. rewrite Hinv. done.
Qed.

Lemma reset_spec o :
  op_inv o → live (trace (reset o)) = false ∧ spiller (agg (reset o)) = None.
Proof.
  intros Hinv. unfold reset.
  destruct (spiller (agg o)) as [m|] eqn:Hsp; simpl; rewrite !live_app; simpl.
  - done.
  - split; [|done]. destruct (live (trace o)) eqn:Hl; [|done].
    apply Hinv in Hl. rewrite Hsp in Hl. by destruct Hl.
Qed.

Lemma op_inv_dead o : live (trace o) = false → spiller (agg o) = None → op_inv o.
Proof. intros Hl Hs. unfold op_inv. rewrite Hl, Hs. split; [done|]. by intros []. Qed.

Lemma sendResult_inv s o b err o' r :
  op_inv o → sendResult s o b err = (o', r) → op_inv o'.
Proof.
  intros Hinv H. unfold sendResult in H.
  set (o1 := match b with None => log o [EvResetterReset] | Some _ => o end) in *.
  assert (op_inv o1) as Hinv1 by (destruct b; [done|by apply op_inv_log]).
  destruct s as [[|pullErr sent|]|].
  - inversion H; subst. by apply op_inv_log.
  - destruct (reset_spec o1 Hinv1) as [Hl Hs].
    assert (op_inv (log (reset o1) [EvParentPullDone])) as Hinv2
      by (apply op_inv_log; [done|by apply op_inv_dead]).
    destruct (match err with Some e => Some e | None => pullErr end).
    + destruct sent; inversion H; subst; [by apply op_inv_log|done].
    + by inversion H; subst.
  - by inversion H; subst.
  - by inversion H; subst.
Qed.

(** A downstream cancellation cleans up the merge-sort handle and drops
    it. *)
Lemma sendResult_done_cleanup pullErr sent o b err o' r :
  op_inv o → sendResult (Some (SelDone pullErr sent)) o b err = (o', r) →
  live (trace o') = false ∧ spiller (agg o') = None.
Proof.
  intros Hinv H. unfold sendResult in H.
  set (o1 := match b with None => log o [EvResetterReset] | Some _ => o end) in *.
  assert (op_inv o1) as Hinv1 by (destruct b; [done|by apply op_inv_log]).
  destruct (reset_spec o1 Hinv1) as [Hl Hs].
  destruct (match err with Some e => Some e | None => pullErr end).
  - destruct sent; inversion H; subst; cbn [log trace agg];
      rewrite !live_app; cbn [live_step]; done.
  - inversion H; subst. cbn [log trace agg]. rewrite live_app. done.
Qed.

Lemma sendResults_inv sels : ∀ o o' sels' f,
  op_inv o → sendResults sels o = (o', sels', f) → op_inv o'.
Proof.
  induction sels as [|s sels IH]; intros o o' sels' f Hinv H;
    cbn [sendResults emitCompleted] in H.
  - destruct (Op_call (nextResult true) o) as [o1 r] eqn:Hcall.
    pose proof (Op_call_inv _ _ _ _ (preserves_nextResult true) Hinv Hcall) as Hinv1.
    destruct r as [b|e|p]; [| |by inversion H; subst].
    + destruct (sendResult None o1 b None) as [o2 r2] eqn:Hs.
      pose proof (sendResult_inv _ _ _ _ _ _ Hinv1 Hs) as Hinv2.
      by inversion H; subst.
    + destruct (sendResult None o1 None (Some e)) as [o2 r2] eqn:Hs.
      pose proof (sendResult_inv _ _ _ _ _ _ Hinv1 Hs) as Hinv2.
      by inversion H; subst.
  - destruct (Op_call (nextResult true) o) as [o1 r] eqn:Hcall.
    pose proof (Op_call_inv _ _ _ _ (preserves_nextResult true) Hinv Hcall) as Hinv1.
    destruct r as [b|e|p]; [| |by inversion H; subst].
    + destruct (sendResult (Some s) o1 b None) as [o2 [[done ok]|]] eqn:Hs;
        pose proof (sendResult_inv _ _ _ _ _ _ Hinv1 Hs) as Hinv2.
      * destruct ok; cbn [negb] in H; [|by inversion H; subst].
        destruct (match b with None => true | Some _ => done end);
          [by inversion H; subst|]. by eapply IH.
      * by inversion H; subst.
    + destruct (sendResult (Some s) o1 None (Some e)) as [o2 [[done ok]|]] eqn:Hs;
        pose proof (sendResult_inv _ _ _ _ _ _ Hinv1 Hs) as Hinv2.
      * destruct ok; cbn [negb] in H; by inversion H; subst.
      * by inversion H; subst.
Qed.

Lemma emitCompleted_inv sels : ∀ o o' sels' f,
  op_inv o → emitCompleted sels o = (o', sels', f) → op_inv o'.
Proof.
  induction sels as [|s sels IH]; intros o o' sels' f Hinv H;
    cbn [sendResults emitCompleted] in H.
  - destruct (Op_call (nextResult false) o) as [o1 r] eqn:Hcall.
    pose proof (Op_call_inv _ _ _ _ (preserves_nextResult false) Hinv Hcall) as Hinv1.
    destruct r as [[res|]|e|p]; try (by inversion H; subst).
    + destruct (sortBatch _ res) as [res'|e|p]; by inversion H; subst.
    + cbn [head] in H.
      destruct (sendResult None o1 None (Some e)) as [o2 r2] eqn:Hs.
      pose proof (sendResult_inv _ _ _ _ _ _ Hinv1 Hs) as Hinv2.
      destruct r2 as [[d ok]|]; by inversion H; subst.
  - destruct (Op_call (nextResult false) o) as [o1 r] eqn:Hcall.
    pose proof (Op_call_inv _ _ _ _ (preserves_nextResult false) Hinv Hcall) as Hinv1.
    destruct r as [[res|]|e|p]; try (by inversion H; subst).
    + destruct (sortBatch _ res) as [res'|e|p]; try (by inversion H; subst).
      destruct (sendResult (Some s) o1 (Some res') None) as [o2 [[done ok]|]] eqn:Hs;
        pose proof (sendResult_inv _ _ _ _ _ _ Hinv1 Hs) as Hinv2.
      * destruct ok; cbn [negb] in H; [|by inversion H; subst].
        destruct done; [by inversion H; subst|]. by eapply IH.
      * by inversion H; subst.
    + cbn [head] in H.
      destruct (sendResult (Some s) o1 None (Some e)) as [o2 r2] eqn:Hs.
      pose proof (sendResult_inv _ _ _ _ _ _ Hinv1 Hs) as Hinv2.
      destruct r2 as [[d ok]|]; by inversion H; subst.
Qed.

Lemma run_loop_inv pulls : ∀ sels o o' st,
  op_inv o → run_loop pulls sels o = (o', st) → op_inv o'.
Proof.
  induction pulls as [|pull pulls IH]; intros sels o o' st Hinv H;
    cbn [run_loop] in H.
  { by inversion H; subst. }
  destruct pull as [vals| |e].
  - destruct (Op_call (Consume_all vals) o) as [o1 r] eqn:Hcall.
    pose proof (Op_call_inv _ _ _ _ (preserves_Consume_all vals) Hinv Hcall) as Hinv1.
    destruct r as [[]|e|p]; [| |by inversion H; subst].
    + destruct (inputDir (agg o1) =? 0); [by eapply IH|].
      destruct (emitCompleted sels o1) as [[o2 sels2] f] eqn:He.
      pose proof (emitCompleted_inv _ _ _ _ _ Hinv1 He) as Hinv2.
      destruct f; try (by inversion H; subst). by eapply IH.
    + destruct (sendResult (head sels) o1 None (Some e)) as [o2 r2] eqn:Hs.
      pose proof (sendResult_inv _ _ _ _ _ _ Hinv1 Hs) as Hinv2.
      destruct r2; by inversion H; subst.
  - destruct (sendResults sels o) as [[o2 sels2] f] eqn:He.
    pose proof (sendResults_inv _ _ _ _ _ Hinv He) as Hinv2.
    destruct f; try (by inversion H; subst). by eapply IH.
  - destruct (sendResult (head sels) o None (Some e)) as [o2 r2] eqn:Hs.
    pose proof (sendResult_inv _ _ _ _ _ _ Hinv Hs) as Hinv2.
    destruct r2 as [[d ok]|]; [|by inversion H; subst].
    destruct ok; [by eapply IH|by inversion H; subst].
Qed.

(** C9, as amended.  Whenever [run] returns (after a failed [Consume], or
    after a [select] that saw the context end or could only deliver an
    error), its deferred functions close the result channel and then call
    [Cleanup] on the merge-sort handle if there is one, before the wait
    group is released: no handle created during the run stays live.  A
    cancellation through the done signal cleans up and drops the handle
    inside [sendResult].  The results already sent, the terminal one
    included, precede this cleanup. *)
Theorem run_releases_spills (pulls : list PullResult) (sels : list Select)
    (o o' : Op) (st : Status) :
  op_inv o →
  run pulls sels o = (o', st) →
  st ≠ Blocked →
  live (trace o') = false
  ∧ (∃ tr, trace o'
           = tr ++ [EvCloseResultCh]
                ++ (if live tr then [EvSpillCleanup] else [])
                ++ [EvWaitGroupDone])
  ∧ (∀ pullErr sent o1 b err o2 r,
       op_inv o1 →
       sendResult (Some (SelDone pullErr sent)) o1 b err = (o2, r) →
       live (trace o2) = false ∧ spiller (agg o2) = None).
Proof.
  intros Hinv H Hst. unfold run in H.
  destruct (run_loop pulls sels o) as [o1 st1] eqn:Hloop.
  pose proof (run_loop_inv _ _ _ _ _ Hinv Hloop) as Hinv1.
  assert (o' = run_deferred o1) as ->
    by (destruct st1; inversion H; subst; done).
  unfold run_deferred. cbn [agg log trace].
  split; [|split].
  - destruct (spiller (agg o1)) as [m|] eqn:Hsp; cbn [agg log trace];
      rewrite ?app_assoc, !live_app; cbn [live_step]; [done|].
    destruct (live (trace o1)) eqn:Hl; [|done].
    apply Hinv1 in Hl. rewrite Hsp in Hl. by destruct Hl.
  - exists (trace o1).
    destruct (spiller (agg o1)) as [m|] eqn:Hsp; cbn [agg log trace].
    + replace (live (trace o1)) with true
        by (symmetry; apply Hinv1; rewrite Hsp; by eauto).
      by rewrite <- !app_assoc.
    + destruct (live (trace o1)) eqn:Hl; [|by rewrite <- !app_assoc].
      apply Hinv1 in Hl. rewrite Hsp in Hl. by destruct Hl.
  - intros. by eapply sendResult_done_cleanup.
Qed.

(** ** Contracts of the collaborators

    What the statements on whole runs ask of the field codec, of the record
    builder with the key references, and of the comparators. *)

(** [zcode.Append] appends a self-delimiting field, which the iterator
    reads back. *)
Definition zcode_roundtrip : Prop :=
  (∀ dst v, zcode_Append dst v = dst ++ zcode_Append [] v)
  ∧ (∀ v rest, zcode_Next (zcode_Append [] v ++ rest) = (v, rest)).

(** The output record of the given key values and aggregate values. *)
Definition out_record (kvs vals : list Value) : Value :=
  mkRecord (map Value_Bytes kvs ++ map Value_Bytes vals)
           (map Value_Type kvs ++ map Value_Type vals).

(** The key references read the key values back from an output record. *)
Definition keyRefs_roundtrip (refs : list Evaluator) : Prop :=
  ∀ kvs vals, length kvs = length refs →
    map (λ e : Evaluator, e (out_record kvs vals)) refs = kvs.

(** The comparison of two records by the values of a list of evaluators,
    the first difference deciding. *)
Fixpoint lex_compare (vc : CompareFn) (es : list Evaluator) : CompareFn := λ x y,
  match es with
  | [] => 0
  | e :: es' =>
      let c := vc (e x) (e y) in
      if c =? 0 then lex_compare vc es' x y else c
  end.

(** A comparator over sort expressions of one order compares the values
    of the expressions with the value comparison of that order. *)
Definition comparator_lex : Prop :=
  ∀ es o x y,
    expr_NewComparator (map (λ e : Evaluator, (e, o)) es) x y
    = lex_compare (expr_NewValueCompareFn o) es x y.

(** A three-way comparison changes sign when its arguments are swapped. *)
Definition cmp_sgn (vc : CompareFn) : Prop :=
  ∀ x y, Z.sgn (vc y x) = - Z.sgn (vc x y).

Lemma cmp_sgn_swap vc x y : cmp_sgn vc → 0 <= vc x y → vc y x <= 0.
Proof.
  intros Hs H. specialize (Hs x y).
  pose proof (Z.sgn_spec (vc x y)). pose proof (Z.sgn_spec (vc y x)). lia.
Qed.

Lemma cmp_sgn_swap' vc x y : cmp_sgn vc → vc x y <= 0 → 0 <= vc y x.
Proof.
  intros Hs H. specialize (Hs x y).
  pose proof (Z.sgn_spec (vc x y)). pose proof (Z.sgn_spec (vc y x)). lia.
Qed.

Lemma cmp_sgn_zero vc x y : cmp_sgn vc → vc x y = 0 → vc y x = 0.
Proof.
  intros Hs H. specialize (Hs x y).
  pose proof (Z.sgn_spec (vc x y)). pose proof (Z.sgn_spec (vc y x)). lia.
Qed.

Lemma cmp_sgn_refl vc x : cmp_sgn vc → vc x x = 0.
Proof.
  intros Hs. specialize (Hs x x). pose proof (Z.sgn_spec (vc x x)). lia.
Qed.

Lemma cmp_sgn_total vc : cmp_sgn vc → Total (cmp_le vc).
Proof.
  intros Hs x y. unfold cmp_le. specialize (Hs x y).
  pose proof (Z.sgn_spec (vc x y)). pose proof (Z.sgn_spec (vc y x)). lia.
Qed.

Lemma cmp_sgn_antisym vc : cmp_sgn vc → cmp_antisym vc.
Proof. intros Hs x y H. apply cmp_sgn_swap; [done|lia]. Qed.

Lemma lex_compare_sgn vc es : cmp_sgn vc → cmp_sgn (lex_compare vc es).
Proof.
  intros Hs. induction es as [|e es IH]; intros x y; cbn [lex_compare]; [done|].
  destruct (Z.eqb_spec (vc (e x) (e y)) 0) as [H0|Hn].
  - rewrite (cmp_sgn_zero vc _ _ Hs H0). cbn [Z.eqb]. apply IH.
  - destruct (Z.eqb_spec (vc (e y) (e x)) 0) as [H0'|Hn'].
    + by apply (cmp_sgn_zero vc _ _ Hs) in H0'.
    + apply Hs.
Qed.

(** What sorts by all the keys sorts by the first one. *)
Lemma lex_compare_first vc e es x y :
  lex_compare vc (e :: es) x y <= 0 → vc (e x) (e y) <= 0.
Proof.
  cbn [lex_compare]. destruct (Z.eqb_spec (vc (e x) (e y)) 0) as [H0|Hn]; lia.
Qed.

Lemma lex_compare_one vc e x y : lex_compare vc [e] x y = vc (e x) (e y).
Proof.
  cbn [lex_compare]. by destruct (Z.eqb_spec (vc (e x) (e y)) 0).
Qed.

(** A list all of whose elements are related is sorted. *)
Lemma Sorted_all_related (R : relation Value) l :
  (∀ x y, x ∈ l → y ∈ l → R x y) → Sorted R l.
Proof.
  induction l as [|x l IH]; intros H; constructor.
  - apply IH. intros y z Hy Hz. apply H; by right.
  - destruct l as [|y l]; constructor. apply H; [by left|right; by left].
Qed.

Lemma StronglySorted_sublist (R : relation Value) l1 l2 :
  sublist l1 l2 → StronglySorted R l2 → StronglySorted R l1.
Proof.
  induction 1 as [|x l1 l2 Hsub IH|x l1 l2 Hsub IH]; intros Hs; [done|..].
  - apply StronglySorted_inv in Hs as [Hs Hall]. constructor; [by apply IH|].
    rewrite Forall_forall in Hall. apply Forall_forall. intros y Hy.
    apply Hall. by eapply elem_of_sublist.
  - apply StronglySorted_inv in Hs as [Hs _]. by apply IH.
Qed.

(** ** The key fields of a table key *)

Lemma key_payload_app kb kvs :
  zcode_roundtrip → key_payload kb kvs = kb ++ key_payload [] kvs.
Proof.
  intros [Happ _]. revert kb. induction kvs as [|v kvs IH]; intros kb; cbn.
  { by rewrite app_nil_r. }
  rewrite (IH (zcode_Append kb _)), (IH (zcode_Append [] _)), (Happ kb).
  by rewrite <- app_assoc.
Qed.

Lemma key_fields_payload kvs rest :
  zcode_roundtrip →
  key_fields (map Value_Type kvs) (key_payload [] kvs ++ rest) = map Value_Bytes kvs.
Proof.
  intros Hz. induction kvs as [|v kvs IH]; [done|].
  cbn [map key_fields key_payload foldl].
  rewrite (key_payload_app (zcode_Append [] (Value_Bytes v))) by done.
  rewrite <- app_assoc. rewrite (proj2 Hz). by rewrite IH.
Qed.

Lemma AppendUvarint_app buf x : AppendUvarint buf x = buf ++ AppendUvarint [] x.
Proof. apply AppendUvarint_loop_app. Qed.

(** The key values a table entry stands for, read back the way
    [readTable] does. *)
Definition row_keys (kt : TypeVectorTable) (key : Bytes) (row : Row) : list Value :=
  let keytypes := default [] (kt !! keyType row) in
  zip_with NewValue keytypes (key_fields keytypes key).

Lemma key_fields_length types it : length (key_fields types it) = length types.
Proof.
  revert it. induction types as [|t types IH]; intros it; [done|].
  cbn [key_fields]. destruct (zcode_Next it) as [v it']. cbn. by rewrite IH.
Qed.

Lemma zip_with_NewValue_types ts fs :
  length fs = length ts → map Value_Type (zip_with NewValue ts fs) = ts.
Proof.
  revert fs. induction ts as [|t ts IH]; intros [|f fs] H; try done.
  cbn. f_equal. apply IH. by inversion H.
Qed.

Lemma zip_with_NewValue_bytes ts fs :
  length fs = length ts → map Value_Bytes (zip_with NewValue ts fs) = fs.
Proof.
  revert fs. induction ts as [|t ts IH]; intros [|f fs] H; try done.
  cbn. f_equal. apply IH. by inversion H.
Qed.

Lemma zip_with_NewValue_eta kvs :
  zip_with NewValue (map Value_Type kvs) (map Value_Bytes kvs) = kvs.
Proof. induction kvs as [|[t b] kvs IH]; [done|]. cbn. by f_equal. Qed.

Lemma row_record_out kt acc po key row :
  row_record kt acc po key row
  = out_record (row_keys kt key row) (valRow_results po acc (reducers row)).
Proof.
  unfold row_record, out_record, row_keys.
  rewrite zip_with_NewValue_types, zip_with_NewValue_bytes;
    by rewrite ?key_fields_length.
Qed.

Lemma row_keys_length kt key row :
  length (row_keys kt key row) = length (default [] (kt !! keyType row)).
Proof.
  unfold row_keys. rewrite length_zip_with, key_fields_length. lia.
Qed.

(** The entry made for the key values [kvs] stands for [kvs]. *)
Lemma row_keys_tableKey kt kvs tid gv r :
  zcode_roundtrip →
  kt !! tid = Some (map Value_Type kvs) →
  row_keys kt (AppendUvarint (key_payload [] kvs) (uint64 (Z.of_nat tid)))
    (mkRow tid gv r) = kvs.
Proof.
  intros Hz Hid. unfold row_keys. cbn [keyType]. rewrite Hid.
  cbn [default from_option id].
  rewrite AppendUvarint_app, key_fields_payload by done.
  apply zip_with_NewValue_eta.
Qed.

(** ** What the methods do to the fields *)

(** The configuration, which no method changes. *)
Definition same_config (a a' : Aggregator) : Prop :=
  keyRefs a' = keyRefs a ∧ keyExprs a' = keyExprs a ∧ aggRefs a' = aggRefs a
  ∧ aggs a' = aggs a ∧ limit a' = limit a ∧ valueCompare a' = valueCompare a
  ∧ keyCompare a' = keyCompare a ∧ keysComparator a' = keysComparator a
  ∧ inputDir a' = inputDir a ∧ partialsIn a' = partialsIn a
  ∧ partialsOut a' = partialsOut a.

Lemma same_config_refl a : same_config a a.
Proof. by repeat split. Qed.

Lemma same_config_trans a1 a2 a3 :
  same_config a1 a2 → same_config a2 a3 → same_config a1 a3.
Proof.
  unfold same_config. intros H1 H2.
  destruct H1 as (?&?&?&?&?&?&?&?&?&?&?), H2 as (?&?&?&?&?&?&?&?&?&?&?).
  repeat split; congruence.
Qed.

(** [maxTableKey] after [updateMaxTableKey] of a first key. *)
Definition next_mtk (a : Aggregator) (k0 : Value) : Value :=
  match maxTableKey a, valueCompare a with
  | Some mtk, Some cmp => if 0 <? cmp k0 mtk then k0 else mtk
  | Some mtk, None => mtk
  | None, _ => k0
  end.

Lemma updateMaxTableKey_next a k0 :
  is_Some (valueCompare a) →
  updateMaxTableKey k0 a = (set_maxTableKey a (Some (next_mtk a k0)), Ok (next_mtk a k0)).
Proof.
  intros [cmp Hc]. unfold updateMaxTableKey, next_mtk. rewrite Hc.
  destruct (maxTableKey a) as [mtk|] eqn:Hm; [|done].
  destruct (0 <? cmp k0 mtk); [done|].
  rewrite <- Hm. by rewrite set_maxTableKey_id.
Qed.

(** In sorted-input mode the group value handed to a new row is the
    maximum after the update. *)
Lemma after_keys_sorted a this e0 es :
  inputDir a ≠ 0 → keyExprs a = e0 :: es → is_Some (valueCompare a) →
  after_keys a this
  = (set_maxTableKey a (Some (next_mtk a (e0 this))), next_mtk a (e0 this)).
Proof.
  intros Hdir Hkes Hvc. unfold after_keys, key_values. rewrite Hkes. cbn [map].
  replace (inputDir a =? 0) with false by (symmetry; by apply Z.eqb_neq).
  cbn [negb]. by rewrite updateMaxTableKey_next.
Qed.

Lemma after_keys_unsorted a this :
  inputDir a = 0 → after_keys a this = (a, zeroValue).
Proof.
  intros Hdir. unfold after_keys. rewrite Hdir. cbn.
  by destruct (key_values a this).
Qed.

(** A record with a quiet key leaves everything but [maxTableKey]. *)
Lemma Consume_quiet a this :
  sorted_config_ok a →
  Exists (λ e : Evaluator, Value_IsQuiet (e this) = true) (keyExprs a) →
  ∃ mtk, Consume this a = (set_maxTableKey a mtk, Ok tt)
         ∧ (inputDir a = 0 → mtk = maxTableKey a)
         ∧ (∀ e0 es, keyExprs a = e0 :: es → inputDir a ≠ 0 →
            mtk = if Value_IsQuiet (e0 this) then maxTableKey a
                  else Some (next_mtk a (e0 this))).
Proof.
  intros Hwf Hex.
  destruct (keyExprs a) as [|e0 es] eqn:Hkes; [inversion Hex|].
  assert (inputDir a ≠ 0 → is_Some (valueCompare a)) as Hwf'.
  { intros Hdir. apply Hwf; [done|]. by rewrite Hkes. }
  unfold Consume. mnorm. rewrite Hkes. cbn [Consume_keys].
  destruct (Value_IsQuiet (e0 this)) eqn:Hq0.
  { exists (maxTableKey a). rewrite set_maxTableKey_id. mnorm.
    split; [done|]. split; [done|]. intros ? ? Heq _. inversion Heq; subst.
    by rewrite Hq0. }
  apply Exists_cons in Hex as [Hex|Hex]; [congruence|].
  mnorm. cbn [Nat.eqb].
  destruct (Z.eqb_spec (inputDir a) 0) as [Hd|Hd]; cbn [negb andb].
  - mnorm.
    rewrite (bind_Ok _ _ _ _ _
               (Consume_keys_quiet_later a this es 1 _ _ _ ltac:(lia) Hex)).
    exists (maxTableKey a). rewrite set_maxTableKey_id.
    split; [done|]. split; [done|]. intros ? ? _ Hn. done.
  - rewrite (bind_Ok _ _ _ _ _ (updateMaxTableKey_next a (e0 this) (Hwf' Hd))).
    rewrite (bind_Ok _ _ _ _ _
               (Consume_keys_quiet_later _ this es 1 _ _ _ ltac:(lia) Hex)).
    exists (Some (next_mtk a (e0 this))).
    split; [done|]. split; [done|]. intros ? ? Heq _. inversion Heq; subst.
    by rewrite Hq0.
Qed.

Lemma readTable_empty a flush po :
  map_range_perm → table a = ∅ → readTable flush po a = (a, Ok None).
Proof.
  intros Hperm He. unfold readTable. mnorm. rewrite He, map_to_list_empty.
  assert (map_range [] = []) as ->.
  { apply Permutation_nil_r. apply (Hperm []). }
  done.
Qed.

(** [Consume] of a record none of whose keys is quiet: the row of its key
    is updated in place, or made anew, after a spill of the whole table if
    the table is full. *)
Definition spills_on (a : Aggregator) (this : Value) : Prop :=
  table a !! (tableKey a this).1.1 = None
  ∧ limit a <= Z.of_nat (size (table a))
  ∧ table a ≠ ∅.

Lemma Consume_keyed a this :
  no_faults → Encode_total → map_range_perm → memo_wf a → rows_wf a →
  sorted_mode_ok a → not_quiet a this →
  let key := (tableKey a this).1.1 in
  let fresh := mkRow (tableKey a this).1.2 (after_keys a this).2 (newValRow (aggs a)) in
  let recs := table_records a true in
  ∃ a',
    Consume this a = (a', Ok tt)
    ∧ same_config a a' ∧ memo_wf a'
    ∧ keyTypes a' = (tableKey a this).2
    ∧ maxTableKey a' = maxTableKey (after_keys a this).1
    ∧ ((spills_on a this
        ∧ table a' = {[ key := Consume_row a fresh this ]}
        ∧ spiller a' = Some (spill_merge a recs)
        ∧ maxSpillKey a'
          = spill_maxSpillKey a false
              (SortStable (ms_compare (spill_merge a recs)) recs))
       ∨ (¬ spills_on a this
          ∧ table a'
            = <[ key := Consume_row a (default fresh (table a !! key)) this ]> (table a)
          ∧ spiller a' = spiller a
          ∧ maxSpillKey a' = maxSpillKey a)).
Proof.
  intros Hnf Henc Hperm Hm Hrows Hsorted Hq key fresh recs.
  assert (sorted_config_ok a) as Hcfg by (intros Hd _; by apply Hsorted).
  destruct (decide (table a !! key = None ∧ limit a <= Z.of_nat (size (table a))))
    as [[Habs Hlim]|Hnsp].
  - pose proof (Consume_keys_keyed a this Hcfg Hq) as Hkeys.
    destruct (after_keys_frame a this Hcfg) as [mtk Hframe].
    subst key fresh recs. unfold spills_on, tableKey in *.
    destruct (TypeVectorTable_Lookup (keyTypes a) (map Value_Type (key_values a this)))
      as [tid kt'] eqn:Hlook.
    cbn [fst snd] in *.
    pose proof (TypeVectorTable_Lookup_spec _ _ _ _ Hlook) as (_ & _ & ext & Hext).
    set (key := AppendUvarint (key_payload [] (key_values a this))
                  (uint64 (Z.of_nat tid))) in *.
    set (a2 := set_keyTypes (set_maxTableKey a mtk) kt').
    assert (rows_wf a2) as Hrows2 by (by apply (rows_wf_ext a a2 ext)).
    assert (memo_wf a2) as Hm2 by (intros j t; apply Hm).
    assert (sorted_mode_ok a2) as Hsorted2 by (intros Hd; by apply Hsorted).
    destruct (spillTable_spec a2 false Hnf Henc Hperm Hm2 Hrows2 Hsorted2)
      as (ot & rt & Hspill & Hm3).
    assert (table_records a2 true = table_records a true) as Hrecs
      by (by apply (table_records_ext a a2 true ext)).
    rewrite Hrecs in Hspill.
    eexists. split.
    { unfold Consume. msimpl. rewrite (bind_Ok _ _ _ _ _ Hkeys).
      rewrite Hframe. msimpl. cbn [keyTypes set_maxTableKey]. rewrite Hlook.
      msimpl. cbn [table set_keyTypes set_maxTableKey]. fold key. rewrite Habs.
      mnorm. cbn [limit set_keyTypes set_maxTableKey].
      replace (limit a <=? Z.of_nat (size (table a))) with true
        by (symmetry; by apply Z.leb_le).
      fold a2. rewrite (bind_Ok _ _ _ _ _ Hspill). mnorm. reflexivity. }
    destruct (table_records a true) as [|r0 recs0] eqn:Htr.
    + pose proof (table_records_nil a true Hperm Htr) as He.
      cbn [table set_table set_maxSpillKey set_spiller set_recordTypes set_outTypes
           set_keyTypes set_maxTableKey keyTypes maxTableKey spiller maxSpillKey a2].
      split; [by repeat split|]. split; [intros j t; apply Hm3|].
      split; [done|]. split; [by rewrite Hframe|].
      right. split; [by intros (_ & _ & Hne)|].
      rewrite Habs, He. by repeat split.
    + cbn [table set_table set_maxSpillKey set_spiller set_recordTypes set_outTypes
           set_keyTypes set_maxTableKey keyTypes maxTableKey spiller maxSpillKey a2].
      split; [by repeat split|]. split; [intros j t; apply Hm3|].
      split; [done|]. split; [by rewrite Hframe|].
      left. split.
      { split; [done|]. split; [done|]. intros He.
        unfold table_records in Htr. rewrite He, map_to_list_empty in Htr.
        assert (map_range [] = []) as Hnil
          by (apply Permutation_nil_r; apply (Hperm [])).
        by rewrite Hnil in Htr. }
      rewrite insert_empty. by repeat split.
  - eexists. split.
    { apply Consume_nospill; [done|done|].
      intros Habs. apply Z.lt_nge. intros Hlim. by destruct Hnsp. }
    destruct (after_keys_frame a this Hcfg) as [mtk Hframe].
    rewrite !Hframe.
    cbn [table set_table set_keyTypes set_maxTableKey keyTypes maxTableKey spiller
         maxSpillKey].
    split; [by repeat split|]. split; [intros j t; apply Hm|].
    split; [done|]. split; [done|]. right.
    split; [intros (? & ? & _); by destruct Hnsp|]. by repeat split.
Qed.

(** ** Methods that cannot return an error

    A property kept by a computation that, besides, returns no error: what
    the read of the merged spills is when storage and builder do not
    fail. *)
Definition safe {A} (P : Aggregator → Prop) (m : M A) : Prop :=
  ∀ a a' r, m a = (a', r) → P a → P a' ∧ ∀ e, r ≠ Err e.

Section Safe.
Variable P : Aggregator → Prop.
Hypothesis Hnf : no_faults.
Hypothesis Henc : Encode_total.
Hypothesis P_lookupRecordType : ∀ types, preserves P (lookupRecordType types).
Hypothesis P_read : ∀ a m,
  P a → spiller a = Some m →
  P (set_spiller a (Some (mkMergeSort (ms_compare m) (tail (ms_pending m))))).

Lemma safe_ret {A} (x : A) : safe P (ret x).
Proof. intros a a' r H HP. inversion H; subst. by split. Qed.

Lemma safe_get {A} (f : Aggregator → A) : safe P (get f).
Proof. intros a a' r H HP. inversion H; subst. by split. Qed.

Lemma safe_throw {A} p : safe P (throw (A := A) p).
Proof. intros a a' r H HP. inversion H; subst. by split. Qed.

Lemma safe_deref {A} (f : Aggregator → option A) : safe P (deref f).
Proof.
  intros a a' r H HP. unfold deref in H.
  destruct (f a); inversion H; subst; by split.
Qed.

Lemma safe_lift {A} (x : outcome A) : (∀ e, x ≠ Err e) → safe P (lift x).
Proof. intros Hx a a' r H HP. inversion H; subst. by split. Qed.

Lemma safe_bind {A B} (m : M A) (f : A → M B) :
  safe P m → (∀ x, safe P (f x)) → safe P (bind m f).
Proof.
  intros Hm Hf a a' r H HP. unfold bind in H.
  destruct (m a) as [a1 [x|e|p]] eqn:Hma.
  - destruct (Hm _ _ _ Hma HP) as [HP1 _]. by eapply Hf.
  - destruct (Hm _ _ _ Hma HP) as [_ He]. by destruct (He e).
  - inversion H; subst. destruct (Hm _ _ _ Hma HP) as [HP1 _]. by split.
Qed.

Lemma safe_lookupRecordType types : safe P (lookupRecordType types).
Proof.
  intros a a' r H HP. split; [by eapply P_lookupRecordType|].
  unfold lookupRecordType in H.
  destruct (TypeVectorTable_Lookup (outTypes a) types) as [tid ot].
  destruct (recordTypes (set_outTypes a ot) !! tid); by inversion H; subst.
Qed.

Lemma safe_buildRecord fields types : safe P (buildRecord fields types).
Proof.
  unfold buildRecord.
  apply safe_bind; [apply safe_lookupRecordType|intros typ].
  apply safe_bind; [|intros bytes; apply safe_ret].
  apply safe_lift. intros e. by destruct (Henc fields) as [b ->].
Qed.

Lemma safe_spiller_Peek : safe P spiller_Peek.
Proof.
  unfold spiller_Peek. apply safe_bind; [apply safe_deref|intros m].
  apply safe_lift. intros e. unfold MergeSort_Peek. by rewrite Hnf.
Qed.

Lemma safe_spiller_Read : safe P spiller_Read.
Proof.
  intros a a' r H HP. unfold spiller_Read, bind, deref in H.
  destruct (spiller a) as [m|] eqn:Hsp; [|inversion H; subst; by split].
  unfold lift, MergeSort_Read in H. rewrite Hnf in H.
  cbn [modify ret snd fst] in H. inversion H; subst.
  split; [by apply P_read|done].
Qed.

Lemma safe_nextResultFromSpills_loop fuel firstRec row :
  safe P (nextResultFromSpills_loop fuel firstRec row).
Proof.
  revert firstRec row. induction fuel as [|fuel IH]; intros firstRec row;
    cbn [nextResultFromSpills_loop]; [apply safe_throw|].
  apply safe_bind; [apply safe_spiller_Peek|intros [rec|]]; [|apply safe_ret].
  apply safe_bind; [apply safe_get|intros cmp].
  destruct firstRec as [first|].
  - destruct (negb (cmp first rec =? 0)); [apply safe_ret|].
    apply safe_bind; [apply safe_get|intros acc].
    apply safe_bind; [apply safe_get|intros refs].
    apply safe_bind; [apply safe_spiller_Read|intros _]. apply IH.
  - apply safe_bind; [apply safe_get|intros acc].
    apply safe_bind; [apply safe_get|intros refs].
    apply safe_bind; [apply safe_spiller_Read|intros _]. apply IH.
Qed.

Lemma safe_nextResultFromSpills : safe P nextResultFromSpills.
Proof.
  unfold nextResultFromSpills.
  apply safe_bind; [apply safe_get|intros acc].
  apply safe_bind; [apply safe_deref|intros m].
  apply safe_bind; [apply safe_nextResultFromSpills_loop|intros r].
  destruct r.1; [|apply safe_ret].
  apply safe_bind; [apply safe_get|intros refs].
  apply safe_bind; [apply safe_get|intros po].
  apply safe_bind; [apply safe_buildRecord|intros rec]. apply safe_ret.
Qed.

Lemma safe_readSpills_loop n eof recs : safe P (readSpills_loop n eof recs).
Proof.
  revert recs. induction n as [|n IH]; intros recs; cbn [readSpills_loop];
    [apply safe_ret|].
  apply safe_bind; [apply safe_get|intros dir].
  apply safe_bind.
  - destruct (negb eof && negb (dir =? 0)); [|apply safe_ret].
    apply safe_bind; [apply safe_spiller_Peek|intros [rec|]]; [|apply safe_ret].
    apply safe_bind; [apply safe_get|intros [|keyExpr0 kes]]; [apply safe_throw|].
    destruct (Value_IsError (keyExpr0 rec)); [apply safe_ret|].
    apply safe_bind; [apply safe_deref|intros vc].
    apply safe_bind; [apply safe_deref|intros msk]. apply safe_ret.
  - intros [|]; [apply safe_ret|].
    apply safe_bind; [apply safe_nextResultFromSpills|intros [rec|]];
      [apply IH|apply safe_ret].
Qed.

Lemma safe_readSpills eof : safe P (readSpills eof).
Proof.
  unfold readSpills. apply safe_bind; [apply safe_get|intros dir].
  destruct (negb eof && (dir =? 0)); [apply safe_ret|].
  apply safe_bind; [apply safe_readSpills_loop|intros recs]. apply safe_ret.
Qed.

End Safe.

(** ** The order of the batches on sorted input *)

Section SortedOutput.
Hypothesis Hnf : no_faults.
Hypothesis Henc : Encode_total.
Hypothesis Hperm : map_range_perm.
Hypothesis Hz : zcode_roundtrip.

(** The value comparison of the configured direction, the reference to
    the first key in an output record and the expression of the first key
    on an input record. *)
Variable vc : CompareFn.
Variables keyRef0 keyExpr0 : Evaluator.
Hypothesis Hsgn : cmp_sgn vc.
Hypothesis Htrans : cmp_transitive vc.

(** The first keys of the records that reach [updateMaxTableKey]. *)
Definition primaries (vals : list Value) : list Value :=
  filter (λ k, Value_IsQuiet k = false) (map keyExpr0 vals).

(** The input is sorted by its first key. *)
Definition sorted_input (vals : list Value) : Prop :=
  StronglySorted (cmp_le vc) (primaries vals).

(** The configuration of sorted-input mode. *)
Definition sorted_conf (a : Aggregator) : Prop :=
  inputDir a ≠ 0
  ∧ valueCompare a = Some vc
  ∧ (∃ kcmp, keyCompare a = Some kcmp
             ∧ ∀ x y, kcmp x y = vc (keyRef0 x) (keyRef0 y))
  ∧ (∀ x y, keysComparator a x y = lex_compare vc (keyRefs a) x y)
  ∧ head (keyRefs a) = Some keyRef0
  ∧ head (keyExprs a) = Some keyExpr0
  ∧ length (keyRefs a) = length (keyExprs a)
  ∧ keyRefs_roundtrip (keyRefs a).

(** A row stands for key values whose first one is equivalent to the
    group value of the row, which does not exceed [maxTableKey]. *)
Definition row_ok (a : Aggregator) (key : Bytes) (row : Row) : Prop :=
  ∃ keytypes p mtk,
    keyTypes a !! keyType row = Some keytypes
    ∧ length keytypes = length (keyExprs a)
    ∧ head (row_keys (keyTypes a) key row) = Some p
    ∧ vc p (groupval row) <= 0 ∧ vc (groupval row) p <= 0
    ∧ maxTableKey a = Some mtk
    ∧ vc (groupval row) mtk <= 0.

Definition table_ok (a : Aggregator) : Prop :=
  ∀ key row, table a !! key = Some row → row_ok a key row.

(** The merged stream is ordered by the keys comparator. *)
Definition pending_ok (a : Aggregator) : Prop :=
  ∀ m, spiller a = Some m →
    ms_compare m = keysComparator a
    ∧ Sorted (cmp_le (keysComparator a)) (ms_pending m).

(** While nothing is spilled, the rows left by the emission of the
    completed keys are those of the maximal first key. *)
Definition table_settled (a : Aggregator) : Prop :=
  spiller a = None →
  ∀ key row mtk, table a !! key = Some row → maxTableKey a = Some mtk →
    vc mtk (groupval row) <= 0.

(** The first keys still to come do not fall below [maxTableKey]. *)
Definition ahead (a : Aggregator) (rest : list Value) : Prop :=
  ∀ mtk, maxTableKey a = Some mtk → Forall (λ k, vc mtk k <= 0) (primaries rest).

Definition Inv (a : Aggregator) : Prop :=
  sorted_conf a ∧ memo_wf a ∧ table_ok a ∧ pending_ok a.

Lemma sorted_conf_same a a' : same_config a a' → sorted_conf a → sorted_conf a'.
Proof.
  intros (E1&E2&E3&E4&E5&E6&E7&E8&E9&E10&E11).
  unfold sorted_conf. by rewrite E1, E2, E6, E7, E8, E9.
Qed.

Lemma table_ok_rows_wf a : table_ok a → rows_wf a.
Proof.
  intros Ht key row Hrow. destruct (Ht key row Hrow) as (kts & ? & ? & Hk & _).
  by eauto.
Qed.

Lemma sorted_conf_mode a : sorted_conf a → sorted_mode_ok a.
Proof.
  intros (Hdir & Hvc & _ & _ & _ & He0 & _) _. split.
  - intros Hn. by rewrite Hn in He0.
  - by eauto.
Qed.

Lemma row_keys_ext kt ext key row :
  is_Some (kt !! keyType row) →
  row_keys (kt ++ ext) key row = row_keys kt key row.
Proof.
  intros [tys Hk]. unfold row_keys.
  by rewrite (lookup_app_l_Some _ _ _ _ Hk), Hk.
Qed.

(** A row stays good when the intern table grows and the maximum rises. *)
Lemma row_ok_mono a a' key row :
  row_ok a key row →
  (∃ ext, keyTypes a' = keyTypes a ++ ext) →
  keyExprs a' = keyExprs a →
  (∀ mtk, maxTableKey a = Some mtk →
          ∃ mtk', maxTableKey a' = Some mtk' ∧ vc mtk mtk' <= 0) →
  row_ok a' key row.
Proof.
  intros (kts & p & mtk & Hk & Hlen & Hp & Hpg & Hgp & Hmtk & Hg) [ext Hext] Hes Hmax.
  destruct (Hmax mtk Hmtk) as (mtk' & Hmtk' & Hle).
  exists kts, p, mtk'. rewrite Hext, Hes.
  rewrite row_keys_ext by by eauto.
  split; [by apply lookup_app_l_Some|]. repeat split; try done.
  by apply (Htrans _ mtk).
Qed.

Lemma next_mtk_cases a k0 :
  valueCompare a = Some vc →
  (next_mtk a k0 = k0
   ∧ ∀ mtk, maxTableKey a = Some mtk → vc mtk k0 <= 0)
  ∨ (maxTableKey a = Some (next_mtk a k0) ∧ vc k0 (next_mtk a k0) <= 0).
Proof.
  intros Hvc. unfold next_mtk. rewrite Hvc.
  destruct (maxTableKey a) as [mtk|]; [|left; by split].
  destruct (Z.ltb_spec 0 (vc k0 mtk)) as [Hlt|Hge].
  - left. split; [done|]. intros ? [= <-]. apply cmp_sgn_swap; [done|lia].
  - right. by split.
Qed.

(** The maximum after a record of a sorted input whose first key [k0] is
    not quiet: it is equivalent to [k0], does not fall, and stays below
    what is still to come. *)
Lemma next_mtk_sorted a this rest :
  valueCompare a = Some vc →
  Value_IsQuiet (keyExpr0 this) = false →
  sorted_input (this :: rest) → ahead a (this :: rest) →
  let g := next_mtk a (keyExpr0 this) in
  vc (keyExpr0 this) g <= 0 ∧ vc g (keyExpr0 this) <= 0
  ∧ (∀ mtk, maxTableKey a = Some mtk → vc mtk g <= 0)
  ∧ Forall (λ k, vc g k <= 0) (primaries rest).
Proof.
  intros Hvc Hq Hs Ha g. unfold sorted_input, ahead, primaries in *.
  cbn [map] in *. rewrite filter_cons in Hs, Ha.
  destruct (decide (Value_IsQuiet (keyExpr0 this) = false)); [|done].
  apply StronglySorted_inv in Hs as [Hs Hall].
  destruct (next_mtk_cases a (keyExpr0 this) Hvc) as [[Hg Hle]|[Hg Hle]]; fold g in Hg, Hle.
  - rewrite Hg. pose proof (cmp_sgn_refl vc (keyExpr0 this) Hsgn).
    split; [lia|]. split; [lia|]. split; [done|]. exact Hall.
  - specialize (Ha g Hg). apply Forall_cons in Ha as [Ha1 Ha2].
    split; [done|]. split; [done|]. split; [|done].
    intros mtk Hm. rewrite Hg in Hm. inversion Hm; subst.
    pose proof (cmp_sgn_refl vc g Hsgn). lia.
Qed.

Lemma primaries_quiet this rest :
  Value_IsQuiet (keyExpr0 this) = true → primaries (this :: rest) = primaries rest.
Proof.
  intros Hq. unfold primaries. cbn [map]. rewrite filter_cons.
  destruct (decide _) as [Hd|]; [congruence|done].
Qed.

Lemma keyExprs_head a : sorted_conf a → ∃ es, keyExprs a = keyExpr0 :: es.
Proof.
  intros (_ & _ & _ & _ & _ & He0 & _).
  destruct (keyExprs a) as [|e es]; [done|]. inversion He0; subst. by eauto.
Qed.

Lemma keyRefs_head a : sorted_conf a → ∃ rs, keyRefs a = keyRef0 :: rs.
Proof.
  intros (_ & _ & _ & _ & Hr0 & _).
  destruct (keyRefs a) as [|e es]; [done|]. inversion Hr0; subst. by eauto.
Qed.

Lemma keysComparator_total a : sorted_conf a → Total (cmp_le (keysComparator a)).
Proof.
  intros (_ & _ & _ & Hkc & _) x y. unfold cmp_le. rewrite !Hkc.
  apply (cmp_sgn_total _ (lex_compare_sgn vc (keyRefs a) Hsgn)).
Qed.

Lemma Consume_inv a this rest :
  Inv a → sorted_input (this :: rest) → ahead a (this :: rest) →
  ∃ a', Consume this a = (a', Ok tt) ∧ Inv a' ∧ ahead a' rest.
Proof.
  intros (Hconf & Hm & Htab & Hpend) Hs Ha.
  pose proof Hconf as (Hdir & Hvc & _ & Hkc & _ & _ & Hlen & _).
  destruct (keyExprs_head a Hconf) as [es Hkes].
  pose proof (sorted_conf_mode a Hconf) as Hmode.
  assert (sorted_config_ok a) as Hcfg by (intros Hd _; by apply Hmode).
  destruct (decide (not_quiet a this)) as [Hq|Hq].
  - (* the record is filed *)
    assert (Value_IsQuiet (keyExpr0 this) = false) as Hq0.
    { unfold not_quiet, key_values in Hq. rewrite Hkes in Hq.
      by apply Forall_cons in Hq as [Hq _]. }
    destruct (next_mtk_sorted a this rest Hvc Hq0 Hs Ha) as (Hkg & Hgk & Hup & Hrest).
    destruct (Consume_keyed a this Hnf Henc Hperm Hm (table_ok_rows_wf a Htab) Hmode Hq)
      as (a' & HC & Hsame & Hm' & Hkt & Hmtk & Hcases).
    rewrite (after_keys_sorted a this keyExpr0 es) in Hmtk, Hcases by by eauto.
    cbn [fst snd maxTableKey set_maxTableKey] in Hmtk, Hcases.
    set (g := next_mtk a (keyExpr0 this)) in *.
    unfold tableKey in Hkt, Hcases.
    destruct (TypeVectorTable_Lookup (keyTypes a) (map Value_Type (key_values a this)))
      as [tid kt'] eqn:Hlook.
    cbn [fst snd] in Hkt, Hcases.
    pose proof (TypeVectorTable_Lookup_spec _ _ _ _ Hlook) as (Htid & _ & ext & Hext).
    set (key := AppendUvarint (key_payload [] (key_values a this))
                  (uint64 (Z.of_nat tid))) in *.
    pose proof Hsame as (E1&E2&E3&E4&E5&E6&E7&E8&E9&E10&E11).
    assert (∀ k row, table a !! k = Some row → row_ok a' k row) as Hold.
    { intros k row Hrow. apply (row_ok_mono a); [by apply Htab| |done|].
      - exists ext. by rewrite Hkt.
      - intros mtk Hmk. exists g. split; [done|]. by apply Hup. }
    assert (∀ r, row_ok a' key (mkRow tid g r)) as Hfresh.
    { intros r. exists (map Value_Type (key_values a this)), (keyExpr0 this), g.
      rewrite Hkt, E2. unfold key.
      rewrite row_keys_tableKey by done. cbn [keyType groupval].
      split; [done|]. split; [unfold key_values; by rewrite !length_map|].
      split; [unfold key_values; by rewrite Hkes|].
      pose proof (cmp_sgn_refl vc g Hsgn). repeat split; try done. lia. }
    exists a'. split; [done|].
    split; [|intros mtk Hmk; rewrite Hmtk in Hmk; by inversion Hmk; subst].
    split; [by apply (sorted_conf_same a)|]. split; [done|].
    destruct Hcases as [(Hsp & Ht & Hspl & _)|(Hnsp & Ht & Hspl & _)].
    + split.
      * intros k row. rewrite Ht. intros Hrow.
        apply lookup_singleton_Some in Hrow as [<- <-]. apply Hfresh.
      * intros m. rewrite Hspl. intros [= <-]. rewrite E8.
        unfold spill_merge. cbn [ms_compare ms_pending].
        assert (ms_compare (default (mkMergeSort (keysComparator a) []) (spiller a))
                = keysComparator a
                ∧ Sorted (cmp_le (keysComparator a))
                    (ms_pending (default (mkMergeSort (keysComparator a) [])
                                   (spiller a)))) as [-> Hsrt].
        { destruct (spiller a) as [m0|] eqn:Hm0; cbn; [by apply Hpend|].
          split; [done|constructor]. }
        split; [done|].
        pose proof (keysComparator_total a Hconf).
        apply Sorted_list_merge; [done|done|]. by apply Sorted_merge_sort.
    + split.
      * intros k row. rewrite Ht. intros Hrow.
        apply lookup_insert_Some in Hrow as [[<- <-]|[Hne Hrow]]; [|by apply Hold].
        destruct (table a !! key) as [row0|] eqn:Hrow0; cbn [default from_option id].
        -- apply (Hold key) in Hrow0.
           destruct Hrow0 as (kts & p & mtk & ?). by exists kts, p, mtk.
        -- apply Hfresh.
      * intros m. rewrite Hspl, E8. apply Hpend.
  - (* the record is skipped *)
    assert (Exists (λ e : Evaluator, Value_IsQuiet (e this) = true) (keyExprs a)) as Hex.
    { unfold not_quiet, key_values in Hq. apply not_Forall_Exists in Hq; [|apply _].
      apply Exists_exists in Hq as (v & Hv & Hnq).
      apply list_elem_of_fmap in Hv as (e & -> & He).
      apply Exists_exists. exists e. split; [done|]. cbn in Hnq.
      destruct (Value_IsQuiet (e this)); [done|by destruct Hnq]. }
    destruct (Consume_quiet a this Hcfg Hex) as (mtk' & HC & _ & Hmtk').
    specialize (Hmtk' _ _ Hkes Hdir).
    exists (set_maxTableKey a mtk'). split; [done|].
    destruct (Value_IsQuiet (keyExpr0 this)) eqn:Hq0.
    + subst mtk'. rewrite set_maxTableKey_id. split; [done|].
      intros mtk Hmk. specialize (Ha mtk Hmk).
      by rewrite (primaries_quiet this rest Hq0) in Ha.
    + destruct (next_mtk_sorted a this rest Hvc Hq0 Hs Ha) as (Hkg & Hgk & Hup & Hrest).
      subst mtk'. split; [|intros mtk Hmk; by inversion Hmk; subst].
      split; [done|]. split; [intros j t; apply Hm|]. split; [|done].
      intros k row Hrow. apply (row_ok_mono a); [by apply Htab| |done|].
      * exists []. by rewrite app_nil_r.
      * intros mtk Hmk. eexists. split; [done|]. by apply Hup.
Qed.

Lemma Consume_all_inv vals : ∀ a rest,
  Inv a → sorted_input (vals ++ rest) → ahead a (vals ++ rest) →
  ∃ a', Consume_all vals a = (a', Ok tt) ∧ Inv a' ∧ ahead a' rest.
Proof.
  induction vals as [|v vals IH]; intros a rest HI Hs Ha.
  { exists a. split; [done|]. by split. }
  destruct (Consume_inv a v (vals ++ rest) HI Hs Ha) as (a1 & HC & HI1 & Ha1).
  assert (sorted_input (vals ++ rest)) as Hs1.
  { unfold sorted_input, primaries in *. cbn [app map] in Hs.
    rewrite filter_cons in Hs. destruct (decide _); [|done].
    by apply StronglySorted_inv in Hs as [Hs _]. }
  destruct (IH a1 rest HI1 Hs1 Ha1) as (a' & HC' & HI' & Ha').
  exists a'. split; [|done].
  cbn [Consume_all]. by rewrite (bind_Ok _ _ _ _ _ HC).
Qed.

Lemma Sorted_app_r (R : relation Value) l1 l2 : Sorted R (l1 ++ l2) → Sorted R l2.
Proof.
  induction l1 as [|x l1 IH]; [done|]. cbn. intros H.
  apply Sorted_inv in H as [H _]. by apply IH.
Qed.

(** The groups taken by the drain are a prefix of the stream, and each
    has a first record. *)
Lemma drain_groups_app stop kc n : ∀ p,
  concat (drain_groups stop kc n p).1 ++ (drain_groups stop kc n p).2 = p
  ∧ Forall (λ g, g ≠ []) (drain_groups stop kc n p).1.
Proof.
  induction n as [|n IH]; intros p; cbn [drain_groups]; [done|].
  destruct (stop p); [done|].
  destruct p as [|rec p]; [done|].
  pose proof (merge_group_app kc rec p) as Hmg.
  destruct (merge_group kc rec p) as [g rest]. cbn [fst snd] in Hmg.
  destruct (IH rest) as [Happ Hne].
  destruct (drain_groups stop kc n rest) as [gs rest']. cbn [fst snd concat] in *.
  split.
  - rewrite <- Hmg, <- Happ. cbn. by rewrite <- !app_assoc.
  - by constructor.
Qed.

Lemma heads_sublist (gs : list (list Value)) :
  Forall (λ g, g ≠ []) gs → omap head gs `sublist_of` concat gs.
Proof.
  induction 1 as [|g gs Hg Hgs IH]; [constructor|].
  destruct g as [|rec g]; [done|]. cbn.
  apply sublist_skip. by apply sublist_inserts_l.
Qed.

Lemma Sorted_by_first (kcmp : CompareFn) (l : list Value) :
  (∀ x y, kcmp x y = vc (keyRef0 x) (keyRef0 y)) →
  StronglySorted (cmp_le vc) (map keyRef0 l) → Sorted (cmp_le kcmp) l.
Proof.
  intros Hk Hs. apply StronglySorted_Sorted.
  induction l as [|x l IH]; [constructor|].
  cbn [map] in Hs. apply StronglySorted_inv in Hs as [Hs Hall].
  constructor; [by apply IH|].
  apply Forall_forall. intros y Hy. unfold cmp_le. rewrite Hk.
  rewrite Forall_forall in Hall. apply Hall. by apply list_elem_of_fmap_2.
Qed.

#[local] Instance cmp_le_vc_trans : Transitive (cmp_le vc).
Proof. intros x y z. apply Htrans. Qed.

(** The first key read from the record of a merged group is the first key
    of the first record of the group. *)
Lemma group_record_first a rec g :
  sorted_conf a →
  keyRef0 (group_record a (rec :: g)) = keyRef0 rec.
Proof.
  intros Hconf. destruct (keyRefs_head a Hconf) as [rs Hrs].
  pose proof Hconf as (_ & _ & _ & _ & _ & _ & _ & Hrt).
  unfold group_record.
  set (keyVals := map (λ e : Evaluator, e rec) (keyRefs a)).
  set (vals := valRow_results _ _ _).
  specialize (Hrt keyVals vals). unfold out_record in Hrt.
  assert (length keyVals = length (keyRefs a)) as Hlen
    by (unfold keyVals; by rewrite length_map).
  specialize (Hrt Hlen). subst keyVals. rewrite Hrs in Hrt. cbn [map] in Hrt.
  rewrite Hrs. cbn [map]. injection Hrt as H1 _. exact H1.
Qed.

(** The first key read from the record of a row is the first of the key
    values the row stands for. *)
Lemma row_record_first a key row po p :
  sorted_conf a →
  length (row_keys (keyTypes a) key row) = length (keyExprs a) →
  head (row_keys (keyTypes a) key row) = Some p →
  keyRef0 (row_record (keyTypes a) (aggs a) po key row) = p.
Proof.
  intros Hconf Hlen Hp. destruct (keyRefs_head a Hconf) as [rs Hrs].
  pose proof Hconf as (_ & _ & _ & _ & _ & _ & Hl & Hrt).
  rewrite row_record_out.
  specialize (Hrt (row_keys (keyTypes a) key row)
                (valRow_results po (aggs a) (reducers row))).
  rewrite Hl in Hrt. specialize (Hrt Hlen).
  destruct (row_keys (keyTypes a) key row) as [|p' ks]; [done|].
  inversion Hp; subst. rewrite Hrs in Hrt. cbn [map] in Hrt.
  injection Hrt as H1 _. exact H1.
Qed.

(** The invariant on states that differ in the memo of record types only. *)
Lemma Inv_frame a a' :
  Inv a → same_config a a' → memo_wf a' →
  keyTypes a' = keyTypes a → maxTableKey a' = maxTableKey a →
  (∀ key row, table a' !! key = Some row → table a !! key = Some row) →
  pending_ok a' →
  Inv a'.
Proof.
  intros (Hconf & Hm & Htab & Hpend) Hsame Hm' Hkt Hmtk Hsub Hpend'.
  split; [by apply (sorted_conf_same a)|]. split; [done|]. split; [|done].
  intros key row Hrow. apply (row_ok_mono a); [by apply Htab, Hsub| | |].
  - exists []. by rewrite app_nil_r.
  - by destruct Hsame as (_ & ? & _).
  - intros mtk Hmk. exists mtk. rewrite Hmtk. split; [done|].
    pose proof (cmp_sgn_refl vc mtk Hsgn). lia.
Qed.

(** A request for results before the end of the input returns no error
    and, while nothing is spilled, leaves the rows of the maximal first
    key. *)
Lemma nextResult_early a a' r :
  Inv a → nextResult false a = (a', r) →
  Inv a' ∧ maxTableKey a' = maxTableKey a ∧ table_settled a' ∧ ∀ e, r ≠ Err e.
Proof.
  intros HI H. pose proof HI as (Hconf & Hm & Htab & Hpend).
  pose proof Hconf as (Hdir & Hvc & _).
  unfold nextResult in H. revert H. mnorm.
  destruct (spiller a) as [m|] eqn:Hsp.
  - mnorm. intros H.
    set (P := λ x : Aggregator,
           Inv x ∧ maxTableKey x = maxTableKey a ∧ is_Some (spiller x)).
    assert (∀ types, preserves P (lookupRecordType types)) as HPl.
    { intros types x x' rx Hx (HIx & Hmx & Hsx).
      destruct (lookupRecordType_spec x types (proj1 (proj2 HIx)))
        as (ot & rt & Hl & Hm').
      rewrite Hl in Hx. inversion Hx; subst x' rx.
      split; [|by split].
      apply (Inv_frame x); [done|by repeat split|done|done|done|done|].
      intros m'. cbn [spiller set_recordTypes set_outTypes keysComparator].
      apply HIx. }
    assert (∀ x m', P x → spiller x = Some m' →
              P (set_spiller x (Some (mkMergeSort (ms_compare m')
                                        (tail (ms_pending m')))))) as HPr.
    { intros x m' (HIx & Hmx & Hsx) Hm'. split; [|split; [done|by eexists]].
      apply (Inv_frame x);
        [done|by repeat split|intros j t; apply HIx|done|done|done|].
      intros m1. cbn [spiller set_spiller keysComparator]. intros [= <-].
      destruct HIx as (_ & _ & _ & Hp). destruct (Hp m' Hm') as [Hc Hs].
      cbn [ms_compare ms_pending]. split; [done|].
      destruct (ms_pending m') as [|rec p]; [done|]. cbn [tail].
      by apply Sorted_inv in Hs as [Hs _]. }
    destruct (safe_readSpills P Hnf Henc HPl HPr false a a' r H)
      as [(HI' & Hmtk' & Hsp') Herr].
    { split; [done|]. split; [done|]. by eexists. }
    split; [done|]. split; [done|]. split; [|done].
    intros Hn. rewrite Hn in Hsp'. by destruct Hsp'.
  - mnorm. destruct (decide (table a = ∅)) as [He|Hne].
    + rewrite (readTable_empty a false (partialsOut a) Hperm He).
      intros [= <- <-]. split; [done|]. split; [done|]. split; [|done].
      intros _ key row mtk Hrow. by rewrite He, lookup_empty in Hrow.
    + apply map_choose in Hne as (k0 & row0 & Hrow0).
      destruct (Htab k0 row0 Hrow0) as (_ & _ & mtk & _ & _ & _ & _ & _ & Hmtk & _).
      destruct (readTable_spec a false (partialsOut a) Henc Hperm Hm
                  (table_ok_rows_wf a Htab)) as (ot & rt & Hr & Hm').
      { intros _. split; by eauto. }
      rewrite Hr. intros [= <- <-].
      split; [|split; [done|split; [|done]]].
      * apply (Inv_frame a); [done|by repeat split|done|done|done| |].
        -- intros key row. cbn [table set_table].
           rewrite map_lookup_filter_Some. by intros [? _].
        -- intros m'. cbn [spiller set_table set_recordTypes set_outTypes]. by rewrite Hsp.
      * intros _ key row mtk'.
        cbn [table set_table set_recordTypes set_outTypes maxTableKey].
        rewrite map_lookup_filter_Some. intros [Hrow Hskip] Hmk.
        rewrite Hmtk in Hmk. inversion Hmk; subst mtk'.
        unfold readTable_skip in Hskip. cbn [snd] in Hskip.
        rewrite Hvc, Hmtk in Hskip.
        apply cmp_sgn_swap; [done|].
        destruct (Z.leb_spec 0 (vc (groupval row) mtk)); [done|by destruct Hskip].
Qed.

Lemma StronglySorted_all_related (R : relation Value) l :
  (∀ x y, x ∈ l → y ∈ l → R x y) → StronglySorted R l.
Proof.
  induction l as [|x l IH]; intros H; constructor.
  - apply IH. intros y z Hy Hy'. apply H; by right.
  - apply Forall_forall. intros y Hy. apply H; [by left|by right].
Qed.

Lemma spillTable_inv a eof :
  Inv a →
  ∃ a1, spillTable eof a = (a1, Ok tt)
        ∧ Inv a1 ∧ table a1 = ∅ ∧ maxTableKey a1 = maxTableKey a
        ∧ (is_Some (spiller a) → is_Some (spiller a1)).
Proof.
  intros HI. pose proof HI as (Hconf & Hm & Htab & Hpend).
  destruct (spillTable_spec a eof Hnf Henc Hperm Hm (table_ok_rows_wf a Htab)
              (sorted_conf_mode a Hconf)) as (ot & rt & Hs & Hm').
  eexists. split; [exact Hs|].
  destruct (table_records a true) as [|r0 recs0] eqn:Htr.
  - split; [|by split].
    apply (Inv_frame a); [done|by repeat split|done|done|done| |].
    + intros key row. cbn [table set_table]. by rewrite lookup_empty.
    + intros m'. cbn [spiller set_table set_recordTypes set_outTypes keysComparator].
      apply Hpend.
  - rewrite <- Htr.
    split; [|split; [done|split; [done|intros _; by eexists]]].
    apply (Inv_frame a); [done|by repeat split|intros j t; apply Hm'|done|done| |].
    + intros key row.
      cbn [table set_table set_maxSpillKey set_spiller]. by rewrite lookup_empty.
    + intros m'.
      cbn [spiller set_maxSpillKey set_spiller keysComparator set_table
           set_recordTypes set_outTypes].
      intros [= <-]. unfold spill_merge. cbn [ms_compare ms_pending].
      assert (ms_compare (default (mkMergeSort (keysComparator a) []) (spiller a))
              = keysComparator a
              ∧ Sorted (cmp_le (keysComparator a))
                  (ms_pending (default (mkMergeSort (keysComparator a) [])
                                 (spiller a)))) as [-> Hsrt].
      { destruct (spiller a) as [m0|] eqn:Hm0; cbn; [by apply Hpend|].
        split; [done|constructor]. }
      split; [done|].
      pose proof (keysComparator_total a Hconf).
      apply Sorted_list_merge; [done|done|]. by apply Sorted_merge_sort.
Qed.

(** At the end of the input the merged stream is read in its order. *)
Lemma readSpills_eof a m :
  Inv a → spiller a = Some m →
  ∃ a' r, readSpills true a = (a', Ok r)
          ∧ Inv a' ∧ table a' = table a ∧ maxTableKey a' = maxTableKey a
          ∧ is_Some (spiller a')
          ∧ ∀ b, r = Some b → StronglySorted (cmp_le vc) (map keyRef0 b).
Proof.
  intros HI Hsp. pose proof HI as (Hconf & Hm & Htab & Hpend).
  destruct (Hpend m Hsp) as [Hcmp Hsorted].
  destruct (readSpills_spec a m true Hnf Henc Hm Hsp) as (ot & rt & Hr & Hm');
    [done|done|].
  destruct (drain_groups_app (spill_stop a true) (keysComparator a) BatchLen
              (ms_pending m)) as [Happ Hne].
  fold (drain a BatchLen true (ms_pending m)) in Happ, Hne.
  destruct (drain a BatchLen true (ms_pending m)) as [gs rest] eqn:Hd.
  cbn [fst snd] in *.
  eexists _, _. split; [exact Hr|].
  split; [|split; [done|split; [done|split]]].
  - apply (Inv_frame a); [done|by repeat split|intros j t; apply Hm'|done|done|done|].
    intros m'. unfold set_pending.
    cbn [spiller set_spiller set_recordTypes set_outTypes keysComparator].
    rewrite Hsp. cbn [option_map]. intros [= <-]. cbn [ms_compare ms_pending].
    split; [done|]. rewrite <- Happ in Hsorted. by apply Sorted_app_r in Hsorted.
  - unfold set_pending. cbn [spiller set_spiller set_recordTypes set_outTypes].
    rewrite Hsp. by eexists.
  - intros b Hb.
    assert (b = map (group_record a) gs) as ->.
    { destruct (map (group_record a) gs); [done|]. by inversion Hb. }
    assert (map keyRef0 (map (group_record a) gs) = map keyRef0 (omap head gs)) as ->.
    { clear -Hne Hconf. induction Hne as [|g gs Hg Hgs IH]; [done|].
      destruct g as [|rec g]; [done|]. cbn. rewrite IH. f_equal.
      by apply group_record_first. }
    apply (StronglySorted_sublist _ _ (map keyRef0 (ms_pending m))).
    { apply fmap_sublist. rewrite <- Happ.
      apply sublist_inserts_r. by apply heads_sublist. }
    apply Sorted_StronglySorted; [apply _|].
    apply (Sorted_fmap keyRef0 (cmp_le (keysComparator a))); [|done].
    intros x y Hxy. unfold cmp_le in *.
    destruct (keyRefs_head a Hconf) as [rs Hrs].
    destruct Hconf as (_ & _ & _ & Hkc & _). rewrite Hkc, Hrs in Hxy.
    by apply lex_compare_first in Hxy.
Qed.

(** The results at the end of the input come in the order of the first
    key. *)
Lemma nextResult_eof a a' r :
  Inv a → table_settled a → nextResult true a = (a', r) →
  Inv a' ∧ maxTableKey a' = maxTableKey a ∧ table_settled a'
  ∧ (∀ e, r ≠ Err e)
  ∧ ∀ b, r = Ok (Some b) → StronglySorted (cmp_le vc) (map keyRef0 b).
Proof.
  intros HI Hset H. pose proof HI as (Hconf & Hm & Htab & Hpend).
  unfold nextResult in H. revert H. mnorm.
  destruct (spiller a) as [m|] eqn:Hsp.
  - destruct (spillTable_inv a true HI) as (a1 & Hs & HI1 & Ht1 & Hmtk1 & Hsp1).
    rewrite (bind_Ok _ _ _ _ _ Hs).
    destruct Hsp1 as [m1 Hm1]; [by eexists|].
    destruct (readSpills_eof a1 m1 HI1 Hm1) as (a2 & r2 & Hr & HI2 & Ht2 & Hmtk2 & Hsp2 & Hb).
    rewrite Hr. intros [= <- <-].
    split; [done|]. split; [congruence|]. split.
    { intros Hn. rewrite Hn in Hsp2. by destruct Hsp2. }
    split; [done|]. intros b [= ->]. by apply Hb.
  - mnorm.
    destruct (readTable_flush a (partialsOut a) Henc Hperm Hm (table_ok_rows_wf a Htab))
      as (ot & rt & Hr & Hm').
    rewrite Hr. intros [= <- <-].
    split; [|split; [done|split; [|split; [done|]]]].
    + apply (Inv_frame a); [done|by repeat split|done|done|done| |].
      * intros key row. cbn [table set_table]. by rewrite lookup_empty.
      * intros m'. cbn [spiller set_table set_recordTypes set_outTypes]. by rewrite Hsp.
    + intros _ key row mtk. cbn [table set_table]. by rewrite lookup_empty.
    + intros b Hb.
      set (l := map_range (map_to_list (table a))) in *.
      assert (b = map (λ kr, row_record (keyTypes a) (aggs a) (partialsOut a) kr.1 kr.2) l)
        as ->.
      { destruct (map _ l); [done|]. by inversion Hb. }
      assert (∀ x, x ∈ map keyRef0
                     (map (λ kr, row_record (keyTypes a) (aggs a) (partialsOut a)
                                   kr.1 kr.2) l) →
                   ∃ mtk, maxTableKey a = Some mtk ∧ vc x mtk <= 0 ∧ vc mtk x <= 0)
        as Hall.
      { intros x Hx. apply list_elem_of_fmap in Hx as (rec & -> & Hrec).
        apply list_elem_of_fmap in Hrec as ([key row] & -> & Hkr). cbn [fst snd].
        unfold l in Hkr. rewrite (Hperm _) in Hkr. apply elem_of_map_to_list in Hkr.
        destruct (Htab key row Hkr) as (kts & p & mtk & Hk & Hlen & Hp & Hpg & Hgp & Hmtk & Hg).
        exists mtk. split; [done|].
        rewrite (row_record_first a key row (partialsOut a) p); [|done| |done].
        - split; [by apply (Htrans _ (groupval row))|].
          apply (Htrans _ (groupval row)); [|done]. by apply (Hset Hsp key row mtk).
        - by rewrite row_keys_length, Hk. }
      apply StronglySorted_all_related. intros x y Hx Hy.
      destruct (Hall x Hx) as (mtk & Hmtk & Hx1 & _).
      destruct (Hall y Hy) as (mtk' & Hmtk' & _ & Hy2).
      rewrite Hmtk in Hmtk'. inversion Hmtk'; subst mtk'.
      by apply (Htrans _ mtk).
Qed.

(** *** The producer *)

(** Every batch received downstream has its first keys in order. *)
Definition batches_sorted (tr : list Event) : Prop :=
  Forall (λ b, StronglySorted (cmp_le vc) (map keyRef0 b)) (delivered tr).

Definition OpInv (o : Op) (rest : list Value) : Prop :=
  Inv (agg o) ∧ ahead (agg o) rest ∧ batches_sorted (trace o).

Lemma delivered_app tr tr' : delivered (tr ++ tr') = delivered tr ++ delivered tr'.
Proof. unfold delivered. apply omap_app. Qed.

Lemma batches_sorted_quiet tr ev :
  delivered [ev] = [] → batches_sorted tr → batches_sorted (tr ++ [ev]).
Proof.
  intros Hev H. unfold batches_sorted. rewrite delivered_app, Hev. by rewrite app_nil_r.
Qed.

Lemma batches_sorted_result tr b err :
  (∀ l, b = Some l → StronglySorted (cmp_le vc) (map keyRef0 l)) →
  batches_sorted tr → batches_sorted (tr ++ [EvResult b err]).
Proof.
  intros Hb H. unfold batches_sorted. rewrite delivered_app.
  apply Forall_app. split; [done|].
  destruct b as [l|]; cbn; [|done]. constructor; [by apply Hb|done].
Qed.

Lemma OpInv_log o rest ev :
  delivered [ev] = [] → OpInv o rest → OpInv (log o [ev]) rest.
Proof.
  intros Hev (HI & Ha & Hb). split; [done|]. split; [done|].
  by apply batches_sorted_quiet.
Qed.

Lemma Op_call_fields {A} (m : M A) o o' r :
  Op_call m o = (o', r) →
  m (agg o) = (agg o', r) ∧ delivered (trace o') = delivered (trace o).
Proof.
  unfold Op_call. destruct (m (agg o)) as [a' r'] eqn:Hm.
  intros [= <- <-]. cbn [agg trace]. split; [done|].
  rewrite delivered_app.
  destruct (spiller (agg o)), (spiller a'); cbn; by rewrite app_nil_r.
Qed.

Lemma reset_OpInv o rest :
  OpInv o rest → OpInv (reset o) rest ∧ table_settled (agg (reset o)).
Proof.
  intros (HI & Ha & Hb). unfold reset.
  assert (∀ a, Inv a → Inv (set_table (set_spiller a None) ∅)) as Hreset.
  { intros a HIa. apply (Inv_frame a); [done|by repeat split| |done|done| |].
    - intros j t. apply HIa.
    - intros key row. cbn [table set_table]. by rewrite lookup_empty.
    - intros m. cbn [spiller set_table set_spiller]. done. }
  destruct (spiller (agg o)) as [m|] eqn:Hsp; cbn [agg trace].
  - split; [split; [by apply Hreset|split]|].
    + intros mtk. cbn [maxTableKey set_table set_spiller]. apply Ha.
    + apply batches_sorted_quiet; [done|]. by apply batches_sorted_quiet.
    + intros _ key row mtk. cbn [table set_table]. by rewrite lookup_empty.
  - split; [split; [|split]|].
    + apply (Inv_frame (agg o)); [done|by repeat split| |done|done| |].
      * intros j t. apply HI.
      * intros key row. cbn [agg table set_table]. by rewrite lookup_empty.
      * intros m. cbn [agg spiller set_table]. by rewrite Hsp.
    + intros mtk. cbn [agg maxTableKey set_table]. apply Ha.
    + by apply batches_sorted_quiet.
    + intros _ key row mtk. cbn [agg table set_table]. by rewrite lookup_empty.
Qed.

Lemma sendResult_sorted s o b err o' r rest :
  OpInv o rest → table_settled (agg o) →
  (∀ l, b = Some l → StronglySorted (cmp_le vc) (map keyRef0 l)) →
  sendResult s o b err = (o', r) →
  OpInv o' rest ∧ table_settled (agg o').
Proof.
  intros Hinv Hset Hb H. unfold sendResult in H.
  set (o1 := match b with None => log o [EvResetterReset] | Some _ => o end) in *.
  assert (OpInv o1 rest ∧ table_settled (agg o1)) as [Hinv1 Hset1].
  { subst o1. destruct b; [done|]. split; [by apply OpInv_log|done]. }
  destruct s as [[|pullErr sent|]|].
  - inversion H; subst. split; [|done].
    destruct Hinv1 as (? & ? & ?). split; [done|]. split; [done|].
    by apply batches_sorted_result.
  - destruct (reset_OpInv o1 rest Hinv1) as [Hinv2 Hset2].
    assert (OpInv (log (reset o1) [EvParentPullDone]) rest) as Hinv3
      by (by apply OpInv_log).
    destruct (match err with Some e => Some e | None => pullErr end).
    + destruct sent; inversion H; subst; [|done].
      split; [|done]. destruct Hinv3 as (? & ? & ?). split; [done|]. split; [done|].
      by apply batches_sorted_result.
    + by inversion H; subst.
  - by inversion H; subst.
  - by inversion H; subst.
Qed.

Lemma sendResults_sorted sels : ∀ o o' sels' f rest,
  OpInv o rest → table_settled (agg o) →
  sendResults sels o = (o', sels', f) →
  OpInv o' rest ∧ table_settled (agg o').
Proof.
  induction sels as [|s sels IH]; intros o o' sels' f rest Hinv Hset H;
    cbn [sendResults] in H.
  - destruct (Op_call (nextResult true) o) as [o1 r] eqn:Hcall.
    apply Op_call_fields in Hcall as [Hm Hd].
    destruct Hinv as (HI & Ha & Hb).
    destruct (nextResult_eof _ _ _ HI Hset Hm) as (HI1 & Hmtk1 & Hset1 & Herr & Hsrt).
    assert (OpInv o1 rest) as Hinv1.
    { split; [done|]. split; [intros mtk; rewrite Hmtk1; apply Ha|].
      unfold batches_sorted. by rewrite Hd. }
    destruct r as [b|e|p]; [|by destruct (Herr e)|by inversion H; subst].
    destruct (sendResult None o1 b None) as [o2 r2] eqn:Hs.
    apply (sendResult_sorted _ _ _ _ _ _ rest Hinv1 Hset1) in Hs;
      [|intros l ->; by apply Hsrt].
    by inversion H; subst.
  - destruct (Op_call (nextResult true) o) as [o1 r] eqn:Hcall.
    apply Op_call_fields in Hcall as [Hm Hd].
    destruct Hinv as (HI & Ha & Hb).
    destruct (nextResult_eof _ _ _ HI Hset Hm) as (HI1 & Hmtk1 & Hset1 & Herr & Hsrt).
    assert (OpInv o1 rest) as Hinv1.
    { split; [done|]. split; [intros mtk; rewrite Hmtk1; apply Ha|].
      unfold batches_sorted. by rewrite Hd. }
    destruct r as [b|e|p]; [|by destruct (Herr e)|by inversion H; subst].
    destruct (sendResult (Some s) o1 b None) as [o2 [[done ok]|]] eqn:Hs;
      apply (sendResult_sorted _ _ _ _ _ _ rest Hinv1 Hset1) in Hs;
      try (intros l ->; by apply Hsrt).
    + destruct ok; cbn [negb] in H; [|by inversion H; subst].
      destruct (match b with None => true | Some _ => done end);
        [by inversion H; subst|].
      destruct Hs as [Hinv2 Hset2]. by apply (IH o2 o' sels' f rest).
    + by inversion H; subst.
Qed.

Lemma sortBatch_sorted a res res' :
  sorted_conf a → sortBatch (keyCompare a) res = Ok res' →
  StronglySorted (cmp_le vc) (map keyRef0 res').
Proof.
  intros (_ & _ & (kcmp & Hk & Hkc) & _) H. rewrite Hk in H. cbn in H.
  inversion H; subst res'.
  apply Sorted_StronglySorted; [apply _|].
  apply (Sorted_fmap keyRef0 (cmp_le kcmp)).
  { intros x y. unfold cmp_le. by rewrite Hkc. }
  apply Sorted_merge_sort. intros x y. unfold cmp_le. rewrite !Hkc.
  apply (cmp_sgn_total vc Hsgn).
Qed.

Lemma emitCompleted_sorted sels : ∀ o o' sels' f rest,
  OpInv o rest →
  emitCompleted sels o = (o', sels', f) →
  OpInv o' rest ∧ table_settled (agg o').
Proof.
  induction sels as [|s sels IH]; intros o o' sels' f rest Hinv H;
    cbn [emitCompleted] in H.
  - destruct (Op_call (nextResult false) o) as [o1 r] eqn:Hcall.
    apply Op_call_fields in Hcall as [Hm Hd].
    destruct Hinv as (HI & Ha & Hb).
    destruct (nextResult_early _ _ _ HI Hm) as (HI1 & Hmtk1 & Hset1 & Herr).
    assert (OpInv o1 rest) as Hinv1.
    { split; [done|]. split; [intros mtk; rewrite Hmtk1; apply Ha|].
      unfold batches_sorted. by rewrite Hd. }
    destruct r as [[res|]|e|p]; [| |by destruct (Herr e)|]; try (by inversion H; subst).
    destruct (sortBatch _ res) as [res'|e|p] eqn:Hsort; by inversion H; subst.
  - destruct (Op_call (nextResult false) o) as [o1 r] eqn:Hcall.
    apply Op_call_fields in Hcall as [Hm Hd].
    destruct Hinv as (HI & Ha & Hb).
    destruct (nextResult_early _ _ _ HI Hm) as (HI1 & Hmtk1 & Hset1 & Herr).
    assert (OpInv o1 rest) as Hinv1.
    { split; [done|]. split; [intros mtk; rewrite Hmtk1; apply Ha|].
      unfold batches_sorted. by rewrite Hd. }
    destruct r as [[res|]|e|p]; [| |by destruct (Herr e)|]; try (by inversion H; subst).
    destruct (sortBatch _ res) as [res'|e|p] eqn:Hsort; try (by inversion H; subst).
    destruct (sendResult (Some s) o1 (Some res') None) as [o2 [[done ok]|]] eqn:Hs;
      apply (sendResult_sorted _ _ _ _ _ _ rest Hinv1 Hset1) in Hs;
      try (intros l [= <-]; eapply sortBatch_sorted; [apply HI1|exact Hsort]).
    + destruct ok; cbn [negb] in H; [|by inversion H; subst].
      destruct done; [by inversion H; subst|].
      destruct Hs as [Hinv2 Hset2]. by apply (IH o2 o' sels' f rest).
    + by inversion H; subst.
Qed.

(** The records of the batches pulled from the parent. *)
Fixpoint inputs_of (pulls : list PullResult) : list Value :=
  match pulls with
  | [] => []
  | PullBatch vals :: pulls' => vals ++ inputs_of pulls'
  | _ :: pulls' => inputs_of pulls'
  end.

Lemma run_loop_sorted pulls : ∀ sels o o' st,
  OpInv o (inputs_of pulls) → table_settled (agg o) →
  sorted_input (inputs_of pulls) →
  run_loop pulls sels o = (o', st) →
  batches_sorted (trace o').
Proof.
  induction pulls as [|pull pulls IH]; intros sels o o' st Hinv Hset Hsin H;
    cbn [run_loop] in H.
  { inversion H; subst. apply Hinv. }
  destruct pull as [vals| |e]; cbn [inputs_of] in *.
  - destruct (Op_call (Consume_all vals) o) as [o1 r] eqn:Hcall.
    apply Op_call_fields in Hcall as [Hm Hd].
    destruct Hinv as (HI & Ha & Hb).
    destruct (Consume_all_inv vals (agg o) (inputs_of pulls) HI Hsin Ha)
      as (a1 & HC & HI1 & Ha1).
    rewrite HC in Hm. inversion Hm; subst a1 r.
    assert (OpInv o1 (inputs_of pulls)) as Hinv1.
    { split; [done|]. split; [done|]. unfold batches_sorted. by rewrite Hd. }
    assert (sorted_input (inputs_of pulls)) as Hsin1.
    { unfold sorted_input, primaries in *. rewrite map_app, filter_app in Hsin.
      by apply StronglySorted_app_1_r in Hsin. }
    replace (inputDir (agg o1) =? 0) with false in H.
    2: { symmetry. apply Z.eqb_neq. apply HI1. }
    destruct (emitCompleted sels o1) as [[o2 sels2] f] eqn:He.
    apply (emitCompleted_sorted _ _ _ _ _ (inputs_of pulls) Hinv1) in He
      as [Hinv2 Hset2].
    destruct f; try (inversion H; subst; by apply Hinv2).
    by apply (IH sels2 o2 o' st).
  - destruct (sendResults sels o) as [[o2 sels2] f] eqn:He.
    apply (sendResults_sorted _ _ _ _ _ (inputs_of pulls) Hinv Hset) in He
      as [Hinv2 Hset2].
    destruct f; try (inversion H; subst; by apply Hinv2).
    by apply (IH sels2 o2 o' st).
  - destruct (sendResult (head sels) o None (Some e)) as [o2 r2] eqn:Hs.
    apply (sendResult_sorted _ _ _ _ _ _ (inputs_of pulls) Hinv Hset) in Hs
      as [Hinv2 Hset2]; [|done].
    destruct r2 as [[d ok]|]; [|inversion H; subst; by apply Hinv2].
    destruct ok; [by apply (IH (tail sels) o2 o' st)|inversion H; subst; by apply Hinv2].
Qed.

Lemma run_sorted pulls sels o o' st :
  OpInv o (inputs_of pulls) → table_settled (agg o) →
  sorted_input (inputs_of pulls) →
  run pulls sels o = (o', st) →
  batches_sorted (trace o').
Proof.
  intros Hinv Hset Hsin H. unfold run in H.
  destruct (run_loop pulls sels o) as [o1 st1] eqn:Hl.
  pose proof (run_loop_sorted _ _ _ _ _ Hinv Hset Hsin Hl) as Hb.
  assert (batches_sorted (trace (run_deferred o1))) as Hb'.
  { unfold run_deferred.
    destruct (spiller (agg (log o1 [EvCloseResultCh]))); cbn [log trace agg];
      repeat (apply batches_sorted_quiet; [done|]); done. }
  destruct st1; by inversion H; subst.
Qed.

End SortedOutput.



(** ** What no method changes *)

(** A property of the aggregator that the writes of the methods keep:
    it does not depend on the fields written, [maxTableKey] apart, and
    [updateMaxTableKey] keeps it. *)
Definition frame_closed (P : Aggregator → Prop) : Prop :=
  (∀ a v, P a → P (set_keyTypes a v))
  ∧ (∀ a v, P a → P (set_outTypes a v))
  ∧ (∀ a v, P a → P (set_recordTypes a v))
  ∧ (∀ a v, P a → P (set_table a v))
  ∧ (∀ val a a' r, updateMaxTableKey val a = (a', r) → P a → P a')
  ∧ (∀ a v, P a → P (set_maxSpillKey a v))
  ∧ (∀ a v, P a → P (set_spiller a v)).

Section Frame.
Variable P : Aggregator → Prop.
Hypothesis HP : frame_closed P.

Lemma frame_updateMaxTableKey val : preserves P (updateMaxTableKey val).
Proof.
  destruct HP as (_ & _ & _ & _ & Hmtk & _).
  intros a a' r H Ha. by apply (Hmtk val a a' r).
Qed.

Lemma frame_updateMaxSpillKey v : preserves P (updateMaxSpillKey v).
Proof.
  destruct HP as (_ & _ & _ & _ & _ & Hmsk & _).
  intros a a' r H Ha. unfold updateMaxSpillKey in H.
  repeat (match type of H with context [match ?x with _ => _ end] => destruct x end);
    inversion H; subst; auto.
Qed.

Lemma frame_lookupRecordType types : preserves P (lookupRecordType types).
Proof.
  destruct HP as (_ & Hot & Hrt & _).
  intros a a' r H Ha. unfold lookupRecordType in H.
  destruct (TypeVectorTable_Lookup (outTypes a) types) as [tid ot].
  destruct (recordTypes (set_outTypes a ot) !! tid); inversion H; subst; auto.
Qed.

Ltac frame_step :=
  first
    [ apply preserves_ret | apply preserves_get | apply preserves_lift
    | apply preserves_throw | apply preserves_deref
    | apply frame_updateMaxTableKey | apply frame_updateMaxSpillKey
    | apply frame_lookupRecordType
    | apply preserves_modify;
      [let a := fresh "a" in let Ha := fresh "Ha" in
       intros a Ha; destruct HP as (?&?&?&?&?&?&?); solve [auto]]
    | apply preserves_bind; [|intros ?]
    | match goal with
      | |- preserves _ (match ?x with _ => _ end) => destruct x
      | |- preserves _ (let '(_, _) := ?x in _) => destruct x
      end ].

Ltac frame := repeat frame_step.

Lemma frame_buildRecord fields types : preserves P (buildRecord fields types).
Proof. unfold buildRecord. frame. Qed.

Lemma frame_readTable_loop flush po entries recs :
  preserves P (readTable_loop flush po entries recs).
Proof.
  revert recs. induction entries as [|[key row] entries IH]; intros recs;
    cbn [readTable_loop]; [frame|].
  apply preserves_bind; [|intros r; apply IH].
  unfold readTable_entry. frame; apply frame_buildRecord.
Qed.

Lemma frame_readTable flush po : preserves P (readTable flush po).
Proof.
  unfold readTable. apply preserves_bind; [frame|intros t].
  apply preserves_bind; [apply frame_readTable_loop|intros recs]. frame.
Qed.

Lemma frame_spillTable eof : preserves P (spillTable eof).
Proof.
  unfold spillTable. apply preserves_bind; [apply frame_readTable|intros batch].
  frame.
Qed.

Lemma frame_Consume_keys i es this types keyBytes prim :
  preserves P (Consume_keys i es this types keyBytes prim).
Proof.
  revert i types keyBytes prim.
  induction es as [|e es IH]; intros i types keyBytes prim; cbn [Consume_keys];
    [frame|].
  destruct (Value_IsQuiet (e this)); [frame|].
  apply preserves_bind; [frame|intros dir].
  apply preserves_bind; [|intros p; apply IH].
  destruct (_ && _); frame.
Qed.

Lemma frame_Consume this : preserves P (Consume this).
Proof.
  unfold Consume. apply preserves_bind; [frame|intros kes].
  apply preserves_bind; [apply frame_Consume_keys|intros [|types keyBytes prim]];
    [frame|].
  apply preserves_bind; [frame|intros kt].
  destruct (TypeVectorTable_Lookup kt types) as [keyType0 kt'].
  apply preserves_bind; [frame|intros _].
  apply preserves_bind; [frame|intros t].
  apply preserves_bind; [|intros row; frame].
  destruct (t !! _); [frame|].
  apply preserves_bind; [frame|intros lim].
  apply preserves_bind; [|intros _; frame].
  destruct (lim <=? _); [apply frame_spillTable|frame].
Qed.

Lemma frame_Consume_all vals : preserves P (Consume_all vals).
Proof.
  induction vals as [|v vals IH]; cbn [Consume_all]; [frame|].
  apply preserves_bind; [apply frame_Consume|intros _; apply IH].
Qed.

Lemma frame_spiller_Peek : preserves P spiller_Peek.
Proof. unfold spiller_Peek. frame. Qed.

Lemma frame_spiller_Read : preserves P spiller_Read.
Proof. unfold spiller_Read. frame. Qed.

Lemma frame_nextResultFromSpills_loop fuel firstRec row :
  preserves P (nextResultFromSpills_loop fuel firstRec row).
Proof.
  revert firstRec row. induction fuel as [|fuel IH]; intros firstRec row;
    cbn [nextResultFromSpills_loop]; [frame|].
  apply preserves_bind; [apply frame_spiller_Peek|intros [rec|]]; [|frame].
  apply preserves_bind; [frame|intros cmp].
  destruct firstRec as [first|].
  - destruct (negb (cmp first rec =? 0)); [frame|].
    apply preserves_bind; [frame|intros acc].
    apply preserves_bind; [frame|intros refs].
    apply preserves_bind; [apply frame_spiller_Read|intros _]. apply IH.
  - apply preserves_bind; [frame|intros acc].
    apply preserves_bind; [frame|intros refs].
    apply preserves_bind; [apply frame_spiller_Read|intros _]. apply IH.
Qed.

Lemma frame_nextResultFromSpills : preserves P nextResultFromSpills.
Proof.
  unfold nextResultFromSpills.
  apply preserves_bind; [frame|intros acc].
  apply preserves_bind; [frame|intros m].
  apply preserves_bind; [apply frame_nextResultFromSpills_loop|intros r].
  destruct r.1; [|frame].
  apply preserves_bind; [frame|intros refs].
  apply preserves_bind; [frame|intros po].
  apply preserves_bind; [apply frame_buildRecord|intros rec]. frame.
Qed.

Lemma frame_readSpills_loop n eof recs : preserves P (readSpills_loop n eof recs).
Proof.
  revert recs. induction n as [|n IH]; intros recs; cbn [readSpills_loop]; [frame|].
  apply preserves_bind; [frame|intros dir].
  apply preserves_bind.
  - destruct (negb eof && negb (dir =? 0)); [|frame].
    apply preserves_bind; [apply frame_spiller_Peek|intros [rec|]]; [|frame].
    frame.
  - intros [|]; [frame|].
    apply preserves_bind; [apply frame_nextResultFromSpills|intros [rec|]];
      [apply IH|frame].
Qed.

Lemma frame_readSpills eof : preserves P (readSpills eof).
Proof.
  unfold readSpills. apply preserves_bind; [frame|intros dir].
  destruct (negb eof && (dir =? 0)); [frame|].
  apply preserves_bind; [apply frame_readSpills_loop|intros recs]. frame.
Qed.

Lemma frame_nextResult eof : preserves P (nextResult eof).
Proof.
  unfold nextResult. apply preserves_bind; [frame|intros [m|]].
  - apply preserves_bind; [|intros _; apply frame_readSpills].
    destruct eof; [apply frame_spillTable|frame].
  - apply preserves_bind; [frame|intros po]. apply frame_readTable.
Qed.

End Frame.

Lemma same_config_closed a0 : frame_closed (same_config a0).
Proof.
  unfold frame_closed.
  do 4 (split; [intros a v Ha; exact Ha|]).
  split; [|split; intros a v Ha; exact Ha].
  intros val a a' r H Ha. unfold updateMaxTableKey in H.
  repeat (match type of H with context [match ?x with _ => _ end] => destruct x end);
    inversion H; subst; exact Ha.
Qed.

(** * Further properties of the aggregator *)

(** X1.  No method of the aggregator changes its configuration: after
    [Consume] of any records and after [nextResult], on every path, the
    failing and the panicking ones included, the key references and
    expressions, the aggregate functions and their references, the limit,
    the three comparators, the input direction and the two partials flags
    are the ones found. *)
Theorem methods_keep_config (a a' : Aggregator) (vals : list Value) (eof : bool)
    (r1 : outcome unit) (r2 : outcome (option (list Value))) :
  Consume_all vals a = (a', r1) ∨ nextResult eof a = (a', r2) →
  same_config a a'.
Proof.
  intros [H|H].
  - apply (frame_Consume_all (same_config a) (same_config_closed a) vals a a' r1 H).
    apply same_config_refl.
  - apply (frame_nextResult (same_config a) (same_config_closed a) eof a a' r2 H).
    apply same_config_refl.
Qed.

(** X2.  [maxTableKey] never falls and is never unset: whatever [Consume]
    does with a record, fail or panic included, a maximum that was set
    before is followed by one that compares greater or equal under a value
    comparison that is transitive and changes sign with its arguments. *)
Theorem Consume_maxTableKey_monotone (a a' : Aggregator) (this : Value)
    (r : outcome unit) (vc : CompareFn) (mtk : Value) :
  valueCompare a = Some vc → cmp_sgn vc → cmp_transitive vc →
  maxTableKey a = Some mtk →
  Consume this a = (a', r) →
  ∃ mtk', maxTableKey a' = Some mtk' ∧ vc mtk mtk' <= 0.
Proof.
  intros Hvc Hsgn Htrans Hmtk H.
  set (P := λ x : Aggregator,
         valueCompare x = Some vc
         ∧ ∃ mtk', maxTableKey x = Some mtk' ∧ vc mtk mtk' <= 0).
  assert (frame_closed P) as HP.
  { unfold frame_closed, P.
    do 4 (split; [intros x v Hx; exact Hx|]).
    split; [|split; intros x v Hx; exact Hx].
    intros val x x' rx Hu (Hx & m & Hm & Hle). unfold updateMaxTableKey in Hu.
    rewrite Hm, Hx in Hu.
    destruct (Z.ltb_spec 0 (vc val m)) as [Hlt|Hge]; inversion Hu; subst.
    - split; [done|]. exists val. split; [done|].
      apply (Htrans _ m); [done|]. apply cmp_sgn_swap; [done|lia].
    - split; [done|]. by exists m. }
  apply (frame_Consume P HP this a a' r H). split; [done|].
  exists mtk. split; [done|]. pose proof (cmp_sgn_refl vc mtk Hsgn). lia.
Qed.

Lemma Consume_step a this :
  no_faults → Encode_total → map_range_perm →
  memo_wf a → rows_wf a → sorted_mode_ok a →
  Z.of_nat (size (table a)) <= Z.max 1 (limit a) →
  ∃ a', Consume this a = (a', Ok tt)
        ∧ same_config a a' ∧ memo_wf a' ∧ rows_wf a'
        ∧ Z.of_nat (size (table a')) <= Z.max 1 (limit a').
Proof.
  intros Hnf Henc Hperm Hm Hrows Hmode Hsize.
  assert (sorted_config_ok a) as Hcfg by (intros Hd _; by apply Hmode).
  destruct (decide (not_quiet a this)) as [Hq|Hq].
  - destruct (Consume_keyed a this Hnf Henc Hperm Hm Hrows Hmode Hq)
      as (a' & HC & Hsame & Hm' & Hkt & _ & Hcases).
    exists a'. split; [done|]. split; [done|]. split; [done|].
    pose proof Hsame as (_&_&_&_&Hlim&_). rewrite Hlim.
    unfold tableKey in Hkt, Hcases.
    destruct (TypeVectorTable_Lookup (keyTypes a) (map Value_Type (key_values a this)))
      as [tid kt'] eqn:Hlook.
    cbn [fst snd] in Hkt, Hcases.
    pose proof (TypeVectorTable_Lookup_spec _ _ _ _ Hlook) as (Htid & _ & ext & Hext).
    destruct Hcases as [(Hsp & Ht & _)|(Hnsp & Ht & _)].
    + split.
      * intros k row. rewrite Ht, Hkt. intros Hrow.
        apply lookup_singleton_Some in Hrow as [_ <-]. cbn [Consume_row keyType].
        by eauto.
      * rewrite Ht, map_size_singleton. lia.
    + split.
      * intros k row. rewrite Ht, Hkt. intros Hrow.
        apply lookup_insert_Some in Hrow as [[_ <-]|[_ Hrow]].
        -- cbn [Consume_row keyType].
           destruct (table a !! _) as [row0|] eqn:Hrow0; cbn [default from_option id].
           ++ destruct (Hrows _ _ Hrow0) as [tys Htys]. exists tys.
              rewrite Hext. by apply lookup_app_l_Some.
           ++ cbn [keyType]. by eauto.
        -- destruct (Hrows _ _ Hrow) as [tys Htys]. exists tys.
           rewrite Hext. by apply lookup_app_l_Some.
      * rewrite Ht.
        destruct (table a !! _) as [row0|] eqn:Hrow0.
        -- by rewrite map_size_insert_Some.
        -- rewrite map_size_insert_None by done.
           destruct (decide (table a = ∅)) as [He|Hne].
           ++ rewrite He, map_size_empty. lia.
           ++ assert (¬ limit a <= Z.of_nat (size (table a))) as Hlt.
              { intros Hle. apply Hnsp. unfold spills_on, tableKey.
                rewrite Hlook. cbn [fst snd]. by repeat split. }
              lia.
  - assert (Exists (λ e : Evaluator, Value_IsQuiet (e this) = true) (keyExprs a)) as Hex.
    { unfold not_quiet, key_values in Hq. apply not_Forall_Exists in Hq; [|apply _].
      apply Exists_exists in Hq as (v & Hv & Hnq).
      apply list_elem_of_fmap in Hv as (e & -> & He).
      apply Exists_exists. exists e. split; [done|]. cbn in Hnq.
      destruct (Value_IsQuiet (e this)); [done|by destruct Hnq]. }
    destruct (Consume_quiet a this Hcfg Hex) as (mtk' & HC & _).
    exists (set_maxTableKey a mtk'). split; [done|].
    split; [by repeat split|]. split; [intros j t; apply Hm|]. split; [|done].
    intros k row. apply Hrows.
Qed.

(** X3.  The group table is bounded by the limit: when storage and the
    record builder do not fail, [Consume] of any sequence of records
    succeeds, and a table that held at most [limit] rows (at most one row
    where the limit is below one) still does afterwards. *)
Theorem Consume_all_table_bound (vals : list Value) (a : Aggregator) :
  no_faults → Encode_total → map_range_perm →
  memo_wf a → rows_wf a → sorted_mode_ok a →
  Z.of_nat (size (table a)) <= Z.max 1 (limit a) →
  ∃ a', Consume_all vals a = (a', Ok tt)
        ∧ limit a' = limit a
        ∧ Z.of_nat (size (table a')) <= Z.max 1 (limit a).
Proof.
  intros Hnf Henc Hperm. revert a.
  induction vals as [|v vals IH]; intros a Hm Hrows Hmode Hsize.
  { exists a. by repeat split. }
  destruct (Consume_step a v Hnf Henc Hperm Hm Hrows Hmode Hsize)
    as (a1 & HC & Hsame & Hm1 & Hrows1 & Hsize1).
  pose proof Hsame as (_&Hkes&_&_&Hlim&Hvc&_&_&Hdir&_).
  destruct (IH a1 Hm1 Hrows1) as (a' & HC' & Hlim' & Hsize'); [|done|].
  { intros Hd. rewrite Hkes, Hvc. apply Hmode. by rewrite <- Hdir. }
  exists a'. split; [|split; [congruence|by rewrite <- Hlim]].
  cbn [Consume_all]. by rewrite (bind_Ok _ _ _ _ _ HC).
Qed.

(** X4.  A record whose key is in the table cannot spill or fail: whatever
    the limit and the state of storage, [Consume] hands the record to the
    aggregate functions of its row and leaves the key type and the group
    value of the row, the other rows, the spiller and [maxSpillKey]
    alone. *)
Theorem Consume_existing_key (a : Aggregator) (this : Value) (row : Row) :
  sorted_config_ok a → not_quiet a this →
  table a !! (tableKey a this).1.1 = Some row →
  ∃ a' row',
    Consume this a = (a', Ok tt)
    ∧ table a' = <[(tableKey a this).1.1 := row']> (table a)
    ∧ keyType row' = keyType row ∧ groupval row' = groupval row
    ∧ reducers row'
      = (if partialsIn a
         then valRow_consumeAsPartial (aggs a) (reducers row) this (aggRefs a)
         else valRow_apply (aggs a) (reducers row) this)
    ∧ spiller a' = spiller a ∧ maxSpillKey a' = maxSpillKey a
    ∧ limit a' = limit a.
Proof.
  intros Hcfg Hq Hrow.
  pose proof (Consume_nospill a this Hcfg Hq) as HC.
  rewrite Hrow in HC. cbn [default from_option id] in HC.
  destruct (after_keys_frame a this Hcfg) as [mtk Hframe].
  rewrite Hframe in HC.
  eexists _, (Consume_row a row this). split; [apply HC; by intros [=]|].
  cbn [table set_table set_keyTypes set_maxTableKey spiller maxSpillKey limit].
  by repeat split.
Qed.

Lemma map_range_nil_iff l : map_range_perm → map_range l = [] ↔ l = [].
Proof.
  intros Hperm. split; intros H.
  - apply Permutation_nil_r. rewrite <- H. symmetry. apply (Hperm l).
  - rewrite H. apply Permutation_nil_r. apply (Hperm []).
Qed.

(** X5.  A flush of the table returns one record for every row, in the
    order of the range over the table, and leaves the table empty; the
    batch is nil exactly when the table was empty.  Key types, max keys and
    spiller are left alone. *)
Theorem readTable_flush_all (a : Aggregator) (po : bool) :
  Encode_total → map_range_perm → memo_wf a → rows_wf a →
  ∃ a',
    readTable true po a = (a', Ok (batch_of (table_records a po)))
    ∧ table a' = ∅
    ∧ length (table_records a po) = size (table a)
    ∧ (batch_of (table_records a po) = None ↔ table a = ∅)
    ∧ keyTypes a' = keyTypes a ∧ spiller a' = spiller a
    ∧ maxTableKey a' = maxTableKey a ∧ maxSpillKey a' = maxSpillKey a.
Proof.
  intros Henc Hperm Hm Hrows.
  destruct (readTable_flush a po Henc Hperm Hm Hrows) as (ot & rt & Hr & _).
  eexists. split; [exact Hr|]. split; [done|]. split.
  { unfold table_records. rewrite length_map, (Hperm _). apply length_map_to_list. }
  split; [|done].
  unfold table_records. split.
  - intros Hb. destruct (map _ _) eqn:Hmap; [|done].
    apply map_eq_nil in Hmap. apply (proj1 (map_range_nil_iff _ Hperm)) in Hmap.
    by apply map_to_list_empty_iff.
  - intros He. rewrite He, map_to_list_empty.
    by rewrite (proj2 (map_range_nil_iff [] Hperm) eq_refl).
Qed.

(** X6.  A request for completed rows on an aggregator without a value
    comparator, as [NewAggregator] leaves it for unsorted input or no keys,
    panics with the internal-bug message as soon as the table holds a row,
    before anything is read or deleted; on an empty table it returns the
    nil batch. *)
Theorem readTable_unsorted_panics (a : Aggregator) (po : bool) :
  map_range_perm → valueCompare a = None →
  readTable false po a
  = (a, if decide (table a = ∅) then Ok None else Panic PanicInternalBug).
Proof.
  intros Hperm Hvc. destruct (decide (table a = ∅)) as [He|Hne].
  { by apply readTable_empty. }
  unfold readTable. mnorm.
  destruct (map_range (map_to_list (table a))) as [|[key row] l] eqn:Hl.
  { apply (proj1 (map_range_nil_iff _ Hperm)) in Hl.
    by apply map_to_list_empty_iff in Hl. }
  cbn [readTable_loop]. unfold readTable_entry. mnorm. rewrite Hvc. mnorm. done.
Qed.

(** X7.  At the end of an input that left nothing behind, an empty table
    and no spiller or a spiller whose merged stream is exhausted,
    [nextResult] returns the nil batch and changes nothing. *)
Theorem nextResult_eof_empty (a : Aggregator) :
  no_faults → map_range_perm → table a = ∅ →
  match spiller a with
  | None => True
  | Some m => ms_pending m = []
  end →
  nextResult true a = (a, Ok None).
Proof.
  intros Hnf Hperm He Hsp. unfold nextResult. mnorm.
  destruct (spiller a) as [m|] eqn:Hm.
  - assert (spillTable true a = (a, Ok tt)) as Hs.
    { unfold spillTable. rewrite (bind_Ok _ _ _ _ _ (readTable_empty a true true Hperm He)).
      done. }
    rewrite (bind_Ok _ _ _ _ _ Hs). unfold readSpills. mnorm.
    destruct BatchLen as [|n]; [done|]. cbn [readSpills_loop]. mnorm.
    mstep (nextResultFromSpills_nil a m Hnf Hm Hsp). done.
  - mnorm. by apply readTable_empty.
Qed.

(** X8.  When the merge sort cannot be created or the run cannot be
    written, [spillTable] returns the error of the storage after the table
    has been read out: the table is empty, and the rows it held are
    neither in the table nor in a run. *)
Theorem spillTable_fault (a : Aggregator) (eof : bool) (e : error) :
  Encode_total → map_range_perm → memo_wf a → rows_wf a →
  table a ≠ ∅ →
  match spiller a with
  | None => spill_fault OpNew [] = Some e
  | Some m => spill_fault OpSpill (ms_pending m) = Some e
  end →
  ∃ a', spillTable eof a = (a', Err e)
        ∧ table a' = ∅
        ∧ spiller a' = spiller a
        ∧ maxSpillKey a' = maxSpillKey a.
Proof.
  intros Henc Hperm Hm Hrows Hne Hfault.
  destruct (readTable_flush a true Henc Hperm Hm Hrows) as (ot & rt & Hr & _).
  fold (table_records a true) in Hr.
  destruct (table_records a true) as [|r0 recs0] eqn:Hrecs.
  { destruct Hne. by apply (table_records_nil a true). }
  eexists. split.
  - unfold spillTable. rewrite (bind_Ok _ _ _ _ _ Hr). cbn [batch_of]. mnorm.
    cbn [spiller set_table set_recordTypes set_outTypes].
    destruct (spiller a) as [m|] eqn:Hsp; mnorm.
    + unfold MergeSort_Spill. rewrite Hfault. cbn [lift bind]. reflexivity.
    + unfold spill_NewMergeSort. rewrite Hfault. cbn [lift bind]. reflexivity.
  - cbn [table spiller maxSpillKey set_table set_recordTypes set_outTypes].
    by repeat split.
Qed.

(** X9.  [lookupRecordType] memoizes: with a memo that agrees with the
    builder it returns the record type the builder gives for the types,
    and a second lookup of the same types returns the same type from the
    memo and changes nothing. *)
Theorem lookupRecordType_memoizes (a : Aggregator) (types : list TypeID) :
  memo_wf a →
  ∃ a1,
    lookupRecordType types a = (a1, Ok (RecordBuilder_Type types))
    ∧ lookupRecordType types a1 = (a1, Ok (RecordBuilder_Type types))
    ∧ memo_wf a1.
Proof.
  intros Hm.
  destruct (lookupRecordType_spec a types Hm) as (ot & rt & Hl & Hm').
  exists (set_recordTypes (set_outTypes a ot) rt). split; [done|]. split; [|done].
  unfold lookupRecordType in Hl |- *.
  destruct (TypeVectorTable_Lookup (outTypes a) types) as [tid ot0] eqn:Hlook.
  pose proof (TypeVectorTable_Lookup_stable _ _ _ _ [] Hlook) as Hlook'.
  rewrite app_nil_r in Hlook'.
  assert (ot = ot0 ∧ rt !! tid = Some (RecordBuilder_Type types)) as [-> Hrt].
  { pose proof (f_equal (λ x, outTypes x.1) Hl) as Ho.
    pose proof (f_equal (λ x, recordTypes x.1) Hl) as Hrc.
    pose proof (f_equal snd Hl) as Hv.
    destruct (recordTypes (set_outTypes a ot0) !! tid) as [typ|] eqn:Hr;
      cbn in Ho, Hrc, Hv, Hr; subst ot rt; (split; [done|]).
    - rewrite Hr. by inversion Hv.
    - by rewrite lookup_insert_eq. }
  cbn [outTypes set_recordTypes set_outTypes]. rewrite Hlook'.
  cbn [recordTypes set_recordTypes set_outTypes]. by rewrite Hrt.
Qed.

Lemma merge_group_equal cmp first p :
  Forall (λ x, cmp first x = 0) (merge_group cmp first p).1
  ∧ match (merge_group cmp first p).2 with
    | [] => True
    | y :: _ => cmp first y ≠ 0
    end.
Proof.
  induction p as [|rec p IH]; [done|]. cbn [merge_group].
  destruct (Z.eqb_spec (cmp first rec) 0) as [H0|Hn].
  - destruct (merge_group cmp first p) as [g rest]. cbn [fst snd] in *.
    destruct IH as [IH1 IH2]. split; [by constructor|done].
  - by split.
Qed.

(** The groups are the maximal runs of records that compare equal to
    their first one: a group is not followed by a record equal to its
    first. *)
Fixpoint maximal_groups (kc : CompareFn) (gs : list (list Value)) (rest : list Value)
  : Prop :=
  match gs with
  | [] => True
  | g :: gs' =>
      match g with
      | [] => False
      | rec :: g' =>
          Forall (λ x, kc rec x = 0) g'
          ∧ match concat gs' ++ rest with
            | [] => True
            | y :: _ => kc rec y ≠ 0
            end
      end
      ∧ maximal_groups kc gs' rest
  end.

Lemma drain_eof_spec a n : ∀ p,
  concat (drain a n true p).1 ++ (drain a n true p).2 = p
  ∧ (length (drain a n true p).1 <= n)%nat
  ∧ ((length (drain a n true p).1 < n)%nat → (drain a n true p).2 = [])
  ∧ maximal_groups (keysComparator a) (drain a n true p).1 (drain a n true p).2.
Proof.
  unfold drain.
  assert (∀ q, spill_stop a true q = false) as Hstop by done.
  induction n as [|n IH]; intros p; cbn [drain_groups].
  { cbn [fst snd concat app length maximal_groups]. split; [done|].
    split; [lia|]. split; [lia|done]. }
  rewrite Hstop. destruct p as [|rec p].
  { cbn [fst snd concat app length maximal_groups]. split; [done|].
    split; [lia|]. by split. }
  pose proof (merge_group_app (keysComparator a) rec p) as Happ.
  pose proof (merge_group_equal (keysComparator a) rec p) as [Heq Hnext].
  destruct (merge_group (keysComparator a) rec p) as [g rest].
  destruct (IH rest) as (IH1 & IH2 & IH3 & IH4).
  destruct (drain_groups _ _ n rest) as [gs rest']. cbn [fst snd] in *.
  split; [|split; [|split]].
  - cbn [concat]. rewrite <- Happ, <- IH1. by rewrite <- !app_assoc.
  - cbn [length]. lia.
  - cbn [length]. intros Hlen. apply IH3. lia.
  - cbn [maximal_groups]. split; [|done]. split; [done|]. by rewrite IH1.
Qed.

(** X10.  At the end of the input [readSpills] returns the records of the
    merged stream group by group: the batch holds one record for each of
    the first maximal runs of stream records that compare equal, under the
    keys comparator, to the first record of the run, at most [op.BatchLen]
    of them; the stream keeps exactly what follows these runs, which is
    nothing unless the batch is full; the table is not touched. *)
Theorem readSpills_eof_batch (a : Aggregator) (m : MergeSort) :
  no_faults → Encode_total → memo_wf a → spiller a = Some m →
  ∃ a' groups rest,
    readSpills true a = (a', Ok (batch_of (map (group_record a) groups)))
    ∧ ms_pending m = concat groups ++ rest
    ∧ spiller a' = Some (mkMergeSort (ms_compare m) rest)
    ∧ table a' = table a
    ∧ (length groups <= BatchLen)%nat
    ∧ ((length groups < BatchLen)%nat → rest = [])
    ∧ maximal_groups (keysComparator a) groups rest.
Proof.
  intros Hnf Henc Hm Hsp.
  destruct (readSpills_spec a m true Hnf Henc Hm Hsp) as (ot & rt & Hr & _);
    [done|done|].
  destruct (drain_eof_spec a BatchLen (ms_pending m)) as (H1 & H2 & H3 & H4).
  eexists _, _, _. split; [exact Hr|]. split; [by rewrite H1|].
  split; [|by repeat split].
  unfold set_pending. cbn [spiller set_spiller set_recordTypes set_outTypes].
  by rewrite Hsp.
Qed.

(** X11.  A drain before the end of a sorted input panics on a nil
    pointer when a run has been spilled while [maxSpillKey] was never set,
    which is what spills whose last record has an error value as first key
    leave, and the merged stream starts with a record whose first key is
    not an error value: [maxSpillKey] is dereferenced for the comparison.
    Nothing has been read from the stream at that point. *)
Theorem readSpills_unset_maxSpillKey_panics (a : Aggregator) (m : MergeSort)
    (rec : Value) (p : list Value) (e0 : Evaluator) (es : list Evaluator) :
  no_faults → (0 < BatchLen)%nat →
  inputDir a ≠ 0 → spiller a = Some m → ms_pending m = rec :: p →
  keyExprs a = e0 :: es → Value_IsError (e0 rec) = false →
  is_Some (valueCompare a) → maxSpillKey a = None →
  readSpills false a = (a, Panic PanicNilDeref).
Proof.
  intros Hnf Hbl Hdir Hsp Hp Hkes Herr [vc Hvc] Hmsk.
  unfold readSpills. mnorm.
  replace (inputDir a =? 0) with false by (symmetry; by apply Z.eqb_neq).
  cbn [negb andb]. destruct BatchLen as [|n]; [lia|].
  cbn [readSpills_loop]. mnorm.
  replace (inputDir a =? 0) with false by (symmetry; by apply Z.eqb_neq).
  cbn [negb andb]. mnorm.
  mstep (spiller_Peek_spec a m Hnf Hsp). rewrite Hp. cbn [head]. mnorm.
  rewrite Hkes, Herr. mnorm.
  unfold bind, deref. by rewrite Hvc, Hmsk.
Qed.

(** X12.  [NewAggregator] returns no error.  It panics, on the index of
    [keyRefs[0]], exactly when there are key expressions and an input
    direction but no key reference.  Otherwise the aggregator starts with
    an empty table, empty intern tables and memo, no spiller and no max
    keys, and carries a value comparator and a first-key comparator exactly
    when there is a key expression and an input direction; its memo and
    its table satisfy the well-formedness conditions the statements about
    [Consume] and [nextResult] assume. *)
Theorem NewAggregator_outcome (krefs kexprs arefs : list Evaluator)
    (aggs : list AggFunc) (lim dir : Z) (pin pout : bool) :
  match NewAggregator krefs kexprs arefs aggs lim dir pin pout with
  | Panic p => p = PanicIndex ∧ krefs = [] ∧ kexprs ≠ [] ∧ dir ≠ 0
  | Err _ => False
  | Ok a =>
      ¬ (krefs = [] ∧ kexprs ≠ [] ∧ dir ≠ 0)
      ∧ table a = ∅ ∧ keyTypes a = [] ∧ outTypes a = [] ∧ recordTypes a = ∅
      ∧ spiller a = None ∧ maxTableKey a = None ∧ maxSpillKey a = None
      ∧ (is_Some (valueCompare a) ↔ kexprs ≠ [] ∧ dir ≠ 0)
      ∧ (is_Some (keyCompare a) ↔ kexprs ≠ [] ∧ dir ≠ 0)
      ∧ limit a = (if lim =? 0 then DefaultLimit else lim)
      ∧ keyRefs a = krefs ∧ keyExprs a = kexprs ∧ aggRefs a = arefs ∧ inputDir a = dir
      ∧ partialsIn a = pin ∧ partialsOut a = pout
      ∧ memo_wf a ∧ rows_wf a ∧ sorted_config_ok a
  end.
Proof.
  unfold NewAggregator.
  destruct kexprs as [|e es]; cbn [length Nat.ltb Nat.leb andb].
  { cbn. split; [by intros (_ & ? & _)|]. repeat (split; [done|]).
    split; [split; [by intros []|by intros [? _]]|].
    split; [split; [by intros []|by intros [? _]]|]. repeat (split; [done|]).
    by intros _ ?. }
  destruct (Z.eqb_spec dir 0) as [Hd|Hd]; cbn [negb].
  { cbn. split; [by intros (_ & _ & ?)|]. repeat (split; [done|]).
    split; [split; [by intros []|by intros [_ ?]]|].
    split; [split; [by intros []|by intros [_ ?]]|]. repeat (split; [done|]).
    by intros ?. }
  destruct krefs as [|r rs]; [done|].
  cbn. split; [by intros (? & _)|]. repeat (split; [done|]).
  intros _ _. by eauto.
Qed.


Lemma Consume_all_app l1 l2 a :
  Consume_all (l1 ++ l2) a = (Consume_all l1 ;;; Consume_all l2) a.
Proof.
  revert a. induction l1 as [|v l1 IH]; intros a; cbn [app Consume_all]; [done|].
  rewrite bind_bind.
  assert (∀ (f g : unit → M unit), (∀ x a0, f x a0 = g x a0) →
            bind (Consume v) f a = bind (Consume v) g a) as Hext.
  { intros f g Hfg. unfold bind.
    destruct (Consume v a) as [a1 [x|e|p]]; [apply Hfg|done|done]. }
  apply Hext. intros _ a0. apply IH.
Qed.

Lemma inputDir_closed d : frame_closed (λ x, inputDir x = d).
Proof.
  unfold frame_closed.
  do 4 (split; [intros a v Ha; exact Ha|]).
  split; [|split; intros a v Ha; exact Ha].
  intros val a a' r H Ha. unfold updateMaxTableKey in H.
  repeat (match type of H with context [match ?x with _ => _ end] => destruct x end);
    inversion H; subst; reflexivity.
Qed.

Lemma sendResult_undelivered s o err :
  delivered (trace (sendResult s o None err).1) = delivered (trace o).
Proof.
  unfold sendResult, reset, log.
  destruct s as [[|pullErr sent|]|]; cbn [fst trace agg].
  - rewrite !delivered_app. cbn. by rewrite !app_nil_r.
  - destruct (spiller (agg o)), err as [e|], pullErr as [e'|], sent;
      cbn [fst trace agg]; rewrite !delivered_app; cbn; by rewrite !app_nil_r.
  - rewrite !delivered_app. cbn. by rewrite !app_nil_r.
  - rewrite !delivered_app. cbn. by rewrite !app_nil_r.
Qed.

Lemma run_deferred_undelivered o :
  delivered (trace (run_deferred o)) = delivered (trace o).
Proof.
  unfold run_deferred, log. cbn [agg trace].
  destruct (spiller (agg o)); cbn [trace]; rewrite !delivered_app; cbn;
    by rewrite !app_nil_r.
Qed.

Lemma run_loop_unsorted_silent batches : ∀ sels o o' st,
  inputDir (agg o) = 0 →
  run_loop (map PullBatch batches) sels o = (o', st) →
  delivered (trace o') = delivered (trace o).
Proof.
  induction batches as [|vals batches IH]; intros sels o o' st Hdir H;
    cbn [map run_loop] in H.
  { by inversion H. }
  destruct (Op_call (Consume_all vals) o) as [o1 r] eqn:Hcall.
  apply Op_call_fields in Hcall as [Hm Hd].
  destruct r as [[]|e|p].
  - pose proof (frame_Consume_all _ (inputDir_closed 0) vals _ _ _ Hm Hdir) as Hdir1.
    cbn beta in Hdir1. rewrite Hdir1, Z.eqb_refl in H.
    rewrite (IH _ _ _ _ Hdir1 H). done.
  - pose proof (sendResult_undelivered (head sels) o1 (Some e)) as Hs.
    destruct (sendResult (head sels) o1 None (Some e)) as [o2 [[]|]];
      inversion H; subst; cbn [fst] in Hs; congruence.
  - inversion H; subst. done.
Qed.

Lemma run_loop_unsorted_ok batches : ∀ pulls sels o a',
  inputDir (agg o) = 0 →
  Consume_all (concat batches) (agg o) = (a', Ok tt) →
  ∃ evs,
    run_loop (map PullBatch batches ++ pulls) sels o
    = run_loop pulls sels (mkOp a' (trace o ++ evs))
    ∧ Forall (λ ev, ev = EvSpillCreated) evs.
Proof.
  induction batches as [|vals batches IH]; intros pulls sels o a' Hdir H.
  { cbn in H. inversion H; subst. exists []. split; [|done].
    rewrite app_nil_r. by destruct o. }
  cbn [concat] in H. rewrite Consume_all_app in H. unfold bind in H.
  destruct (Consume_all vals (agg o)) as [a1 [[]|e|p]] eqn:Hm; [|done|done].
  pose proof (frame_Consume_all _ (inputDir_closed 0) vals _ _ _ Hm Hdir) as Hdir1.
  cbn beta in Hdir1.
  set (ev1 := match spiller (agg o), spiller a1 with
              | None, Some _ => [EvSpillCreated]
              | _, _ => []
              end).
  destruct (IH pulls sels (mkOp a1 (trace o ++ ev1)) a' Hdir1 H) as (evs & Hr & Hevs).
  exists (ev1 ++ evs). split.
  - cbn [map app run_loop]. unfold Op_call. rewrite Hm. fold ev1.
    cbn [agg]. rewrite Hdir1, Z.eqb_refl. rewrite Hr. cbn [trace].
    by rewrite app_assoc.
  - apply Forall_app. split; [|done]. unfold ev1.
    destruct (spiller (agg o)), (spiller a1); by repeat constructor.
Qed.

(** X13.  On unsorted input the producer delivers no batch before the end
    of the stream: whatever happens while the parent only hands over
    batches, failures included, the batches received downstream stay the
    same.  When every [Consume] succeeds, the producer ends waiting for
    its parent with an aggregator that has consumed the values of all the
    batches in order, has used no [select], and has logged nothing but
    the creation of the spill. *)
Theorem run_unsorted_accumulates (batches : list (list Value)) (sels : list Select)
    (o : Op) :
  inputDir (agg o) = 0 →
  (∀ o' st, run (map PullBatch batches) sels o = (o', st) →
            delivered (trace o') = delivered (trace o))
  ∧ (∀ a', Consume_all (concat batches) (agg o) = (a', Ok tt) →
           ∃ evs, run (map PullBatch batches) sels o
                  = (mkOp a' (trace o ++ evs), Blocked)
                  ∧ Forall (λ ev, ev = EvSpillCreated) evs).
Proof.
  intros Hdir. split.
  - intros o' st H. unfold run in H.
    destruct (run_loop (map PullBatch batches) sels o) as [o1 st1] eqn:Hl.
    pose proof (run_loop_unsorted_silent _ _ _ _ _ Hdir Hl) as Hd.
    destruct st1; inversion H; subst; [done|..];
      by rewrite run_deferred_undelivered.
  - intros a' H.
    destruct (run_loop_unsorted_ok batches [] sels o a' Hdir H) as (evs & Hr & Hevs).
    exists evs. split; [|done]. unfold run. rewrite app_nil_r in Hr. by rewrite Hr.
Qed.


Lemma Consume_all_steps vals : ∀ a,
  no_faults → Encode_total → map_range_perm →
  memo_wf a → rows_wf a → sorted_mode_ok a →
  Z.of_nat (size (table a)) <= Z.max 1 (limit a) →
  ∃ a', Consume_all vals a = (a', Ok tt)
        ∧ same_config a a' ∧ memo_wf a' ∧ rows_wf a'.
Proof.
  induction vals as [|v vals IH]; intros a Hnf Henc Hperm Hm Hrows Hmode Hsize.
  { exists a. split; [done|]. split; [apply same_config_refl|done]. }
  destruct (Consume_step a v Hnf Henc Hperm Hm Hrows Hmode Hsize)
    as (a1 & HC & Hsame & Hm1 & Hrows1 & Hsize1).
  pose proof Hsame as (_&Hkes&_&_&Hlim&Hvc&_&_&Hdir&_).
  destruct (IH a1 Hnf Henc Hperm Hm1 Hrows1) as (a' & HC' & Hsame' & Hm' & Hrows');
    [|done|].
  { intros Hd. rewrite Hkes, Hvc. apply Hmode. by rewrite <- Hdir. }
  exists a'. split; [|split; [by eapply same_config_trans|done]].
  cbn [Consume_all]. by rewrite (bind_Ok _ _ _ _ _ HC).
Qed.

(** X14.  A stream on unsorted input that did not spill is answered by
    one batch and the end of stream: when the parent has handed over its
    batches and signals the end, the producer delivers a single batch with
    one record for each row of the table, none if the table is empty,
    then resets the stateful expressions and sends the end of stream; the
    table is empty afterwards and the producer waits for its parent
    again. *)
Theorem run_unsorted_stream (batches : list (list Value)) (sels : list Select)
    (o : Op) :
  no_faults → Encode_total → map_range_perm →
  memo_wf (agg o) → rows_wf (agg o) →
  Z.of_nat (size (table (agg o))) <= Z.max 1 (limit (agg o)) →
  inputDir (agg o) = 0 →
  let a' := (Consume_all (concat batches) (agg o)).1 in
  spiller a' = None →
  ∃ o' evs,
    run (map PullBatch batches ++ [PullEOS]) (SelSend :: SelSend :: sels) o
    = (o', Blocked)
    ∧ trace o'
      = trace o ++ evs
        ++ match table_records a' (partialsOut a') with
           | [] => []
           | recs => [EvResult (Some recs) None]
           end
        ++ [EvResetterReset; EvResult None None]
    ∧ Forall (λ ev, ev = EvSpillCreated) evs
    ∧ table (agg o') = ∅ ∧ spiller (agg o') = None.
Proof.
  intros Hnf Henc Hperm Hm Hrows Hsize Hdir a' Hsp.
  destruct (Consume_all_steps (concat batches) (agg o) Hnf Henc Hperm Hm Hrows)
    as (a1 & HC & Hsame & Hm1 & Hrows1); [by intros Hd|done|].
  assert (a' = a1) as Ha' by (unfold a'; by rewrite HC). clearbody a'. subst a1.
  destruct (run_loop_unsorted_ok batches [PullEOS] (SelSend :: SelSend :: sels) o a'
              Hdir HC) as (evs & Hr & Hevs).
  destruct (readTable_flush a' (partialsOut a') Henc Hperm Hm1 Hrows1)
    as (ot & rt & Hread & _).
  fold (table_records a' (partialsOut a')) in Hread.
  set (a2 := set_table (set_recordTypes (set_outTypes a' ot) rt) ∅) in *.
  assert (nextResult true a'
          = (a2, Ok (batch_of (table_records a' (partialsOut a'))))) as Hnext.
  { unfold nextResult. mnorm. by rewrite Hsp. }
  assert (nextResult true a2 = (a2, Ok None)) as Hnext2.
  { unfold nextResult. mnorm. replace (spiller a2) with (@None MergeSort) by done.
    mnorm. by apply readTable_empty. }
  unfold run. rewrite Hr. cbn [run_loop sendResults]. unfold Op_call at 1.
  cbn [agg trace]. rewrite Hnext, Hsp.
  replace (spiller a2) with (@None MergeSort) by done.
  destruct (table_records a' (partialsOut a')) as [|rec recs] eqn:Hrecs;
    cbn [batch_of].
  - cbn [sendResult log negb agg trace run_loop].
    eexists _, evs. split; [reflexivity|]. unfold log. cbn [trace agg app].
    split; [by rewrite ?app_nil_r, <- ?app_assoc|]. by repeat split.
  - cbn [sendResult log negb agg trace sendResults]. unfold Op_call at 1.
    unfold log at 1 2 3. cbn [agg trace]. rewrite Hnext2.
    replace (spiller a2) with (@None MergeSort) by done.
    cbn [sendResult log negb agg trace run_loop].
    eexists _, evs. split; [reflexivity|]. unfold log. cbn [trace agg app].
    split; [by rewrite ?app_nil_r, <- ?app_assoc|]. by repeat split.
Qed.


(** ** Grouping

    What [Consume] builds while nothing spills: one row for each distinct
    list of key values, holding the aggregate states of the records with
    these key values. *)

(** The update of the aggregate states of a row by a record. *)
Definition valRow_consume (a : Aggregator) (r : valRow) (this : Value) : valRow :=
  if partialsIn a
  then valRow_consumeAsPartial (aggs a) r this (aggRefs a)
  else valRow_apply (aggs a) r this.

(** The aggregate states of the records of [vals] whose key values are
    [kvs], consumed in the order of [vals]. *)
Definition group_reducers (a : Aggregator) (kvs : list Value) (vals : list Value)
  : valRow :=
  foldl (valRow_consume a) (newValRow (aggs a))
        (filter (λ this, key_values a this = kvs) vals).

#[local] Instance not_quiet_dec a this : Decision (not_quiet a this).
Proof. unfold not_quiet. apply Forall_dec. intros v. apply _. Defined.

(** The distinct key values of the records that have no quiet key. *)
Definition group_keys (a : Aggregator) (vals : list Value) : list (list Value) :=
  remove_dups (map (key_values a) (filter (not_quiet a) vals)).

(** The table key of a list of key values. *)
Definition key_of (kt : TypeVectorTable) (kvs : list Value) : Bytes :=
  AppendUvarint (key_payload [] kvs)
    (uint64 (Z.of_nat (TypeVectorTable_Lookup kt (map Value_Type kvs)).1)).

Lemma tableKey_key_of a this :
  (tableKey a this).1.1 = key_of (keyTypes a) (key_values a this).
Proof.
  unfold tableKey, key_of.
  by destruct (TypeVectorTable_Lookup (keyTypes a) (map Value_Type (key_values a this))).
Qed.

Lemma tableKey_id a this :
  (tableKey a this).1.2
  = (TypeVectorTable_Lookup (keyTypes a) (map Value_Type (key_values a this))).1.
Proof.
  unfold tableKey.
  by destruct (TypeVectorTable_Lookup (keyTypes a) (map Value_Type (key_values a this))).
Qed.

Lemma tableKey_keyTypes a this :
  (tableKey a this).2
  = (TypeVectorTable_Lookup (keyTypes a) (map Value_Type (key_values a this))).2.
Proof.
  unfold tableKey.
  by destruct (TypeVectorTable_Lookup (keyTypes a) (map Value_Type (key_values a this))).
Qed.

Lemma key_fields_length_only ts1 ts2 it :
  length ts1 = length ts2 → key_fields ts1 it = key_fields ts2 it.
Proof.
  revert ts2 it. induction ts1 as [|t ts1 IH]; intros [|t2 ts2] it H; try done.
  cbn [key_fields]. destruct (zcode_Next it) as [v it']. f_equal. apply IH.
  by inversion H.
Qed.

Lemma key_payload_inj kvs1 kvs2 rest1 rest2 :
  zcode_roundtrip → length kvs1 = length kvs2 →
  key_payload [] kvs1 ++ rest1 = key_payload [] kvs2 ++ rest2 →
  map Value_Bytes kvs1 = map Value_Bytes kvs2 ∧ rest1 = rest2.
Proof.
  intros Hz Hlen H.
  assert (map Value_Bytes kvs1 = map Value_Bytes kvs2) as Hb.
  { rewrite <- (key_fields_payload kvs1 rest1 Hz), <- (key_fields_payload kvs2 rest2 Hz).
    rewrite H. apply key_fields_length_only. by rewrite !length_map. }
  split; [done|].
  rewrite !key_payload_bytes, Hb in H. by apply app_inv_head in H.
Qed.

(** Different key values have different table keys: the key types of the
    first are interned, the number of the key values is the same. *)
Lemma key_of_inj kt kvs1 kvs2 :
  zcode_roundtrip → length kvs1 = length kvs2 →
  Z.of_nat (length kt) < 2 ^ 64 →
  (TypeVectorTable_Lookup kt (map Value_Type kvs1)).2 = kt →
  key_of kt kvs1 = key_of kt kvs2 → kvs1 = kvs2.
Proof.
  intros Hz Hlen Hbound H1 H. unfold key_of in H.
  destruct (TypeVectorTable_Lookup kt (map Value_Type kvs1)) as [id1 kt1] eqn:Hl1.
  destruct (TypeVectorTable_Lookup kt (map Value_Type kvs2)) as [id2 kt2] eqn:Hl2.
  cbn [fst snd] in *. subst kt1.
  rewrite (AppendUvarint_app (key_payload [] kvs1)),
    (AppendUvarint_app (key_payload [] kvs2)) in H.
  apply key_payload_inj in H as [Hb Hu]; [|done|done].
  pose proof (TypeVectorTable_Lookup_bound _ _ _ _ Hl1) as [Hb1 _].
  pose proof (TypeVectorTable_Lookup_bound _ _ _ _ Hl2) as [Hb2 Hb2'].
  pose proof (TypeVectorTable_Lookup_spec _ _ _ _ Hl1) as (Hid1 & _ & _).
  pose proof (TypeVectorTable_Lookup_spec _ _ _ _ Hl2) as (Hid2 & _ & ext & Hext).
  assert (id2 <= length kt)%nat as Hid2'.
  { unfold TypeVectorTable_Lookup in Hl2.
    destruct (TypeVectorTable_find kt (map Value_Type kvs2) 0) as [k|] eqn:Hf;
      inversion Hl2; subst; [|lia].
    apply lookup_lt_Some in Hid2. lia. }
  assert (uint64 (Z.of_nat id1) = uint64 (Z.of_nat id2)) as Hu'.
  { apply (AppendUvarint_inj []); [| |done]; unfold uint64; by apply Z.mod_pos_bound. }
  unfold uint64 in Hu'.
  assert (2 ^ 64 = 18446744073709551616) as Hp by reflexivity.
  rewrite !Z.mod_small in Hu' by lia.
  assert (id1 = id2) as <- by lia.
  assert (map Value_Type kvs1 = map Value_Type kvs2) as Ht.
  { subst kt2. rewrite (lookup_app_l_Some _ _ _ _ Hid1) in Hid2. congruence. }
  rewrite <- (zip_with_NewValue_eta kvs1), <- (zip_with_NewValue_eta kvs2).
  by rewrite Hb, Ht.
Qed.


Lemma group_reducers_snoc a kvs done this :
  group_reducers a kvs (done ++ [this])
  = if decide (key_values a this = kvs)
    then valRow_consume a (group_reducers a kvs done) this
    else group_reducers a kvs done.
Proof.
  unfold group_reducers. rewrite filter_app, foldl_app, filter_cons, filter_nil.
  by destruct (decide (key_values a this = kvs)).
Qed.

Lemma group_reducers_none a kvs done :
  (∀ y, y ∈ done → key_values a y ≠ kvs) →
  group_reducers a kvs done = newValRow (aggs a).
Proof.
  intros H. unfold group_reducers.
  assert (filter (λ this, key_values a this = kvs) done = []) as ->; [|done].
  induction done as [|y done IH]; [done|].
  rewrite filter_cons. destruct (decide (key_values a y = kvs)) as [Heq|Hne].
  - destruct (H y); [by left|done].
  - apply IH. intros z Hz. apply H. by right.
Qed.

(** The state of the table after the records [done] have been consumed
    by an aggregator that started as [a0] with an empty table, none of them
    spilling. *)
Definition groups_inv (a0 : Aggregator) (done : list Value) (a : Aggregator) : Prop :=
  same_config a0 a
  ∧ outTypes a = outTypes a0 ∧ recordTypes a = recordTypes a0
  ∧ spiller a = spiller a0 ∧ maxSpillKey a = maxSpillKey a0
  ∧ (length (keyTypes a) <= length (keyTypes a0) + length done)%nat
  ∧ (size (table a) <= length done)%nat
  ∧ (∀ x, x ∈ done → not_quiet a0 x →
       (TypeVectorTable_Lookup (keyTypes a) (map Value_Type (key_values a0 x))).2
       = keyTypes a
       ∧ ∃ row,
           table a !! key_of (keyTypes a) (key_values a0 x) = Some row
           ∧ keyType row
             = (TypeVectorTable_Lookup (keyTypes a)
                  (map Value_Type (key_values a0 x))).1
           ∧ reducers row = group_reducers a0 (key_values a0 x) done)
  ∧ (∀ key row, table a !! key = Some row →
       ∃ x, x ∈ done ∧ not_quiet a0 x
            ∧ key = key_of (keyTypes a) (key_values a0 x)).

Lemma groups_inv_start a0 : table a0 = ∅ → groups_inv a0 [] a0.
Proof.
  intros He. split; [apply same_config_refl|]. do 4 (split; [done|]).
  split; [cbn; lia|]. split; [by rewrite He, map_size_empty|].
  split; [by intros x Hx; inversion Hx|].
  intros key row. by rewrite He, lookup_empty.
Qed.

Lemma groups_step_quiet a0 done a this mtk :
  groups_inv a0 done a → ¬ not_quiet a0 this →
  groups_inv a0 (done ++ [this]) (set_maxTableKey a mtk).
Proof.
  intros (Hsame & Hot & Hrt & Hsp & Hmsk & Hlen & Hsize & HA & HB) Hq.
  assert (∀ x, not_quiet a0 x → key_values a0 this ≠ key_values a0 x) as Hne.
  { intros x Hx Heq. apply Hq. unfold not_quiet. by rewrite Heq. }
  split; [done|]. do 4 (split; [done|]).
  cbn [keyTypes table set_maxTableKey]. rewrite length_app. cbn [length].
  split; [lia|]. split; [lia|]. split.
  - intros x Hx Hxq. apply elem_of_app in Hx as [Hx|Hx].
    + destruct (HA x Hx Hxq) as (Hint & row & Hrow & Hkt & Hred).
      split; [done|]. exists row. split; [done|]. split; [done|].
      rewrite group_reducers_snoc.
      by destruct (decide (key_values a0 this = key_values a0 x)) as [Heq|_];
        [destruct (Hne x Hxq Heq)|].
    + apply list_elem_of_singleton in Hx as ->. by destruct Hq.
  - intros key row Hrow. destruct (HB key row Hrow) as (x & Hx & Hxq & Hkey).
    exists x. split; [apply elem_of_app; by left|done].
Qed.

(** The state that [Consume] of a record without a quiet key makes when
    it does not spill. *)
Definition consumed (a : Aggregator) (this : Value) : Aggregator :=
  set_table (set_keyTypes (after_keys a this).1 (tableKey a this).2)
    (<[(tableKey a this).1.1 :=
         Consume_row a
           (default (mkRow (tableKey a this).1.2 (after_keys a this).2
                       (newValRow (aggs a)))
              (table a !! (tableKey a this).1.1)) this]> (table a)).

Lemma groups_step_keyed a0 done a this :
  zcode_roundtrip → sorted_config_ok a →
  Z.of_nat (length (keyTypes a)) + 1 < 2 ^ 64 →
  groups_inv a0 done a → not_quiet a0 this →
  groups_inv a0 (done ++ [this]) (consumed a this).
Proof.
  intros Hz Hcfg Hbound (Hsame & Hot & Hrt & Hsp & Hmsk & Hlen & Hsize & HA & HB) Hq.
  pose proof Hsame as (Hkrs & Hkes & Hars & Haggs & Hlimit & Hvc & Hkc & Hksc & Hdir
                       & Hpin & Hpout).
  assert (∀ x, key_values a x = key_values a0 x) as Hkv
    by (intros x; unfold key_values; by rewrite Hkes).
  assert (∀ r x, valRow_consume a r x = valRow_consume a0 r x) as Hcons
    by (intros r x; unfold valRow_consume; by rewrite Hpin, Haggs, Hars).
  assert (∀ x y, length (key_values a0 x) = length (key_values a0 y)) as Hlenkv
    by (intros x y; unfold key_values; by rewrite !length_map).
  unfold consumed.
  set (kvs := key_values a0 this).
  set (k := key_of (keyTypes a) kvs).
  destruct (TypeVectorTable_Lookup (keyTypes a) (map Value_Type kvs)) as [tid kt']
    eqn:Hlook.
  pose proof (TypeVectorTable_Lookup_stable _ _ _ _ [] Hlook) as Hlook'.
  rewrite app_nil_r in Hlook'.
  pose proof (TypeVectorTable_Lookup_bound _ _ _ _ Hlook) as [_ Hlen'].
  pose proof (TypeVectorTable_Lookup_spec _ _ _ _ Hlook) as (_ & _ & ext & Hext).
  assert (k = AppendUvarint (key_payload [] kvs) (uint64 (Z.of_nat tid))) as Hk
    by (unfold k, key_of; by rewrite Hlook).
  assert (key_of kt' kvs = k) as Hk' by (unfold key_of; by rewrite Hlook', Hk).
  assert ((tableKey a this).1.1 = k) as Htk
    by (by rewrite tableKey_key_of, Hkv).
  assert ((tableKey a this).1.2 = tid) as Htid
    by (by rewrite tableKey_id, Hkv; fold kvs; rewrite Hlook).
  assert ((tableKey a this).2 = kt') as Htkt
    by (by rewrite tableKey_keyTypes, Hkv; fold kvs; rewrite Hlook).
  (* the records consumed so far keep their keys *)
  assert (∀ x, x ∈ done → not_quiet a0 x →
            TypeVectorTable_Lookup kt' (map Value_Type (key_values a0 x))
            = ((TypeVectorTable_Lookup (keyTypes a)
                  (map Value_Type (key_values a0 x))).1, kt')
            ∧ key_of kt' (key_values a0 x) = key_of (keyTypes a) (key_values a0 x))
    as Hkeep.
  { intros x Hx Hxq. destruct (HA x Hx Hxq) as (Hint & _).
    destruct (TypeVectorTable_Lookup (keyTypes a) (map Value_Type (key_values a0 x)))
      as [idx ktx] eqn:Hlx.
    cbn [fst snd] in *. subst ktx.
    pose proof (TypeVectorTable_Lookup_stable _ _ _ _ ext Hlx) as Hlx'.
    rewrite <- Hext in Hlx'. split; [done|].
    unfold key_of. by rewrite Hlx, Hlx'. }
  assert (Z.of_nat (length kt') < 2 ^ 64) as Hkt'bound by lia.
  assert (∀ x, x ∈ done → not_quiet a0 x →
            key_of (keyTypes a) (key_values a0 x) = k → key_values a0 x = kvs)
    as Hinj.
  { intros x Hx Hxq Hkx. destruct (Hkeep x Hx Hxq) as [Hlx Hkx'].
    apply (key_of_inj kt'); [done|apply Hlenkv|done|by rewrite Hlx|].
    by rewrite Hkx', Hk'. }
  set (fresh := mkRow tid (after_keys a this).2 (newValRow (aggs a))).
  assert (keyType (default fresh (table a !! k)) = tid
          ∧ reducers (default fresh (table a !! k)) = group_reducers a0 kvs done)
    as [Hold_kt Hold_red].
  { destruct (table a !! k) as [row|] eqn:Hrow; cbn [default from_option id].
    - destruct (HB k row Hrow) as (y & Hy & Hyq & Hky).
      pose proof (Hinj y Hy Hyq (eq_sym Hky)) as Hkvy.
      destruct (HA y Hy Hyq) as (_ & row' & Hrow' & Hkt & Hred).
      rewrite <- Hky, Hrow in Hrow'. inversion Hrow'; subst row'.
      rewrite Hkvy in Hkt, Hred. fold kvs in Hkt. by rewrite Hlook in Hkt.
    - split; [done|]. cbn [reducers fresh]. rewrite Haggs.
      symmetry. apply group_reducers_none. intros y Hy Heq.
      assert (not_quiet a0 y) as Hyq by (unfold not_quiet; by rewrite Heq).
      destruct (HA y Hy Hyq) as (_ & row' & Hrow' & _).
      rewrite Heq in Hrow'. fold kvs in Hrow'. fold k in Hrow'. congruence. }
  destruct (after_keys_frame a this Hcfg) as [mtk Hframe].
  rewrite Htk, Htid, Htkt, Hframe. fold fresh.
  set (newrow := Consume_row a (default fresh (table a !! k)) this).
  assert (keyType newrow = tid) as Hnew_kt by done.
  assert (reducers newrow = valRow_consume a0 (group_reducers a0 kvs done) this)
    as Hnew_red.
  { unfold newrow, Consume_row. cbn [reducers]. rewrite Hold_red.
    rewrite <- Hcons. reflexivity. }
  split; [done|]. do 4 (split; [done|]).
  cbn [keyTypes table set_table set_keyTypes set_maxTableKey].
  rewrite length_app. cbn [length].
  split; [lia|]. split.
  { rewrite map_size_insert. destruct (table a !! k); cbn; lia. }
  split.
  - intros x Hx Hxq.
    assert (TypeVectorTable_Lookup kt' (map Value_Type (key_values a0 x))
            = ((TypeVectorTable_Lookup kt' (map Value_Type (key_values a0 x))).1, kt')
            ∧ (key_values a0 x ≠ kvs → x ∈ done)) as [Hlx Hxdone].
    { apply elem_of_app in Hx as [Hx|Hx].
      - destruct (Hkeep x Hx Hxq) as [Hlx _]. by rewrite Hlx.
      - apply list_elem_of_singleton in Hx as ->. fold kvs. by rewrite Hlook'. }
    split; [by rewrite Hlx|].
    rewrite group_reducers_snoc. fold kvs.
    destruct (decide (kvs = key_values a0 x)) as [Heq|Hne].
    + rewrite <- Heq, Hk', lookup_insert_eq. exists newrow. split; [done|].
      split; [by rewrite Hlook'|done].
    + assert (x ∈ done) as Hxd by (apply Hxdone; congruence).
      destruct (Hkeep x Hxd Hxq) as [Hlx' Hkx'].
      destruct (HA x Hxd Hxq) as (_ & row & Hrow & Hkt & Hred).
      exists row. rewrite Hkx', lookup_insert_ne.
      * split; [done|]. split; [by rewrite Hlx'|done].
      * intros Heq. apply Hne. symmetry. apply (Hinj x Hxd Hxq). by rewrite <- Heq.
  - intros key row Hrow. destruct (decide (key = k)) as [->|Hne].
    + exists this. split; [apply elem_of_app; right; by apply list_elem_of_singleton|].
      split; [done|]. fold kvs. by rewrite Hk'.
    + rewrite lookup_insert_ne in Hrow by done.
      destruct (HB key row Hrow) as (x & Hx & Hxq & Hkey).
      exists x. split; [apply elem_of_app; by left|]. split; [done|].
      destruct (Hkeep x Hx Hxq) as [_ Hkx']. by rewrite Hkx'.
Qed.

Lemma groups_inv_config a0 done a :
  sorted_config_ok a0 → groups_inv a0 done a →
  sorted_config_ok a
  ∧ (∀ x, key_values a x = key_values a0 x)
  ∧ (∀ x, not_quiet a x ↔ not_quiet a0 x).
Proof.
  intros Hcfg0 (Hsame & _).
  pose proof Hsame as (Hkrs & Hkes & Hars & Haggs & Hlimit & Hvc & Hkc & Hksc & Hdir & _).
  assert (∀ x, key_values a x = key_values a0 x) as Hkv
    by (intros x; unfold key_values; by rewrite Hkes).
  split; [|split; [done|]].
  - intros Hd Hk. rewrite Hvc. apply Hcfg0; congruence.
  - intros x. unfold not_quiet. by rewrite Hkv.
Qed.

Lemma Consume_quiet_exists a this :
  ¬ not_quiet a this →
  Exists (λ e : Evaluator, Value_IsQuiet (e this) = true) (keyExprs a).
Proof.
  intros Hq. apply not_Forall_Exists in Hq; [|intros v; apply _].
  unfold key_values in Hq. apply Exists_exists in Hq as (v & Hv & Hvq).
  apply list_elem_of_fmap in Hv as (e & -> & He).
  apply Exists_exists. exists e. split; [done|].
  unfold compose in Hvq. destruct (Value_IsQuiet (e this)); [done|by destruct Hvq].
Qed.

Lemma Consume_groups a0 done a this :
  zcode_roundtrip → sorted_config_ok a0 →
  Z.of_nat (length done) < limit a0 →
  Z.of_nat (length (keyTypes a0)) + Z.of_nat (length done) + 1 < 2 ^ 64 →
  groups_inv a0 done a →
  ∃ a', Consume this a = (a', Ok tt) ∧ groups_inv a0 (done ++ [this]) a'.
Proof.
  intros Hz Hcfg0 Hlim Hbound HI.
  destruct (groups_inv_config a0 done a Hcfg0 HI) as (Hcfg & Hkv & Hnq).
  pose proof HI as (Hsame & _ & _ & _ & _ & _ & Hsize & _).
  pose proof Hsame as (_ & _ & _ & _ & Hlimit & _).
  destruct (decide (not_quiet a0 this)) as [Hq|Hq].
  - pose proof HI as (_ & _ & _ & _ & _ & Hlen & _).
    exists (consumed a this). split; [|apply groups_step_keyed; [done|done|lia|done|done]].
    apply Consume_nospill; [done|by apply Hnq|]. intros _. lia.
  - destruct (Consume_quiet a this Hcfg) as (mtk & HC & _).
    { apply Consume_quiet_exists. by rewrite Hnq. }
    exists (set_maxTableKey a mtk). split; [done|]. by apply groups_step_quiet.
Qed.

Lemma Consume_all_groups_inv a0 vals : ∀ done a,
  zcode_roundtrip → sorted_config_ok a0 →
  Z.of_nat (length done) + Z.of_nat (length vals) <= limit a0 →
  Z.of_nat (length (keyTypes a0)) + Z.of_nat (length done) + Z.of_nat (length vals)
  < 2 ^ 64 →
  groups_inv a0 done a →
  ∃ a', Consume_all vals a = (a', Ok tt) ∧ groups_inv a0 (done ++ vals) a'.
Proof.
  induction vals as [|v vals IH]; intros done a Hz Hcfg Hlim Hbound HI.
  { exists a. by rewrite app_nil_r. }
  cbn [length] in Hlim, Hbound.
  destruct (Consume_groups a0 done a v Hz Hcfg) as (a1 & HC & HI1); [lia|lia|done|].
  destruct (IH (done ++ [v]) a1 Hz Hcfg) as (a' & HC' & HI'); [| |done|].
  { rewrite length_app. cbn [length]. lia. }
  { rewrite length_app. cbn [length]. lia. }
  exists a'. rewrite <- app_assoc in HI'. split; [|done].
  cbn [Consume_all]. by rewrite (bind_Ok _ _ _ _ _ HC).
Qed.

Lemma group_keys_elem a vals kvs :
  kvs ∈ group_keys a vals ↔ ∃ x, x ∈ vals ∧ not_quiet a x ∧ key_values a x = kvs.
Proof.
  unfold group_keys. rewrite elem_of_remove_dups. split.
  - intros H. apply list_elem_of_fmap in H as (x & -> & Hx).
    apply list_elem_of_filter in Hx as [Hq Hx]. by exists x.
  - intros (x & Hx & Hq & <-). apply list_elem_of_fmap. exists x. split; [done|].
    by apply list_elem_of_filter.
Qed.

(** The row of a list of key values stands for these key values. *)
Lemma groups_inv_row a0 done a x :
  zcode_roundtrip → groups_inv a0 done a → x ∈ done → not_quiet a0 x →
  ∃ row,
    table a !! key_of (keyTypes a) (key_values a0 x) = Some row
    ∧ row_keys (keyTypes a) (key_of (keyTypes a) (key_values a0 x)) row
      = key_values a0 x
    ∧ reducers row = group_reducers a0 (key_values a0 x) done.
Proof.
  intros Hz (_ & _ & _ & _ & _ & _ & _ & HA & _) Hx Hxq.
  destruct (HA x Hx Hxq) as (Hint & row & Hrow & Hkt & Hred).
  exists row. split; [done|]. split; [|done].
  unfold key_of.
  destruct (TypeVectorTable_Lookup (keyTypes a) (map Value_Type (key_values a0 x)))
    as [tid kt'] eqn:Hl.
  cbn [fst snd] in *. subst kt'.
  pose proof (TypeVectorTable_Lookup_spec _ _ _ _ Hl) as (Hid & _ & _).
  destruct row as [tid' gv r]. cbn [keyType] in Hkt. subst tid'.
  by apply row_keys_tableKey.
Qed.

Lemma groups_inv_inj a0 done a x y :
  zcode_roundtrip → Z.of_nat (length (keyTypes a)) < 2 ^ 64 →
  groups_inv a0 done a → x ∈ done → not_quiet a0 x →
  key_of (keyTypes a) (key_values a0 x) = key_of (keyTypes a) (key_values a0 y) →
  key_values a0 x = key_values a0 y.
Proof.
  intros Hz Hbound (_ & _ & _ & _ & _ & _ & _ & HA & _) Hx Hxq Hk.
  destruct (HA x Hx Hxq) as (Hint & _).
  apply (key_of_inj (keyTypes a)); [done| |done|done|done].
  unfold key_values. by rewrite !length_map.
Qed.

Lemma groups_inv_records a0 done a po :
  zcode_roundtrip → map_range_perm → Z.of_nat (length (keyTypes a)) < 2 ^ 64 →
  groups_inv a0 done a →
  table_records a po
  ≡ₚ map (λ kvs, out_record kvs
                   (valRow_results po (aggs a0) (group_reducers a0 kvs done)))
         (group_keys a0 done).
Proof.
  intros Hz Hperm Hbound HI.
  pose proof HI as (Hsame & _ & _ & _ & _ & _ & _ & HA & HB).
  pose proof Hsame as (_ & _ & _ & Haggs & _).
  set (h := λ kvs : list Value,
         (key_of (keyTypes a) kvs,
          default (mkRow 0 zeroValue []) (table a !! key_of (keyTypes a) kvs))).
  assert (map_to_list (table a) ≡ₚ map h (group_keys a0 done)) as Hlist.
  { apply NoDup_Permutation.
    - apply NoDup_map_to_list.
    - apply (NoDup_fmap_2_strong h); [|apply NoDup_remove_dups].
      intros kvs1 kvs2 H1 H2 Hh.
      apply group_keys_elem in H1 as (x & Hx & Hxq & <-).
      apply group_keys_elem in H2 as (y & Hy & Hyq & <-).
      apply (groups_inv_inj a0 done a x y Hz Hbound HI Hx Hxq).
      by inversion Hh.
    - intros [key row]. rewrite elem_of_map_to_list. split.
      + intros Hrow. destruct (HB key row Hrow) as (x & Hx & Hxq & ->).
        apply list_elem_of_fmap. exists (key_values a0 x).
        split; [|apply group_keys_elem; by exists x].
        unfold h. by rewrite Hrow.
      + intros H. apply list_elem_of_fmap in H as (kvs & Hh & Hkvs).
        apply group_keys_elem in Hkvs as (x & Hx & Hxq & <-).
        destruct (HA x Hx Hxq) as (_ & row' & Hrow' & _).
        unfold h in Hh. rewrite Hrow' in Hh. by inversion Hh. }
  unfold table_records.
  etrans; [apply Permutation_map, (Hperm (map_to_list (table a)))|].
  etrans; [apply Permutation_map, Hlist|].
  rewrite map_map.
  match goal with |- ?l ≡ₚ ?r => assert (l = r) as ->; [|done] end.
  apply map_ext_in.
  intros kvs Hin. apply list_elem_of_In, group_keys_elem in Hin as (x & Hx & Hxq & <-).
  destruct (groups_inv_row a0 done a x Hz HI Hx Hxq) as (row & Hrow & Hkeys & Hred).
  unfold h. cbn [fst snd]. rewrite Hrow. cbn [default from_option id].
  by rewrite row_record_out, Hkeys, Hred, Haggs.
Qed.

(** X15.  While nothing spills, [Consume] groups the records by their key
    values: starting from an empty table, after the records [vals] the
    table holds, for every record that has no quiet key, a row under the
    table key of the record that reads back as the key values of the record
    and whose aggregate states are those of the records of [vals] with
    these key values, consumed in input order; it holds no other row, and
    records with different key values never share a row. *)
Theorem Consume_all_groups (vals : list Value) (a : Aggregator) :
  zcode_roundtrip → sorted_config_ok a → table a = ∅ →
  Z.of_nat (length vals) <= limit a →
  Z.of_nat (length (keyTypes a)) + Z.of_nat (length vals) < 2 ^ 64 →
  ∃ a',
    Consume_all vals a = (a', Ok tt)
    ∧ spiller a' = spiller a
    ∧ (∀ this, this ∈ vals → not_quiet a this →
         ∃ row,
           table a' !! (tableKey a' this).1.1 = Some row
           ∧ row_keys (keyTypes a') (tableKey a' this).1.1 row = key_values a this
           ∧ reducers row = group_reducers a (key_values a this) vals)
    ∧ (∀ key row, table a' !! key = Some row →
         ∃ this, this ∈ vals ∧ not_quiet a this ∧ key = (tableKey a' this).1.1)
    ∧ (∀ x y, x ∈ vals → y ∈ vals → not_quiet a x → not_quiet a y →
         (tableKey a' x).1.1 = (tableKey a' y).1.1 →
         key_values a x = key_values a y).
Proof.
  intros Hz Hcfg He Hlim Hbound.
  destruct (Consume_all_groups_inv a vals [] a Hz Hcfg) as (a' & HC & HI);
    [cbn [length]; lia|cbn [length]; lia|by apply groups_inv_start|].
  cbn [app] in HI.
  pose proof HI as (Hsame & _ & _ & Hsp & _ & Hlen & _ & _ & HB).
  pose proof Hsame as (_ & Hkes & _).
  assert (∀ x, (tableKey a' x).1.1 = key_of (keyTypes a') (key_values a x)) as Hkey.
  { intros x. rewrite tableKey_key_of. unfold key_values. by rewrite Hkes. }
  exists a'. split; [done|]. split; [done|]. split; [|split].
  - intros this Hin Hq. rewrite Hkey. by apply (groups_inv_row a vals a' this).
  - intros key row Hrow. destruct (HB key row Hrow) as (x & Hx & Hxq & ->).
    exists x. by rewrite Hkey.
  - intros x y Hx Hy Hxq Hyq. rewrite !Hkey.
    apply (groups_inv_inj a vals a' x y); [done| |done|done|done].
    cbn [length] in Hlen. lia.
Qed.

(** X16.  Grouping is what the table gives back: when nothing spills, a
    flush of the table after the records [vals] returns, in some order,
    one output record for each distinct list of key values of the records
    without a quiet key, made of these key values and of the results of
    the aggregate functions over the records of [vals] that have these key
    values, consumed in input order. *)
Theorem flush_returns_groups (vals : list Value) (a : Aggregator) (po : bool) :
  zcode_roundtrip → Encode_total → map_range_perm →
  sorted_config_ok a → memo_wf a → table a = ∅ →
  Z.of_nat (length vals) <= limit a →
  Z.of_nat (length (keyTypes a)) + Z.of_nat (length vals) < 2 ^ 64 →
  ∃ a' a'' recs,
    Consume_all vals a = (a', Ok tt)
    ∧ readTable true po a' = (a'', Ok (batch_of recs))
    ∧ table a'' = ∅
    ∧ recs ≡ₚ map (λ kvs, out_record kvs
                            (valRow_results po (aggs a)
                               (group_reducers a kvs vals)))
                  (group_keys a vals).
Proof.
  intros Hz Henc Hperm Hcfg Hm He Hlim Hbound.
  destruct (Consume_all_groups_inv a vals [] a Hz Hcfg) as (a' & HC & HI);
    [cbn [length]; lia|cbn [length]; lia|by apply groups_inv_start|].
  cbn [app] in HI.
  pose proof HI as (Hsame & Hot & Hrt & _ & _ & Hlen & _ & HA & HB).
  assert (memo_wf a') as Hm'.
  { intros j typ Hj. rewrite Hrt in Hj. rewrite Hot. by apply Hm. }
  assert (rows_wf a') as Hrows'.
  { intros key row Hrow. destruct (HB key row Hrow) as (x & Hx & Hxq & _).
    destruct (HA x Hx Hxq) as (Hint & row' & Hrow' & Hkt & _).
    destruct (HB key row Hrow) as (y & Hy & Hyq & ->).
    destruct (HA y Hy Hyq) as (Hinty & rowy & Hrowy & Hkty & _).
    rewrite Hrow in Hrowy. inversion Hrowy; subst rowy. rewrite Hkty.
    destruct (TypeVectorTable_Lookup (keyTypes a') (map Value_Type (key_values a y)))
      as [tid kt'] eqn:Hl.
    apply TypeVectorTable_Lookup_spec in Hl as (Hid & _ & _).
    cbn [fst snd] in *. subst kt'. by eexists. }
  destruct (readTable_flush a' po Henc Hperm Hm' Hrows') as (ot & rt & Hread & _).
  eexists a', _, _. split; [done|]. split; [exact Hread|]. split; [done|].
  apply (groups_inv_records a vals a' po); [done|done| |done].
  cbn [length] in Hlen. lia.
Qed.


(** ** Partial results

    The aggregate functions seen one at a time: a row over the functions
    [aggs] is the list of their states. *)

Definition agg_out (po : bool) (f : AggFunc) (s : AggState) : Value :=
  if po then agg_ResultAsPartial f s else agg_Result f s.

(** The state of a function after the records of [l]. *)
Definition agg_fold (f : AggFunc) (l : list Value) : AggState :=
  foldl (λ s x, agg_Apply f x s) (agg_new f) l.

(** The state of a function after the partial results [ps]. *)
Definition agg_merge (f : AggFunc) (ps : list Value) : AggState :=
  foldl (λ s p, agg_ConsumeAsPartial f p s) (agg_new f) ps.

(** A function decomposes: the partial results over the parts of an
    input, consumed as partials, give the result over the whole input. *)
Definition decomposable (po : bool) (f : AggFunc) : Prop :=
  ∀ frags : list (list Value),
    agg_out po f (agg_merge f (map (λ fr, agg_ResultAsPartial f (agg_fold f fr)) frags))
    = agg_out po f (agg_fold f (concat frags)).

(** The references to the aggregate columns read the aggregate values
    back from an output record with [n] key columns. *)
Definition aggRefs_roundtrip (refs : list Evaluator) (n : nat) : Prop :=
  ∀ kvs vs, length kvs = n → length vs = length refs →
    map (λ e : Evaluator, e (out_record kvs vs)) refs = vs.

Lemma valRow_apply_map acc (h : AggFunc → AggState) x :
  valRow_apply acc (map h acc) x = map (λ f, agg_Apply f x (h f)) acc.
Proof.
  assert (∀ l, valRow_apply l (map h l) x = map (λ f, agg_Apply f x (h f)) l) as H.
  { induction l as [|f l IH]; [done|]. cbn. by rewrite IH. }
  apply H.
Qed.

Lemma valRow_apply_fold acc l : ∀ h : AggFunc → AggState,
  foldl (valRow_apply acc) (map h acc) l
  = map (λ f, foldl (λ s x, agg_Apply f x s) (h f) l) acc.
Proof.
  induction l as [|x l IH]; intros h; [done|].
  cbn [foldl]. rewrite valRow_apply_map. apply (IH (λ f, agg_Apply f x (h f))).
Qed.

Lemma valRow_results_map po acc (h : AggFunc → AggState) :
  valRow_results po acc (map h acc) = map (λ f, agg_out po f (h f)) acc.
Proof.
  assert (∀ l, valRow_results po l (map h l) = map (λ f, agg_out po f (h f)) l) as H.
  { induction l as [|f l IH]; [done|]. cbn. by rewrite IH. }
  apply H.
Qed.

Lemma valRow_consumeAsPartial_map acc (h : AggFunc → AggState) (p : AggFunc → Value)
    rec refs :
  map (λ e : Evaluator, e rec) refs = map p acc →
  valRow_consumeAsPartial acc (map h acc) rec refs
  = map (λ f, agg_ConsumeAsPartial f (p f) (h f)) acc.
Proof.
  assert (∀ l rs, map (λ e : Evaluator, e rec) rs = map p l →
            valRow_consumeAsPartial l (map h l) rec rs
            = map (λ f, agg_ConsumeAsPartial f (p f) (h f)) l) as H.
  { induction l as [|f l IH]; intros [|e rs] Hm; try done.
    cbn in Hm. inversion Hm as [[He Hrs]]. cbn. by rewrite He, (IH rs Hrs). }
  apply H.
Qed.

(** The rows of an aggregator that applies records are the states of its
    functions over the records of the group. *)
Lemma group_reducers_fold a kvs vals :
  partialsIn a = false →
  group_reducers a kvs vals
  = map (λ f, agg_fold f (filter (λ this, key_values a this = kvs) vals)) (aggs a).
Proof.
  intros Hpin. unfold group_reducers, valRow_consume, newValRow, agg_fold.
  rewrite Hpin. apply (valRow_apply_fold (aggs a) _ agg_new).
Qed.

(** The rows of an aggregator that consumes partial results. *)
Lemma group_reducers_partial a (p : AggFunc → Value) rec :
  partialsIn a = true →
  map (λ e : Evaluator, e rec) (aggRefs a) = map p (aggs a) →
  foldl (valRow_consume a) (newValRow (aggs a)) [rec]
  = map (λ f, agg_merge f [p f]) (aggs a).
Proof.
  intros Hpin Hrefs. unfold valRow_consume, newValRow, agg_merge.
  rewrite Hpin. cbn [foldl]. by apply valRow_consumeAsPartial_map.
Qed.

Lemma groups_inv_wf a0 done a :
  memo_wf a0 → groups_inv a0 done a → memo_wf a ∧ rows_wf a.
Proof.
  intros Hm (_ & Hot & Hrt & _ & _ & _ & _ & HA & HB). split.
  - intros j typ Hj. rewrite Hrt in Hj. rewrite Hot. by apply Hm.
  - intros key row Hrow. destruct (HB key row Hrow) as (y & Hy & Hyq & ->).
    destruct (HA y Hy Hyq) as (Hinty & rowy & Hrowy & Hkty & _).
    rewrite Hrow in Hrowy. inversion Hrowy; subst rowy. rewrite Hkty.
    destruct (TypeVectorTable_Lookup (keyTypes a) (map Value_Type (key_values a0 y)))
      as [tid kt'] eqn:Hl.
    apply TypeVectorTable_Lookup_spec in Hl as (Hid & _ & _).
    cbn [fst snd] in *. subst kt'. by eexists.
Qed.

Lemma table_records_length a po :
  map_range_perm → length (table_records a po) = size (table a).
Proof.
  intros Hperm. unfold table_records.
  by rewrite length_map, (Permutation_length (Hperm _)), length_map_to_list.
Qed.

Lemma filter_fmap_unique {A B} `{EqDecision A} (g : A → B) (k : B → A) (l : list A) x :
  NoDup l → x ∈ l → (∀ y, y ∈ l → k (g y) = y) →
  filter (λ r, k r = x) (map g l) = [g x].
Proof.
  intros Hnd Hx Hk. induction l as [|y l IH]; [by inversion Hx|].
  apply NoDup_cons in Hnd as [Hy Hnd]. cbn [map]. rewrite filter_cons.
  rewrite (Hk y) by (by left).
  destruct (decide (y = x)) as [->|Hne].
  - f_equal.
    assert (∀ l', (∀ z, z ∈ l' → k (g z) ≠ x) → filter (λ r, k r = x) (map g l') = [])
      as Hnone.
    { induction l' as [|z l' IH']; intros H; [done|]. cbn [map].
      rewrite filter_cons. destruct (decide (k (g z) = x)) as [Heq|_].
      - destruct (H z); [by left|done].
      - apply IH'. intros w Hw. apply H. by right. }
    apply Hnone. intros z Hz Heq. rewrite Hk in Heq by (by right). by subst.
  - apply IH; [done| |intros z Hz; apply Hk; by right].
    apply elem_of_cons in Hx as [->|Hx]; [done|done].
Qed.


(** X17.  Partial results round trip, when nothing spills: the records
    that an aggregator gives with partial results, consumed as partials
    by a second aggregator with the same functions whose key expressions
    and aggregate references read the columns of these records back, give
    at the flush of the second the same records, up to their order, as
    the flush of the first gives without partial results, provided every
    function decomposes. *)
Theorem partials_roundtrip (vals : list Value) (a1 a2 : Aggregator) :
  zcode_roundtrip → Encode_total → map_range_perm →
  sorted_config_ok a1 → sorted_config_ok a2 → memo_wf a1 → memo_wf a2 →
  table a1 = ∅ → table a2 = ∅ →
  partialsIn a1 = false → partialsIn a2 = true → aggs a2 = aggs a1 →
  length (keyExprs a2) = length (keyExprs a1) →
  keyRefs_roundtrip (keyExprs a2) →
  aggRefs_roundtrip (aggRefs a2) (length (keyExprs a1)) →
  length (aggRefs a2) = length (aggs a1) →
  Forall (decomposable false) (aggs a1) →
  Z.of_nat (length vals) <= limit a1 → Z.of_nat (length vals) <= limit a2 →
  Z.of_nat (length (keyTypes a1)) + Z.of_nat (length vals) < 2 ^ 64 →
  Z.of_nat (length (keyTypes a2)) + Z.of_nat (length vals) < 2 ^ 64 →
  ∃ a1' a1p partials a2' a2p out a1d direct,
    Consume_all vals a1 = (a1', Ok tt)
    ∧ readTable true true a1' = (a1p, Ok (batch_of partials))
    ∧ Consume_all partials a2 = (a2', Ok tt)
    ∧ readTable true false a2' = (a2p, Ok (batch_of out))
    ∧ readTable true false a1' = (a1d, Ok (batch_of direct))
    ∧ out ≡ₚ direct.
Proof.
  intros Hz Henc Hperm Hcfg1 Hcfg2 Hm1 Hm2 He1 He2 Hpin1 Hpin2 Haggs Hnkeys Hkrt Hart
    Hnrefs Hdec Hlim1 Hlim2 Hb1 Hb2.
  (* the first aggregator *)
  destruct (Consume_all_groups_inv a1 vals [] a1 Hz Hcfg1) as (a1' & HC1 & HI1);
    [cbn [length]; lia|cbn [length]; lia|by apply groups_inv_start|].
  cbn [app] in HI1.
  destruct (groups_inv_wf a1 vals a1' Hm1 HI1) as [Hm1' Hrows1'].
  pose proof HI1 as (_ & _ & _ & _ & _ & Hlen1 & Hsize1 & _).
  cbn [length] in Hlen1.
  destruct (readTable_flush a1' true Henc Hperm Hm1' Hrows1') as (ot1 & rt1 & Hread1 & _).
  destruct (readTable_flush a1' false Henc Hperm Hm1' Hrows1') as (otd & rtd & Hreadd & _).
  fold (table_records a1' true) in Hread1. fold (table_records a1' false) in Hreadd.
  pose proof (groups_inv_records a1 vals a1' true Hz Hperm ltac:(lia) HI1) as HP1.
  pose proof (groups_inv_records a1 vals a1' false Hz Hperm ltac:(lia) HI1) as HPd.
  set (partials := table_records a1' true) in *.
  assert (length partials <= length vals)%nat as Hlenp.
  { unfold partials. rewrite table_records_length by done. lia. }
  (* the second aggregator *)
  destruct (Consume_all_groups_inv a2 partials [] a2 Hz Hcfg2) as (a2' & HC2 & HI2);
    [cbn [length]; lia|cbn [length]; lia|by apply groups_inv_start|].
  cbn [app] in HI2.
  destruct (groups_inv_wf a2 partials a2' Hm2 HI2) as [Hm2' Hrows2'].
  pose proof HI2 as (_ & _ & _ & _ & _ & Hlen2 & _).
  cbn [length] in Hlen2.
  destruct (readTable_flush a2' false Henc Hperm Hm2' Hrows2') as (ot2 & rt2 & Hread2 & _).
  fold (table_records a2' false) in Hread2.
  pose proof (groups_inv_records a2 partials a2' false Hz Hperm ltac:(lia) HI2) as HP2.
  eexists a1', _, partials, a2', _, _, _, _.
  split; [exact HC1|]. split; [exact Hread1|]. split; [exact HC2|].
  split; [exact Hread2|]. split; [exact Hreadd|].
  etrans; [exact HP2|]. etrans; [|symmetry; exact HPd].
  (* the partial records and their groups *)
  set (fr := λ kvs, filter (λ this, key_values a1 this = kvs) vals).
  set (g1 := λ po kvs, out_record kvs
                         (valRow_results po (aggs a1) (group_reducers a1 kvs vals))) in *.
  assert (∀ po kvs, g1 po kvs
                    = out_record kvs (map (λ f, agg_out po f (agg_fold f (fr kvs)))
                                          (aggs a1))) as Hg1.
  { intros po kvs. unfold g1. by rewrite group_reducers_fold, valRow_results_map. }
  assert (∀ kvs, kvs ∈ group_keys a1 vals →
            key_values a2 (g1 true kvs) = kvs
            ∧ Forall (λ v, Value_IsQuiet v = false) kvs) as Hkeys.
  { intros kvs Hk. apply group_keys_elem in Hk as (x & Hx & Hxq & <-). split; [|done].
    unfold key_values at 1. apply Hkrt. unfold key_values. by rewrite length_map. }
  assert (∀ r, r ∈ partials ↔ ∃ kvs, kvs ∈ group_keys a1 vals ∧ r = g1 true kvs)
    as Hpartials.
  { intros r. rewrite HP1. split.
    - intros H. apply list_elem_of_fmap in H as (kvs & -> & Hk). by exists kvs.
    - intros (kvs & Hk & ->). apply list_elem_of_fmap. by exists kvs. }
  assert (group_keys a2 partials ≡ₚ group_keys a1 vals) as Hgk.
  { apply NoDup_Permutation; [apply NoDup_remove_dups|apply NoDup_remove_dups|].
    intros kvs. rewrite (group_keys_elem a2). split.
    - intros (r & Hr & Hrq & <-). apply Hpartials in Hr as (kvs & Hk & ->).
      by rewrite (proj1 (Hkeys kvs Hk)).
    - intros Hk. exists (g1 true kvs). destruct (Hkeys kvs Hk) as [Hkv Hq].
      split; [apply Hpartials; by exists kvs|]. split; [|done].
      unfold not_quiet. by rewrite Hkv. }
  etrans; [apply Permutation_map, Hgk|].
  match goal with |- ?l ≡ₚ ?r => assert (l = r) as ->; [|done] end.
  apply map_ext_in. intros kvs Hk. apply list_elem_of_In in Hk.
  fold (g1 false kvs). rewrite Hg1. f_equal.
  assert (filter (λ r, key_values a2 r = kvs) partials = [g1 true kvs]) as Hfilter.
  { apply Permutation_singleton_r. rewrite HP1.
    rewrite (filter_fmap_unique (g1 true) (key_values a2)); [done| |done|].
    - apply NoDup_remove_dups.
    - intros y Hy. apply (Hkeys y Hy). }
  unfold group_reducers. rewrite Hfilter.
  rewrite (group_reducers_partial a2 (λ f, agg_ResultAsPartial f (agg_fold f (fr kvs))));
    [|done|].
  2:{ rewrite Hg1, Haggs. apply Hart; [|by rewrite length_map, Hnrefs].
      apply group_keys_elem in Hk as (x & _ & _ & <-). unfold key_values.
      by rewrite length_map. }
  rewrite valRow_results_map, Haggs. apply map_ext_in. intros f Hf.
  apply list_elem_of_In in Hf.
  pose proof (proj1 (Forall_forall _ _) Hdec f Hf [fr kvs]) as Hd.
  cbn [map concat] in Hd. by rewrite app_nil_r in Hd.
Qed.


(** ** Grouping across spills, on unsorted input

    The records consumed so far split into segments at the spills: the
    table holds the groups of the current segment, the merged stream of
    the spiller holds one record with partial results for each group of
    each earlier segment. *)

(** A spill of an empty table does nothing. *)
Lemma spillTable_empty a eof :
  map_range_perm → table a = ∅ → spillTable eof a = (a, Ok tt).
Proof.
  intros Hperm He. unfold spillTable.
  by rewrite (bind_Ok _ _ _ _ _ (readTable_empty a true true Hperm He)).
Qed.

Lemma Consume_noflush a this :
  map_range_perm → sorted_config_ok a → not_quiet a this →
  ¬ spills_on a this →
  Consume this a = (consumed a this, Ok tt).
Proof.
  intros Hperm Hcfg Hq Hns.
  destruct (decide (table a !! (tableKey a this).1.1 = None
                    ∧ limit a <= Z.of_nat (size (table a)))) as [[Hnone Hlim]|Hn].
  2:{ apply Consume_nospill; [done|done|]. intros Hnone.
      destruct (decide (Z.of_nat (size (table a)) < limit a)); [done|].
      destruct Hn. split; [done|lia]. }
  assert (table a = ∅) as He.
  { destruct (decide (table a = ∅)) as [He|Hne]; [done|]. by destruct Hns. }
  pose proof (Consume_keys_keyed a this Hcfg Hq) as Hkeys.
  destruct (after_keys_frame a this Hcfg) as [mtk Hframe].
  unfold consumed. unfold tableKey in *.
  destruct (TypeVectorTable_Lookup (keyTypes a) (map Value_Type (key_values a this)))
    as [tid kt'] eqn:Hlook.
  cbn [fst snd] in *.
  unfold Consume. mnorm. rewrite (bind_Ok _ _ _ _ _ Hkeys).
  rewrite Hframe. mnorm. cbn [keyTypes set_maxTableKey]. rewrite Hlook.
  mnorm. cbn [table set_keyTypes set_maxTableKey].
  rewrite Hnone. mnorm. cbn [limit set_keyTypes set_maxTableKey].
  replace (limit a <=? Z.of_nat (size (table a))) with true
    by (symmetry; by apply Z.leb_le).
  rewrite (bind_Ok _ _ _ _ _
             (spillTable_empty (set_keyTypes (set_maxTableKey a mtk) kt') false Hperm He)).
  mnorm. done.
Qed.

(** The partial records of the groups of a segment. *)
Definition seg_records (a0 : Aggregator) (seg : list Value) : list Value :=
  map (λ kvs, out_record kvs
                (valRow_results true (aggs a0) (group_reducers a0 kvs seg)))
      (group_keys a0 seg).

Definition spill_ok (a0 : Aggregator) (segs : list (list Value))
    (sp : option MergeSort) : Prop :=
  match sp with
  | None => segs = []
  | Some m =>
      ms_compare m = keysComparator a0
      ∧ Sorted (cmp_le (keysComparator a0)) (ms_pending m)
      ∧ ms_pending m ≡ₚ concat (map (seg_records a0) segs)
  end.

Definition spill_inv (a0 : Aggregator) (segs : list (list Value)) (cur : list Value)
    (a : Aggregator) : Prop :=
  ∃ a_s,
    same_config a0 a_s ∧ memo_wf a_s ∧ groups_inv a_s cur a
    ∧ (length (keyTypes a_s) <= length (keyTypes a0) + length (concat segs))%nat
    ∧ spill_ok a0 segs (spiller a).

Lemma same_config_sym a a' : same_config a a' → same_config a' a.
Proof. intros H. unfold same_config in *. by intuition. Qed.

Lemma group_reducers_config a a' kvs l :
  same_config a a' → group_reducers a' kvs l = group_reducers a kvs l.
Proof.
  intros (_ & Hkes & Hars & Haggs & _ & _ & _ & _ & _ & Hpin & _).
  unfold group_reducers, valRow_consume, key_values.
  by rewrite Hkes, Hars, Haggs, Hpin.
Qed.

Lemma group_keys_config a a' l :
  same_config a a' → group_keys a' l = group_keys a l.
Proof.
  intros (_ & Hkes & _). unfold group_keys.
  assert (∀ x, key_values a' x = key_values a x) as Hkv
    by (intros x; unfold key_values; by rewrite Hkes).
  f_equal. induction l as [|x l IH]; [done|].
  rewrite !filter_cons.
  destruct (decide (not_quiet a' x)) as [H1|H1], (decide (not_quiet a x)) as [H2|H2];
    cbn [map]; rewrite ?IH, ?Hkv; try done.
  - destruct H2. unfold not_quiet in *. by rewrite <- Hkv.
  - destruct H1. unfold not_quiet in *. by rewrite Hkv.
Qed.

Lemma seg_records_config a a' seg :
  same_config a a' → seg_records a' seg = seg_records a seg.
Proof.
  intros Hsame. unfold seg_records. rewrite (group_keys_config a a') by done.
  pose proof Hsame as (_ & _ & _ & Haggs & _). rewrite Haggs.
  apply map_ext. intros kvs. by rewrite (group_reducers_config a a').
Qed.

Lemma groups_inv_memo a0 done a : groups_inv a0 done a → memo_wf a0 → memo_wf a.
Proof.
  intros (_ & Hot & Hrt & _) Hm j typ Hj. rewrite Hrt in Hj. rewrite Hot. by apply Hm.
Qed.

Lemma groups_inv_rows a0 done a : groups_inv a0 done a → rows_wf a.
Proof.
  intros (_ & _ & _ & _ & _ & _ & _ & HA & HB) key row Hrow.
  destruct (HB key row Hrow) as (y & Hy & Hyq & ->).
  destruct (HA y Hy Hyq) as (Hinty & rowy & Hrowy & Hkty & _).
  rewrite Hrow in Hrowy. inversion Hrowy; subst rowy. rewrite Hkty.
  destruct (TypeVectorTable_Lookup (keyTypes a) (map Value_Type (key_values a0 y)))
    as [tid kt'] eqn:Hl.
  apply TypeVectorTable_Lookup_spec in Hl as (Hid & _ & _).
  cbn [fst snd] in *. subst kt'. by eexists.
Qed.


Lemma spill_inv_start a0 :
  memo_wf a0 → table a0 = ∅ → spiller a0 = None → spill_inv a0 [] [] a0.
Proof.
  intros Hm He Hsp. exists a0. split; [apply same_config_refl|]. split; [done|].
  split; [by apply groups_inv_start|]. split; [cbn; lia|]. by rewrite Hsp.
Qed.

Lemma Consume_spill_inv a0 segs cur a this :
  no_faults → Encode_total → map_range_perm → zcode_roundtrip →
  inputDir a0 = 0 → Total (cmp_le (keysComparator a0)) →
  Z.of_nat (length (keyTypes a0)) + Z.of_nat (length (concat segs))
  + Z.of_nat (length cur) + 1 < 2 ^ 64 →
  spill_inv a0 segs cur a →
  ∃ a' segs' cur',
    Consume this a = (a', Ok tt)
    ∧ spill_inv a0 segs' cur' a'
    ∧ concat segs' ++ cur' = concat segs ++ cur ++ [this].
Proof.
  intros Hnf Henc Hperm Hz Hdir0 Htot Hbound (a_s & Hsame_s & Hm_s & HI & Hlen_s & Hspill).
  assert (sorted_config_ok a_s) as Hcfg_s.
  { intros Hd. destruct Hd. pose proof Hsame_s as (_&_&_&_&_&_&_&_&Hd&_). congruence. }
  destruct (groups_inv_config a_s cur a Hcfg_s HI) as (Hcfg & Hkv & Hnq).
  pose proof HI as (Hsame & _ & _ & Hsp_s & _ & Hlen & _).
  pose proof (groups_inv_memo _ _ _ HI Hm_s) as Hm.
  pose proof (groups_inv_rows _ _ _ HI) as Hrows.
  assert (inputDir a = 0) as Hdir.
  { pose proof Hsame as (_&_&_&_&_&_&_&_&Hd&_).
    pose proof Hsame_s as (_&_&_&_&_&_&_&_&Hd'&_). congruence. }
  destruct (decide (not_quiet a_s this)) as [Hq|Hq].
  2:{ destruct (Consume_quiet a this Hcfg) as (mtk & HC & _).
      { apply Consume_quiet_exists. by rewrite Hnq. }
      exists (set_maxTableKey a mtk), segs, (cur ++ [this]). split; [done|].
      split; [|done]. exists a_s. split; [done|]. split; [done|].
      split; [by apply groups_step_quiet|]. split; [done|done]. }
  destruct (decide (spills_on a this)) as [Hon|Hoff].
  2:{ exists (consumed a this), segs, (cur ++ [this]).
      split; [apply Consume_noflush; [done|done|by apply Hnq|done]|].
      split; [|done].
      assert (groups_inv a_s (cur ++ [this]) (consumed a this)) as HI'.
      { apply groups_step_keyed; [done|done|lia|done|done]. }
      exists a_s. split; [done|]. split; [done|]. split; [done|]. split; [done|].
      pose proof HI' as (_ & _ & _ & Hsp' & _). by rewrite Hsp', <- Hsp_s. }
  (* the table is spilled and a new segment starts with [this] *)
  destruct (Consume_keyed a this Hnf Henc Hperm Hm Hrows) as
    (a' & HC & Hsame' & Hm' & Hkt' & _ & Hcases);
    [by intros Hd; destruct Hd|by apply Hnq|].
  destruct Hcases as [(_ & Htab' & Hspl' & _)|(Hoff & _)]; [|by destruct Hoff].
  exists a', (segs ++ [cur]), [this]. split; [done|].
  split; [|by rewrite concat_app, <- !app_assoc; cbn; rewrite app_nil_r].
  set (b := set_keyTypes (set_table a' ∅) (keyTypes a)).
  assert (same_config a' b) as Hsame_b by (by repeat split).
  assert (same_config a b) as Hsame_ab by (by eapply same_config_trans).
  assert (inputDir b = 0) as Hdir_b.
  { pose proof Hsame_ab as (_&_&_&_&_&_&_&_&Hd&_). congruence. }
  assert (tableKey b this = tableKey a this) as Htk.
  { unfold tableKey, key_values. pose proof Hsame_ab as (_ & Hkes & _).
    by rewrite Hkes. }
  assert (a' = consumed b this) as Ha'.
  { unfold consumed. rewrite Htk, (after_keys_unsorted b this Hdir_b).
    cbn [fst snd]. replace (table b) with (∅ : gmap Bytes Row) by done.
    rewrite lookup_empty. cbn [default from_option id]. rewrite insert_empty.
    rewrite (after_keys_unsorted a this Hdir) in Htab'. cbn [fst snd] in Htab'.
    assert (Consume_row b (mkRow (tableKey a this).1.2 zeroValue (newValRow (aggs b))) this
            = Consume_row a (mkRow (tableKey a this).1.2 zeroValue (newValRow (aggs a)))
                this) as ->.
    { pose proof Hsame_ab as (_ & _ & Hars & Haggs & _ & _ & _ & _ & _ & Hpin & _).
      unfold Consume_row. by rewrite Hars, Haggs, Hpin. }
    rewrite <- Htab', <- Hkt'. unfold b. by destruct a'. }
  assert (groups_inv b [this] a') as HI'.
  { pose proof (groups_step_keyed b [] b this) as Hstep. cbn [app] in Hstep.
    rewrite <- Ha' in Hstep. apply Hstep; [done| | |by apply groups_inv_start|].
    - intros Hd. by destruct Hd.
    - replace (keyTypes b) with (keyTypes a) by done. lia.
    - unfold not_quiet, key_values in *.
      pose proof Hsame_ab as (_ & Hkes & _). rewrite Hkes.
      pose proof Hsame as (_ & Hkes' & _). by rewrite Hkes'. }
  exists b. split; [by repeat (eapply same_config_trans; [eassumption|])|].
  split; [intros j typ Hj; by apply (Hm' j typ)|]. split; [done|].
  split.
  { replace (keyTypes b) with (keyTypes a) by done.
    rewrite concat_app, length_app. cbn [concat length app]. rewrite app_nil_r. lia. }
  (* the merged stream *)
  rewrite Hspl'. unfold spill_merge.
  set (m := default (mkMergeSort (keysComparator a) []) (spiller a)).
  assert (keysComparator a = keysComparator a0) as Hkc.
  { pose proof Hsame as (_&_&_&_&_&_&_&Hk&_).
    pose proof Hsame_s as (_&_&_&_&_&_&_&Hk'&_). congruence. }
  assert (ms_compare m = keysComparator a0
          ∧ Sorted (cmp_le (keysComparator a0)) (ms_pending m)
          ∧ ms_pending m ≡ₚ concat (map (seg_records a0) segs)) as (Hcmp & Hsorted & Hpend).
  { unfold m. destruct (spiller a) as [m0|]; cbn [default from_option id].
    - exact Hspill.
    - cbn [spill_ok] in Hspill. subst segs. cbn. by repeat split. }
  assert (table_records a true ≡ₚ seg_records a0 cur) as Hrecs.
  { rewrite <- (seg_records_config a0 a_s) by done.
    apply (groups_inv_records a_s cur a true); [done|done|lia|done]. }
  cbn [spill_ok ms_compare ms_pending]. rewrite Hcmp. split; [done|]. split.
  - apply Sorted_list_merge; [done|done|]. apply Sorted_merge_sort. done.
  - rewrite merge_Permutation, map_app, concat_app. cbn [map concat].
    rewrite app_nil_r. unfold SortStable. rewrite merge_sort_Permutation.
    by rewrite Hpend, Hrecs.
Qed.


Lemma Consume_all_spill_inv a0 vals : ∀ segs cur a,
  no_faults → Encode_total → map_range_perm → zcode_roundtrip →
  inputDir a0 = 0 → Total (cmp_le (keysComparator a0)) →
  Z.of_nat (length (keyTypes a0)) + Z.of_nat (length (concat segs))
  + Z.of_nat (length cur) + Z.of_nat (length vals) < 2 ^ 64 →
  spill_inv a0 segs cur a →
  ∃ a' segs' cur',
    Consume_all vals a = (a', Ok tt)
    ∧ spill_inv a0 segs' cur' a'
    ∧ concat segs' ++ cur' = concat segs ++ cur ++ vals.
Proof.
  induction vals as [|v vals IH]; intros segs cur a Hnf Henc Hperm Hz Hdir Htot Hbound HI.
  { exists a, segs, cur. by rewrite app_nil_r. }
  cbn [length] in Hbound.
  destruct (Consume_spill_inv a0 segs cur a v Hnf Henc Hperm Hz Hdir Htot)
    as (a1 & segs1 & cur1 & HC & HI1 & Hdone); [lia|done|].
  assert (length (concat segs1) + length cur1
          = length (concat segs) + length cur + 1)%nat as Hlen.
  { apply (f_equal length) in Hdone. rewrite !length_app in Hdone. cbn in Hdone. lia. }
  destruct (IH segs1 cur1 a1 Hnf Henc Hperm Hz Hdir Htot) as
    (a' & segs' & cur' & HC' & HI' & Hdone'); [lia|done|].
  exists a', segs', cur'. split; [|split; [done|]].
  - cbn [Consume_all]. by rewrite (bind_Ok _ _ _ _ _ HC).
  - rewrite Hdone', app_assoc, Hdone, <- !app_assoc. done.
Qed.

(** *** The runs of a sorted stream *)

Lemma elem_of_concat {A} (x : A) (ls : list (list A)) :
  x ∈ concat ls ↔ ∃ l, x ∈ l ∧ l ∈ ls.
Proof.
  induction ls as [|l ls IH]; cbn [concat].
  - split; [by intros H; inversion H|by intros (l & _ & H); inversion H].
  - rewrite elem_of_app, IH. split.
    + intros [H|(l' & H & H')]; [exists l; split; [done|by left]|].
      exists l'. split; [done|by right].
    + intros (l' & H & H'). apply elem_of_cons in H' as [->|H']; [by left|].
      right. by exists l'.
Qed.

Lemma filter_concat {A} (P : A → Prop) `{∀ x, Decision (P x)} (ls : list (list A)) :
  filter P (concat ls) = concat (map (filter P) ls).
Proof.
  induction ls as [|l ls IH]; [done|]. cbn [concat map]. by rewrite filter_app, IH.
Qed.

Lemma filter_all {A} (P : A → Prop) `{∀ x, Decision (P x)} (l : list A) :
  (∀ x, x ∈ l → P x) → filter P l = l.
Proof.
  induction l as [|x l IHl]; intros Hl; [done|].
  rewrite filter_cons. destruct (decide (P x)) as [_|Hn].
  - f_equal. apply IHl. intros y Hy. apply Hl. by right.
  - destruct Hn. apply Hl. by left.
Qed.

Lemma filter_nothing {A} (P : A → Prop) `{∀ x, Decision (P x)} (l : list A) :
  (∀ x, x ∈ l → ¬ P x) → filter P l = [].
Proof.
  induction l as [|x l IHl]; intros Hl; [done|].
  rewrite filter_cons. destruct (decide (P x)) as [Hp|_].
  - destruct (Hl x); [by left|done].
  - apply IHl. intros y Hy. apply Hl. by right.
Qed.

Section Runs.
Variable kc : CompareFn.
Variable key : Value → list Value.
Hypothesis kc_sgn : cmp_sgn kc.
Hypothesis kc_trans : Transitive (cmp_le kc).

Definition head_key (g : list Value) : list Value :=
  match g with
  | [] => []
  | r :: _ => key r
  end.

Lemma maximal_groups_app gs : ∀ gs' rest,
  maximal_groups kc gs rest → maximal_groups kc gs' [] → concat gs' = rest →
  maximal_groups kc (gs ++ gs') [].
Proof.
  induction gs as [|g gs IH]; intros gs' rest H H' Hc; [done|].
  cbn [app maximal_groups] in *. destruct H as [Hg Hgs].
  split; [|by eapply IH].
  destruct g as [|rec g']; [done|]. destruct Hg as [Heq Hnext]. split; [done|].
  by rewrite concat_app, Hc, app_nil_r.
Qed.

Lemma maximal_groups_nonempty gs rest :
  maximal_groups kc gs rest → Forall (λ g, g ≠ []) gs.
Proof.
  induction gs as [|g gs IH]; intros H; [done|].
  cbn [maximal_groups] in H. destruct H as [Hg Hgs].
  constructor; [by destruct g|by apply IH].
Qed.

(** In a sorted stream whose records compare equal exactly when they
    have the same key, a maximal run is all the records of its key. *)
Lemma runs_filter gs :
  StronglySorted (cmp_le kc) (concat gs) →
  maximal_groups kc gs [] →
  (∀ r r', r ∈ concat gs → r' ∈ concat gs → kc r r' = 0 ↔ key r = key r') →
  NoDup (map head_key gs)
  ∧ Forall (λ g, g = filter (λ r, key r = head_key g) (concat gs)) gs.
Proof.
  induction gs as [|g gs IH]; intros Hs Hmax Hkey.
  { split; constructor. }
  cbn [maximal_groups] in Hmax. destruct Hmax as [Hg Hmax].
  destruct g as [|rec g']; [done|]. destruct Hg as [Heq Hnext].
  rewrite app_nil_r in Hnext. cbn [concat app] in Hs, Hkey |- *.
  apply StronglySorted_inv in Hs as [Hs Hall].
  assert (StronglySorted (cmp_le kc) (concat gs)) as Hs'
    by (by apply StronglySorted_app_1_r in Hs).
  apply Forall_app in Hall as [_ Hall].
  assert (∀ z, z ∈ concat gs → kc rec z ≠ 0) as Hlater.
  { intros z Hz H0. destruct (concat gs) as [|y tail] eqn:Hc; [by inversion Hz|].
    apply Forall_cons in Hall as [Hy _]. unfold cmp_le in Hy.
    assert (cmp_le kc y z) as Hyz.
    { apply elem_of_cons in Hz as [->|Hz].
      - unfold cmp_le. by rewrite (cmp_sgn_refl kc _ kc_sgn).
      - apply StronglySorted_inv in Hs' as [_ Hy']. by apply (proj1 (Forall_forall _ _) Hy'). }
    assert (cmp_le kc z rec) as Hzr.
    { unfold cmp_le. by rewrite (cmp_sgn_zero kc rec z kc_sgn H0). }
    pose proof (kc_trans y z rec Hyz Hzr) as Hyr. unfold cmp_le in Hyr.
    pose proof (cmp_sgn_swap' kc y rec kc_sgn Hyr). lia. }
  assert (∀ r, r ∈ rec :: g' → key r = key rec) as Hrun.
  { intros r Hr. apply elem_of_cons in Hr as [->|Hr]; [done|].
    symmetry. apply Hkey; [by left|right; apply elem_of_app; by left|].
    by apply (proj1 (Forall_forall _ _) Heq). }
  assert (∀ z, z ∈ concat gs → key z ≠ key rec) as Hlater'.
  { intros z Hz Hk. apply (Hlater z Hz). apply Hkey; [by left| |done].
    right. apply elem_of_app. by right. }
  destruct IH as [Hnd Hfil]; [done|done| |].
  { intros r r' Hr Hr'. apply Hkey; right; apply elem_of_app; by right. }
  split.
  - cbn [map head_key]. apply NoDup_cons. split; [|done].
    intros Hin. apply list_elem_of_fmap in Hin as (g & Hk & Hg).
    pose proof (maximal_groups_nonempty gs [] Hmax) as Hne.
    pose proof (proj1 (Forall_forall _ _) Hne g Hg) as Hgne.
    destruct g as [|r g'']; [done|]. cbn [head_key] in Hk.
    apply (Hlater' r); [|done]. apply elem_of_concat. exists (r :: g'').
    split; [by left|done].
  - constructor.
    + cbn [head_key]. change (rec :: g' ++ concat gs) with ((rec :: g') ++ concat gs).
      rewrite filter_app, filter_all, filter_nothing; [by rewrite app_nil_r|done|done].
    + apply Forall_forall. intros g Hg.
      pose proof (proj1 (Forall_forall _ _) Hfil g Hg) as Hgf.
      pose proof (maximal_groups_nonempty gs [] Hmax) as Hne.
      pose proof (proj1 (Forall_forall _ _) Hne g Hg) as Hgne.
      change (rec :: g' ++ concat gs) with ((rec :: g') ++ concat gs).
      rewrite filter_app, filter_nothing; [done|].
      intros x Hx Hk. destruct g as [|r g'']; [done|]. cbn [head_key] in Hk.
      apply (Hlater' r).
      * apply elem_of_concat. exists (r :: g''). split; [by left|done].
      * by rewrite <- Hk, (Hrun x Hx).
Qed.

End Runs.


Lemma Permutation_concat {A} (l l' : list (list A)) :
  l ≡ₚ l' → concat l ≡ₚ concat l'.
Proof.
  induction 1 as [|x l l' _ IH|x y l|l l' l'' _ IH1 _ IH2]; cbn [concat].
  - done.
  - by rewrite IH.
  - by rewrite !app_assoc, (Permutation_app_comm y x).
  - by etrans.
Qed.

(** A function gives the same result whatever the order of its input. *)
Definition order_insensitive (po : bool) (f : AggFunc) : Prop :=
  ∀ l l', l ≡ₚ l' → agg_out po f (agg_fold f l) = agg_out po f (agg_fold f l').

(** *** The records of the merged stream *)

Section Merged.
Variable a0 : Aggregator.
Hypothesis Hpin : partialsIn a0 = false.
Hypothesis Hkrt : keyRefs_roundtrip (keyRefs a0).
Hypothesis Hnrefs : length (keyRefs a0) = length (keyExprs a0).
Hypothesis Hart : aggRefs_roundtrip (aggRefs a0) (length (keyExprs a0)).
Hypothesis Hnaggs : length (aggRefs a0) = length (aggs a0).
Hypothesis Hdec : Forall (decomposable (partialsOut a0)) (aggs a0).
Hypothesis Hord : Forall (order_insensitive (partialsOut a0)) (aggs a0).

(** The key values an output record shows. *)
Definition keyOf (r : Value) : list Value := map (λ e : Evaluator, e r) (keyRefs a0).

Hypothesis Hkc_sgn : cmp_sgn (keysComparator a0).
Hypothesis Hkc_trans : Transitive (cmp_le (keysComparator a0)).
Hypothesis Hkc_key : ∀ r r', keysComparator a0 r r' = 0 ↔ keyOf r = keyOf r'.

(** The records of [seg] with the key values [k]. *)
Definition frag (seg : list Value) (k : list Value) : list Value :=
  filter (λ x, key_values a0 x = k) seg.

(** The record with the partial results of a part of a group. *)
Definition partial_record (k : list Value) (fr : list Value) : Value :=
  out_record k (map (λ f, agg_ResultAsPartial f (agg_fold f fr)) (aggs a0)).

(** The parts of the group of [k] in the segments. *)
Definition frags (segs : list (list Value)) (k : list Value) : list (list Value) :=
  concat (map (λ seg, if decide (k ∈ group_keys a0 seg) then [frag seg k] else [])
              segs).

Lemma seg_records_partial seg :
  seg_records a0 seg = map (λ k, partial_record k (frag seg k)) (group_keys a0 seg).
Proof.
  unfold seg_records, partial_record, frag. apply map_ext. intros k.
  by rewrite group_reducers_fold, valRow_results_map.
Qed.

Lemma group_keys_length seg k :
  k ∈ group_keys a0 seg → length k = length (keyExprs a0).
Proof.
  intros H. apply group_keys_elem in H as (x & _ & _ & <-).
  unfold key_values. by rewrite length_map.
Qed.

Lemma keyOf_partial_record k fr :
  length k = length (keyExprs a0) → keyOf (partial_record k fr) = k.
Proof. intros Hk. apply Hkrt. by rewrite Hnrefs. Qed.

Lemma seg_records_filter seg k :
  filter (λ r, keyOf r = k) (seg_records a0 seg)
  = if decide (k ∈ group_keys a0 seg) then [partial_record k (frag seg k)] else [].
Proof.
  rewrite seg_records_partial.
  destruct (decide (k ∈ group_keys a0 seg)) as [Hk|Hk].
  - apply (filter_fmap_unique (λ k, partial_record k (frag seg k)) keyOf);
      [apply NoDup_remove_dups|done|].
    intros y Hy. apply keyOf_partial_record. by apply (group_keys_length seg).
  - apply filter_nothing. intros r Hr Hkr.
    apply list_elem_of_fmap in Hr as (y & -> & Hy).
    rewrite keyOf_partial_record in Hkr by (by apply (group_keys_length seg)).
    by subst.
Qed.

Lemma merged_filter segs k :
  filter (λ r, keyOf r = k) (concat (map (seg_records a0) segs))
  = map (partial_record k) (frags segs k).
Proof.
  unfold frags. induction segs as [|seg segs IH]; [done|].
  cbn [map concat]. rewrite filter_app, IH, map_app, seg_records_filter.
  by destruct (decide (k ∈ group_keys a0 seg)).
Qed.

Lemma frags_concat segs k :
  Forall (λ v, Value_IsQuiet v = false) k →
  concat (frags segs k) = frag (concat segs) k.
Proof.
  intros Hq. unfold frags, frag. induction segs as [|seg segs IH]; [done|].
  cbn [map concat]. rewrite concat_app, IH, filter_app. f_equal.
  destruct (decide (k ∈ group_keys a0 seg)) as [Hk|Hk]; cbn [concat].
  - by rewrite app_nil_r.
  - symmetry. apply filter_nothing. intros x Hx Hkx. apply Hk.
    apply group_keys_elem. exists x. split; [done|]. split; [|done].
    unfold not_quiet. by rewrite Hkx.
Qed.

Lemma merged_elem segs r :
  r ∈ concat (map (seg_records a0) segs) ↔
  ∃ seg k, seg ∈ segs ∧ k ∈ group_keys a0 seg ∧ r = partial_record k (frag seg k).
Proof.
  rewrite elem_of_concat. split.
  - intros (l & Hr & Hl). apply list_elem_of_fmap in Hl as (seg & -> & Hseg).
    rewrite seg_records_partial in Hr. apply list_elem_of_fmap in Hr as (k & -> & Hk).
    by exists seg, k.
  - intros (seg & k & Hseg & Hk & ->). exists (seg_records a0 seg). split.
    + rewrite seg_records_partial. apply list_elem_of_fmap. by exists k.
    + apply list_elem_of_fmap. by exists seg.
Qed.

Lemma group_keys_concat segs k :
  k ∈ group_keys a0 (concat segs) ↔ ∃ seg, seg ∈ segs ∧ k ∈ group_keys a0 seg.
Proof.
  rewrite group_keys_elem. split.
  - intros (x & Hx & Hq & Hk). apply elem_of_concat in Hx as (seg & Hx & Hseg).
    exists seg. split; [done|]. apply group_keys_elem. by exists x.
  - intros (seg & Hseg & Hk). apply group_keys_elem in Hk as (x & Hx & Hq & Hk).
    exists x. split; [|done]. apply elem_of_concat. by exists seg.
Qed.

(** The row of a merged group of partial records. *)
Lemma group_row_partials k frs : ∀ h : AggFunc → AggState,
  length k = length (keyExprs a0) →
  group_row a0 (map h (aggs a0)) (map (partial_record k) frs)
  = map (λ f, foldl (λ s p, agg_ConsumeAsPartial f p s) (h f)
                (map (λ fr, agg_ResultAsPartial f (agg_fold f fr)) frs))
        (aggs a0).
Proof.
  unfold group_row. induction frs as [|fr frs IH]; intros h Hk; [done|].
  cbn [map foldl].
  rewrite (valRow_consumeAsPartial_map (aggs a0) h
             (λ f, agg_ResultAsPartial f (agg_fold f fr))).
  - by rewrite (IH (λ f, agg_ConsumeAsPartial f
                          (agg_ResultAsPartial f (agg_fold f fr)) (h f))).
  - unfold partial_record. apply Hart; [done|]. by rewrite length_map.
Qed.

(** The output record of the group of [k]. *)
Definition group_output (vals : list Value) (k : list Value) : Value :=
  out_record k (valRow_results (partialsOut a0) (aggs a0) (group_reducers a0 k vals)).

Lemma group_record_merged segs k g :
  Forall (λ v, Value_IsQuiet v = false) k →
  length k = length (keyExprs a0) →
  g ≠ [] → head_key keyOf g = k →
  g ≡ₚ map (partial_record k) (frags segs k) →
  group_record a0 g = group_output (concat segs) k.
Proof.
  intros Hq Hlen Hne Hhead Hperm.
  apply Permutation_map_inv in Hperm as (frs' & -> & Hfrs).
  destruct frs' as [|fr frs']; [done|].
  unfold group_record, group_output. cbn [map].
  change (partial_record k fr :: map (partial_record k) frs')
    with (map (partial_record k) (fr :: frs')).
  cbn [head_key map] in Hhead. fold (keyOf (partial_record k fr)). rewrite Hhead.
  unfold newValRow. rewrite (group_row_partials k (fr :: frs') agg_new Hlen).
  fold (out_record k
          (valRow_results (partialsOut a0) (aggs a0)
             (map (λ f, foldl (λ s p, agg_ConsumeAsPartial f p s) (agg_new f)
                          (map (λ fr0, agg_ResultAsPartial f (agg_fold f fr0))
                               (fr :: frs')))
                  (aggs a0)))).
  f_equal. rewrite group_reducers_fold by done. rewrite !valRow_results_map.
  apply map_ext_in. intros f Hf. apply list_elem_of_In in Hf.
  pose proof (proj1 (Forall_forall _ _) Hdec f Hf (fr :: frs')) as Hd.
  pose proof (proj1 (Forall_forall _ _) Hord f Hf) as Ho.
  unfold agg_merge in Hd. rewrite Hd. apply Ho.
  fold (frag (concat segs) k). rewrite <- (frags_concat segs k Hq).
  apply Permutation_concat. by symmetry.
Qed.

(** The merged groups of the stream are the groups of the input. *)
Lemma merged_groups segs P G :
  Sorted (cmp_le (keysComparator a0)) P →
  P ≡ₚ concat (map (seg_records a0) segs) →
  concat G = P → maximal_groups (keysComparator a0) G [] →
  map (group_record a0) G
  ≡ₚ map (group_output (concat segs)) (group_keys a0 (concat segs)).
Proof.
  intros Hsorted HP HG Hmax.
  apply Sorted_StronglySorted in Hsorted; [|done].
  destruct (runs_filter (keysComparator a0) keyOf Hkc_sgn Hkc_trans G) as [Hnd Hfil];
    [by rewrite HG|done|intros r r' _ _; apply Hkc_key|].
  rewrite HG in Hfil.
  pose proof (maximal_groups_nonempty _ _ _ Hmax) as Hne.
  assert (∀ r, r ∈ P → ∃ seg, seg ∈ segs ∧ keyOf r ∈ group_keys a0 seg) as Hkeys.
  { intros r Hr. rewrite HP in Hr. apply merged_elem in Hr as (seg & k & Hseg & Hk & ->).
    exists seg. split; [done|].
    by rewrite keyOf_partial_record by (by apply (group_keys_length seg)). }
  assert (∀ g, g ∈ G → ∃ r, r ∈ g ∧ r ∈ P ∧ head_key keyOf g = keyOf r) as Hheads.
  { intros g Hg. pose proof (proj1 (Forall_forall _ _) Hne g Hg) as Hgne.
    destruct g as [|r g']; [done|]. exists r. split; [by left|]. split; [|done].
    rewrite <- HG. apply elem_of_concat. exists (r :: g'). split; [by left|done]. }
  assert (map (group_record a0) G
          = map (group_output (concat segs)) (map (head_key keyOf) G)) as ->.
  { rewrite map_map. apply map_ext_in. intros g Hg. apply list_elem_of_In in Hg.
    destruct (Hheads g Hg) as (r & Hrg & Hr & Hhead).
    destruct (Hkeys r Hr) as (seg & Hseg & Hk).
    apply (group_record_merged segs).
    - rewrite Hhead. apply group_keys_elem in Hk as (x & _ & Hxq & <-). exact Hxq.
    - rewrite Hhead. by apply (group_keys_length seg).
    - by apply (proj1 (Forall_forall _ _) Hne).
    - done.
    - rewrite <- merged_filter, <- HP.
      by rewrite (proj1 (Forall_forall _ _) Hfil g Hg) at 1. }
  apply Permutation_map. apply NoDup_Permutation; [done|apply NoDup_remove_dups|].
  intros k. rewrite group_keys_concat. split.
  - intros Hk. apply list_elem_of_fmap in Hk as (g & -> & Hg).
    destruct (Hheads g Hg) as (r & _ & Hr & ->). by apply Hkeys.
  - intros (seg & Hseg & Hk).
    assert (partial_record k (frag seg k) ∈ P) as Hr.
    { rewrite HP. apply merged_elem. by exists seg, k. }
    rewrite <- HG in Hr. apply elem_of_concat in Hr as (g & Hrg & Hg).
    apply list_elem_of_fmap. exists g. split; [|done].
    rewrite (proj1 (Forall_forall _ _) Hfil g Hg) in Hrg.
    apply list_elem_of_filter in Hrg as [Hkr _].
    by rewrite keyOf_partial_record in Hkr by (by apply (group_keys_length seg)).
Qed.

End Merged.


(** *** The comparison by all the keys *)

Lemma lex_compare_transitive vc es :
  cmp_sgn vc → cmp_transitive vc → cmp_transitive (lex_compare vc es).
Proof.
  intros Hs Ht. induction es as [|e es IH]; intros x y z; cbn [lex_compare]; [done|].
  pose proof (Ht (e x) (e y) (e z)) as Hxyz.
  pose proof (Ht (e z) (e y) (e x)) as Hzyx.
  pose proof (Ht (e y) (e z) (e x)) as Hyzx.
  pose proof (Ht (e z) (e x) (e y)) as Hzxy.
  pose proof (Hs (e x) (e y)) as Sxy. pose proof (Hs (e y) (e z)) as Syz.
  pose proof (Hs (e x) (e z)) as Sxz.
  pose proof (Z.sgn_spec (vc (e x) (e y))). pose proof (Z.sgn_spec (vc (e y) (e x))).
  pose proof (Z.sgn_spec (vc (e y) (e z))). pose proof (Z.sgn_spec (vc (e z) (e y))).
  pose proof (Z.sgn_spec (vc (e x) (e z))). pose proof (Z.sgn_spec (vc (e z) (e x))).
  destruct (Z.eqb_spec (vc (e x) (e y)) 0) as [Exy|Exy],
    (Z.eqb_spec (vc (e y) (e z)) 0) as [Eyz|Eyz],
    (Z.eqb_spec (vc (e x) (e z)) 0) as [Exz|Exz]; intros Hxy Hyz;
    try (by apply (IH x y z)); lia.
Qed.

Lemma lex_compare_zero vc es r r' :
  cmp_sgn vc → (∀ x y, vc x y = 0 → x = y) →
  lex_compare vc es r r' = 0
  ↔ map (λ e : Evaluator, e r) es = map (λ e : Evaluator, e r') es.
Proof.
  intros Hs Hsep. induction es as [|e es IH]; cbn [lex_compare map]; [done|].
  destruct (Z.eqb_spec (vc (e r) (e r')) 0) as [H0|Hn].
  - rewrite IH. split; [intros ->; by rewrite (Hsep _ _ H0)|by intros [= _ ->]].
  - split; [done|]. intros [= He _]. destruct Hn. rewrite He. by apply cmp_sgn_refl.
Qed.

(** *** The end of the input after a spill *)

(** The aggregator between two calls of [nextResult] at the end of the
    input: the table is empty, the stream holds [P]. *)
Definition drain_inv (a0 : Aggregator) (P : list Value) (b : Aggregator) : Prop :=
  same_config a0 b ∧ memo_wf b ∧ table b = ∅
  ∧ ∃ m, spiller b = Some m ∧ ms_compare m = keysComparator a0 ∧ ms_pending m = P.

Lemma spill_merge_ok a0 a segs cur recs :
  Total (cmp_le (keysComparator a0)) →
  keysComparator a = keysComparator a0 →
  spill_ok a0 segs (spiller a) →
  recs ≡ₚ seg_records a0 cur →
  spill_ok a0 (segs ++ [cur]) (Some (spill_merge a recs)).
Proof.
  intros Htot Hkc Hspill Hrecs. unfold spill_merge.
  set (m := default (mkMergeSort (keysComparator a) []) (spiller a)).
  assert (ms_compare m = keysComparator a0
          ∧ Sorted (cmp_le (keysComparator a0)) (ms_pending m)
          ∧ ms_pending m ≡ₚ concat (map (seg_records a0) segs)) as (Hcmp & Hsorted & Hpend).
  { unfold m. destruct (spiller a) as [m0|]; cbn [default from_option id].
    - exact Hspill.
    - cbn [spill_ok] in Hspill. subst segs. cbn. by repeat split. }
  cbn [spill_ok ms_compare ms_pending]. rewrite Hcmp. split; [done|]. split.
  - apply Sorted_list_merge; [done|done|]. apply Sorted_merge_sort. done.
  - rewrite merge_Permutation, map_app, concat_app. cbn [map concat].
    rewrite app_nil_r. unfold SortStable. rewrite merge_sort_Permutation.
    by rewrite Hpend, Hrecs.
Qed.

Lemma group_record_config a a' g :
  same_config a a' → group_record a' g = group_record a g.
Proof.
  intros (Hkrs & _ & Hars & Haggs & _ & _ & _ & _ & _ & _ & Hpout).
  unfold group_record, group_row. by rewrite Hkrs, Hars, Haggs, Hpout.
Qed.

Lemma spillTable_eof_inv a0 segs cur a :
  no_faults → Encode_total → map_range_perm → zcode_roundtrip →
  inputDir a0 = 0 → Total (cmp_le (keysComparator a0)) →
  Z.of_nat (length (keyTypes a0)) + Z.of_nat (length (concat segs))
  + Z.of_nat (length cur) < 2 ^ 64 →
  spill_inv a0 segs cur a → is_Some (spiller a) →
  ∃ b P,
    spillTable true a = (b, Ok tt)
    ∧ drain_inv a0 P b
    ∧ Sorted (cmp_le (keysComparator a0)) P
    ∧ P ≡ₚ concat (map (seg_records a0) (segs ++ [cur])).
Proof.
  intros Hnf Henc Hperm Hz Hdir0 Htot Hbound (a_s & Hsame_s & Hm_s & HI & Hlen_s & Hspill)
    [m0 Hsp].
  pose proof HI as (Hsame & _ & _ & _ & _ & Hlen & _).
  pose proof (groups_inv_memo _ _ _ HI Hm_s) as Hm.
  pose proof (groups_inv_rows _ _ _ HI) as Hrows.
  assert (same_config a0 a) as Hsame0 by (by eapply same_config_trans).
  assert (inputDir a = 0) as Hdir.
  { pose proof Hsame0 as (_&_&_&_&_&_&_&_&Hd&_). congruence. }
  assert (keysComparator a = keysComparator a0) as Hkc.
  { by pose proof Hsame0 as (_&_&_&_&_&_&_&Hk&_). }
  assert (table_records a true ≡ₚ seg_records a0 cur) as Hrecs.
  { rewrite <- (seg_records_config a0 a_s) by done.
    apply (groups_inv_records a_s cur a true); [done|done|lia|done]. }
  destruct (spillTable_spec a true Hnf Henc Hperm Hm Hrows) as (ot & rt & Hs & Hm');
    [by intros Hd; destruct Hd|].
  destruct (table_records a true) as [|r0 recs0] eqn:Htr.
  - eexists _, (ms_pending m0). split; [exact Hs|].
    rewrite Hsp in Hspill. destruct Hspill as (Hcmp & Hsorted & Hpend).
    split; [|split; [done|]].
    + split; [done|]. split; [done|]. split; [done|]. by exists m0.
    + rewrite map_app, concat_app. cbn [map concat]. rewrite app_nil_r.
      apply Permutation_nil_l in Hrecs. by rewrite <- Hrecs, app_nil_r.
  - pose proof (spill_merge_ok a0 a segs cur (r0 :: recs0) Htot Hkc Hspill Hrecs)
      as (Hcmp & Hsorted & Hpend).
    eexists _, _. split; [exact Hs|]. split; [|split; [exact Hsorted|exact Hpend]].
    split; [done|]. split; [done|]. split; [done|].
    eexists. split; [reflexivity|]. split; [exact Hcmp|done].
Qed.

Lemma readSpills_drain a0 P b :
  no_faults → Encode_total → drain_inv a0 P b →
  ∃ b',
    readSpills true b
    = (b', Ok (batch_of (map (group_record a0) (drain a0 BatchLen true P).1)))
    ∧ drain_inv a0 (drain a0 BatchLen true P).2 b'.
Proof.
  intros Hnf Henc (Hsame & Hm & Ht & m & Hsp & Hcmp & Hpend).
  destruct (readSpills_spec b m true Hnf Henc Hm Hsp) as (ot & rt & Hr & Hm');
    [done|done|].
  assert (keysComparator b = keysComparator a0) as Hkc
    by (by pose proof Hsame as (_&_&_&_&_&_&_&Hk&_)).
  assert (∀ p, drain b BatchLen true p = drain a0 BatchLen true p) as Hdrain.
  { intros p. unfold drain. by rewrite Hkc. }
  rewrite Hdrain, Hpend in Hr.
  assert (map (group_record b) (drain a0 BatchLen true P).1
          = map (group_record a0) (drain a0 BatchLen true P).1) as Hmap.
  { apply map_ext. intros g. by apply group_record_config. }
  rewrite Hmap in Hr. eexists. split; [exact Hr|].
  split; [done|]. split; [done|]. split; [done|].
  unfold set_pending. cbn [spiller set_spiller set_recordTypes set_outTypes].
  rewrite Hsp. cbn [option_map]. eexists. split; [reflexivity|]. by split.
Qed.


Lemma delivered_spill_events evs :
  Forall (λ ev, ev = EvSpillCreated) evs → delivered evs = [].
Proof.
  induction 1 as [|ev evs -> _ IH]; [done|]. unfold delivered in *. cbn. exact IH.
Qed.

(** A call of [nextResult] at the end of the input by the producer, once
    something has been spilled. *)
Lemma nextResult_drain_call a0 P a1 b :
  no_faults → Encode_total →
  is_Some (spiller a1) → spillTable true a1 = (b, Ok tt) →
  drain_inv a0 P b →
  ∃ b',
    drain_inv a0 (drain a0 BatchLen true P).2 b'
    ∧ ∀ tr,
        Op_call (nextResult true) (mkOp a1 tr)
        = (mkOp b' tr,
           Ok (batch_of (map (group_record a0) (drain a0 BatchLen true P).1))).
Proof.
  intros Hnf Henc [m Hsp] Hspill HD.
  destruct (readSpills_drain a0 P b Hnf Henc HD) as (b' & Hr & HD').
  assert (nextResult true a1
          = (b', Ok (batch_of (map (group_record a0) (drain a0 BatchLen true P).1))))
    as Hnext.
  { unfold nextResult. mnorm. rewrite Hsp. by rewrite (bind_Ok _ _ _ _ _ Hspill). }
  exists b'. split; [done|]. intros tr.
  unfold Op_call. cbn [agg trace]. rewrite Hnext, Hsp. by rewrite app_nil_r.
Qed.

Lemma sendResults_drain a0 (k : nat) : ∀ P a1 b,
  no_faults → Encode_total → map_range_perm → (0 < BatchLen)%nat →
  (length P < k)%nat →
  is_Some (spiller a1) → spillTable true a1 = (b, Ok tt) →
  drain_inv a0 P b →
  ∃ n bs G,
    (∀ tr sels, ∃ o',
       sendResults (replicate n SelSend ++ sels) (mkOp a1 tr) = (o', sels, Continue)
       ∧ delivered (trace o') = delivered tr ++ bs)
    ∧ concat bs = map (group_record a0) G
    ∧ concat G = P
    ∧ maximal_groups (keysComparator a0) G [].
Proof.
  induction k as [|k IH]; intros P a1 b Hnf Henc Hperm Hbl Hk Hsome Hspill HD; [lia|].
  destruct (nextResult_drain_call a0 P a1 b Hnf Henc Hsome Hspill HD)
    as (b' & HD1 & Hcall).
  destruct (drain_eof_spec a0 BatchLen P) as (Happ & _ & Hlt & Hmax).
  destruct (drain a0 BatchLen true P) as [gs rest]. cbn [fst snd] in *.
  destruct gs as [|g gs].
  - exists 1%nat, [], []. cbn [length] in Hlt. rewrite (Hlt Hbl) in Happ.
    split; [|by split].
    intros tr sels. cbn [replicate app sendResults]. rewrite Hcall.
    cbn [map batch_of sendResult negb]. eexists. split; [reflexivity|].
    unfold log. cbn [trace]. rewrite !delivered_app. cbn. by rewrite !app_nil_r.
  - set (recs := map (group_record a0) (g :: gs)) in *.
    pose proof (maximal_groups_nonempty _ _ _ Hmax) as Hne.
    assert (length rest < k)%nat as Hk'.
    { rewrite <- Happ in Hk. cbn [concat] in Hk. rewrite !length_app in Hk.
      apply Forall_cons in Hne as [Hg _]. destruct g; [done|]. cbn [length] in Hk. lia. }
    pose proof HD1 as (_ & _ & Ht1 & m1 & Hsp1 & _).
    destruct (IH rest b' b' Hnf Henc Hperm Hbl Hk')
      as (n & bs & G & Hsend & Hbs & HG & HmaxG).
    { by exists m1. }
    { by apply spillTable_empty. }
    { done. }
    exists (S n), (recs :: bs), ((g :: gs) ++ G). split; [|split; [|split]].
    + intros tr sels.
      destruct (Hsend (tr ++ [EvResult (Some recs) None]) sels) as (o' & Hs & Hd).
      exists o'. cbn [replicate app sendResults]. rewrite Hcall.
      cbn [map batch_of sendResult negb]. fold recs. unfold log. cbn [agg trace].
      split; [exact Hs|]. rewrite Hd, delivered_app. cbn. by rewrite <- app_assoc.
    + cbn [concat]. by rewrite Hbs, map_app.
    + by rewrite concat_app, HG.
    + by apply (maximal_groups_app _ _ _ rest).
Qed.

(** The end of the input when nothing has been spilled. *)
Lemma sendResults_flush a1 :
  Encode_total → map_range_perm → memo_wf a1 → rows_wf a1 →
  spiller a1 = None →
  ∃ n, ∀ tr sels, ∃ o',
    sendResults (replicate n SelSend ++ sels) (mkOp a1 tr) = (o', sels, Continue)
    ∧ delivered (trace o')
      = delivered tr
        ++ match table_records a1 (partialsOut a1) with
           | [] => []
           | recs => [recs]
           end.
Proof.
  intros Henc Hperm Hm Hrows Hsp.
  destruct (readTable_flush a1 (partialsOut a1) Henc Hperm Hm Hrows)
    as (ot & rt & Hread & _).
  fold (table_records a1 (partialsOut a1)) in Hread.
  set (a2 := set_table (set_recordTypes (set_outTypes a1 ot) rt) ∅) in *.
  assert (nextResult true a1
          = (a2, Ok (batch_of (table_records a1 (partialsOut a1))))) as Hnext.
  { unfold nextResult. mnorm. by rewrite Hsp. }
  assert (nextResult true a2 = (a2, Ok None)) as Hnext2.
  { unfold nextResult. mnorm. replace (spiller a2) with (@None MergeSort) by done.
    mnorm. by apply readTable_empty. }
  destruct (table_records a1 (partialsOut a1)) as [|rec recs] eqn:Hrecs;
    cbn [batch_of] in Hnext.
  - exists 1%nat. intros tr sels. cbn [replicate app sendResults]. unfold Op_call at 1.
    cbn [agg trace]. rewrite Hnext, Hsp.
    replace (spiller a2) with (@None MergeSort) by done.
    cbn [sendResult log negb agg trace]. eexists. split; [reflexivity|].
    unfold log. cbn [trace]. rewrite !delivered_app. cbn. by rewrite !app_nil_r.
  - exists 2%nat. intros tr sels. cbn [replicate app sendResults]. unfold Op_call at 1.
    cbn [agg trace]. rewrite Hnext, Hsp.
    replace (spiller a2) with (@None MergeSort) by done.
    cbn [sendResult log negb agg trace sendResults]. unfold Op_call at 1.
    unfold log at 1 2 3. cbn [agg trace]. rewrite Hnext2.
    replace (spiller a2) with (@None MergeSort) by done.
    cbn [sendResult log negb agg trace]. eexists. split; [reflexivity|].
    unfold log. cbn [trace]. rewrite !delivered_app. cbn. by rewrite !app_nil_r.
Qed.

(** X18.  Spilling does not change the result, on unsorted input: whatever
    the limit, when the parent has handed over its batches and signals
    the end, and downstream receives, the producer delivers batches whose
    records are, up to their order, one output record for each distinct
    list of key values of the records without a quiet key, made of these
    key values and of the results of the aggregate functions over the
    records of the input with these key values, which is what a flush
    returns when nothing spills.  The aggregator applies records; its
    functions decompose and do not depend on the order of their input;
    the keys comparator compares the key columns of the output with a
    comparison that is zero on equal values only; the key and the
    aggregate references read the columns of the output back. *)
Theorem run_unsorted_spill_groups (batches : list (list Value)) (o : Op)
    (vc : CompareFn) :
  no_faults → Encode_total → map_range_perm → zcode_roundtrip → (0 < BatchLen)%nat →
  inputDir (agg o) = 0 → partialsIn (agg o) = false →
  table (agg o) = ∅ → spiller (agg o) = None → memo_wf (agg o) →
  Z.of_nat (length (keyTypes (agg o))) + Z.of_nat (length (concat batches)) < 2 ^ 64 →
  keyRefs_roundtrip (keyRefs (agg o)) →
  length (keyRefs (agg o)) = length (keyExprs (agg o)) →
  aggRefs_roundtrip (aggRefs (agg o)) (length (keyExprs (agg o))) →
  length (aggRefs (agg o)) = length (aggs (agg o)) →
  cmp_sgn vc → cmp_transitive vc → (∀ x y, vc x y = 0 → x = y) →
  (∀ x y, keysComparator (agg o) x y = lex_compare vc (keyRefs (agg o)) x y) →
  Forall (decomposable (partialsOut (agg o))) (aggs (agg o)) →
  Forall (order_insensitive (partialsOut (agg o))) (aggs (agg o)) →
  ∃ n bs,
    (∀ sels, ∃ o',
       run (map PullBatch batches ++ [PullEOS]) (replicate n SelSend ++ sels) o
       = (o', Blocked)
       ∧ delivered (trace o') = delivered (trace o) ++ bs)
    ∧ concat bs
      ≡ₚ map (λ kvs, out_record kvs
                       (valRow_results (partialsOut (agg o)) (aggs (agg o))
                          (group_reducers (agg o) kvs (concat batches))))
             (group_keys (agg o) (concat batches)).
Proof.
  intros Hnf Henc Hperm Hz Hbl Hdir Hpin He Hsp Hm Hbound Hkrt Hnkeys Hart Hnaggs
    Hsgn Htrans Hsep Hlex Hdec Hord.
  set (a := agg o) in *. set (vals := concat batches) in *.
  assert (cmp_sgn (keysComparator a)) as Hkc_sgn.
  { intros x y. rewrite !Hlex. by apply lex_compare_sgn. }
  assert (Transitive (cmp_le (keysComparator a))) as Hkc_trans.
  { intros x y z. unfold cmp_le. rewrite !Hlex.
    by apply lex_compare_transitive. }
  assert (Total (cmp_le (keysComparator a))) as Htot by (by apply cmp_sgn_total).
  assert (∀ r r', keysComparator a r r' = 0 ↔ keyOf a r = keyOf a r') as Hkc_key.
  { intros r r'. rewrite Hlex. by apply lex_compare_zero. }
  destruct (Consume_all_spill_inv a vals [] [] a Hnf Henc Hperm Hz Hdir Htot)
    as (a' & segs & cur & HC & HI & Hdone); [cbn [concat length]; lia
                                            |by apply spill_inv_start|].
  cbn [concat app] in Hdone.
  assert (∀ sels, ∃ evs, run_loop (map PullBatch batches ++ [PullEOS]) sels o
                         = run_loop [PullEOS] sels (mkOp a' (trace o ++ evs))
                         ∧ delivered (trace o ++ evs) = delivered (trace o)) as Hloop.
  { intros sels.
    destruct (run_loop_unsorted_ok batches [PullEOS] sels o a' Hdir HC)
      as (evs & Hr & Hevs).
    exists evs. split; [done|].
    by rewrite delivered_app, (delivered_spill_events evs Hevs), app_nil_r. }
  (* what the end of the stream delivers *)
  assert (∃ n bs,
            (∀ tr sels, ∃ o',
               sendResults (replicate n SelSend ++ sels) (mkOp a' tr)
               = (o', sels, Continue)
               ∧ delivered (trace o') = delivered tr ++ bs)
            ∧ concat bs
              ≡ₚ map (group_output a vals) (group_keys a vals))
    as (n & bs & Hsend & Hbs).
  { pose proof HI as (a_s & Hsame_s & Hm_s & HG & Hlen_s & Hspill).
    pose proof HG as (Hsame' & _ & _ & _ & _ & Hlen' & _).
    assert (same_config a a') as Hsame by (by eapply same_config_trans).
    assert (length (concat segs) + length cur = length vals)%nat as Hlens.
    { apply (f_equal length) in Hdone. by rewrite length_app in Hdone. }
    destruct (spiller a') as [m|] eqn:Hsp'.
    - destruct (spillTable_eof_inv a segs cur a' Hnf Henc Hperm Hz Hdir Htot)
        as (b & P & Hs & HD & Hsorted & HP); [lia|done|by rewrite Hsp'|].
      assert (concat (segs ++ [cur]) = vals) as Hsegs.
      { rewrite concat_app. cbn [concat]. by rewrite app_nil_r. }
      destruct (sendResults_drain a (S (length P)) P a' b Hnf Henc Hperm Hbl)
        as (n & bs & G & Hsend & Hbs & HG' & Hmax);
        [lia|by rewrite Hsp'|done|done|].
      exists n, bs. split; [done|]. rewrite Hbs, <- Hsegs.
      by apply (merged_groups a Hpin Hkrt Hnkeys Hart Hnaggs Hdec Hord Hkc_sgn Hkc_trans
                  Hkc_key (segs ++ [cur]) P G).
    - cbn [spill_ok] in Hspill. subst segs. cbn [concat app] in Hdone. subst cur.
      pose proof (groups_inv_memo _ _ _ HG Hm_s) as Hm'.
      pose proof (groups_inv_rows _ _ _ HG) as Hrows'.
      destruct (sendResults_flush a' Henc Hperm Hm' Hrows' Hsp') as [n Hsend].
      exists n, (match table_records a' (partialsOut a') with
                 | [] => []
                 | recs => [recs]
                 end).
      split; [done|].
      assert (concat (match table_records a' (partialsOut a') with
                      | [] => []
                      | recs => [recs]
                      end) = table_records a' (partialsOut a')) as ->.
      { destruct (table_records a' (partialsOut a')); [done|]. cbn [concat].
        by rewrite app_nil_r. }
      pose proof (groups_inv_records a_s vals a' (partialsOut a') Hz Hperm) as Hrecs.
      rewrite Hrecs; [|cbn [concat length] in *; lia|done].
      pose proof Hsame as (_ & _ & _ & _ & _ & _ & _ & _ & _ & _ & Hpout).
      pose proof Hsame_s as (_ & _ & _ & Haggs & _).
      rewrite (group_keys_config a a_s) by done. rewrite Hpout, Haggs.
      unfold group_output.
      match goal with |- ?l ≡ₚ ?r => assert (l = r) as ->; [|done] end.
      apply map_ext. intros kvs. by rewrite (group_reducers_config a a_s). }
  exists n, bs. split; [|exact Hbs].
  intros sels. destruct (Hloop (replicate n SelSend ++ sels)) as (evs & Hr & Hd).
  destruct (Hsend (trace o ++ evs) sels) as (o' & Hs & Hd').
  exists o'. unfold run. rewrite Hr. cbn [run_loop]. rewrite Hs. cbn [run_loop].
  split; [done|]. by rewrite Hd', Hd.
Qed.


(** ** Grouping on sorted input, with the completed keys sent early *)

(** The rows of the table are the groups of the records [L]. *)
Definition table_groups (a0 : Aggregator) (L : list Value) (a : Aggregator) : Prop :=
  (∀ x, x ∈ L → not_quiet a0 x →
     (TypeVectorTable_Lookup (keyTypes a) (map Value_Type (key_values a0 x))).2
     = keyTypes a
     ∧ ∃ row,
         table a !! key_of (keyTypes a) (key_values a0 x) = Some row
         ∧ keyType row
           = (TypeVectorTable_Lookup (keyTypes a)
                (map Value_Type (key_values a0 x))).1
         ∧ reducers row = group_reducers a0 (key_values a0 x) L)
  ∧ (∀ key row, table a !! key = Some row →
       ∃ x, x ∈ L ∧ not_quiet a0 x
            ∧ key = key_of (keyTypes a) (key_values a0 x)).

Lemma groups_inv_table a0 L a : groups_inv a0 L a → table_groups a0 L a.
Proof. by intros (_ & _ & _ & _ & _ & _ & _ & HA & HB). Qed.

Lemma length_remove_dups `{EqDecision A} (l : list A) :
  (length (remove_dups l) <= length l)%nat.
Proof.
  induction l as [|x l IH]; [done|]. cbn [remove_dups].
  destruct (decide_rel elem_of x l); cbn [length]; lia.
Qed.

Lemma group_keys_length_le a0 L : (length (group_keys a0 L) <= length L)%nat.
Proof.
  unfold group_keys. etrans; [apply length_remove_dups|].
  rewrite length_map. apply length_filter.
Qed.

(** The table has one row for each group. *)
Lemma table_groups_size a0 L a :
  zcode_roundtrip → Z.of_nat (length (keyTypes a)) < 2 ^ 64 →
  table_groups a0 L a → (size (table a) <= length L)%nat.
Proof.
  intros Hz Hbound [HA HB].
  set (h := λ kvs : list Value,
         (key_of (keyTypes a) kvs,
          default (mkRow 0 zeroValue []) (table a !! key_of (keyTypes a) kvs))).
  assert (map_to_list (table a) ≡ₚ map h (group_keys a0 L)) as Hlist.
  { apply NoDup_Permutation.
    - apply NoDup_map_to_list.
    - apply (NoDup_fmap_2_strong h); [|apply NoDup_remove_dups].
      intros kvs1 kvs2 H1 H2 Hh.
      apply group_keys_elem in H1 as (x & Hx & Hxq & <-).
      apply group_keys_elem in H2 as (y & Hy & Hyq & <-).
      destruct (HA x Hx Hxq) as (Hint & _).
      apply (key_of_inj (keyTypes a)); [done| |done|done|by inversion Hh].
      unfold key_values. by rewrite !length_map.
    - intros [key row]. rewrite elem_of_map_to_list. split.
      + intros Hrow. destruct (HB key row Hrow) as (x & Hx & Hxq & ->).
        apply list_elem_of_fmap. exists (key_values a0 x).
        split; [|apply group_keys_elem; by exists x].
        unfold h. by rewrite Hrow.
      + intros H. apply list_elem_of_fmap in H as (kvs & Hh & Hkvs).
        apply group_keys_elem in Hkvs as (x & Hx & Hxq & <-).
        destruct (HA x Hx Hxq) as (_ & row' & Hrow' & _).
        unfold h in Hh. rewrite Hrow' in Hh. by inversion Hh. }
  rewrite <- length_map_to_list, (Permutation_length Hlist), length_map.
  apply group_keys_length_le.
Qed.

(** A table of groups is the table of an aggregator that has consumed
    the records of the groups from an empty table. *)
Lemma table_groups_inv a0 L a :
  zcode_roundtrip → Z.of_nat (length (keyTypes a)) < 2 ^ 64 →
  same_config a0 a → table_groups a0 L a →
  groups_inv (set_table a ∅) L a.
Proof.
  intros Hz Hbound Hsame HT. pose proof (table_groups_size a0 L a Hz Hbound HT) as Hsize.
  destruct HT as [HA HB].
  pose proof Hsame as (_ & Hkes & _).
  assert (same_config a0 (set_table a ∅)) as Hsame_s by exact Hsame.
  assert (∀ x, key_values (set_table a ∅) x = key_values a0 x) as Hkv
    by (intros x; unfold key_values; cbn [keyExprs set_table]; by rewrite Hkes).
  assert (∀ x, not_quiet (set_table a ∅) x ↔ not_quiet a0 x) as Hnq
    by (intros x; unfold not_quiet; by rewrite Hkv).
  split; [by repeat split|]. do 4 (split; [done|]).
  split; [cbn [keyTypes set_table]; lia|]. split; [done|]. split.
  - intros x Hx Hxq. rewrite Hkv. apply Hnq in Hxq.
    destruct (HA x Hx Hxq) as (Hint & row & Hrow & Hkt & Hred).
    split; [done|]. exists row. split; [done|]. split; [done|].
    by rewrite (group_reducers_config a0 (set_table a ∅)).
  - intros key row Hrow. destruct (HB key row Hrow) as (x & Hx & Hxq & Hkey).
    exists x. split; [done|]. split; [by apply Hnq|]. by rewrite Hkv.
Qed.

(** The records whose keys have not been sent. *)
Definition unsent (a0 : Aggregator) (E : list (list Value)) (done : list Value)
  : list Value :=
  filter (λ x, key_values a0 x ∉ E) done.

Lemma group_reducers_unsent a0 E done k :
  k ∉ E → group_reducers a0 k (unsent a0 E done) = group_reducers a0 k done.
Proof.
  intros Hk. unfold group_reducers, unsent. f_equal.
  induction done as [|x done IH]; [done|].
  rewrite !filter_cons.
  destruct (decide (key_values a0 x ∉ E)) as [Hin|Hin];
    destruct (decide (key_values a0 x = k)) as [Heq|Hne];
    rewrite ?filter_cons; try destruct (decide (key_values a0 x = k)); try done;
    try (by f_equal).
  destruct Hin. by rewrite Heq.
Qed.

End Aggregate.

(** * A concrete configuration

    The collaborators instantiated: a length-prefixed field codec, a record
    builder that interns record types by their field types, field
    references, the lexicographic order on typed values, and the [count]
    aggregate.  The statements above are applied to it. *)

Module Sample.

Definition TInt : TypeID := 1%nat.
Definition TString : TypeID := 2%nat.
Definition TError : TypeID := 3%nat.

Definition int (n : Z) : Value := NewValue TInt (Some [n]).
Definition str (n : Z) : Value := NewValue TString (Some [n]).
Definition err (n : Z) : Value := NewValue TError (Some [n]).

(** The error value "quiet" and the error value "missing". *)
Definition quiet : Value := err 113.
Definition missing : Value := err 109.

Definition IsQuiet (v : Value) : bool := bool_decide (v = quiet).
Definition IsError (v : Value) : bool := bool_decide (Value_Type v = TError).

(** Fields are written with a tag: 0 for null, the length plus one
    otherwise. *)
Definition zAppend (dst : Bytes) (v : zBytes) : Bytes :=
  dst ++ match v with
         | None => [0]
         | Some b => (Z.of_nat (length b) + 1) :: b
         end.

Definition zNext (it : Bytes) : zBytes * Bytes :=
  match it with
  | [] => (None, [])
  | t :: r =>
      if t =? 0 then (None, r)
      else (Some (take (Z.to_nat (t - 1)) r), drop (Z.to_nat (t - 1)) r)
  end.

Definition rbEncode (fields : list zBytes) : outcome Bytes :=
  Ok (foldl zAppend [] fields).

(** Record types are numbered after the primitive ones, injectively in
    their field types. *)
Definition rbType (tys : list TypeID) : TypeID := (4 + encode_nat tys)%nat.

Definition rbFields (t : TypeID) : option (list TypeID) :=
  if (t <? 4)%nat then None else decode_nat (t - 4).

Fixpoint fields_of (n : nat) (it : Bytes) : list zBytes :=
  match n with
  | O => []
  | S n' => let '(v, it') := zNext it in v :: fields_of n' it'
  end.

(** The reference to the [i]-th field of a record. *)
Definition field (i : nat) : Evaluator := λ rec,
  match rbFields (Value_Type rec), Value_Bytes rec with
  | Some tys, Some b =>
      match tys !! i, fields_of (length tys) b !! i with
      | Some t, Some f => NewValue t f
      | _, _ => missing
      end
  | _, _ => missing
  end.

Definition record (vs : list Value) : Value :=
  NewValue (rbType (map Value_Type vs)) (Some (foldl zAppend [] (map Value_Bytes vs))).

(** Values are ordered by type, then by payload. *)
Fixpoint bytes_compare (x y : list Z) : Z :=
  match x, y with
  | [], [] => 0
  | [], _ :: _ => -1
  | _ :: _, [] => 1
  | a :: x', b :: y' =>
      if a <? b then -1 else if b <? a then 1 else bytes_compare x' y'
  end.

Definition zbytes_compare (x y : zBytes) : Z :=
  match x, y with
  | None, None => 0
  | None, Some _ => -1
  | Some _, None => 1
  | Some a, Some b => bytes_compare a b
  end.

Definition value_compare (v w : Value) : Z :=
  if (Value_Type v <? Value_Type w)%nat then -1
  else if (Value_Type w <? Value_Type v)%nat then 1
  else zbytes_compare (Value_Bytes v) (Value_Bytes w).

Definition newValueCompareFn (o : bool) : CompareFn :=
  λ v w, if o then value_compare w v else value_compare v w.

Fixpoint newComparator (es : list (Evaluator * bool)) : CompareFn := λ v w,
  match es with
  | [] => 0
  | (e, o) :: es' =>
      let c := newValueCompareFn o (e v) (e w) in
      if c =? 0 then newComparator es' v w else c
  end.

Definition int_of (v : Value) : Z :=
  match Value_Bytes v with
  | Some [n] => n
  | _ => 0
  end.

(** [count()]: the state is the count, a partial is a count to add. *)
Definition count : AggFunc Z :=
  mkAggFunc Z 0 (λ _ s, s + 1) (λ v s, s + int_of v) int int.

Definition noFault : SpillOp → list Value → option error := λ _ _, None.

(** Storage on which a second run cannot be written. *)
Definition secondSpillFails : SpillOp → list Value → option error :=
  λ op pending,
    match op, pending with
    | OpSpill, _ :: _ => Some 5%nat
    | _, _ => None
    end.

Definition range_id : list (Bytes * Row Z) → list (Bytes * Row Z) := id.

Definition batchLen : nat := 100.

Abbreviation sConsume :=
  (Consume Z IsQuiet IsError (int 0) zAppend zNext rbEncode rbType noFault range_id).
Abbreviation sReadTable := (readTable Z zNext rbEncode rbType range_id).
Abbreviation sReadSpills := (readSpills Z IsError rbEncode rbType noFault batchLen).
Abbreviation sSpillTable :=
  (spillTable Z IsError zNext rbEncode rbType noFault range_id).
Abbreviation sRun fault :=
  (run Z IsQuiet IsError (int 0) zAppend zNext rbEncode rbType fault batchLen range_id).
Abbreviation sRowRecord := (row_record Z zNext rbEncode rbType).
Abbreviation sTableRecords := (table_records Z zNext rbEncode rbType range_id).
Abbreviation sGroupRecord := (group_record Z (int 0) rbEncode rbType).
Abbreviation sTableKey := (tableKey Z zAppend).
Abbreviation sAfterKeys := (after_keys Z (int 0)).

(** The aggregator that [NewAggregator] makes for the given keys, with
    [count()] as the only aggregate. *)
Definition new (keyRefs keyExprs : list Evaluator) (limit dir : Z)
    (pin pout : bool) : Aggregator Z :=
  let o := dir <? 0 in
  let sorted := (0 <? length keyExprs)%nat && negb (dir =? 0) in
  mkAggregator Z [] [] keyRefs keyExprs [field (length keyExprs)] [count] ∅ ∅
    (if limit =? 0 then 1000000 else limit)
    (if sorted then Some (newValueCompareFn o) else None)
    (if sorted then option_map (λ e, newComparator [(e, o)]) (head keyRefs) else None)
    (newComparator (map (λ e, (e, o)) keyRefs)) None None dir None pin pout.

Lemma new_NewAggregator keyRef keyRefs keyExprs limit dir pin pout :
  NewAggregator Z newValueCompareFn newComparator (keyRef :: keyRefs) keyExprs
    [field (length keyExprs)] [count] limit dir pin pout
  = Ok (new (keyRef :: keyRefs) keyExprs limit dir pin pout).
Proof.
  unfold NewAggregator, new.
  by destruct ((0 <? length keyExprs)%nat && negb (dir =? 0)).
Qed.

(** One key, the field [a] of the input, written to the field [a] of the
    output. *)
Definition new1 := new [field 0] [field 0].

(** Two keys. *)
Definition new2 := new [field 0; field 1] [field 0; field 1].

Definition recs (l : list Z) : list Value := map (λ n, record [int n]) l.

Lemma sample_Encode_total : Encode_total rbEncode.
Proof. intros fields. by eexists. Qed.

Lemma sample_map_range_perm : map_range_perm Z range_id.
Proof. intros l. done. Qed.

Lemma sample_no_faults : no_faults noFault.
Proof. done. Qed.

Lemma memo_wf_empty (a : Aggregator Z) : recordTypes Z a = ∅ → memo_wf Z rbType a.
Proof. intros He id typ. by rewrite He, lookup_empty. Qed.

Lemma rows_wf_empty (a : Aggregator Z) : table Z a = ∅ → rows_wf Z a.
Proof. intros He key row. by rewrite He, lookup_empty. Qed.

(** ** C8: a record with a quiet key *)

Lemma Consume_quiet_skip_witness :
  ∃ a', sConsume (record [quiet]) (new1 0 0 false false) = (a', Ok tt)
        ∧ a' = set_maxTableKey Z (new1 0 0 false false) (maxTableKey Z a')
        ∧ table Z a' = table Z (new1 0 0 false false)
        ∧ spiller Z a' = spiller Z (new1 0 0 false false)
        ∧ keyTypes Z a' = keyTypes Z (new1 0 0 false false).
Proof.
  apply Consume_quiet_skip.
  - intros Hdir. by destruct Hdir.
  - apply Exists_cons_hd. reflexivity.
Defined.

(** ** C10: a quiet second key after a first key that raises the maximum *)

Lemma Consume_quiet_advances_maxTableKey_witness :
  ∃ a', sConsume (record [int 5; quiet]) (new2 0 1 false false) = (a', Ok tt)
        ∧ table Z a' = table Z (new2 0 1 false false)
        ∧ maxTableKey Z a' = Some (field 0 (record [int 5; quiet]))
        ∧ a' = set_maxTableKey Z (new2 0 1 false false)
                 (Some (field 0 (record [int 5; quiet]))).
Proof.
  apply (Consume_quiet_advances_maxTableKey Z IsQuiet IsError (int 0) zAppend zNext
           rbEncode rbType noFault range_id (new2 0 1 false false)
           (record [int 5; quiet]) (field 0) [field 1] (newValueCompareFn false)).
  - done.
  - reflexivity.
  - reflexivity.
  - reflexivity.
  - apply Exists_cons_hd. reflexivity.
  - exact I.
Defined.

(** ** Well-formedness of concrete states, by evaluation *)

Definition memo_ok (a : Aggregator Z) : bool :=
  bool_decide (map_Forall (λ id typ, rbType <$> outTypes Z a !! id = Some typ)
                 (recordTypes Z a)).

Lemma memo_ok_wf a : memo_ok a = true → memo_wf Z rbType a.
Proof.
  unfold memo_ok. intros H%bool_decide_eq_true id typ Hid.
  specialize (H id typ Hid). cbv beta in H.
  destruct (outTypes Z a !! id) as [types|]; [|done].
  exists types. split; [done|]. by inversion H.
Qed.

Definition rows_ok (a : Aggregator Z) : bool :=
  bool_decide (map_Forall (λ (_ : Bytes) row, is_Some (keyTypes Z a !! keyType Z row))
                 (table Z a)).

Lemma rows_ok_wf a : rows_ok a = true → rows_wf Z a.
Proof.
  unfold rows_ok. intros H%bool_decide_eq_true key row Hrow. by apply (H key row).
Qed.

Abbreviation sConsume_all :=
  (Consume_all Z IsQuiet IsError (int 0) zAppend zNext rbEncode rbType noFault range_id).

(** ** C4: completed rows of a sorted input *)

(** The aggregator after the records with keys 1, 1 and 2 of an ascending
    input: [maxTableKey] is 2, the row of key 1 is complete. *)
Definition sorted_112 : Aggregator Z :=
  (sConsume_all (recs [1; 1; 2]) (new1 0 1 false false)).1.

Lemma readTable_completed_rows_witness :
  ∃ a',
    sReadTable false false sorted_112
    = (a', Ok (Some [record [int 1; int 2]]))
    ∧ size (table Z a') = 1%nat
    ∧ table Z a' = filter (λ kr, 0 <= value_compare (groupval Z kr.2) (int 2))
                     (table Z sorted_112).
Proof.
  destruct (readTable_completed_rows Z zNext rbEncode rbType range_id sorted_112 false
              (newValueCompareFn false) (int 2))
    as (a' & Hread & Htable & _);
    [exact sample_Encode_total|exact sample_map_range_perm
    |apply memo_ok_wf; vm_compute; reflexivity
    |apply rows_ok_wf; vm_compute; reflexivity
    |reflexivity|vm_compute; reflexivity|].
  exists a'. split; [|split].
  - rewrite Hread. vm_compute. reflexivity.
  - rewrite Htable. vm_compute. reflexivity.
  - exact Htable.
Defined.

(** ** C7: a new key at the limit *)

(** The aggregator with limit 1 holding the row of key 1. *)
Definition full_1 : Aggregator Z :=
  (sConsume (record [int 1]) (new1 1 0 false false)).1.

Lemma Consume_spill_trigger_witness :
  limit Z (new1 0 0 false false) = 1000000
  ∧ ∃ a',
      sConsume (record [int 2]) full_1 = (a', Ok tt)
      ∧ size (table Z a') = 1%nat
      ∧ is_Some (table Z a' !! (sTableKey full_1 (record [int 2])).1.1)
      ∧ ms_pending <$> spiller Z a' = Some [record [int 1; int 1]].
Proof.
  split.
  - apply (proj1 (Consume_spill_trigger Z IsQuiet IsError (int 0) zAppend zNext rbEncode
                    rbType newValueCompareFn newComparator noFault range_id)
             [field 0] [field 0] [field 1] [count] 0 0 false false).
    + apply new_NewAggregator.
    + reflexivity.
  - destruct (proj2 (Consume_spill_trigger Z IsQuiet IsError (int 0) zAppend zNext
                       rbEncode rbType newValueCompareFn newComparator noFault range_id)
                full_1 (record [int 2]))
      as (a' & run & HC & Hrun & Hlen & Hsorted & Hsp & Htab & Hsize);
      [exact sample_no_faults|exact sample_Encode_total|exact sample_map_range_perm
      |apply memo_ok_wf; vm_compute; reflexivity
      |apply rows_ok_wf; vm_compute; reflexivity
      |intros Hd; by destruct Hd
      |repeat constructor
      |vm_compute; reflexivity
      |vm_compute; discriminate
      |vm_compute; discriminate|].
    exists a'. split; [exact HC|]. split; [exact Hsize|]. split.
    + rewrite Htab, lookup_singleton_eq. by eauto.
    + rewrite Hsp. cbn [fmap option_fmap option_map ms_pending]. f_equal.
      assert (run = [record [int 1; int 1]]) as ->; [|reflexivity].
      apply Permutation_length_1_inv. rewrite <- Hrun. vm_compute. reflexivity.
Defined.

(** ** C2: equal key bytes under different key types *)


(** ** The order of the sample values *)

Lemma bytes_compare_range x : ∀ y, -1 <= bytes_compare x y <= 1.
Proof.
  induction x as [|a x IH]; intros [|b y]; cbn [bytes_compare]; try lia.
  destruct (a <? b); [lia|]. destruct (b <? a); [lia|]. apply IH.
Qed.

Lemma bytes_compare_flip x : ∀ y, bytes_compare y x = - bytes_compare x y.
Proof.
  induction x as [|a x IH]; intros [|b y]; cbn [bytes_compare]; try lia.
  destruct (Z.ltb_spec a b), (Z.ltb_spec b a); try lia. apply IH.
Qed.

Lemma bytes_compare_trans x : ∀ y z,
  bytes_compare x y <= 0 → bytes_compare y z <= 0 → bytes_compare x z <= 0.
Proof.
  induction x as [|a x IH]; intros [|b y] [|c z]; cbn [bytes_compare]; try lia.
  destruct (Z.ltb_spec a b), (Z.ltb_spec b a), (Z.ltb_spec b c), (Z.ltb_spec c b),
    (Z.ltb_spec a c), (Z.ltb_spec c a); try lia.
  apply IH.
Qed.

Lemma zbytes_compare_flip x y : zbytes_compare y x = - zbytes_compare x y.
Proof. destruct x, y; cbn; try lia. apply bytes_compare_flip. Qed.

Lemma zbytes_compare_trans x y z :
  zbytes_compare x y <= 0 → zbytes_compare y z <= 0 → zbytes_compare x z <= 0.
Proof. destruct x, y, z; cbn; try lia. apply bytes_compare_trans. Qed.

Lemma value_compare_flip v w : value_compare w v = - value_compare v w.
Proof.
  unfold value_compare.
  destruct (Nat.ltb_spec (Value_Type v) (Value_Type w)),
    (Nat.ltb_spec (Value_Type w) (Value_Type v)); try lia.
  apply zbytes_compare_flip.
Qed.

Lemma value_compare_trans u v w :
  value_compare u v <= 0 → value_compare v w <= 0 → value_compare u w <= 0.
Proof.
  unfold value_compare.
  destruct (Nat.ltb_spec (Value_Type u) (Value_Type v)),
    (Nat.ltb_spec (Value_Type v) (Value_Type u)),
    (Nat.ltb_spec (Value_Type v) (Value_Type w)),
    (Nat.ltb_spec (Value_Type w) (Value_Type v)),
    (Nat.ltb_spec (Value_Type u) (Value_Type w)),
    (Nat.ltb_spec (Value_Type w) (Value_Type u)); try lia.
  apply zbytes_compare_trans.
Qed.

Lemma newValueCompareFn_transitive o : cmp_transitive (newValueCompareFn o).
Proof.
  intros x y z. unfold newValueCompareFn. destruct o.
  - intros H1 H2. by apply (value_compare_trans z y x).
  - apply value_compare_trans.
Qed.

Lemma newValueCompareFn_antisym o : cmp_antisym (newValueCompareFn o).
Proof.
  intros x y. unfold newValueCompareFn. destruct o.
  - rewrite (value_compare_flip x y). lia.
  - rewrite (value_compare_flip x y). lia.
Qed.

Lemma newComparator_one e o r1 r2 :
  newComparator [(e, o)] r1 r2 = newValueCompareFn o (e r1) (e r2).
Proof.
  cbn [newComparator]. by destruct (Z.eqb_spec (newValueCompareFn o (e r1) (e r2)) 0).
Qed.

Lemma newComparator_one_total e o : Total (cmp_le (newComparator [(e, o)])).
Proof.
  intros r1 r2. unfold cmp_le. rewrite !newComparator_one.
  unfold newValueCompareFn. destruct o.
  - rewrite (value_compare_flip (e r1) (e r2)). lia.
  - rewrite (value_compare_flip (e r1) (e r2)). lia.
Qed.

(** ** C5: the drain of the merged spills and [maxSpillKey] *)

(** Limit 1 and an ascending input with the keys 1, 2 and 3: the rows of
    1 and 2 are spilled, [maxSpillKey] is 2. *)
Definition spilled_123 : Aggregator Z :=
  (sConsume_all (recs [1; 2; 3]) (new1 1 1 false false)).1.


(** Limit 1 and an ascending input with the keys 1, error 7 and error 8:
    the rows of 1 and of error 7 are spilled. *)
Definition spilled_error : Aggregator Z :=
  (sConsume_all [record [int 1]; record [err 7]; record [err 8]]
     (new1 1 1 false false)).1.

(** The aggregator of a producer that has delivered a first stream with the
    keys 1, 2 and 3 and then consumed the keys error 7 and error 8 of a
    second one. *)
Definition second_stream : Aggregator Z :=
  (sConsume_all [record [err 7]; record [err 8]]
     (agg Z (sRun noFault [PullBatch (recs [1; 2; 3]); PullEOS]
               [SelSend; SelSend; SelSend; SelSend]
               (mkOp Z (new1 1 1 false false) [])).1)).1.



(** ** C9: release of the spill files *)

(** Storage fails on the second run written: the producer sends the error
    and returns. *)
Definition fault_run : Op Z * Status :=
  sRun secondSpillFails [PullBatch (recs [1; 2; 3])] [SelSend]
    (mkOp Z (new1 1 0 false false) []).

(** A stream that spills and ends: the producer delivers the results and
    the end of stream, and pulls again. *)
Definition eos_run : Op Z * Status :=
  sRun noFault [PullBatch (recs [1; 2]); PullEOS] [SelSend; SelSend]
    (mkOp Z (new1 1 0 false false) []).

Lemma run_releases_spills_witness :
  live (trace Z fault_run.1) = false
  ∧ ∃ tr, trace Z fault_run.1
          = tr ++ [EvCloseResultCh] ++ (if live tr then [EvSpillCleanup] else [])
               ++ [EvWaitGroupDone].
Proof.
  destruct (run_releases_spills Z IsQuiet IsError (int 0) zAppend zNext rbEncode rbType
              secondSpillFails batchLen range_id
              [PullBatch (recs [1; 2; 3])] [SelSend]
              (mkOp Z (new1 1 0 false false) []) fault_run.1 fault_run.2)
    as (Hlive & Htr & _).
  - split; [intros H; discriminate H|intros [x H]; discriminate H].
  - apply surjective_pairing.
  - vm_compute. discriminate.
  - split; [exact Hlive|exact Htr].
Defined.

(** After the end of stream is delivered the spill is still on storage and
    the producer has not returned; on the error path the error is
    delivered before the channel is closed and the spill removed. *)
Lemma spill_outlives_terminal_result :
  (eos_run.2 = Blocked
   ∧ trace Z eos_run.1
     = [EvSpillCreated;
        EvResult (Some [record [int 1; int 1]; record [int 2; int 1]]) None;
        EvResetterReset; EvResult None None]
   ∧ live (trace Z eos_run.1) = true
   ∧ is_Some (spiller Z (agg Z eos_run.1)))
  ∧ (fault_run.2 = Returned
     ∧ trace Z fault_run.1
       = [EvSpillCreated; EvResetterReset; EvResult None (Some 5%nat);
          EvCloseResultCh; EvSpillCleanup; EvWaitGroupDone]).
Proof. vm_compute. repeat split; try reflexivity. by eexists. Qed.

(** ** The contracts hold of the sample collaborators *)

Lemma zAppend_app dst v : zAppend dst v = dst ++ zAppend [] v.
Proof. done. Qed.

Lemma zNext_zAppend v rest : zNext (zAppend [] v ++ rest) = (v, rest).
Proof.
  destruct v as [b|]; cbn; [|done].
  destruct (Z.eqb_spec (Z.of_nat (length b) + 1) 0) as [H0|_]; [lia|].
  replace (Z.to_nat (Z.of_nat (length b) + 1 - 1)) with (length b) by lia.
  by rewrite take_app_length, drop_app_length.
Qed.

Lemma sample_zcode_roundtrip : zcode_roundtrip zAppend zNext.
Proof. split; [apply zAppend_app|apply zNext_zAppend]. Qed.

Lemma foldl_zAppend acc bs : foldl zAppend acc bs = acc ++ foldl zAppend [] bs.
Proof.
  revert acc. induction bs as [|b bs IH]; intros acc; cbn [foldl].
  { by rewrite app_nil_r. }
  rewrite (IH (zAppend acc b)), (IH (zAppend [] b)), (zAppend_app acc).
  by rewrite <- app_assoc.
Qed.

Lemma fields_of_foldl bs rest :
  fields_of (length bs) (foldl zAppend [] bs ++ rest) = bs.
Proof.
  induction bs as [|b bs IH]; [done|].
  cbn [length fields_of foldl]. rewrite (foldl_zAppend (zAppend [] b)).
  rewrite <- app_assoc, zNext_zAppend. by rewrite IH.
Qed.

(** A field reference reads the field of a record back. *)
Lemma field_record vs i v : vs !! i = Some v → field i (record vs) = v.
Proof.
  intros Hv. unfold field, record, rbFields, rbType. cbn [Value_Type Value_Bytes].
  replace (4 + encode_nat (map Value_Type vs) <? 4)%nat with false
    by (symmetry; apply Nat.ltb_ge; lia).
  replace (4 + encode_nat (map Value_Type vs) - 4)%nat
    with (encode_nat (map Value_Type vs)) by lia.
  rewrite decode_encode_nat.
  assert (fields_of (length (map Value_Type vs)) (foldl zAppend [] (map Value_Bytes vs))
          = map Value_Bytes vs) as ->.
  { rewrite <- (app_nil_r (foldl zAppend [] (map Value_Bytes vs))).
    rewrite length_map, <- (length_map Value_Bytes vs). apply fields_of_foldl. }
  rewrite !list_lookup_fmap, Hv. cbn. by destruct v.
Qed.

Lemma out_record_record (kvs vals : list Value) :
  out_record rbEncode rbType kvs vals = record (kvs ++ vals).
Proof.
  unfold out_record, mkRecord, record, rbEncode. by rewrite !map_app.
Qed.

Lemma sample_keyRefs_roundtrip1 : keyRefs_roundtrip rbEncode rbType [field 0].
Proof.
  intros [|k [|? ?]] vals Hlen; try done. rewrite out_record_record. cbn [map].
  by rewrite (field_record _ 0 k).
Qed.

Lemma sample_keyRefs_roundtrip2 :
  keyRefs_roundtrip rbEncode rbType [field 0; field 1].
Proof.
  intros [|k0 [|k1 [|? ?]]] vals Hlen; try done. rewrite out_record_record.
  cbn [map]. by rewrite (field_record _ 0 k0), (field_record _ 1 k1).
Qed.

Lemma sample_comparator_lex : comparator_lex newValueCompareFn newComparator.
Proof.
  intros es o x y. induction es as [|e es IH]; [done|].
  cbn [map newComparator lex_compare]. by rewrite IH.
Qed.

Lemma newValueCompareFn_sgn o : cmp_sgn (newValueCompareFn o).
Proof.
  intros x y. unfold newValueCompareFn. destruct o.
  - rewrite (value_compare_flip y x). apply Z.sgn_opp.
  - rewrite (value_compare_flip x y). apply Z.sgn_opp.
Qed.

(** ** C6: batches of a sorted input *)

(** Limit 2 and an ascending input with the keys 1, 2, 3 and 4: the rows
    of 1 and 2 are spilled, the key 1 is sent before the end of the input,
    the others after it. *)
Definition sorted_run : Op Z * Status :=
  sRun noFault [PullBatch (recs [1; 2; 3; 4]); PullEOS]
    [SelSend; SelSend; SelSend; SelSend] (mkOp Z (new1 2 1 false false) []).


(** * Further properties, on the sample configuration *)

Abbreviation sNextResult :=
  (nextResult Z IsError zNext rbEncode rbType noFault batchLen range_id).

(** ** X1 *)

Lemma methods_keep_config_witness :
  same_config Z (new1 1 0 false false)
    (sConsume_all (recs [1; 2; 3]) (new1 1 0 false false)).1.
Proof.
  eapply (methods_keep_config Z IsQuiet IsError (int 0) zAppend zNext rbEncode rbType
            noFault batchLen range_id _ _ (recs [1; 2; 3]) true _ (Ok None)).
  left. apply surjective_pairing.
Defined.

(** ** X2 *)

Lemma Consume_maxTableKey_monotone_witness :
  ∃ mtk', maxTableKey Z (sConsume (record [int 5]) sorted_112).1 = Some mtk'
          ∧ newValueCompareFn false (int 2) mtk' <= 0.
Proof.
  eapply (Consume_maxTableKey_monotone Z IsQuiet IsError (int 0) zAppend zNext rbEncode
            rbType noFault range_id sorted_112 _ (record [int 5]) _
            (newValueCompareFn false) (int 2)).
  - reflexivity.
  - apply newValueCompareFn_sgn.
  - apply newValueCompareFn_transitive.
  - vm_compute. reflexivity.
  - apply surjective_pairing.
Defined.

(** ** X3 *)

Lemma Consume_all_table_bound_witness :
  ∃ a', sConsume_all (recs [1; 2; 3; 1]) (new1 2 0 false false) = (a', Ok tt)
        ∧ limit Z a' = 2
        ∧ Z.of_nat (size (table Z a')) <= Z.max 1 2.
Proof.
  apply (Consume_all_table_bound Z IsQuiet IsError (int 0) zAppend zNext rbEncode rbType
           noFault range_id (recs [1; 2; 3; 1]) (new1 2 0 false false)).
  - exact sample_no_faults.
  - exact sample_Encode_total.
  - exact sample_map_range_perm.
  - apply memo_wf_empty. reflexivity.
  - apply rows_wf_empty. reflexivity.
  - intros Hd. by destruct Hd.
  - vm_compute. discriminate.
Defined.

(** ** X4 *)

Lemma Consume_existing_key_witness :
  ∃ a' row',
    sConsume (record [int 1]) full_1 = (a', Ok tt)
    ∧ table Z a' = <[(sTableKey full_1 (record [int 1])).1.1 := row']> (table Z full_1)
    ∧ reducers Z row' = [2]
    ∧ spiller Z a' = None.
Proof.
  destruct (Consume_existing_key Z IsQuiet IsError (int 0) zAppend zNext rbEncode rbType
              noFault range_id full_1 (record [int 1])
              (mkRow Z 0 (int 0) [1]))
    as (a' & row' & HC & Ht & _ & _ & Hr & Hsp & _).
  - intros Hd. by destruct Hd.
  - repeat constructor.
  - vm_compute. reflexivity.
  - exists a', row'. split; [exact HC|]. split; [exact Ht|].
    split; [rewrite Hr; reflexivity|]. rewrite Hsp. reflexivity.
Defined.

(** ** X5 *)

Lemma readTable_flush_all_witness :
  ∃ a', sReadTable true false sorted_112
        = (a', Ok (Some [record [int 1; int 2]; record [int 2; int 1]]))
        ∧ table Z a' = ∅.
Proof.
  destruct (readTable_flush_all Z zNext rbEncode rbType range_id sorted_112 false)
    as (a' & Hr & Ht & _).
  - exact sample_Encode_total.
  - exact sample_map_range_perm.
  - apply memo_ok_wf. vm_compute. reflexivity.
  - apply rows_ok_wf. vm_compute. reflexivity.
  - exists a'. split; [|exact Ht]. rewrite Hr. vm_compute. reflexivity.
Defined.

(** ** X6 *)

(** An aggregator for unsorted input that holds one row. *)
Definition unsorted_1 : Aggregator Z :=
  (sConsume (record [int 1]) (new1 0 0 false false)).1.

Lemma readTable_unsorted_panics_witness :
  sReadTable false false unsorted_1 = (unsorted_1, Panic PanicInternalBug).
Proof.
  rewrite (readTable_unsorted_panics Z zNext rbEncode rbType range_id unsorted_1 false).
  - reflexivity.
  - exact sample_map_range_perm.
  - reflexivity.
Defined.

(** ** X7 *)

Lemma nextResult_eof_empty_witness :
  sNextResult true (new1 0 0 false false) = (new1 0 0 false false, Ok None).
Proof.
  apply (nextResult_eof_empty Z IsError zNext rbEncode rbType noFault batchLen
           range_id (new1 0 0 false false)).
  - exact sample_no_faults.
  - exact sample_map_range_perm.
  - reflexivity.
  - exact I.
Defined.

(** ** X8 *)

(** Storage on which nothing can be created or written. *)
Definition noStorage : SpillOp → list Value → option error := λ _ _, Some 9%nat.

Lemma spillTable_fault_witness :
  ∃ a', spillTable Z IsError zNext rbEncode rbType noStorage range_id false full_1
        = (a', Err 9%nat)
        ∧ table Z a' = ∅
        ∧ spiller Z a' = None.
Proof.
  destruct (spillTable_fault Z IsError zNext rbEncode rbType noStorage range_id full_1
              false 9%nat)
    as (a' & Hs & Ht & Hsp & _).
  - exact sample_Encode_total.
  - exact sample_map_range_perm.
  - apply memo_ok_wf. vm_compute. reflexivity.
  - apply rows_ok_wf. vm_compute. reflexivity.
  - intros He. apply (f_equal size) in He. vm_compute in He. discriminate.
  - reflexivity.
  - exists a'. split; [exact Hs|]. split; [exact Ht|]. rewrite Hsp. reflexivity.
Defined.


(** ** X9 *)

Lemma lookupRecordType_memoizes_witness :
  ∃ a1,
    lookupRecordType Z rbType [TInt; TInt] (sReadTable true false sorted_112).1
    = (a1, Ok (rbType [TInt; TInt]))
    ∧ lookupRecordType Z rbType [TInt; TInt] a1 = (a1, Ok (rbType [TInt; TInt]))
    ∧ memo_wf Z rbType a1.
Proof.
  apply (lookupRecordType_memoizes Z rbType (sReadTable true false sorted_112).1
           [TInt; TInt]).
  apply memo_ok_wf. vm_compute. reflexivity.
Defined.

(** ** X10 *)

(** The keys 1, 2 and 3 with limit 1, all spilled at the end of the
    input. *)
Definition spilled_all : Aggregator Z := (sSpillTable true spilled_123).1.

Lemma readSpills_eof_batch_witness :
  ∃ a' groups rest,
    sReadSpills true spilled_all
    = (a', Ok (batch_of (map (sGroupRecord spilled_all) groups)))
    ∧ [record [int 1; int 1]; record [int 2; int 1]; record [int 3; int 1]]
      = concat groups ++ rest
    ∧ spiller Z a' = Some (mkMergeSort (newComparator [(field 0, false)]) rest)
    ∧ table Z a' = table Z spilled_all
    ∧ (length groups <= batchLen)%nat
    ∧ ((length groups < batchLen)%nat → rest = [])
    ∧ maximal_groups (keysComparator Z spilled_all) groups rest.
Proof.
  apply (readSpills_eof_batch Z IsError (int 0) rbEncode rbType noFault batchLen
           spilled_all
           (mkMergeSort (newComparator [(field 0, false)])
              [record [int 1; int 1]; record [int 2; int 1]; record [int 3; int 1]])).
  - exact sample_no_faults.
  - exact sample_Encode_total.
  - apply memo_ok_wf. vm_compute. reflexivity.
  - vm_compute. reflexivity.
Defined.

(** ** X11 *)

(** Limit 2 and an ascending input with the keys 1, error 7 and error 8:
    the rows of 1 and of error 7 are spilled, and the run ends with the
    error key. *)
Definition spilled_unset : Aggregator Z :=
  (sConsume_all [record [int 1]; record [err 7]; record [err 8]]
     (new1 2 1 false false)).1.

Lemma readSpills_unset_maxSpillKey_panics_witness :
  sReadSpills false spilled_unset = (spilled_unset, Panic PanicNilDeref).
Proof.
  apply (readSpills_unset_maxSpillKey_panics Z IsError rbEncode rbType noFault batchLen
           spilled_unset
           (mkMergeSort (newComparator [(field 0, false)])
              [record [int 1; int 1]; record [err 7; int 1]])
           (record [int 1; int 1]) [record [err 7; int 1]] (field 0) []).
  - exact sample_no_faults.
  - unfold batchLen. lia.
  - vm_compute. discriminate.
  - vm_compute. reflexivity.
  - reflexivity.
  - reflexivity.
  - vm_compute. reflexivity.
  - vm_compute. eauto.
  - vm_compute. reflexivity.
Defined.


(** ** X13 *)

(** An unsorted input with limit 1: the second key spills the first. *)
Definition unsorted_op : Op Z := mkOp Z (new1 1 0 false false) [].

Lemma run_unsorted_accumulates_witness :
  delivered (trace Z (sRun noFault [PullBatch (recs [1; 2]); PullBatch (recs [3])] []
                        unsorted_op).1) = []
  ∧ ∃ evs,
      sRun noFault [PullBatch (recs [1; 2]); PullBatch (recs [3])] [] unsorted_op
      = (mkOp Z (sConsume_all (recs [1; 2; 3]) (new1 1 0 false false)).1 evs, Blocked)
      ∧ Forall (λ ev, ev = EvSpillCreated) evs.
Proof.
  destruct (run_unsorted_accumulates Z IsQuiet IsError (int 0) zAppend zNext rbEncode
              rbType noFault batchLen range_id [recs [1; 2]; recs [3]] [] unsorted_op)
    as [Hsilent Hok]; [reflexivity|].
  split.
  - apply (Hsilent _ (sRun noFault [PullBatch (recs [1; 2]); PullBatch (recs [3])] []
                        unsorted_op).2).
    exact (surjective_pairing _).
  - apply (Hok (sConsume_all (recs [1; 2; 3]) (new1 1 0 false false)).1).
    change (concat [recs [1; 2]; recs [3]]) with (recs [1; 2; 3]).
    rewrite (surjective_pairing (sConsume_all (recs [1; 2; 3]) (agg Z unsorted_op)))
      at 1.
    f_equal; vm_compute; reflexivity.
Defined.

(** ** X14 *)

Lemma run_unsorted_stream_witness :
  ∃ o' evs,
    sRun noFault [PullBatch (recs [1; 2]); PullBatch (recs [1]); PullEOS]
      [SelSend; SelSend] (mkOp Z (new1 0 0 false false) [])
    = (o', Blocked)
    ∧ trace Z o'
      = evs ++ [EvResult (Some [record [int 1; int 2]; record [int 2; int 1]]) None;
                EvResetterReset; EvResult None None]
    ∧ Forall (λ ev, ev = EvSpillCreated) evs
    ∧ table Z (agg Z o') = ∅ ∧ spiller Z (agg Z o') = None.
Proof.
  destruct (run_unsorted_stream Z IsQuiet IsError (int 0) zAppend zNext rbEncode rbType
              noFault batchLen range_id [recs [1; 2]; recs [1]] []
              (mkOp Z (new1 0 0 false false) []))
    as (o' & evs & Hrun & Htr & Hevs & Ht & Hsp).
  - exact sample_no_faults.
  - exact sample_Encode_total.
  - exact sample_map_range_perm.
  - apply memo_wf_empty. reflexivity.
  - apply rows_wf_empty. reflexivity.
  - vm_compute. discriminate.
  - reflexivity.
  - vm_compute. reflexivity.
  - exists o', evs. split; [exact Hrun|]. split; [|by repeat split].
    rewrite Htr. cbn [trace app]. f_equal; vm_compute; reflexivity.
Defined.


(** ** X15 *)

Lemma Consume_all_groups_witness :
  ∃ a' row,
    sConsume_all (recs [1; 2; 1]) (new1 0 0 false false) = (a', Ok tt)
    ∧ spiller Z a' = None
    ∧ table Z a' !! (sTableKey a' (record [int 1])).1.1 = Some row
    ∧ row_keys Z zNext (keyTypes Z a') (sTableKey a' (record [int 1])).1.1 row
      = [int 1]
    ∧ reducers Z row = [2].
Proof.
  destruct (Consume_all_groups Z IsQuiet IsError (int 0) zAppend zNext rbEncode rbType
              noFault range_id (recs [1; 2; 1]) (new1 0 0 false false))
    as (a' & HC & Hsp & Hrows & _).
  - exact sample_zcode_roundtrip.
  - intros Hd. by destruct Hd.
  - reflexivity.
  - vm_compute. discriminate.
  - vm_compute. reflexivity.
  - destruct (Hrows (record [int 1])) as (row & Hrow & Hkeys & Hred).
    + by constructor.
    + by repeat constructor.
    + exists a', row. split; [exact HC|]. split; [exact Hsp|]. split; [exact Hrow|].
      split; [exact Hkeys|]. rewrite Hred. vm_compute. reflexivity.
Defined.

(** ** X16 *)

Lemma flush_returns_groups_witness :
  ∃ a' a'' batch,
    sConsume_all (recs [1; 2; 1]) (new1 0 0 false false) = (a', Ok tt)
    ∧ sReadTable true false a' = (a'', Ok (batch_of batch))
    ∧ table Z a'' = ∅
    ∧ batch ≡ₚ [record [int 2; int 1]; record [int 1; int 2]].
Proof.
  destruct (flush_returns_groups Z IsQuiet IsError (int 0) zAppend zNext rbEncode rbType
              noFault range_id (recs [1; 2; 1]) (new1 0 0 false false) false)
    as (a' & a'' & batch & HC & HR & Ht & Hp).
  - exact sample_zcode_roundtrip.
  - exact sample_Encode_total.
  - exact sample_map_range_perm.
  - intros Hd. by destruct Hd.
  - apply memo_wf_empty. reflexivity.
  - reflexivity.
  - vm_compute. discriminate.
  - vm_compute. reflexivity.
  - exists a', a'', batch. split; [exact HC|]. split; [exact HR|]. split; [exact Ht|].
    etrans; [exact Hp|]. vm_compute. reflexivity.
Defined.


(** ** X17 *)

Lemma sample_aggRefs_roundtrip1 : aggRefs_roundtrip rbEncode rbType [field 1] 1.
Proof.
  intros [|k [|? ?]] [|p [|? ?]] Hk Hp; try done. rewrite out_record_record.
  cbn [map app]. by rewrite (field_record _ 1 p).
Qed.

Lemma count_fold l : agg_fold Z count l = Z.of_nat (length l).
Proof.
  unfold agg_fold. cbn [agg_new agg_Apply count].
  assert (∀ s, foldl (λ (s : Z) (_ : Value), s + 1) s l = s + Z.of_nat (length l)) as H.
  { induction l as [|x l IH]; intros s; cbn [foldl length]; [lia|]. rewrite IH. lia. }
  by rewrite H.
Qed.

Lemma count_decomposable po : decomposable Z po count.
Proof.
  intros frags.
  assert (agg_merge Z count
            (map (λ fr, agg_ResultAsPartial Z count (agg_fold Z count fr)) frags)
          = agg_fold Z count (concat frags)) as ->; [|done].
  rewrite count_fold. unfold agg_merge. cbn [agg_new agg_ConsumeAsPartial count].
  assert (∀ s, foldl (λ (s : Z) (p : Value), s + int_of p) s
                 (map (λ fr, agg_ResultAsPartial Z count (agg_fold Z count fr)) frags)
               = s + Z.of_nat (length (concat frags))) as H.
  { induction frags as [|fr frags IH]; intros s; cbn [map foldl concat length]; [lia|].
    rewrite IH, count_fold, length_app. cbn. lia. }
  by rewrite H.
Qed.

Lemma partials_roundtrip_witness :
  ∃ a1' a1p partials a2' a2p out a1d direct,
    sConsume_all (recs [1; 2; 1]) (new1 0 0 false false) = (a1', Ok tt)
    ∧ sReadTable true true a1' = (a1p, Ok (batch_of partials))
    ∧ sConsume_all partials (new1 0 0 true false) = (a2', Ok tt)
    ∧ sReadTable true false a2' = (a2p, Ok (batch_of out))
    ∧ sReadTable true false a1' = (a1d, Ok (batch_of direct))
    ∧ out ≡ₚ direct.
Proof.
  apply (partials_roundtrip Z IsQuiet IsError (int 0) zAppend zNext rbEncode rbType
           noFault range_id (recs [1; 2; 1]) (new1 0 0 false false)
           (new1 0 0 true false)).
  - exact sample_zcode_roundtrip.
  - exact sample_Encode_total.
  - exact sample_map_range_perm.
  - intros Hd. by destruct Hd.
  - intros Hd. by destruct Hd.
  - apply memo_wf_empty. reflexivity.
  - apply memo_wf_empty. reflexivity.
  - reflexivity.
  - reflexivity.
  - reflexivity.
  - reflexivity.
  - reflexivity.
  - reflexivity.
  - exact sample_keyRefs_roundtrip1.
  - exact sample_aggRefs_roundtrip1.
  - reflexivity.
  - repeat constructor. apply count_decomposable.
  - vm_compute. discriminate.
  - vm_compute. discriminate.
  - vm_compute. reflexivity.
  - vm_compute. reflexivity.
Defined.


(** ** X18 *)

Lemma bytes_compare_zero x : ∀ y, bytes_compare x y = 0 → x = y.
Proof.
  induction x as [|a x IH]; intros [|b y] H; cbn in H; try done.
  destruct (Z.ltb_spec a b); [done|]. destruct (Z.ltb_spec b a); [done|].
  f_equal; [lia|by apply IH].
Qed.

Lemma value_compare_zero v w : value_compare v w = 0 → v = w.
Proof.
  unfold value_compare. destruct v as [tv bv], w as [tw bw].
  cbn [Value_Type Value_Bytes].
  destruct (Nat.ltb_spec tv tw); [done|]. destruct (Nat.ltb_spec tw tv); [done|].
  assert (tv = tw) as -> by lia. intros Hz. f_equal.
  destruct bv as [bv|], bw as [bw|]; cbn in Hz; try done.
  f_equal. by apply bytes_compare_zero.
Qed.

Lemma newValueCompareFn_zero o x y : newValueCompareFn o x y = 0 → x = y.
Proof.
  unfold newValueCompareFn. destruct o; intros H; [symmetry|]; by apply value_compare_zero.
Qed.

Lemma count_order_insensitive po : order_insensitive Z po count.
Proof.
  intros l l' Hl. by rewrite !count_fold, (Permutation_length Hl).
Qed.

(** The keys 1, 2, 1 with limit 1: every record but the first spills the
    table, and the merged stream holds two partial records of the key 1. *)
Lemma run_unsorted_spill_groups_witness :
  ∃ n bs,
    (∀ sels, ∃ o',
       sRun noFault (map PullBatch [recs [1; 2]; recs [1]] ++ [PullEOS])
         (replicate n SelSend ++ sels) unsorted_op
       = (o', Blocked)
       ∧ delivered (trace Z o') = bs)
    ∧ concat bs ≡ₚ [record [int 2; int 1]; record [int 1; int 2]].
Proof.
  destruct (run_unsorted_spill_groups Z IsQuiet IsError (int 0) zAppend zNext rbEncode
              rbType noFault batchLen range_id [recs [1; 2]; recs [1]] unsorted_op
              (newValueCompareFn false))
    as (n & bs & Hrun & Hbs).
  - exact sample_no_faults.
  - exact sample_Encode_total.
  - exact sample_map_range_perm.
  - exact sample_zcode_roundtrip.
  - unfold batchLen. lia.
  - reflexivity.
  - reflexivity.
  - reflexivity.
  - reflexivity.
  - apply memo_wf_empty. reflexivity.
  - vm_compute. reflexivity.
  - exact sample_keyRefs_roundtrip1.
  - reflexivity.
  - exact sample_aggRefs_roundtrip1.
  - reflexivity.
  - apply newValueCompareFn_sgn.
  - apply newValueCompareFn_transitive.
  - apply newValueCompareFn_zero.
  - intros x y. apply (sample_comparator_lex [field 0] false).
  - repeat constructor. apply count_decomposable.
  - repeat constructor. apply count_order_insensitive.
  - exists n, bs. split; [exact Hrun|]. etrans; [exact Hbs|]. vm_compute. reflexivity.
Defined.

End Sample.
